(** * Cache engines of the repository: LRU and LFU

  Shallow embedding of the three cache implementations of the repository
  and machine-checked proofs of the properties the specification states
  about them:

  - [LRUCache]  : [src/custom/LRUCache.java] (class [LRUCache<T>]);
  - [DesignLRU] : the [LRUCache<K, V>] of [src/lld/Design_LRU_Cache.md]
                  (the only one with a public [remove(key)]);
  - [LFU]       : the [LFUCache] of the LFU source file.

  Modelling conventions.
  - A [HashMap] is a stdpp [gmap].
  - A Java [int] that the code does arithmetic on (the LFU frequency
    counters) is a [Z] with two's complement wrap-around written out.
  - A method that can throw returns in the error monad [res].
  - Each cache is modelled at two levels.

    At the list level ([LFU], [LRUCache], [DesignLRU]) a sentinel-bounded
    doubly linked list is the sequence of the keys of its nodes, read from
    [head.next] to [tail.prev]: the first element is the most recently
    used node, the last one is [tail.prev].  A node is identified by its
    key; its fields live in the hash map that owns it, so an assignment to
    a field of a node is a write to that map.  The properties of the
    specification are stated at this level.

    At the heap level ([Dll], [LFUHeap], [LRUCacheHeap], [DesignLRUHeap])
    a node is an object with an address, [prev], [next] and the other
    fields are maps from addresses, the hash maps hold addresses, and each
    method performs the field reads and writes of the source in their
    order, a read or a write through [null] throwing.

    The theorems [lh_run_new_sim], [dh_run_new_sim] and [fh_run_new_sim]
    relate the two: every run from the constructor has the same outcome
    at both levels, and the heap it reaches holds the lists, keys, values
    and counters of the list-level state.

  The development also covers the other sequential programs of the LFU
  source file, with further properties of all of them in [Further]:

  - [SlidingWindowLogStrategy], [TokenBucketStrategy] and
    [UserRateLimiter], the two rate limiters and their context class; a
    call of [allow()] takes the reading of the clock as an argument, and
    a [double] is a binary64 number of the kernel;
  - [MergeSortDemo] and [QuickSortDemo], on arrays as lists of [int]
    values, with the [int] arithmetic of the indices written out.

  - A loop or a recursive method whose number of rounds is not bounded by
    the shape of its argument takes a budget ([fuel]); its outcome is
    [Return], [Throw] or [OutOfFuel], and the theorems give the budget
    under which the call returns or throws. *)

From Stdlib Require Import ZArith Lia Floats.
From stdpp Require Import gmap list sorting strings.

Local Open Scope Z_scope.
Set Warnings "-clear-no-such-hyp".

(** ** Java run-time conventions shared by the three caches *)

Module Java.

(** The only exception the cache code can raise: dereferencing [null]. *)
Inductive exn : Set := NullPointerException.

Inductive res (A : Type) : Type :=
| Ok (a : A)
| Err (e : exn).
Global Arguments Ok {A} a.
Global Arguments Err {A} e.

Definition bind {A B : Type} (m : res A) (k : A → res B) : res B :=
  match m with
  | Ok a => k a
  | Err e => Err e
  end.

(** Dereferencing the result of a lookup that may be [null]. *)
Definition deref {A : Type} (o : option A) : res A :=
  match o with
  | Some a => Ok a
  | None => Err NullPointerException
  end.

Definition MAX_VALUE : Z := 2147483647.
Definition MIN_VALUE : Z := -2147483648.

(** 32-bit two's complement reduction: the value of an [int] expression. *)
Definition wrap_int (z : Z) : Z := (z + 2147483648) mod 4294967296 - 2147483648.

(** [x++] on an [int]. *)
Definition incr (z : Z) : Z := wrap_int (z + 1).

(** [HashMap.size()] *)
Definition hsize `{Countable K} {A : Type} (m : gmap K A) : Z := Z.of_nat (size m).

(** Unlinking the node with key [k] from a linked list
    ([prev.next = next; next.prev = prev]). *)
Definition unlink `{EqDecision K} (k : K) (l : list K) : list K :=
  filter (λ x, x ≠ k) l.

End Java.

Notation "x ← m ; k" := (Java.bind m (λ x, k))
(at level 20, m at level 100, k at level 200, only parsing).

(** ** The LFU cache *)

Module LFU.
Import Java.

(** [class CacheNode]; [prev] and [next] are the position in the list. *)
Record CacheNode : Set := mkNode { key : Z; value : Z; frequency : Z }.

(** [new CacheNode(key, value)] *)
Definition newCacheNode (k v : Z) : CacheNode :=
  {| key := k; value := v; frequency := 1 |}.

(** [class LFUCache].  A [DoublyLinkedList] is the list of the keys of its
    nodes between the two dummy nodes, most recently used first. *)
Record LFUCache : Type := mkLFU {
  keyToNodeMap : gmap Z CacheNode;
  frequencyToListMap : gmap Z (list Z);
  capacity : Z;
  minFrequency : Z
}.

(** [LFUCache(int capacity)]: no validation of [capacity]. *)
Definition new (cap : Z) : res LFUCache :=
  Ok {| keyToNodeMap := ∅; frequencyToListMap := ∅;
        capacity := cap; minFrequency := 0 |}.

Definition set_nodes (m : gmap Z CacheNode) (c : LFUCache) : LFUCache :=
  {| keyToNodeMap := m; frequencyToListMap := frequencyToListMap c;
     capacity := capacity c; minFrequency := minFrequency c |}.

Definition set_lists (fm : gmap Z (list Z)) (c : LFUCache) : LFUCache :=
  {| keyToNodeMap := keyToNodeMap c; frequencyToListMap := fm;
     capacity := capacity c; minFrequency := minFrequency c |}.

Definition set_min (f : Z) (c : LFUCache) : LFUCache :=
  {| keyToNodeMap := keyToNodeMap c; frequencyToListMap := frequencyToListMap c;
     capacity := capacity c; minFrequency := f |}.

(** [removeNode(node)]: the node, named by its key, is unlinked from the
    list it is in; the code follows the node's own [prev]/[next] and does
    not look at its frequency. *)
Definition removeNode (node : Z) (c : LFUCache) : LFUCache :=
  set_lists (unlink node <$> frequencyToListMap c) c.

(** [addNodeToFrequencyList(node)]: creates the list of [node.frequency]
    when it is missing, then links the node right after the dummy head. *)
Definition addNodeToFrequencyList (node : CacheNode) (c : LFUCache) : LFUCache :=
  let freq := frequency node in
  let fm := frequencyToListMap c in
  let fm1 := match fm !! freq with
             | None => <[freq := []]> fm
             | Some _ => fm
             end in
  set_lists (<[freq := key node :: default [] (fm1 !! freq)]> fm1) c.

(** [list.head.next == list.tail] *)
Definition isEmptyList (l : list Z) : bool :=
  match l with
  | [] => true
  | _ => false
  end.

(** [updateFrequency(node)].  [node.frequency++] writes the node, which is
    the object [keyToNodeMap] holds for [node.key]. *)
Definition updateFrequency (node : CacheNode) (c : LFUCache) : res LFUCache :=
  let currentFreq := frequency node in
  let c1 := removeNode (key node) c in
  let node' := {| key := key node; value := value node;
                  frequency := incr (frequency node) |} in
  let c2 := set_nodes (<[key node := node']> (keyToNodeMap c1)) c1 in
  l ← deref (frequencyToListMap c2 !! currentFreq);
  let c3 :=
    if isEmptyList l then
      let c' := set_lists (delete currentFreq (frequencyToListMap c2)) c2 in
      if minFrequency c' =? currentFreq
      then set_min (incr (minFrequency c')) c'
      else c'
    else c2 in
  Ok (addNodeToFrequencyList node' c3).

(** [get(key)]: [-1] when the key is absent. *)
Definition get (k : Z) (c : LFUCache) : res (Z * LFUCache) :=
  match keyToNodeMap c !! k with
  | None => Ok (-1, c)
  | Some node =>
      c' ← updateFrequency node c;
      Ok (value node, c')
  end.

(** The eviction block of [put]: [tail.prev] of the list of
    [minFrequency] leaves the map and its list; the list is dropped when
    it becomes empty.  On an empty list [tail.prev] is the dummy head,
    whose [prev] is [null]: [removeNode] then raises. *)
Definition evict (c : LFUCache) : res LFUCache :=
  l ← deref (frequencyToListMap c !! minFrequency c);
  nodeToRemove ← deref (last l);
  let c1 := set_nodes (delete nodeToRemove (keyToNodeMap c)) c in
  let c2 := removeNode nodeToRemove c1 in
  l' ← deref (frequencyToListMap c2 !! minFrequency c2);
  Ok (if isEmptyList l'
      then set_lists (delete (minFrequency c2) (frequencyToListMap c2)) c2
      else c2).

(** [put(key, value)] *)
Definition put (k v : Z) (c : LFUCache) : res LFUCache :=
  if capacity c =? 0 then Ok c
  else
    match keyToNodeMap c !! k with
    | Some node =>
        let node' := {| key := key node; value := v; frequency := frequency node |} in
        let c1 := set_nodes (<[k := node']> (keyToNodeMap c)) c in
        updateFrequency node' c1
    | None =>
        c1 ← (if hsize (keyToNodeMap c) =? capacity c then evict c else Ok c);
        let newNode := newCacheNode k v in
        let c2 := set_min 1 c1 in
        let c3 := set_nodes (<[k := newNode]> (keyToNodeMap c2)) c2 in
        Ok (addNodeToFrequencyList newNode c3)
    end.

(** [size()] as the specification names it: the number of stored keys. *)
Definition size (c : LFUCache) : Z := hsize (keyToNodeMap c).

(** Calls a client can make, and runs of them. *)
Inductive op : Set :=
| Get (k : Z)
| Put (k v : Z).

Definition op_key (o : op) : Z :=
  match o with
  | Get k => k
  | Put k _ => k
  end.

Definition step (o : op) (c : LFUCache) : res LFUCache :=
  match o with
  | Get k => r ← get k c; Ok r.2
  | Put k v => put k v c
  end.

Fixpoint run (ops : list op) (c : LFUCache) : res LFUCache :=
  match ops with
  | [] => Ok c
  | o :: ops' => c' ← step o c; run ops' c'
  end.

(** A run from the constructor. *)
Definition run_new (cap : Z) (ops : list op) : res LFUCache :=
  c ← new cap; run ops c.

(** The state in which the single key [k] is stored, at frequency [f]. *)
Definition single (k v f cap : Z) : LFUCache :=
  {| keyToNodeMap := {[k := {| key := k; value := v; frequency := f |}]};
     frequencyToListMap := {[f := [k]]};
     capacity := cap; minFrequency := f |}.

(** *** Invariants of the LFU cache *)

(** [in_list c f k]: the list of frequency [f] exists and holds node [k]. *)
Definition in_list (c : LFUCache) (f k : Z) : Prop :=
  ∃ l, frequencyToListMap c !! f = Some l ∧ k ∈ l.

(** The time of the last call on key [k] in a history given most recent
    call first: calls are numbered from 1, and 0 means that no call named
    [k].  For a key that is stored at the end of the history, the last call
    that names it is a [put] of it or a [get] that found it, that is, the
    last time the entry was touched. *)
Fixpoint touch_rev (rh : list op) (k : Z) : nat :=
  match rh with
  | [] => 0%nat
  | o :: rh' => if decide (op_key o = k) then S (length rh') else touch_rev rh' k
  end.

Definition last_touch (h : list op) (k : Z) : nat := touch_rev (rev h) k.

(** [more_recent h a b]: [a] was touched after [b]. *)
Definition more_recent (h : list op) (a b : Z) : Prop :=
  (last_touch h b < last_touch h a)%nat.

(** Agreement of the map and the lists after the history [h]: both hold the
    same nodes, every node sits in the list of its frequency, no list is
    empty or repeats a node, and every list is ordered by recency. *)
Record inv_lists (h : list op) (c : LFUCache) : Prop := mkInvLists {
  inv_key : ∀ k n, keyToNodeMap c !! k = Some n → key n = k;
  inv_mem : ∀ f k,
    in_list c f k ↔ ∃ n, keyToNodeMap c !! k = Some n ∧ frequency n = f;
  inv_nonempty : ∀ f l, frequencyToListMap c !! f = Some l → l ≠ [];
  inv_nodup : ∀ f l, frequencyToListMap c !! f = Some l → NoDup l;
  inv_recent : ∀ f l,
    frequencyToListMap c !! f = Some l → StronglySorted (more_recent h) l
}.

(** Structural invariant between two calls: the above, [minFrequency] names
    an existing list as soon as a key is stored, and the capacity bound. *)
Record inv (h : list op) (c : LFUCache) : Prop := mkInv {
  inv_struct : inv_lists h c;
  inv_min : keyToNodeMap c ≠ ∅ → is_Some (frequencyToListMap c !! minFrequency c);
  inv_size : 0 ≤ capacity c → size c ≤ capacity c
}.

(** Counter invariant, valid as long as no frequency counter has wrapped:
    every frequency lies between 1 and the number of calls made, and
    [minFrequency] is a lower bound of the stored frequencies. *)
Record inv_freq (h : list op) (c : LFUCache) : Prop := mkInvFreq {
  freq_range : ∀ k n,
    keyToNodeMap c !! k = Some n → 1 ≤ frequency n ≤ Z.of_nat (length h);
  freq_min : ∀ k n, keyToNodeMap c !! k = Some n → minFrequency c ≤ frequency n
}.

(** [minFrequency] is the smallest frequency that has a non-empty list. *)
Definition min_is_smallest (c : LFUCache) : Prop :=
  (∃ l, frequencyToListMap c !! minFrequency c = Some l ∧ l ≠ []) ∧
  ∀ f l, frequencyToListMap c !! f = Some l → l ≠ [] → minFrequency c ≤ f.

End LFU.


(** ** The LRU cache of [src/custom/LRUCache.java] *)

Module LRUCache.
Import Java.

Section LRUCache.
(** [class LRUCache<T>]: keys and values have the same type [T]; a value
    may be [null], written [None]. *)
Context `{Countable T}.

(** [class NodeEntry<T>]; [prev] and [next] are the position in the list. *)
Record NodeEntry : Type := mkNodeEntry { key : T; value : option T }.

(** The fields [cache] and [capacity]; [chain] is the list between the
    dummy nodes [head] and [tail], most recently used first. *)
Record LRUCache : Type := mkLRU {
  cache : gmap T NodeEntry;
  chain : list T;
  capacity : Z
}.

(** [LRUCache(int capacity)]: no validation of [capacity]. *)
Definition new (cap : Z) : res LRUCache :=
  Ok {| cache := ∅; chain := []; capacity := cap |}.

(** [addNode(node)]: links the node right after [head]. *)
Definition addNode (node : NodeEntry) (c : LRUCache) : LRUCache :=
  {| cache := cache c; chain := key node :: chain c; capacity := capacity c |}.

(** [remove(node)]: unlinks the node, named by its key. *)
Definition remove (node : T) (c : LRUCache) : LRUCache :=
  {| cache := cache c; chain := unlink node (chain c); capacity := capacity c |}.

Definition set_cache (m : gmap T NodeEntry) (c : LRUCache) : LRUCache :=
  {| cache := m; chain := chain c; capacity := capacity c |}.

(** [put(key, value)].  When the map is over capacity, [tail.prev] is
    unlinked and its key leaves the map; on an empty list [tail.prev] is
    [head], whose [prev] is [null]. *)
Definition put (k : T) (v : option T) (c : LRUCache) : res LRUCache :=
  let c1 := match cache c !! k with
            | Some n => remove (key n) c
            | None => c
            end in
  let newNode := {| key := k; value := v |} in
  let c2 := set_cache (<[k := newNode]> (cache c1)) c1 in
  let c3 := addNode newNode c2 in
  if hsize (cache c3) >? capacity c3 then
    nodeToDelete ← deref (last (chain c3));
    let c4 := remove nodeToDelete c3 in
    Ok (set_cache (delete nodeToDelete (cache c4)) c4)
  else Ok c3.

(** [get(key)]: [null] when the key is absent. *)
Definition get (k : T) (c : LRUCache) : res (option T * LRUCache) :=
  match cache c !! k with
  | None => Ok (None, c)
  | Some node =>
      let c1 := remove (key node) c in
      let c2 := addNode node c1 in
      Ok (value node, c2)
  end.

Definition size (c : LRUCache) : Z := hsize (cache c).

(** The state [put] reaches just before its capacity check, when the map
    and the list agree: the node of [k] is the new one, at the head. *)
Definition inserted (k : T) (v : option T) (c : LRUCache) : LRUCache :=
  {| cache := <[k := {| key := k; value := v |}]> (cache c);
     chain := k :: unlink k (chain c);
     capacity := capacity c |}.

Inductive op : Type :=
| Get (k : T)
| Put (k : T) (v : option T).

Definition step (o : op) (c : LRUCache) : res LRUCache :=
  match o with
  | Get k => r ← get k c; Ok r.2
  | Put k v => put k v c
  end.

Fixpoint run (ops : list op) (c : LRUCache) : res LRUCache :=
  match ops with
  | [] => Ok c
  | o :: ops' => c' ← step o c; run ops' c'
  end.

Definition run_new (cap : Z) (ops : list op) : res LRUCache :=
  c ← new cap; run ops c.

(** The map and the list hold the same nodes, once each, and no more of
    them than the capacity allows. *)
Record inv (c : LRUCache) : Prop := mkInv {
  inv_key : ∀ k n, cache c !! k = Some n → key n = k;
  inv_mem : ∀ k, k ∈ chain c ↔ is_Some (cache c !! k);
  inv_nodup : NoDup (chain c);
  inv_size : size c ≤ Z.max 0 (capacity c)
}.

End LRUCache.
End LRUCache.

(** ** The LRU cache of [src/lld/Design_LRU_Cache.md] *)

Module DesignLRU.
Import Java.

Section DesignLRU.
(** [class LRUCache<K, V>]; a value may be [null], written [None]. *)
Context `{Countable K} {V : Type}.

(** [class Node<K, V>] *)
Record Node : Type := mkNode { key : K; value : option V }.

(** [class DoublyLinkedList<K, V>]: the keys of the nodes between the dummy
    head and the dummy tail. *)
Definition addFirst (node : K) (l : list K) : list K := node :: l.

Definition dll_remove (node : K) (l : list K) : list K := unlink node l.

Definition moveToFront (node : K) (l : list K) : list K :=
  addFirst node (dll_remove node l).

(** [removeLast()]: [null] on an empty list, else [tail.prev], unlinked. *)
Definition removeLast (l : list K) : option K * list K :=
  match last l with
  | None => (None, l)
  | Some lst => (Some lst, dll_remove lst l)
  end.

Record LRUCache : Type := mkLRU {
  capacity : Z;
  cache : gmap K Node;
  dll : list K
}.

(** [LRUCache(int capacity)]: no validation of [capacity]. *)
Definition new (cap : Z) : res LRUCache :=
  Ok {| capacity := cap; cache := ∅; dll := [] |}.

(** [get(key)] *)
Definition get (k : K) (c : LRUCache) : res (option V * LRUCache) :=
  match cache c !! k with
  | None => Ok (None, c)
  | Some node =>
      Ok (value node,
          {| capacity := capacity c; cache := cache c;
             dll := moveToFront (key node) (dll c) |})
  end.

(** [put(key, value)].  The eviction reads [lru.key] without a [null]
    check on the result of [removeLast()]. *)
Definition put (k : K) (v : option V) (c : LRUCache) : res LRUCache :=
  match cache c !! k with
  | Some existing =>
      let existing' := {| key := key existing; value := v |} in
      Ok {| capacity := capacity c;
            cache := <[k := existing']> (cache c);
            dll := moveToFront (key existing') (dll c) |}
  | None =>
      c1 ← (if hsize (cache c) >=? capacity c then
              let '(lru, l) := removeLast (dll c) in
              lruKey ← deref lru;
              Ok {| capacity := capacity c;
                    cache := delete lruKey (cache c);
                    dll := l |}
            else Ok c);
      let newNode := {| key := k; value := v |} in
      Ok {| capacity := capacity c1;
            cache := <[k := newNode]> (cache c1);
            dll := addFirst (key newNode) (dll c1) |}
  end.

(** [remove(key)]: [cache.remove(key)] returns the node or [null]. *)
Definition remove (k : K) (c : LRUCache) : res LRUCache :=
  let node := cache c !! k in
  let m := delete k (cache c) in
  match node with
  | Some n =>
      Ok {| capacity := capacity c; cache := m; dll := dll_remove (key n) (dll c) |}
  | None =>
      Ok {| capacity := capacity c; cache := m; dll := dll c |}
  end.

Definition size (c : LRUCache) : Z := hsize (cache c).

Inductive op : Type :=
| Get (k : K)
| Put (k : K) (v : option V)
| Remove (k : K).

Definition step (o : op) (c : LRUCache) : res LRUCache :=
  match o with
  | Get k => r ← get k c; Ok r.2
  | Put k v => put k v c
  | Remove k => remove k c
  end.

Fixpoint run (ops : list op) (c : LRUCache) : res LRUCache :=
  match ops with
  | [] => Ok c
  | o :: ops' => c' ← step o c; run ops' c'
  end.

Definition run_new (cap : Z) (ops : list op) : res LRUCache :=
  c ← new cap; run ops c.

Record inv (c : LRUCache) : Prop := mkInv {
  inv_key : ∀ k n, cache c !! k = Some n → key n = k;
  inv_mem : ∀ k, k ∈ dll c ↔ is_Some (cache c !! k);
  inv_nodup : NoDup (dll c);
  inv_size : size c ≤ Z.max 0 (capacity c)
}.

End DesignLRU.
End DesignLRU.

(** * The same code with its nodes in a heap *)

(** ** Doubly linked lists with dummy head and tail, as the code links them *)

Module Dll.
Import Java.

(** A node object is named by its address.  [prev] and [next] are the two
    link fields of the nodes, one map per field; a field that holds [null]
    has no entry. *)
Abbreviation addr := positive (only parsing).

Record links : Type := mkLinks {
  prev : gmap addr addr;
  next : gmap addr addr
}.

Definition set_prev (node : addr) (target : option addr) (h : links) : links :=
  {| prev := match target with
             | Some t => <[node := t]> (prev h)
             | None => delete node (prev h)
             end;
     next := next h |}.

Definition set_next (node : addr) (target : option addr) (h : links) : links :=
  {| prev := prev h;
     next := match target with
             | Some t => <[node := t]> (next h)
             | None => delete node (next h)
             end |}.

(** A field assignment [o.f = v] raises when [o] is [null]. *)
Definition assign_next (o : option addr) (target : option addr) (h : links) : res links :=
  node ← deref o; Ok (set_next node target h).

Definition assign_prev (o : option addr) (target : option addr) (h : links) : res links :=
  node ← deref o; Ok (set_prev node target h).

(** The constructor of a list: [head.next = tail; tail.prev = head]. *)
Definition init (head tail : addr) (h : links) : links :=
  set_prev tail (Some head) (set_next head (Some tail) h).

(** [remove(node)] of [LRUCache.java] and [removeNode(node)] of the LFU
    cache: [prev = node.prev; next = node.next; prev.next = next;
    next.prev = prev]. *)
Definition remove (node : addr) (h : links) : res links :=
  let prevNode := prev h !! node in
  let nextNode := next h !! node in
  h1 ← assign_next prevNode nextNode h;
  assign_prev nextNode prevNode h1.

(** [remove(node)] of the design document, which reads the two fields of
    [node] again for its second assignment: [node.prev.next = node.next;
    node.next.prev = node.prev]. *)
Definition remove_inline (node : addr) (h : links) : res links :=
  h1 ← assign_next (prev h !! node) (next h !! node) h;
  assign_prev (next h1 !! node) (prev h1 !! node) h1.

(** [addNode(node)] of [LRUCache.java]: [curr = head.next; node.next = curr;
    curr.prev = node; head.next = node; node.prev = head]. *)
Definition addNode (head node : addr) (h : links) : res links :=
  let curr := next h !! head in
  let h1 := set_next node curr h in
  h2 ← assign_prev curr (Some node) h1;
  let h3 := set_next head (Some node) h2 in
  Ok (set_prev node (Some head) h3).

(** The linking part of [addNodeToFrequencyList(node)] of the LFU cache:
    [nextNode = list.head.next; list.head.next = node; node.prev =
    list.head; node.next = nextNode; nextNode.prev = node]. *)
Definition addAfterHead (head node : addr) (h : links) : res links :=
  let nextNode := next h !! head in
  let h1 := set_next head (Some node) h in
  let h2 := set_prev node (Some head) h1 in
  let h3 := set_next node nextNode h2 in
  assign_prev nextNode (Some node) h3.

(** [addFirst(node)] of the design document: [node.next = head.next;
    node.prev = head; head.next.prev = node; head.next = node]. *)
Definition addFirst (head node : addr) (h : links) : res links :=
  let h1 := set_next node (next h !! head) h in
  let h2 := set_prev node (Some head) h1 in
  h3 ← assign_prev (next h2 !! head) (Some node) h2;
  Ok (set_next head (Some node) h3).

(** [tail.prev] *)
Definition tailPrev (tail : addr) (h : links) : option addr := prev h !! tail.

(** [head.next == tail] *)
Definition isEmpty (head tail : addr) (h : links) : bool :=
  bool_decide (next h !! head = Some tail).

(** [chain h a l b]: following [next] from [a] visits the nodes of [l] in
    order and then [b], and [prev] leads back. *)
Fixpoint chain (h : links) (a : addr) (l : list addr) (b : addr) : Prop :=
  match l with
  | [] => next h !! a = Some b ∧ prev h !! b = Some a
  | x :: l' => next h !! a = Some x ∧ prev h !! x = Some a ∧ chain h x l' b
  end.

(** The list with dummy nodes [head] and [tail] holds the nodes [l], from
    [head.next] to [tail.prev]. *)
Definition is_dll (h : links) (head : addr) (l : list addr) (tail : addr) : Prop :=
  NoDup (head :: l ++ [tail]) ∧ chain h head l tail.

(** The two link maps agree on the next field of the nodes of [xs] and on
    the prev field of the nodes of [ys]. *)
Definition same_links (h h' : links) (xs ys : list addr) : Prop :=
  (∀ x, x ∈ xs → next h' !! x = next h !! x) ∧
  (∀ y, y ∈ ys → prev h' !! y = prev h !! y).

(** Linking [x] into the list [l] leaves the links of the nodes outside the
    list and other than [x] as they were. *)
Definition add_frame (h : links) (hd tl x : addr) (l : list addr) (h' : links) : Prop :=
  ∀ xs ys, (∀ y, y ∈ xs ++ ys → y ∉ x :: hd :: l ++ [tl]) → same_links h h' xs ys.

End Dll.

(** ** [LRUCache.java] with its nodes in a heap *)

Module LRUCacheHeap.
Import Java.

Section LRUCacheHeap.
Context `{Countable T}.

(** The [NodeEntry] objects, one map per field, and the fields of the
    cache object.  The two dummy nodes have no entry in [hkey] and
    [hvalue]: their key and value, the raw [-1], are never read. *)
Record state : Type := mkState {
  hkey : gmap Dll.addr T;
  hvalue : gmap Dll.addr (option T);
  links : Dll.links;
  cache : gmap T Dll.addr;
  capacity : Z;
  head : Dll.addr;
  tail : Dll.addr;
  fresh : Dll.addr
}.

Definition set_links (h : Dll.links) (s : state) : state :=
  {| hkey := hkey s; hvalue := hvalue s; links := h; cache := cache s;
     capacity := capacity s; head := head s; tail := tail s; fresh := fresh s |}.

Definition set_cache (m : gmap T Dll.addr) (s : state) : state :=
  {| hkey := hkey s; hvalue := hvalue s; links := links s; cache := m;
     capacity := capacity s; head := head s; tail := tail s; fresh := fresh s |}.

(** [LRUCache(int capacity)]: the two dummy nodes are the first two objects
    allocated. *)
Definition new (cap : Z) : res state :=
  Ok {| hkey := ∅; hvalue := ∅;
        links := Dll.init 1%positive 2%positive (Dll.mkLinks ∅ ∅);
        cache := ∅; capacity := cap;
        head := 1%positive; tail := 2%positive; fresh := 3%positive |}.

(** [new NodeEntry<T>(key, value)]: a new object, its links [null]. *)
Definition newNodeEntry (k : T) (v : option T) (s : state) : Dll.addr * state :=
  let x := fresh s in
  (x, {| hkey := <[x := k]> (hkey s); hvalue := <[x := v]> (hvalue s);
         links := Dll.set_next x None (Dll.set_prev x None (links s));
         cache := cache s; capacity := capacity s;
         head := head s; tail := tail s; fresh := Pos.succ x |}).

(** [addNode(node)] and [remove(node)] *)
Definition addNode (node : Dll.addr) (s : state) : res state :=
  h ← Dll.addNode (head s) node (links s); Ok (set_links h s).

Definition remove (node : Dll.addr) (s : state) : res state :=
  h ← Dll.remove node (links s); Ok (set_links h s).

(** [put(key, value)] *)
Definition put (k : T) (v : option T) (s : state) : res state :=
  s1 ← match cache s !! k with
       | Some n => remove n s
       | None => Ok s
       end;
  let '(newNode, s2) := newNodeEntry k v s1 in
  let s3 := set_cache (<[k := newNode]> (cache s2)) s2 in
  s4 ← addNode newNode s3;
  if hsize (cache s4) >? capacity s4 then
    nodeToDelete ← deref (Dll.tailPrev (tail s4) (links s4));
    s5 ← remove nodeToDelete s4;
    nodeKey ← deref (hkey s5 !! nodeToDelete);
    Ok (set_cache (delete nodeKey (cache s5)) s5)
  else Ok s4.

(** [put] after its first statement. *)
Definition put_rest (k : T) (v : option T) (s : state) : res state :=
  let s2 := (newNodeEntry k v s).2 in
  let s3 := set_cache (<[k := fresh s]> (cache s2)) s2 in
  s4 ← addNode (fresh s) s3;
  if hsize (cache s4) >? capacity s4 then
    nodeToDelete ← deref (Dll.tailPrev (tail s4) (links s4));
    s5 ← remove nodeToDelete s4;
    nodeKey ← deref (hkey s5 !! nodeToDelete);
    Ok (set_cache (delete nodeKey (cache s5)) s5)
  else Ok s4.

(** [get(key)] *)
Definition get (k : T) (s : state) : res (option T * state) :=
  match cache s !! k with
  | None => Ok (None, s)
  | Some node =>
      s1 ← remove node s;
      s2 ← addNode node s1;
      v ← deref (hvalue s2 !! node);
      Ok (v, s2)
  end.

Definition step (o : LRUCache.op) (s : state) : res state :=
  match o with
  | LRUCache.Get k => r ← get k s; Ok r.2
  | LRUCache.Put k v => put k v s
  end.

Fixpoint run (ops : list LRUCache.op) (s : state) : res state :=
  match ops with
  | [] => Ok s
  | o :: ops' => s' ← step o s; run ops' s'
  end.

Definition run_new (cap : Z) (ops : list LRUCache.op) : res state :=
  s ← new cap; run ops s.

(** [key_at s x k]: the node at [x] has key [k]. *)
Definition key_at (s : state) (x : Dll.addr) (k : T) : Prop := hkey s !! x = Some k.

(** [rep s a]: the heap state [s] is the list-level state [a]: the nodes
    linked between the dummies are those of the map, in the order of [chain
    a], and each holds the key and value that [a] records. *)
Record rep_nodes (l : list Dll.addr) (s : state) (a : LRUCache.LRUCache) : Prop := mkRep {
  rep_dll : Dll.is_dll (links s) (head s) l (tail s);
  rep_chain : Forall2 (key_at s) l (LRUCache.chain a);
  rep_some : ∀ k x, cache s !! k = Some x →
    x ∈ l ∧ key_at s x k ∧
    ∃ v, hvalue s !! x = Some v ∧
         LRUCache.cache a !! k = Some {| LRUCache.key := k; LRUCache.value := v |};
  rep_none : ∀ k, cache s !! k = None → LRUCache.cache a !! k = None;
  rep_mapped : ∀ x, x ∈ l → ∃ k, key_at s x k ∧ cache s !! k = Some x;
  rep_alloc : ∀ x, x ∈ head s :: l ++ [tail s] → (x < fresh s)%positive;
  rep_capacity : LRUCache.capacity a = capacity s
}.

Definition rep (s : state) (a : LRUCache.LRUCache) : Prop := ∃ l, rep_nodes l s a.

End LRUCacheHeap.
End LRUCacheHeap.

(** ** The LRU cache of the design document with its nodes in a heap *)

Module DesignLRUHeap.
Import Java.

Section DesignLRUHeap.
Context `{Countable K} {V : Type}.

(** The [Node] objects, one map per field; the fields [head] and [tail] of
    the [DoublyLinkedList] object; the fields of the cache object.  The two
    dummy nodes have no entry in [hkey] and [hvalue]: the code reads
    neither field of them. *)
Record state : Type := mkState {
  hkey : gmap Dll.addr K;
  hvalue : gmap Dll.addr (option V);
  links : Dll.links;
  head : Dll.addr;
  tail : Dll.addr;
  capacity : Z;
  cache : gmap K Dll.addr;
  fresh : Dll.addr
}.

Definition set_links (h : Dll.links) (s : state) : state :=
  {| hkey := hkey s; hvalue := hvalue s; links := h; head := head s; tail := tail s;
     capacity := capacity s; cache := cache s; fresh := fresh s |}.

Definition set_cache (m : gmap K Dll.addr) (s : state) : state :=
  {| hkey := hkey s; hvalue := hvalue s; links := links s; head := head s; tail := tail s;
     capacity := capacity s; cache := m; fresh := fresh s |}.

(** [node.value = value] *)
Definition set_value (node : Dll.addr) (v : option V) (s : state) : state :=
  {| hkey := hkey s; hvalue := <[node := v]> (hvalue s); links := links s;
     head := head s; tail := tail s;
     capacity := capacity s; cache := cache s; fresh := fresh s |}.

(** [LRUCache(int capacity)]; [new DoublyLinkedList<>()] allocates the two
    dummy nodes. *)
Definition new (cap : Z) : res state :=
  Ok {| hkey := ∅; hvalue := ∅;
        links := Dll.init 1%positive 2%positive (Dll.mkLinks ∅ ∅);
        head := 1%positive; tail := 2%positive;
        capacity := cap; cache := ∅; fresh := 3%positive |}.

(** [new Node<>(key, value)]: a new object; [prev] and [next] start as
    [null]. *)
Definition newNode (k : K) (v : option V) (s : state) : Dll.addr * state :=
  let x := fresh s in
  (x, {| hkey := <[x := k]> (hkey s); hvalue := <[x := v]> (hvalue s);
         links := Dll.set_next x None (Dll.set_prev x None (links s));
         head := head s; tail := tail s;
         capacity := capacity s; cache := cache s; fresh := Pos.succ x |}).

(** The methods of [DoublyLinkedList] *)
Definition addFirst (node : Dll.addr) (s : state) : res state :=
  h ← Dll.addFirst (head s) node (links s); Ok (set_links h s).

Definition dll_remove (node : Dll.addr) (s : state) : res state :=
  h ← Dll.remove_inline node (links s); Ok (set_links h s).

Definition moveToFront (node : Dll.addr) (s : state) : res state :=
  s1 ← dll_remove node s; addFirst node s1.

(** [removeLast()]: [null] when [tail.prev == head]. *)
Definition removeLast (s : state) : res (option Dll.addr * state) :=
  if bool_decide (Dll.tailPrev (tail s) (links s) = Some (head s)) then Ok (None, s)
  else
    lst ← deref (Dll.tailPrev (tail s) (links s));
    s1 ← dll_remove lst s;
    Ok (Some lst, s1).

(** [get(key)] *)
Definition get (k : K) (s : state) : res (option V * state) :=
  match cache s !! k with
  | None => Ok (None, s)
  | Some node =>
      s1 ← moveToFront node s;
      v ← deref (hvalue s1 !! node);
      Ok (v, s1)
  end.

(** [put(key, value)] *)
Definition put (k : K) (v : option V) (s : state) : res state :=
  match cache s !! k with
  | Some existing => moveToFront existing (set_value existing v s)
  | None =>
      s1 ← (if hsize (cache s) >=? capacity s then
              r ← removeLast s;
              lru ← deref r.1;
              lruKey ← deref (hkey r.2 !! lru);
              Ok (set_cache (delete lruKey (cache r.2)) r.2)
            else Ok s);
      let '(node, s2) := newNode k v s1 in
      s3 ← addFirst node s2;
      Ok (set_cache (<[k := node]> (cache s3)) s3)
  end.

(** [remove(key)] *)
Definition remove (k : K) (s : state) : res state :=
  let node := cache s !! k in
  let s1 := set_cache (delete k (cache s)) s in
  match node with
  | Some n => dll_remove n s1
  | None => Ok s1
  end.

Definition step (o : DesignLRU.op) (s : state) : res state :=
  match o with
  | DesignLRU.Get k => r ← get k s; Ok r.2
  | DesignLRU.Put k v => put k v s
  | DesignLRU.Remove k => remove k s
  end.

Fixpoint run (ops : list DesignLRU.op) (s : state) : res state :=
  match ops with
  | [] => Ok s
  | o :: ops' => s' ← step o s; run ops' s'
  end.

Definition run_new (cap : Z) (ops : list DesignLRU.op) : res state :=
  s ← new cap; run ops s.

Definition key_at (s : state) (x : Dll.addr) (k : K) : Prop := hkey s !! x = Some k.

(** [rep s a]: the heap state [s] is the list-level state [a]. *)
Record rep_nodes (l : list Dll.addr) (s : state) (a : DesignLRU.LRUCache) : Prop := mkRep {
  rep_dll : Dll.is_dll (links s) (head s) l (tail s);
  rep_chain : Forall2 (key_at s) l (DesignLRU.dll a);
  rep_some : ∀ k x, cache s !! k = Some x →
    x ∈ l ∧ key_at s x k ∧
    ∃ v, hvalue s !! x = Some v ∧
         DesignLRU.cache a !! k = Some {| DesignLRU.key := k; DesignLRU.value := v |};
  rep_none : ∀ k, cache s !! k = None → DesignLRU.cache a !! k = None;
  rep_mapped : ∀ x, x ∈ l → ∃ k, key_at s x k ∧ cache s !! k = Some x;
  rep_alloc : ∀ x, x ∈ head s :: l ++ [tail s] → (x < fresh s)%positive;
  rep_capacity : DesignLRU.capacity a = capacity s
}.

Definition rep (s : state) (a : DesignLRU.LRUCache) : Prop := ∃ l, rep_nodes l s a.

(** Two outcomes agree: both calls return, in related states, or both
    throw the same exception. *)
Definition rep_res (r : res state) (r' : res DesignLRU.LRUCache) : Prop :=
  match r, r' with
  | Ok s, Ok a => rep s a
  | Err e, Err e' => e = e'
  | _, _ => False
  end.

End DesignLRUHeap.
End DesignLRUHeap.

(** ** The LFU cache with its nodes in a heap *)

Module LFUHeap.
Import Java.

(** The [CacheNode] objects, one map per field; a [DoublyLinkedList] object
    is the pair of its fields [head] and [tail], which no code assigns
    after the constructor; then the fields of the cache object. *)
Record state : Type := mkState {
  hkey : gmap Dll.addr Z;
  hvalue : gmap Dll.addr Z;
  hfrequency : gmap Dll.addr Z;
  links : Dll.links;
  keyToNodeMap : gmap Z Dll.addr;
  frequencyToListMap : gmap Z (Dll.addr * Dll.addr);
  capacity : Z;
  minFrequency : Z;
  fresh : Dll.addr
}.

Definition set_links (h : Dll.links) (s : state) : state :=
  {| hkey := hkey s; hvalue := hvalue s; hfrequency := hfrequency s; links := h;
     keyToNodeMap := keyToNodeMap s; frequencyToListMap := frequencyToListMap s;
     capacity := capacity s; minFrequency := minFrequency s; fresh := fresh s |}.

Definition set_nodes (m : gmap Z Dll.addr) (s : state) : state :=
  {| hkey := hkey s; hvalue := hvalue s; hfrequency := hfrequency s; links := links s;
     keyToNodeMap := m; frequencyToListMap := frequencyToListMap s;
     capacity := capacity s; minFrequency := minFrequency s; fresh := fresh s |}.

Definition set_lists (fm : gmap Z (Dll.addr * Dll.addr)) (s : state) : state :=
  {| hkey := hkey s; hvalue := hvalue s; hfrequency := hfrequency s; links := links s;
     keyToNodeMap := keyToNodeMap s; frequencyToListMap := fm;
     capacity := capacity s; minFrequency := minFrequency s; fresh := fresh s |}.

Definition set_min (f : Z) (s : state) : state :=
  {| hkey := hkey s; hvalue := hvalue s; hfrequency := hfrequency s; links := links s;
     keyToNodeMap := keyToNodeMap s; frequencyToListMap := frequencyToListMap s;
     capacity := capacity s; minFrequency := f; fresh := fresh s |}.

(** [node.value = value] and [node.frequency = f] *)
Definition set_value (node : Dll.addr) (v : Z) (s : state) : state :=
  {| hkey := hkey s; hvalue := <[node := v]> (hvalue s); hfrequency := hfrequency s;
     links := links s;
     keyToNodeMap := keyToNodeMap s; frequencyToListMap := frequencyToListMap s;
     capacity := capacity s; minFrequency := minFrequency s; fresh := fresh s |}.

Definition set_frequency (node : Dll.addr) (f : Z) (s : state) : state :=
  {| hkey := hkey s; hvalue := hvalue s; hfrequency := <[node := f]> (hfrequency s);
     links := links s;
     keyToNodeMap := keyToNodeMap s; frequencyToListMap := frequencyToListMap s;
     capacity := capacity s; minFrequency := minFrequency s; fresh := fresh s |}.

(** [LFUCache(int capacity)] *)
Definition new (cap : Z) : res state :=
  Ok {| hkey := ∅; hvalue := ∅; hfrequency := ∅; links := Dll.mkLinks ∅ ∅;
        keyToNodeMap := ∅; frequencyToListMap := ∅;
        capacity := cap; minFrequency := 0; fresh := 1%positive |}.

(** [new CacheNode(key, value)]: a new object with frequency 1; [prev] and
    [next] start as [null]. *)
Definition newCacheNode (k v : Z) (s : state) : Dll.addr * state :=
  let x := fresh s in
  (x, {| hkey := <[x := k]> (hkey s); hvalue := <[x := v]> (hvalue s);
         hfrequency := <[x := 1]> (hfrequency s);
         links := Dll.set_next x None (Dll.set_prev x None (links s));
         keyToNodeMap := keyToNodeMap s; frequencyToListMap := frequencyToListMap s;
         capacity := capacity s; minFrequency := minFrequency s;
         fresh := Pos.succ x |}).

(** [new DoublyLinkedList()] *)
Definition newDoublyLinkedList (s : state) : (Dll.addr * Dll.addr) * state :=
  let '(hd, s1) := newCacheNode (-1) (-1) s in
  let '(tl, s2) := newCacheNode (-1) (-1) s1 in
  ((hd, tl), set_links (Dll.init hd tl (links s2)) s2).

(** [removeNode(node)] *)
Definition removeNode (node : Dll.addr) (s : state) : res state :=
  h ← Dll.remove node (links s); Ok (set_links h s).

(** [addNodeToFrequencyList(node)] *)
Definition addNodeToFrequencyList (node : Dll.addr) (s : state) : res state :=
  freq ← deref (hfrequency s !! node);
  let s1 := match frequencyToListMap s !! freq with
            | None =>
                let '(lst, s') := newDoublyLinkedList s in
                set_lists (<[freq := lst]> (frequencyToListMap s')) s'
            | Some _ => s
            end in
  lst ← deref (frequencyToListMap s1 !! freq);
  h ← Dll.addAfterHead lst.1 node (links s1);
  Ok (set_links h s1).

(** [updateFrequency(node)] *)
Definition updateFrequency (node : Dll.addr) (s : state) : res state :=
  currentFreq ← deref (hfrequency s !! node);
  s1 ← removeNode node s;
  f ← deref (hfrequency s1 !! node);
  let s2 := set_frequency node (incr f) s1 in
  lst ← deref (frequencyToListMap s2 !! currentFreq);
  let s3 :=
    if Dll.isEmpty lst.1 lst.2 (links s2) then
      let s' := set_lists (delete currentFreq (frequencyToListMap s2)) s2 in
      if minFrequency s' =? currentFreq
      then set_min (incr (minFrequency s')) s'
      else s'
    else s2 in
  addNodeToFrequencyList node s3.

(** [get(key)] *)
Definition get (k : Z) (s : state) : res (Z * state) :=
  match keyToNodeMap s !! k with
  | None => Ok (-1, s)
  | Some node =>
      s' ← updateFrequency node s;
      v ← deref (hvalue s' !! node);
      Ok (v, s')
  end.

(** The eviction block of [put] *)
Definition evict (s : state) : res state :=
  lst ← deref (frequencyToListMap s !! minFrequency s);
  nodeToRemove ← deref (Dll.tailPrev lst.2 (links s));
  k ← deref (hkey s !! nodeToRemove);
  let s1 := set_nodes (delete k (keyToNodeMap s)) s in
  s2 ← removeNode nodeToRemove s1;
  lst' ← deref (frequencyToListMap s2 !! minFrequency s2);
  Ok (if Dll.isEmpty lst'.1 lst'.2 (links s2)
      then set_lists (delete (minFrequency s2) (frequencyToListMap s2)) s2
      else s2).

(** [put(key, value)] *)
Definition put (k v : Z) (s : state) : res state :=
  if capacity s =? 0 then Ok s
  else
    match keyToNodeMap s !! k with
    | Some node => updateFrequency node (set_value node v s)
    | None =>
        s1 ← (if hsize (keyToNodeMap s) =? capacity s then evict s else Ok s);
        let '(newNode, s2) := newCacheNode k v s1 in
        let s3 := set_min 1 s2 in
        let s4 := set_nodes (<[k := newNode]> (keyToNodeMap s3)) s3 in
        addNodeToFrequencyList newNode s4
    end.

Definition step (o : LFU.op) (s : state) : res state :=
  match o with
  | LFU.Get k => r ← get k s; Ok r.2
  | LFU.Put k v => put k v s
  end.

Fixpoint run (ops : list LFU.op) (s : state) : res state :=
  match ops with
  | [] => Ok s
  | o :: ops' => s' ← step o s; run ops' s'
  end.

Definition run_new (cap : Z) (ops : list LFU.op) : res state :=
  s ← new cap; run ops s.

Definition key_at (s : state) (x : Dll.addr) (k : Z) : Prop := hkey s !! x = Some k.

(** A list with its nodes: the dummy head, the nodes between the dummies,
    the dummy tail. *)
Definition nodes : Type := Dll.addr * list Dll.addr * Dll.addr.

Definition cells (g : nodes) : list Dll.addr := g.1.1 :: g.1.2 ++ [g.2].

Definition ends (g : nodes) : Dll.addr * Dll.addr := (g.1.1, g.2).

Definition without (x : Dll.addr) (g : nodes) : nodes := (g.1.1, unlink x g.1.2, g.2).

Definition with_first (x : Dll.addr) (g : nodes) : nodes := (g.1.1, x :: g.1.2, g.2).

(** [rep_nodes G s a]: the heap state [s] is the list-level state [a], the
    list of each frequency having the nodes that [G] gives.  The lists
    share no node, each holds the nodes of the keys that [a] lists, in the
    same order, and the node of a stored key has the fields that [a]
    records. *)
Record rep_nodes (G : gmap Z nodes) (s : state) (a : LFU.LFUCache) : Prop := mkRep {
  rep_fm : frequencyToListMap s = ends <$> G;
  rep_list : ∀ f g, G !! f = Some g →
    ∃ ks, LFU.frequencyToListMap a !! f = Some ks ∧
          Dll.is_dll (links s) g.1.1 g.1.2 g.2 ∧ Forall2 (key_at s) g.1.2 ks;
  rep_nolist : ∀ f, G !! f = None → LFU.frequencyToListMap a !! f = None;
  rep_disjoint : ∀ f f' g g' x,
    G !! f = Some g → G !! f' = Some g' → x ∈ cells g → x ∈ cells g' → f = f';
  rep_some : ∀ k x, keyToNodeMap s !! k = Some x →
    (x < fresh s)%positive ∧ key_at s x k ∧
    ∃ v fr, hvalue s !! x = Some v ∧ hfrequency s !! x = Some fr ∧
            LFU.keyToNodeMap a !! k =
              Some {| LFU.key := k; LFU.value := v; LFU.frequency := fr |};
  rep_none : ∀ k, keyToNodeMap s !! k = None → LFU.keyToNodeMap a !! k = None;
  rep_mapped : ∀ f g x, G !! f = Some g → x ∈ g.1.2 →
    ∃ k, key_at s x k ∧ keyToNodeMap s !! k = Some x;
  rep_alloc : ∀ f g x, G !! f = Some g → x ∈ cells g → (x < fresh s)%positive;
  rep_capacity : LFU.capacity a = capacity s;
  rep_min : LFU.minFrequency a = minFrequency s
}.

Definition rep (s : state) (a : LFU.LFUCache) : Prop := ∃ G, rep_nodes G s a.

End LFUHeap.

(** ** Runs of calls seen as histories of keys *)

Module Recency.

Section Recency.
Context `{EqDecision K}.

(** The time of the last call on key [k] in a history of keys given most
    recent first: calls are numbered from 1, and 0 means that no call named
    [k]. *)
Fixpoint touch_rev (rh : list K) (k : K) : nat :=
  match rh with
  | [] => 0%nat
  | x :: rh' => if decide (x = k) then S (length rh') else touch_rev rh' k
  end.

Definition last_touch (h : list K) (k : K) : nat := touch_rev (rev h) k.

(** [more_recent h a b]: [a] was named by a call after the last call that
    named [b]. *)
Definition more_recent (h : list K) (a b : K) : Prop :=
  (last_touch h b < last_touch h a)%nat.

End Recency.

(** The key a call names, for the two LRU caches. *)
Definition lru_key `{Countable T} (o : LRUCache.op (T:=T)) : T :=
  match o with
  | LRUCache.Get k => k
  | LRUCache.Put k _ => k
  end.

Definition dlru_key `{Countable K} {V : Type} (o : DesignLRU.op (K:=K) (V:=V)) : K :=
  match o with
  | DesignLRU.Get k => k
  | DesignLRU.Put k _ => k
  | DesignLRU.Remove k => k
  end.

(** Whether a call is a [put]. *)
Definition dlru_is_put `{Countable K} {V : Type} (o : DesignLRU.op (K:=K) (V:=V)) : bool :=
  match o with
  | DesignLRU.Put _ _ => true
  | _ => false
  end.

(** The value of the last [put(k, v)] of a run, for the three caches. *)
Definition lru_last_put `{Countable T} (ops : list (LRUCache.op (T:=T))) (k : T)
  : option (option T) :=
  foldl (λ acc o,
           match o with
           | LRUCache.Put k' v => if decide (k' = k) then Some v else acc
           | LRUCache.Get _ => acc
           end) None ops.

Definition dlru_last_put `{Countable K} {V : Type}
  (ops : list (DesignLRU.op (K:=K) (V:=V))) (k : K) : option (option V) :=
  foldl (λ acc o,
           match o with
           | DesignLRU.Put k' v => if decide (k' = k) then Some v else acc
           | _ => acc
           end) None ops.

Definition last_put (ops : list LFU.op) (k : Z) : option Z :=
  foldl (λ acc o,
           match o with
           | LFU.Put k' v => if decide (k' = k) then Some v else acc
           | LFU.Get _ => acc
           end) None ops.

End Recency.

(** * The other programs of the LFU source file *)

(** ** Outcomes of a call *)

Module Jvm.

(** The exceptions the code below can raise, and the outcome of a call: it
    returns, it throws, or it needs more nested calls or loop rounds than
    the budget it was given. *)
Inductive exn : Type :=
| IllegalArgumentException (msg : string)
| ArrayIndexOutOfBoundsException
| IndexOutOfBoundsException.

Inductive outcome (A : Type) : Type :=
| Return (a : A)
| Throw (e : exn)
| OutOfFuel.
Global Arguments Return {A} a.
Global Arguments Throw {A} e.
Global Arguments OutOfFuel {A}.

Definition bind {A B : Type} (m : outcome A) (k : A → outcome B) : outcome B :=
  match m with
  | Return a => k a
  | Throw e => Throw e
  | OutOfFuel => OutOfFuel
  end.

(** [long]: 64 bits, two's complement. *)
Definition Long_MAX_VALUE : Z := 9223372036854775807.
Definition Long_MIN_VALUE : Z := -9223372036854775808.

Definition wrap_long (z : Z) : Z :=
  (z + 9223372036854775808) mod 18446744073709551616 - 9223372036854775808.

End Jvm.

Notation "x ⟵ m ; k" := (Jvm.bind m (λ x, k))
  (at level 20, m at level 100, k at level 200, only parsing).

(** ** The rate limiter: strategies *)

(** [interface RateLimiterStrategy].  [allow()] reads the clock; the reading
    is an argument of the call here. *)
Module RateLimiterStrategy.

Class t (S : Type) : Type := {
  allow : Z → S → bool * S
}.

End RateLimiterStrategy.

Module SlidingWindowLogStrategy.
Import Jvm.

(** [TimeUnit.SECONDS.toMillis(d)]: [d * 1000], saturated to the range of
    [long]. *)
Definition toMillis (d : Z) : Z :=
  if d >? Long_MAX_VALUE `quot` 1000 then Long_MAX_VALUE
  else if d <? - (Long_MAX_VALUE `quot` 1000) then Long_MIN_VALUE
  else d * 1000.

(** The fields; the queue of timestamps has its head first. *)
Record t : Type := mk {
  windowSizeMillis : Z;
  maxRequests : Z;
  requestTimestamps : list Z
}.

Definition set_log (q : list Z) (s : t) : t :=
  {| windowSizeMillis := windowSizeMillis s; maxRequests := maxRequests s;
     requestTimestamps := q |}.

(** [SlidingWindowLogStrategy(int windowSizeSeconds, int maxRequests)] *)
Definition new (windowSizeSeconds maxRequests : Z) : outcome t :=
  if windowSizeSeconds <=? 0
  then Throw (IllegalArgumentException "Window size must be positive.")
  else if maxRequests <=? 0
  then Throw (IllegalArgumentException "Max requests must be positive.")
  else Return {| windowSizeMillis := toMillis windowSizeSeconds;
                 maxRequests := maxRequests;
                 requestTimestamps := [] |}.

(** [while (!requestTimestamps.isEmpty() && requestTimestamps.peek() <=
    threshold) requestTimestamps.poll();] *)
Fixpoint expire (threshold : Z) (q : list Z) : list Z :=
  match q with
  | [] => []
  | ts :: q' => if ts <=? threshold then expire threshold q' else q
  end.

(** [allow()] at clock reading [currentTimeMillis]; the subtraction is a
    [long] subtraction. *)
Definition allow (currentTimeMillis : Z) (s : t) : bool * t :=
  let q := expire (wrap_long (currentTimeMillis - windowSizeMillis s))
             (requestTimestamps s) in
  if Z.of_nat (length q) <? maxRequests s
  then (true, set_log (q ++ [currentTimeMillis]) s)
  else (false, set_log q s).

(** [getCurrentRequestCount()] *)
Definition getCurrentRequestCount (currentTimeMillis : Z) (s : t) : Z * t :=
  let q := expire (wrap_long (currentTimeMillis - windowSizeMillis s))
             (requestTimestamps s) in
  (Z.of_nat (length q), set_log q s).

(** The calls of a client, each with the clock reading it gets, and what
    they answer. *)
Inductive call : Set :=
| Allow
| GetCurrentRequestCount.

Inductive answer : Set :=
| Allowed (b : bool)
| Count (n : Z).

Definition step (c : Z * call) (s : t) : answer * t :=
  match c.2 with
  | Allow => let r := allow c.1 s in (Allowed r.1, r.2)
  | GetCurrentRequestCount => let r := getCurrentRequestCount c.1 s in (Count r.1, r.2)
  end.

Fixpoint run (cs : list (Z * call)) (s : t) : list answer * t :=
  match cs with
  | [] => ([], s)
  | c :: cs' =>
      let r := step c s in
      let rs := run cs' r.2 in
      (r.1 :: rs.1, rs.2)
  end.

(** The clock readings of the requests that a run allowed, in order. *)
Fixpoint granted (cs : list (Z * call)) (s : t) : list Z :=
  match cs with
  | [] => []
  | c :: cs' =>
      let r := step c s in
      match r.1 with
      | Allowed true => c.1 :: granted cs' r.2
      | _ => granted cs' r.2
      end
  end.

(** The requests of [l] in the window that ends at [now]: later than
    [now - w] and not later than [now]. *)
Definition in_window (w now : Z) (l : list Z) : list Z :=
  filter (λ x, now - w < x ∧ x ≤ now) l.

(** The clock readings of a run are in time order and after the epoch. *)
Definition clock_ok (cs : list (Z * call)) : Prop :=
  Sorted Z.le cs.*1 ∧ Forall (λ x, 0 ≤ x ≤ Long_MAX_VALUE) cs.*1.

End SlidingWindowLogStrategy.

#[global] Instance SlidingWindowLog_strategy :
  RateLimiterStrategy.t SlidingWindowLogStrategy.t :=
  {| RateLimiterStrategy.allow := SlidingWindowLogStrategy.allow |}.

(** ** The rate limiter: the context class *)

Module UserRateLimiter.
Import Jvm.

(** A [String] is the sequence of its UTF-16 code units. *)
Abbreviation jstring := (list N) (only parsing).

(** [String.trim()]: without the leading and the trailing code units up to
    U+0020. *)
Definition is_space (c : N) : bool := (c <=? 32)%N.

Fixpoint skip_spaces (s : jstring) : jstring :=
  match s with
  | [] => []
  | c :: s' => if is_space c then skip_spaces s' else s
  end.

Definition trim (s : jstring) : jstring := rev (skip_spaces (rev (skip_spaces s))).

(** [String.isEmpty()] *)
Definition isEmpty (s : jstring) : bool :=
  match s with
  | [] => true
  | _ => false
  end.

Section UserRateLimiter.
Context {S : Type} `{RateLimiterStrategy.t S}.

Record t : Type := mk { userId : jstring; strategy : S }.

(** [UserRateLimiter(String userId, RateLimiterStrategy strategy)]; either
    argument may be [null], written [None]. *)
Definition new (userId : option jstring) (strategy : option S) : outcome t :=
  match userId with
  | None => Throw (IllegalArgumentException "User ID cannot be null or empty.")
  | Some u =>
      if isEmpty (trim u)
      then Throw (IllegalArgumentException "User ID cannot be null or empty.")
      else match strategy with
           | None => Throw (IllegalArgumentException "Strategy cannot be null.")
           | Some st => Return {| userId := u; strategy := st |}
           end
  end.

(** [isAllowed()] at a clock reading *)
Definition isAllowed (now : Z) (u : t) : bool * t :=
  let r := RateLimiterStrategy.allow now (strategy u) in
  (r.1, {| userId := userId u; strategy := r.2 |}).

(** [getUserId()] and [getStrategy()] *)
Definition getUserId (u : t) : jstring := userId u.

Definition getStrategy (u : t) : S := strategy u.

End UserRateLimiter.
End UserRateLimiter.

(** ** The rate limiter: the token bucket *)

Module TokenBucketStrategy.
Import Jvm.

(** A [double] is a binary64 floating-point number of the kernel, whose
    operations round to nearest, ties to even, as those of Java do.

    The conversion of a [long] to [double]. *)
Definition long_to_double (z : Z) : float :=
  if 0 <=? z then PrimFloat.of_uint63 (Uint63.of_Z z)
  else if z =? Long_MIN_VALUE then (- 9223372036854775808)%float
  else (- PrimFloat.of_uint63 (Uint63.of_Z (- z)))%float.

(** [Math.min(a, b)] on [double]: [NaN] when an argument is, and [-0.0]
    below [0.0]. *)
Definition Math_min (a b : float) : float :=
  if PrimFloat.is_nan a then a
  else if (a =? 0)%float && (b =? 0)%float && PrimFloat.get_sign b then b
  else if (a <=? b)%float then a else b.

Record t : Type := mk {
  capacity : Z;
  refillRate : float;
  currentTokens : float;
  lastRefillTimestamp : Z
}.

(** [TokenBucketStrategy(long capacity, double tokensPerSecond)], with the
    reading of [System.nanoTime()] that the constructor takes. *)
Definition new (capacity : Z) (tokensPerSecond : float) (nanoTime : Z) : outcome t :=
  if capacity <=? 0
  then Throw (IllegalArgumentException "Capacity must be positive.")
  else if (tokensPerSecond <=? 0)%float
  then Throw (IllegalArgumentException "Refill rate must be positive.")
  else Return {| capacity := capacity;
                 refillRate := tokensPerSecond;
                 currentTokens := long_to_double capacity;
                 lastRefillTimestamp := nanoTime |}.

(** [refill()] at the reading [now] of [System.nanoTime()]; the
    subtraction is a [long] subtraction. *)
Definition refill (now : Z) (s : t) : t :=
  let elapsedNanos := wrap_long (now - lastRefillTimestamp s) in
  if elapsedNanos >? 0 then
    let tokensToAdd := (long_to_double elapsedNanos / 1000000000 * refillRate s)%float in
    {| capacity := capacity s;
       refillRate := refillRate s;
       currentTokens :=
         Math_min (long_to_double (capacity s)) (currentTokens s + tokensToAdd)%float;
       lastRefillTimestamp := now |}
  else s.

(** [allow()] *)
Definition allow (now : Z) (s : t) : bool * t :=
  let s1 := refill now s in
  if (1 <=? currentTokens s1)%float then
    (true, {| capacity := capacity s1;
              refillRate := refillRate s1;
              currentTokens := (currentTokens s1 - 1)%float;
              lastRefillTimestamp := lastRefillTimestamp s1 |})
  else (false, s1).



End TokenBucketStrategy.

#[global] Instance TokenBucket_strategy :
  RateLimiterStrategy.t TokenBucketStrategy.t :=
  {| RateLimiterStrategy.allow := TokenBucketStrategy.allow |}.

(** ** Arrays and array lists *)

Module Arrays.
Import Jvm.

(** [arr[i]] on an [int[]]: the array is the list of its elements. *)
Definition aget (arr : list Z) (i : Z) : outcome Z :=
  if (0 <=? i) && (i <? Z.of_nat (length arr)) then
    match arr !! Z.to_nat i with
    | Some v => Return v
    | None => Throw ArrayIndexOutOfBoundsException
    end
  else Throw ArrayIndexOutOfBoundsException.

(** [arr[i] = v] *)
Definition aset (arr : list Z) (i v : Z) : outcome (list Z) :=
  if (0 <=? i) && (i <? Z.of_nat (length arr))
  then Return (<[Z.to_nat i := v]> arr)
  else Throw ArrayIndexOutOfBoundsException.

(** [temp.get(i)] on an [ArrayList<Integer>] *)
Definition lget (temp : list Z) (i : Z) : outcome Z :=
  if (0 <=? i) && (i <? Z.of_nat (length temp)) then
    match temp !! Z.to_nat i with
    | Some v => Return v
    | None => Throw IndexOutOfBoundsException
    end
  else Throw IndexOutOfBoundsException.

(** The part of an array from index [start] to index [stop], both
    included. *)
Definition slice (arr : list Z) (start stop : Z) : list Z :=
  take (Z.to_nat (stop - start + 1)) (drop (Z.to_nat start) arr).

End Arrays.

(** ** [MergeSortDemo] *)

Module MergeSortDemo.
Import Java Jvm Arrays.

(** The loops of [merge].  A loop that still runs when its budget of rounds
    is used up gives [OutOfFuel]; [merge] gives each loop a budget that no
    array exhausts.

    [while(i <= mid && j <= end)]: the smaller of [arr[i]] and [arr[j]] goes
    to [temp], [arr[j]] when they are equal. *)
Fixpoint merge_both (fuel : nat) (arr : list Z) (mid end_ i j : Z) (temp : list Z)
  : outcome (Z * Z * list Z) :=
  match fuel with
  | O => OutOfFuel
  | S fuel' =>
      if (i <=? mid) && (j <=? end_) then
        a ⟵ aget arr i;
        b ⟵ aget arr j;
        if a <? b
        then merge_both fuel' arr mid end_ (wrap_int (i + 1)) j (temp ++ [a])
        else merge_both fuel' arr mid end_ i (wrap_int (j + 1)) (temp ++ [b])
      else Return (i, j, temp)
  end.

(** [while(i <= mid) temp.add(arr[i++])], and the same loop on [j] and
    [end]. *)
Fixpoint merge_rest (fuel : nat) (arr : list Z) (stop i : Z) (temp : list Z)
  : outcome (Z * list Z) :=
  match fuel with
  | O => OutOfFuel
  | S fuel' =>
      if i <=? stop then
        a ⟵ aget arr i;
        merge_rest fuel' arr stop (wrap_int (i + 1)) (temp ++ [a])
      else Return (i, temp)
  end.

(** [for(i=start;i<=end;i++) arr[i] = temp.get(i-start)] *)
Fixpoint merge_copy (fuel : nat) (arr : list Z) (start end_ i : Z) (temp : list Z)
  : outcome (list Z) :=
  match fuel with
  | O => OutOfFuel
  | S fuel' =>
      if i <=? end_ then
        v ⟵ lget temp (wrap_int (i - start));
        arr' ⟵ aset arr i v;
        merge_copy fuel' arr' start end_ (wrap_int (i + 1)) temp
      else Return arr
  end.

(** [merge(arr, start, mid, end)] *)
Definition merge (arr : list Z) (start mid end_ : Z) : outcome (list Z) :=
  let fuel := S (2 * length arr) in
  r1 ⟵ merge_both fuel arr mid end_ start (wrap_int (mid + 1)) [];
  r2 ⟵ merge_rest fuel arr mid r1.1.1 r1.2;
  r3 ⟵ merge_rest fuel arr end_ r1.1.2 r2.2;
  merge_copy fuel arr start end_ start r3.2.

(** [mergesort(arr, start, end)]; [fuel] bounds the depth of the nested
    calls.  [(start + end)/2] is an [int] addition and a division that
    rounds towards zero. *)
Fixpoint mergesort (fuel : nat) (arr : list Z) (start end_ : Z) : outcome (list Z) :=
  match fuel with
  | O => OutOfFuel
  | S fuel' =>
      if start >=? end_ then Return arr
      else
        let mid := wrap_int (start + end_) `quot` 2 in
        a1 ⟵ mergesort fuel' arr start mid;
        a2 ⟵ mergesort fuel' a1 (wrap_int (mid + 1)) end_;
        merge a2 start mid end_
  end.

(** The call of [main]: [mergesort(arr, 0, arr.length - 1)]. *)
Definition sort (fuel : nat) (arr : list Z) : outcome (list Z) :=
  mergesort fuel arr 0 (wrap_int (Z.of_nat (length arr) - 1)).

End MergeSortDemo.

(** ** [QuickSortDemo] *)

Module QuickSortDemo.
Import Java Jvm Arrays.

(** [swap(arr, i, j)]: [temp = arr[i]; arr[i] = arr[j]; arr[j] = temp]. *)
Definition swap (arr : list Z) (i j : Z) : outcome (list Z) :=
  temp ⟵ aget arr i;
  aj ⟵ aget arr j;
  arr1 ⟵ aset arr i aj;
  aset arr1 j temp.

(** The loops of [findParition].  A loop that still runs when its budget
    of rounds is used up gives [OutOfFuel]; [findParition] gives each loop
    a budget that no array exhausts.

    [while(pivot >= arr[i] && i <= end - 1) i++]: the element is read
    before the index is compared. *)
Fixpoint scan_up (fuel : nat) (arr : list Z) (pivot end_ i : Z) : outcome Z :=
  match fuel with
  | O => OutOfFuel
  | S fuel' =>
      a ⟵ aget arr i;
      if (pivot >=? a) && (i <=? wrap_int (end_ - 1))
      then scan_up fuel' arr pivot end_ (wrap_int (i + 1))
      else Return i
  end.

(** [while (pivot < arr[j] && j >= start + 1) j--] *)
Fixpoint scan_down (fuel : nat) (arr : list Z) (pivot start j : Z) : outcome Z :=
  match fuel with
  | O => OutOfFuel
  | S fuel' =>
      a ⟵ aget arr j;
      if (pivot <? a) && (j >=? wrap_int (start + 1))
      then scan_down fuel' arr pivot start (wrap_int (j - 1))
      else Return j
  end.

(** [while(i < j) { the two loops; if(i < j) swap(arr, i, j); }] *)
Fixpoint partition_loop (fuel : nat) (arr : list Z) (pivot start end_ i j : Z)
  : outcome (list Z * Z) :=
  match fuel with
  | O => OutOfFuel
  | S fuel' =>
      if i <? j then
        i' ⟵ scan_up (S (length arr)) arr pivot end_ i;
        j' ⟵ scan_down (S (length arr)) arr pivot start j;
        arr' ⟵ (if i' <? j' then swap arr i' j' else Return arr);
        partition_loop fuel' arr' pivot start end_ i' j'
      else Return (arr, j)
  end.

(** [findParition(arr, start, end)]: the array it leaves and the index it
    returns. *)
Definition findParition (arr : list Z) (start end_ : Z) : outcome (list Z * Z) :=
  pivot ⟵ aget arr start;
  r ⟵ partition_loop (S (length arr)) arr pivot start end_ start end_;
  arr' ⟵ swap r.1 start r.2;
  Return (arr', r.2).

(** [quickSort(arr, start, end)]; [fuel] bounds the depth of the nested
    calls. *)
Fixpoint quickSort (fuel : nat) (arr : list Z) (start end_ : Z) : outcome (list Z) :=
  match fuel with
  | O => OutOfFuel
  | S fuel' =>
      if start <? end_ then
        r ⟵ findParition arr start end_;
        a1 ⟵ quickSort fuel' r.1 start (wrap_int (r.2 - 1));
        quickSort fuel' a1 (wrap_int (r.2 + 1)) end_
      else Return arr
  end.

End QuickSortDemo.

(** * Proofs *)

Module JavaFacts.
Import Java.

Lemma incr_neq z : incr z ≠ z.
Proof.
  unfold incr, wrap_int. intros E.
  pose proof (Z.div_mod (z + 1 + 2147483648) 4294967296). lia.
Qed.

Lemma incr_small z : MIN_VALUE ≤ z < MAX_VALUE → incr z = z + 1.
Proof.
  unfold incr, wrap_int, MIN_VALUE, MAX_VALUE. intros Hz.
  rewrite Z.mod_small; lia.
Qed.

Section unlink.
Context `{EqDecision K}.
Implicit Types (k x : K) (l : list K).

Lemma elem_of_unlink k x l : x ∈ unlink k l ↔ x ≠ k ∧ x ∈ l.
Proof. unfold unlink. by rewrite list_elem_of_filter. Qed.

Lemma unlink_notin k l : k ∉ l → unlink k l = l.
Proof.
  unfold unlink. induction l as [|x l IH]; intros Hk; [done|].
  apply not_elem_of_cons in Hk as [Hne Hk].
  rewrite filter_cons_True by congruence. by rewrite IH.
Qed.

Lemma NoDup_unlink k l : NoDup l → NoDup (unlink k l).
Proof. apply NoDup_filter. Qed.

Lemma StronglySorted_unlink (R : relation K) k l :
  StronglySorted R l → StronglySorted R (unlink k l).
Proof.
  unfold unlink. induction 1 as [|x l Hl IH Hx]; [constructor|].
  rewrite filter_cons. case_decide; [|done].
  constructor; [done|].
  apply Forall_forall. intros y Hy. apply list_elem_of_filter in Hy as [_ Hy].
  rewrite Forall_forall in Hx. auto.
Qed.

Lemma lookup_unlink_map `{Countable F} (fm : gmap F (list K)) k f :
  (unlink k <$> fm) !! f = unlink k <$> (fm !! f).
Proof. apply lookup_fmap. Qed.

End unlink.

Section hsize.
Context `{Countable K} {A : Type}.
Implicit Types (m : gmap K A) (k : K).

Lemma hsize_empty : hsize (∅ : gmap K A) = 0.
Proof. unfold hsize. by rewrite map_size_empty. Qed.

Lemma size_insert_present m k n n' :
  m !! k = Some n → hsize (<[k := n']> m) = hsize m.
Proof. intros Hk. unfold hsize. f_equal. apply map_size_insert_Some; eauto. Qed.

Lemma size_insert_absent m k n :
  m !! k = None → hsize (<[k := n]> m) = hsize m + 1.
Proof. intros Hk. unfold hsize. rewrite map_size_insert_None by done. lia. Qed.

Lemma size_delete_present m k n :
  m !! k = Some n → hsize (delete k m) = hsize m - 1.
Proof.
  intros Hk. unfold hsize. rewrite map_size_delete, Hk.
  assert (size m ≠ 0%nat) as Hne.
  { apply map_size_non_empty_iff. intros ->. by rewrite lookup_empty in Hk. }
  lia.
Qed.

End hsize.

End JavaFacts.

Module LFUFacts.
Import Java JavaFacts LFU.

(** The node after [node.frequency++]. *)
Local Abbreviation bumped node :=
  {| key := key node; value := value node; frequency := incr (frequency node) |}.

Lemma addNode_eq node c :
  addNodeToFrequencyList node c =
    set_lists (<[frequency node :=
                   key node :: default [] (frequencyToListMap c !! frequency node)]>
                 (frequencyToListMap c)) c.
Proof.
  unfold addNodeToFrequencyList.
  destruct (frequencyToListMap c !! frequency node) as [l|] eqn:E.
  - by rewrite E.
  - by rewrite lookup_insert_eq, insert_insert_eq.
Qed.

Lemma updateFrequency_char node c l :
  frequencyToListMap c !! frequency node = Some l →
  (∀ g lg, g ≠ frequency node → frequencyToListMap c !! g = Some lg → key node ∉ lg) →
  ∃ c', updateFrequency node c = Ok c' ∧
    keyToNodeMap c' = <[key node := bumped node]> (keyToNodeMap c) ∧
    capacity c' = capacity c ∧
    minFrequency c' =
      (if decide (unlink (key node) l = [] ∧ minFrequency c = frequency node)
       then incr (frequency node) else minFrequency c) ∧
    ∀ g, frequencyToListMap c' !! g =
      if decide (g = incr (frequency node))
      then Some (key node :: default [] (frequencyToListMap c !! g))
      else if decide (g = frequency node)
           then (if decide (unlink (key node) l = []) then None
                 else Some (unlink (key node) l))
           else frequencyToListMap c !! g.
Proof.
  intros Hl Hother. unfold updateFrequency.
  cbn [removeNode set_lists set_nodes frequencyToListMap].
  rewrite lookup_unlink_map, Hl.
  cbn [fmap option_fmap option_map deref bind].
  rewrite addNode_eq.
  destruct c as [m fm cap mn]. destruct node as [k v f]. simpl in *.
  pose proof (incr_neq f) as Hne.
  assert (Hrest : ∀ g, g ≠ f → (unlink k <$> fm) !! g = fm !! g).
  { intros g Hg. rewrite lookup_unlink_map.
    destruct (fm !! g) as [lg|] eqn:E; [|done].
    simpl. f_equal. apply unlink_notin. by eapply Hother. }
  eexists. split; [reflexivity|].
  destruct (unlink k l) as [|x l'] eqn:El; simpl.
  - destruct (Z.eqb_spec mn f) as [Emin|Emin]; simpl.
    + split_and!; [done|done|by rewrite decide_True, Emin|].
      intros g. rewrite lookup_insert. case_decide as Hg1.
      { subst g. rewrite decide_True by done.
        rewrite lookup_delete_ne by done. by rewrite Hrest. }
      rewrite decide_False by done.
      case_decide as Hg2; [subst g; by rewrite lookup_delete_eq|].
      rewrite lookup_delete_ne by done. by apply Hrest.
    + split_and!; [done|done|rewrite decide_False; [done|by intros [_ ?]]|].
      intros g. rewrite lookup_insert. case_decide as Hg1.
      { subst g. rewrite decide_True by done.
        rewrite lookup_delete_ne by done. by rewrite Hrest. }
      rewrite decide_False by done.
      case_decide as Hg2; [subst g; by rewrite lookup_delete_eq|].
      rewrite lookup_delete_ne by done. by apply Hrest.
  - split_and!; [done|done|done|].
    intros g. rewrite lookup_insert. case_decide as Hg1.
    { subst g. rewrite decide_True by done. by rewrite Hrest. }
    rewrite decide_False by done.
    case_decide as Hg2; [subst g; by rewrite lookup_unlink_map, Hl; simpl; rewrite El|].
    by apply Hrest.
Qed.

(** What the eviction block does on a state whose [minFrequency] list holds
    [victim] at its tail. *)
Lemma evict_char c l victim :
  frequencyToListMap c !! minFrequency c = Some l →
  last l = Some victim →
  (∀ g lg, g ≠ minFrequency c → frequencyToListMap c !! g = Some lg → victim ∉ lg) →
  ∃ c', evict c = Ok c' ∧
    keyToNodeMap c' = delete victim (keyToNodeMap c) ∧
    capacity c' = capacity c ∧
    minFrequency c' = minFrequency c ∧
    ∀ g, frequencyToListMap c' !! g =
      if decide (g = minFrequency c)
      then (if decide (unlink victim l = []) then None else Some (unlink victim l))
      else frequencyToListMap c !! g.
Proof.
  intros Hl Hlast Hother. unfold evict. rewrite Hl. simpl. rewrite Hlast. simpl.
  rewrite lookup_unlink_map, Hl. simpl.
  assert (Hrest : ∀ g, g ≠ minFrequency c →
            (unlink victim <$> frequencyToListMap c) !! g = frequencyToListMap c !! g).
  { intros g Hg. rewrite lookup_unlink_map.
    destruct (frequencyToListMap c !! g) as [lg|] eqn:E; [|done].
    simpl. f_equal. apply unlink_notin. by eapply Hother. }
  eexists. split; [reflexivity|].
  destruct (unlink victim l) as [|x l'] eqn:El; simpl.
  - split_and!; [done..|]. intros g. case_decide as Hg.
    + subst g. by rewrite lookup_delete_eq.
    + rewrite lookup_delete_ne by done. by apply Hrest.
  - split_and!; [done..|]. intros g. case_decide as Hg.
    + subst g. by rewrite lookup_unlink_map, Hl; simpl; rewrite El.
    + by apply Hrest.
Qed.


(** *** Recency *)

Lemma last_touch_snoc h o k :
  last_touch (h ++ [o]) k =
    if decide (op_key o = k) then S (length h) else last_touch h k.
Proof.
  unfold last_touch. rewrite rev_app_distr. simpl. by rewrite length_rev.
Qed.

Lemma touch_rev_le rh k : (touch_rev rh k ≤ length rh)%nat.
Proof.
  induction rh as [|o rh IH]; simpl; [lia|]. case_decide; lia.
Qed.

Lemma last_touch_le h k : (last_touch h k ≤ length h)%nat.
Proof.
  unfold last_touch. rewrite <- (length_rev h). apply touch_rev_le.
Qed.

(** The key of the last call is more recent than every other key. *)
Lemma more_recent_snoc_new h o x :
  x ≠ op_key o → more_recent (h ++ [o]) (op_key o) x.
Proof.
  intros Hx. unfold more_recent. rewrite !last_touch_snoc.
  pose proof (last_touch_le h x).
  repeat case_decide; try congruence; lia.
Qed.

(** A call does not change the order of the keys it does not name. *)
Lemma more_recent_snoc_old h o a b :
  a ≠ op_key o → b ≠ op_key o → more_recent h a b → more_recent (h ++ [o]) a b.
Proof.
  intros Ha Hb. unfold more_recent. rewrite !last_touch_snoc.
  repeat case_decide; try congruence; lia.
Qed.

Lemma sorted_snoc_notin h o l :
  op_key o ∉ l →
  StronglySorted (more_recent h) l →
  StronglySorted (more_recent (h ++ [o])) l.
Proof.
  intros Hk Hs. induction Hs as [|x l Hs IH Hx]; [constructor|].
  apply not_elem_of_cons in Hk as [Hne Hk]. constructor; [by apply IH|].
  rewrite Forall_forall in Hx. apply Forall_forall. intros y Hy.
  apply more_recent_snoc_old; [done| |by apply Hx].
  intros ->. done.
Qed.

Lemma sorted_snoc_cons h o l :
  op_key o ∉ l →
  StronglySorted (more_recent h) l →
  StronglySorted (more_recent (h ++ [o])) (op_key o :: l).
Proof.
  intros Hk Hs. constructor; [by apply sorted_snoc_notin|].
  apply Forall_forall. intros y Hy. apply more_recent_snoc_new.
  intros ->. done.
Qed.

(** The tail of a list ordered by recency is its least recently touched
    node. *)
Lemma sorted_last_oldest h l x y :
  StronglySorted (more_recent h) l → last l = Some x → y ∈ l →
  (last_touch h x ≤ last_touch h y)%nat.
Proof.
  intros Hs Hlast Hy. apply last_Some in Hlast as [l' ->].
  apply elem_of_app in Hy as [Hy|Hy].
  - assert (more_recent h y x) as Hr.
    { eapply StronglySorted_app_1_elem_of; [exact Hs|done|]. by apply list_elem_of_singleton. }
    unfold more_recent in Hr. lia.
  - apply list_elem_of_singleton in Hy as ->. lia.
Qed.

(** *** Preservation of the list invariant *)

(** A stored node is in the list of its own frequency and in no other. *)
Lemma inv_own_list h c k n :
  inv_lists h c → keyToNodeMap c !! k = Some n →
  ∃ l, frequencyToListMap c !! frequency n = Some l ∧ k ∈ l.
Proof. intros Hi Hk. apply (inv_mem _ _ Hi). eauto. Qed.

Lemma inv_other_list h c k n g lg :
  inv_lists h c → keyToNodeMap c !! k = Some n →
  g ≠ frequency n → frequencyToListMap c !! g = Some lg → k ∉ lg.
Proof.
  intros Hi Hk Hg Hlg Hin.
  destruct (proj1 (inv_mem _ _ Hi g k)) as (n' & Hn' & Hf); [by exists lg|].
  congruence.
Qed.

Lemma inv_absent_list h c k g lg :
  inv_lists h c → keyToNodeMap c !! k = None →
  frequencyToListMap c !! g = Some lg → k ∉ lg.
Proof.
  intros Hi Hk Hlg Hin.
  destruct (proj1 (inv_mem _ _ Hi g k)) as (n' & Hn' & Hf); [by exists lg|].
  congruence.
Qed.

(** Taking a stored node out of the map and out of its list. *)
Lemma inv_lists_remove h c c' k n l :
  inv_lists h c →
  keyToNodeMap c !! k = Some n →
  frequencyToListMap c !! frequency n = Some l →
  keyToNodeMap c' = delete k (keyToNodeMap c) →
  (∀ g, frequencyToListMap c' !! g =
     if decide (g = frequency n)
     then (if decide (unlink k l = []) then None else Some (unlink k l))
     else frequencyToListMap c !! g) →
  inv_lists h c'.
Proof.
  intros Hi Hk Hl Hm Hfm.
  assert (Hfm1 : frequencyToListMap c' !! frequency n =
                 if decide (unlink k l = []) then None else Some (unlink k l)).
  { by rewrite Hfm, decide_True. }
  assert (Hfm2 : ∀ g, g ≠ frequency n →
                 frequencyToListMap c' !! g = frequencyToListMap c !! g).
  { intros g Hg. by rewrite Hfm, decide_False. }
  clear Hfm. split.
  - intros x nx. rewrite Hm, lookup_delete_Some. intros [_ Hx].
    by apply (inv_key _ _ Hi).
  - intros g x. unfold in_list. rewrite Hm.
    setoid_rewrite lookup_delete_Some. split.
    + intros (lg & Hlg & Hx). destruct (decide (g = frequency n)) as [->|Hg].
      * rewrite Hfm1 in Hlg. destruct (decide (unlink k l = [])); [done|].
        injection Hlg as <-. apply elem_of_unlink in Hx as [Hne Hx].
        destruct (proj1 (inv_mem _ _ Hi (frequency n) x)) as (nx & Hnx & Hf);
          [by exists l|]. eauto.
      * rewrite Hfm2 in Hlg by done.
        destruct (proj1 (inv_mem _ _ Hi g x)) as (nx & Hnx & Hf); [by exists lg|].
        exists nx. split_and!; [|done..]. intros ->. congruence.
    + intros (nx & [Hne Hnx] & Hf).
      destruct (proj2 (inv_mem _ _ Hi g x)) as (lg & Hlg & Hx); [eauto|].
      destruct (decide (g = frequency n)) as [->|Hg].
      * assert (lg = l) as -> by congruence.
        assert (x ∈ unlink k l) as Hin by (apply elem_of_unlink; auto).
        rewrite Hfm1. rewrite decide_False; [eauto|]. intros E. rewrite E in Hin.
        by apply elem_of_nil in Hin.
      * rewrite Hfm2 by done. eauto.
  - intros g lg. destruct (decide (g = frequency n)) as [->|Hg].
    + rewrite Hfm1. destruct (decide (unlink k l = [])); [done|]. by intros [= <-].
    + rewrite Hfm2 by done. apply (inv_nonempty _ _ Hi).
  - intros g lg. destruct (decide (g = frequency n)) as [->|Hg].
    + rewrite Hfm1. destruct (decide (unlink k l = [])); [done|]. intros [= <-].
      apply NoDup_unlink. by apply (inv_nodup _ _ Hi _ _ Hl).
    + rewrite Hfm2 by done. apply (inv_nodup _ _ Hi).
  - intros g lg. destruct (decide (g = frequency n)) as [->|Hg].
    + rewrite Hfm1. destruct (decide (unlink k l = [])); [done|]. intros [= <-].
      apply StronglySorted_unlink. by apply (inv_recent _ _ Hi _ _ Hl).
    + rewrite Hfm2 by done. apply (inv_recent _ _ Hi).
Qed.

(** Linking a node that is not stored at the head of the list of its
    frequency, in the call [o] on its key. *)
Lemma inv_lists_add h o c c' n :
  inv_lists h c →
  keyToNodeMap c !! key n = None →
  op_key o = key n →
  keyToNodeMap c' = <[key n := n]> (keyToNodeMap c) →
  (∀ g, frequencyToListMap c' !! g =
     if decide (g = frequency n)
     then Some (key n :: default [] (frequencyToListMap c !! g))
     else frequencyToListMap c !! g) →
  inv_lists (h ++ [o]) c'.
Proof.
  intros Hi Hk Ho Hm Hfm.
  assert (Hdef : key n ∉ default [] (frequencyToListMap c !! frequency n)).
  { destruct (frequencyToListMap c !! frequency n) as [l|] eqn:E; simpl.
    - by eapply inv_absent_list.
    - apply not_elem_of_nil. }
  split.
  - intros x nx. rewrite Hm, lookup_insert_Some.
    intros [[<- <-]|[_ Hx]]; [done|]. by apply (inv_key _ _ Hi).
  - intros g x. unfold in_list. rewrite Hm, Hfm.
    setoid_rewrite lookup_insert_Some. split.
    + intros (lg & Hlg & Hx). case_decide as Hg.
      * subst g. injection Hlg as <-. apply elem_of_cons in Hx as [->|Hx]; [eauto|].
        destruct (frequencyToListMap c !! frequency n) as [l|] eqn:E; simpl in Hx;
          [|by apply elem_of_nil in Hx].
        destruct (proj1 (inv_mem _ _ Hi (frequency n) x)) as (nx & Hnx & Hf);
          [by exists l|].
        exists nx. split; [|done]. right. split; [|done]. intros <-. congruence.
      * destruct (proj1 (inv_mem _ _ Hi g x)) as (nx & Hnx & Hf); [by exists lg|].
        exists nx. split; [|done]. right. split; [|done]. intros <-. congruence.
    + intros (nx & [[<- <-]|[Hne Hnx]] & Hf).
      * subst g. rewrite decide_True by done. eexists. split; [done|].
        apply elem_of_cons. by left.
      * destruct (proj2 (inv_mem _ _ Hi g x)) as (lg & Hlg & Hx); [eauto|].
        case_decide as Hg; [|eauto]. subst g. eexists. split; [done|].
        rewrite Hlg. simpl. apply elem_of_cons. by right.
  - intros g lg. rewrite Hfm. case_decide as Hg.
    + by intros [= <-].
    + apply (inv_nonempty _ _ Hi).
  - intros g lg. rewrite Hfm. case_decide as Hg.
    + subst g. intros [= <-]. apply NoDup_cons. split; [done|].
      destruct (frequencyToListMap c !! frequency n) as [l|] eqn:E; simpl.
      * by apply (inv_nodup _ _ Hi _ _ E).
      * apply NoDup_nil_2.
    + apply (inv_nodup _ _ Hi).
  - intros g lg. rewrite Hfm. case_decide as Hg.
    + subst g. intros [= <-]. rewrite <- Ho in *. apply sorted_snoc_cons; [done|].
      destruct (frequencyToListMap c !! frequency n) as [l|] eqn:E; simpl.
      * by apply (inv_recent _ _ Hi _ _ E).
      * constructor.
    + intros Hlg. apply sorted_snoc_notin.
      * rewrite Ho. by eapply inv_absent_list.
      * by apply (inv_recent _ _ Hi _ _ Hlg).
Qed.

(** A call on a key that is not stored and that changes nothing. *)
Lemma inv_lists_miss h o c :
  inv_lists h c → keyToNodeMap c !! op_key o = None → inv_lists (h ++ [o]) c.
Proof.
  intros Hi Hk. split; try apply Hi.
  intros g lg Hlg. apply sorted_snoc_notin.
  - by eapply inv_absent_list.
  - by apply (inv_recent _ _ Hi _ _ Hlg).
Qed.

(** *** The three building blocks of [get] and [put] *)

(** [updateFrequency] on a stored node, in the call [o] on its key. *)
Lemma updateFrequency_inv h o c node :
  inv h c →
  keyToNodeMap c !! key node = Some node →
  op_key o = key node →
  ∃ c', updateFrequency node c = Ok c' ∧
    inv (h ++ [o]) c' ∧
    capacity c' = capacity c ∧
    keyToNodeMap c' = <[key node := bumped node]> (keyToNodeMap c) ∧
    (Z.of_nat (length h) < MAX_VALUE → inv_freq h c → inv_freq (h ++ [o]) c').
Proof.
  intros [Hi Hmin Hsize] Hk Ho.
  destruct (inv_own_list _ _ _ _ Hi Hk) as (l & Hl & Hin).
  destruct (updateFrequency_char node c l Hl) as (c' & Hu & Hm & Hcap & Hmin' & Hfm).
  { intros g lg Hg Hlg. by eapply inv_other_list. }
  pose proof (incr_neq (frequency node)) as Hne.
  exists c'. split; [done|].
  set (fmid := if decide (unlink (key node) l = [])
               then delete (frequency node) (frequencyToListMap c)
               else <[frequency node := unlink (key node) l]> (frequencyToListMap c)).
  set (cmid := {| keyToNodeMap := delete (key node) (keyToNodeMap c);
                  frequencyToListMap := fmid;
                  capacity := capacity c; minFrequency := minFrequency c |}).
  assert (Hfmid : ∀ g, fmid !! g =
            if decide (g = frequency node)
            then (if decide (unlink (key node) l = []) then None
                  else Some (unlink (key node) l))
            else frequencyToListMap c !! g).
  { intros g. unfold fmid. destruct (decide (unlink (key node) l = [])).
    - rewrite lookup_delete. destruct (decide (frequency node = g)) as [<-|?].
      + by rewrite decide_True.
      + by rewrite decide_False.
    - rewrite lookup_insert. destruct (decide (frequency node = g)) as [<-|?].
      + by rewrite decide_True.
      + by rewrite decide_False. }
  assert (Himid : inv_lists h cmid).
  { eapply (inv_lists_remove h c cmid (key node) node l); eauto. }
  assert (Hi' : inv_lists (h ++ [o]) c').
  { apply (inv_lists_add h o cmid c' (bumped node)); simpl; try done.
    - apply lookup_delete_eq.
    - by rewrite insert_delete_eq.
    - intros g. rewrite Hfm, Hfmid. destruct (decide (g = incr (frequency node))); [|done].
      subst g. by rewrite decide_False. }
  split_and!; try done.
  - split; [done| |].
    + intros _. rewrite Hmin', !Hfm.
      destruct (decide (unlink (key node) l = [] ∧ minFrequency c = frequency node))
        as [[He Hmf]|Hnot].
      * by rewrite decide_True.
      * destruct (decide (minFrequency c = incr (frequency node))); [done|].
        destruct (decide (minFrequency c = frequency node)) as [Hmf|Hmf].
        -- destruct (decide (unlink (key node) l = [])); [tauto|done].
        -- apply Hmin. intros E. by rewrite E, lookup_empty in Hk.
    + rewrite Hcap. unfold size. rewrite Hm. erewrite size_insert_present by done.
      exact Hsize.
  - intros Hlen [Hrange Hlow]. split.
    + intros x nx. rewrite Hm, lookup_insert_Some, length_app. simpl.
      intros [[_ <-]|[_ Hx]]; simpl.
      * specialize (Hrange _ _ Hk). rewrite incr_small; unfold MIN_VALUE; lia.
      * specialize (Hrange _ _ Hx). lia.
    + intros x nx. rewrite Hm, lookup_insert_Some, Hmin'.
      pose proof (Hrange _ _ Hk) as Hr. pose proof (Hlow _ _ Hk) as Hlo.
      assert (incr (frequency node) = frequency node + 1) as Hincr
        by (rewrite incr_small; unfold MIN_VALUE; lia).
      destruct (decide (unlink (key node) l = [] ∧ minFrequency c = frequency node))
        as [[He Hmf]|Hnot].
      * intros [[_ <-]|[Hxk Hx]]; simpl; [lia|].
        pose proof (Hlow _ _ Hx). rewrite Hincr.
        assert (frequency nx ≠ frequency node); [|lia].
        intros Heq.
        destruct (inv_own_list _ _ _ _ Hi Hx) as (lx & Hlx & Hinx).
        rewrite Heq, Hl in Hlx. injection Hlx as <-.
        assert (x ∈ unlink (key node) l) as Hu' by (apply elem_of_unlink; auto).
        rewrite He in Hu'. by apply elem_of_nil in Hu'.
      * intros [[_ <-]|[Hxk Hx]]; simpl; [lia|]. by apply (Hlow _ _ Hx).
Qed.

(** The eviction block of [put] on a non-empty cache: the tail of the list
    of [minFrequency] leaves the map and the lists. *)
Lemma evict_inv h c :
  inv h c → keyToNodeMap c ≠ ∅ →
  ∃ c1 l victim nv, evict c = Ok c1 ∧
    frequencyToListMap c !! minFrequency c = Some l ∧
    last l = Some victim ∧
    keyToNodeMap c !! victim = Some nv ∧
    frequency nv = minFrequency c ∧
    inv_lists h c1 ∧
    keyToNodeMap c1 = delete victim (keyToNodeMap c) ∧
    capacity c1 = capacity c.
Proof.
  intros [Hi Hmin Hsize] Hne.
  destruct (Hmin Hne) as [l Hl].
  destruct (proj2 (last_is_Some l)) as [victim Hlast];
    [by apply (inv_nonempty _ _ Hi _ _ Hl)|].
  pose proof (last_Some_elem_of _ _ Hlast) as Hin.
  destruct (proj1 (inv_mem _ _ Hi (minFrequency c) victim)) as (nv & Hnv & Hf);
    [by exists l|].
  destruct (evict_char c l victim Hl Hlast) as (c1 & He & Hm & Hcap & Hmin1 & Hfm).
  { intros g lg Hg Hlg. eapply inv_other_list; eauto. congruence. }
  exists c1, l, victim, nv. split_and!; try done.
  eapply (inv_lists_remove h c c1 victim nv l); eauto; by rewrite Hf.
Qed.

(** The insertion block of [put], in the call [o] on the new key. *)
Lemma insert_new_inv h o c k v :
  inv_lists h c →
  keyToNodeMap c !! k = None →
  op_key o = k →
  (0 ≤ capacity c → size c + 1 ≤ capacity c) →
  let c2 := set_min 1 c in
  let c3 := set_nodes (<[k := newCacheNode k v]> (keyToNodeMap c2)) c2 in
  let c' := addNodeToFrequencyList (newCacheNode k v) c3 in
  inv (h ++ [o]) c' ∧
  ((∀ x nx, keyToNodeMap c !! x = Some nx →
            1 ≤ frequency nx ≤ Z.of_nat (length h)) →
   inv_freq (h ++ [o]) c').
Proof.
  intros Hi Hk Ho Hsize c2 c3 c'.
  assert (Hm : keyToNodeMap c' = <[k := newCacheNode k v]> (keyToNodeMap c)) by done.
  assert (Hfm : ∀ g, frequencyToListMap c' !! g =
            if decide (g = 1)
            then Some (k :: default [] (frequencyToListMap c !! g))
            else frequencyToListMap c !! g).
  { intros g. unfold c'. rewrite addNode_eq. simpl. rewrite lookup_insert.
    destruct (decide (1 = g)) as [<-|?].
    - by rewrite decide_True.
    - by rewrite decide_False. }
  split; [split|].
  - by apply (inv_lists_add h o c c' (newCacheNode k v)).
  - intros _. change (minFrequency c') with 1. rewrite Hfm. by rewrite decide_True.
  - change (capacity c') with (capacity c). unfold size. rewrite Hm.
    rewrite size_insert_absent by done. exact Hsize.
  - intros Hrange. split.
    + intros x nx. rewrite Hm, lookup_insert_Some, length_app. simpl.
      intros [[_ <-]|[_ Hx]]; simpl; [lia|].
      specialize (Hrange _ _ Hx). lia.
    + intros x nx. rewrite Hm, lookup_insert_Some. change (minFrequency c') with 1.
      intros [[_ <-]|[_ Hx]]; simpl; [lia|].
      specialize (Hrange _ _ Hx). lia.
Qed.

(** Overwriting the value of a stored node touches no invariant. *)
Lemma inv_set_value h c k node v :
  inv h c → keyToNodeMap c !! k = Some node →
  let node' := {| key := key node; value := v; frequency := frequency node |} in
  let c1 := set_nodes (<[k := node']> (keyToNodeMap c)) c in
  inv h c1 ∧ (inv_freq h c → inv_freq h c1).
Proof.
  intros [Hi Hmin Hsize] Hk node' c1.
  assert (Hlook : ∀ x nx, keyToNodeMap c1 !! x = Some nx →
            ∃ nx0, keyToNodeMap c !! x = Some nx0 ∧
                   key nx = key nx0 ∧ frequency nx = frequency nx0).
  { intros x nx. simpl. rewrite lookup_insert_Some.
    intros [[<- <-]|[_ Hx]]; eauto. }
  assert (Hlook' : ∀ x nx0, keyToNodeMap c !! x = Some nx0 →
            ∃ nx, keyToNodeMap c1 !! x = Some nx ∧
                  key nx = key nx0 ∧ frequency nx = frequency nx0).
  { intros x nx0 Hx. simpl. destruct (decide (k = x)) as [<-|Hne].
    - exists node'. rewrite lookup_insert_eq. split; [done|].
      assert (nx0 = node) as -> by congruence. done.
    - exists nx0. by rewrite lookup_insert_ne. }
  split; [split; [split|..]|].
  - intros x nx Hx. destruct (Hlook _ _ Hx) as (nx0 & Hx0 & -> & _).
    by apply (inv_key _ _ Hi).
  - intros g x. change (in_list c1 g x) with (in_list c g x).
    rewrite (inv_mem _ _ Hi). split.
    + intros (nx0 & Hx0 & Hf). destruct (Hlook' _ _ Hx0) as (nx & ? & _ & ?).
      exists nx. split; [done|congruence].
    + intros (nx & Hx & Hf). destruct (Hlook _ _ Hx) as (nx0 & ? & _ & ?).
      exists nx0. split; [done|congruence].
  - apply (inv_nonempty _ _ Hi).
  - apply (inv_nodup _ _ Hi).
  - apply (inv_recent _ _ Hi).
  - intros _. apply Hmin. intros E. by rewrite E, lookup_empty in Hk.
  - simpl. unfold size. simpl. erewrite size_insert_present by done. exact Hsize.
  - intros [Hrange Hlow]. split.
    + intros x nx Hx. destruct (Hlook _ _ Hx) as (nx0 & Hx0 & _ & ->). eauto.
    + intros x nx Hx. destruct (Hlook _ _ Hx) as (nx0 & Hx0 & _ & ->).
      by apply (Hlow _ _ Hx0).
Qed.

(** *** Every call succeeds and keeps the invariants *)

Lemma inv_capacity_0 h c : inv h c → capacity c = 0 → keyToNodeMap c = ∅.
Proof.
  intros [_ _ Hsize] Hcap. rewrite Hcap in Hsize.
  apply map_size_empty_inv. unfold size, hsize in Hsize. lia.
Qed.

Lemma put_inv h c k v :
  inv h c →
  ∃ c', put k v c = Ok c' ∧
    inv (h ++ [Put k v]) c' ∧
    capacity c' = capacity c ∧
    (Z.of_nat (length h) < MAX_VALUE → inv_freq h c → inv_freq (h ++ [Put k v]) c').
Proof.
  intros Hinv. unfold put. destruct (Z.eqb_spec (capacity c) 0) as [Hcap|Hcap].
  { (* capacity == 0 *)
    pose proof (inv_capacity_0 _ _ Hinv Hcap) as Hempty.
    exists c. split_and!; try done.
    - destruct Hinv as [Hi Hmin Hsize]. split; try done.
      apply inv_lists_miss; [done|]. simpl. by rewrite Hempty, lookup_empty.
    - intros _ _. split; intros x nx; by rewrite Hempty, lookup_empty. }
  destruct (keyToNodeMap c !! k) as [node|] eqn:Hk.
  { (* update of a stored node *)
    destruct (inv_set_value h c k node v Hinv Hk) as [Hinv1 Hfreq1].
    pose proof (inv_key _ _ (inv_struct _ _ Hinv) _ _ Hk) as Hkey.
    set (node' := {| key := key node; value := v; frequency := frequency node |}) in *.
    set (c1 := set_nodes (<[k := node']> (keyToNodeMap c)) c) in *.
    destruct (updateFrequency_inv h (Put k v) c1 node')
      as (c' & Hu & Hinv' & Hcap' & _ & Hfreq'); [done| |done|].
    { simpl. rewrite Hkey. apply lookup_insert_eq. }
    exists c'. split_and!; try done. auto. }
  (* insertion of a new key *)
  destruct (Z.eqb_spec (hsize (keyToNodeMap c)) (capacity c)) as [Hfull|Hroom]; simpl.
  - assert (Hne : keyToNodeMap c ≠ ∅).
    { intros E. rewrite E in Hfull. unfold hsize in Hfull.
      rewrite map_size_empty in Hfull. lia. }
    destruct (evict_inv h c Hinv Hne)
      as (c1 & l & victim & nv & He & _ & _ & Hnv & _ & Hi1 & Hm1 & Hcap1).
    rewrite He. simpl. eexists. split; [reflexivity|].
    destruct (insert_new_inv h (Put k v) c1 k v) as [Hinv' Hfreq']; try done.
    + rewrite Hm1. rewrite lookup_delete_ne; [done|]. intros ->. congruence.
    + intros _. unfold size. rewrite Hm1, (size_delete_present _ _ _ Hnv).
      rewrite Hcap1. lia.
    + split_and!; try done. intros _ [Hrange _]. apply Hfreq'.
      intros x nx. rewrite Hm1, lookup_delete_Some. intros [_ Hx]. eauto.
  - eexists. split; [reflexivity|].
    destruct (insert_new_inv h (Put k v) c k v) as [Hinv' Hfreq']; try done.
    + apply (inv_struct _ _ Hinv).
    + intros Hpos. pose proof (inv_size _ _ Hinv Hpos). unfold size in *. lia.
    + split_and!; try done. intros _ [Hrange _]. by apply Hfreq'.
Qed.

Lemma get_inv h c k :
  inv h c →
  ∃ r c', get k c = Ok (r, c') ∧
    inv (h ++ [Get k]) c' ∧
    capacity c' = capacity c ∧
    (Z.of_nat (length h) < MAX_VALUE → inv_freq h c → inv_freq (h ++ [Get k]) c').
Proof.
  intros Hinv. unfold get. destruct (keyToNodeMap c !! k) as [node|] eqn:Hk.
  - pose proof (inv_key _ _ (inv_struct _ _ Hinv) _ _ Hk) as Hkey.
    edestruct (updateFrequency_inv h (Get k) c node)
      as (c' & Hu & Hinv' & Hcap' & _ & Hfreq'); [done|by rewrite Hkey|done|].
    rewrite Hu. simpl. eauto 10.
  - exists (-1), c. split_and!; try done.
    + destruct Hinv as [Hi Hmin Hsize]. split; try done. by apply inv_lists_miss.
    + intros _ [Hrange Hlow]. split; [|done].
      intros x nx Hx. specialize (Hrange _ _ Hx). rewrite length_app. simpl. lia.
Qed.

Lemma step_inv h o c :
  inv h c →
  ∃ c', step o c = Ok c' ∧
    inv (h ++ [o]) c' ∧
    capacity c' = capacity c ∧
    (Z.of_nat (length h) < MAX_VALUE → inv_freq h c → inv_freq (h ++ [o]) c').
Proof.
  intros Hinv. destruct o as [k|k v]; simpl.
  - destruct (get_inv h c k Hinv) as (r & c' & -> & H). simpl. eauto.
  - by apply put_inv.
Qed.

Lemma run_inv ops : ∀ h c,
  inv h c →
  ∃ c', run ops c = Ok c' ∧
    inv (h ++ ops) c' ∧
    capacity c' = capacity c ∧
    (Z.of_nat (length (h ++ ops)) ≤ MAX_VALUE → inv_freq h c → inv_freq (h ++ ops) c').
Proof.
  induction ops as [|o ops IH]; intros h c Hinv; simpl.
  - rewrite app_nil_r. eauto.
  - destruct (step_inv h o c Hinv) as (c1 & -> & Hinv1 & Hcap1 & Hfreq1). simpl.
    destruct (IH _ _ Hinv1) as (c' & Hrun & Hinv' & Hcap' & Hfreq').
    rewrite <- app_assoc in *. simpl in *.
    exists c'. split_and!; try done; [congruence|].
    intros Hlen Hf. apply Hfreq'; [done|]. apply Hfreq1; [|done].
    rewrite length_app in Hlen. simpl in Hlen. lia.
Qed.

Lemma inv_new cap :
  inv [] (mkLFU ∅ ∅ cap 0) ∧ inv_freq [] (mkLFU ∅ ∅ cap 0).
Proof.
  split; [split; [split|..]|split]; simpl.
  - intros k n. by rewrite lookup_empty.
  - intros f k. unfold in_list. simpl. setoid_rewrite lookup_empty.
    split; intros (? & ? & ?); done.
  - intros f l. by rewrite lookup_empty.
  - intros f l. by rewrite lookup_empty.
  - intros f l. by rewrite lookup_empty.
  - done.
  - unfold size, hsize. simpl. rewrite map_size_empty. simpl. done.
  - intros k n. by rewrite lookup_empty.
  - intros k n. by rewrite lookup_empty.
Qed.

(** Every run from the constructor completes, in a state that satisfies the
    structural invariant; the counter invariant holds as long as the run
    is too short for a counter to wrap. *)
Lemma run_new_inv cap ops :
  ∃ c, run_new cap ops = Ok c ∧
    inv ops c ∧
    capacity c = cap ∧
    (Z.of_nat (length ops) ≤ MAX_VALUE → inv_freq ops c).
Proof.
  unfold run_new, new. simpl.
  destruct (inv_new cap) as [Hinv Hfreq].
  destruct (run_inv ops [] _ Hinv) as (c & Hrun & Hinv' & Hcap & Hfreq').
  simpl in *. eauto 10.
Qed.

(** *** Consequences used by the specification-level theorems *)

(** [put] of a new key into a full cache: eviction, then insertion. *)
Lemma put_full h c k v :
  inv h c →
  capacity c ≠ 0 →
  keyToNodeMap c !! k = None →
  size c = capacity c →
  ∃ l victim nv c',
    put k v c = Ok c' ∧
    frequencyToListMap c !! minFrequency c = Some l ∧
    last l = Some victim ∧
    keyToNodeMap c !! victim = Some nv ∧
    frequency nv = minFrequency c ∧
    keyToNodeMap c' = <[k := newCacheNode k v]> (delete victim (keyToNodeMap c)).
Proof.
  intros Hinv Hcap Hk Hfull.
  assert (Hne : keyToNodeMap c ≠ ∅).
  { intros E. unfold size, hsize in Hfull. rewrite E, map_size_empty in Hfull. lia. }
  destruct (evict_inv h c Hinv Hne)
    as (c1 & l & victim & nv & He & Hl & Hlast & Hnv & Hf & _ & Hm1 & _).
  exists l, victim, nv. unfold put.
  destruct (Z.eqb_spec (capacity c) 0) as [?|_]; [done|]. rewrite Hk.
  unfold size in Hfull. rewrite Hfull, Z.eqb_refl, He. simpl.
  eexists. split; [reflexivity|]. split_and!; try done.
  rewrite addNode_eq. simpl. by rewrite Hm1.
Qed.

Lemma inv_min_is_smallest h c :
  inv h c → inv_freq h c → keyToNodeMap c ≠ ∅ → min_is_smallest c.
Proof.
  intros [Hi Hmin _] [_ Hlow] Hne. split.
  - destruct (Hmin Hne) as [l Hl]. exists l. split; [done|].
    by apply (inv_nonempty _ _ Hi _ _ Hl).
  - intros f l Hl Hnil. destruct l as [|x l]; [done|].
    destruct (proj1 (inv_mem _ _ Hi f x)) as (nx & Hx & <-).
    { exists (x :: l). split; [done|]. apply elem_of_cons. by left. }
    by apply (Hlow _ _ Hx).
Qed.

(** [put] of a new key into a cache with room. *)
Lemma put_room c k v :
  capacity c ≠ 0 →
  keyToNodeMap c !! k = None →
  hsize (keyToNodeMap c) ≠ capacity c →
  put k v c =
    Ok {| keyToNodeMap := <[k := newCacheNode k v]> (keyToNodeMap c);
          frequencyToListMap :=
            <[1 := k :: default [] (frequencyToListMap c !! 1)]> (frequencyToListMap c);
          capacity := capacity c;
          minFrequency := 1 |}.
Proof.
  intros Hcap Hk Hroom. unfold put.
  destruct (Z.eqb_spec (capacity c) 0) as [?|_]; [done|]. rewrite Hk.
  destruct (Z.eqb_spec (hsize (keyToNodeMap c)) (capacity c)) as [?|_]; [done|].
  simpl. by rewrite addNode_eq.
Qed.

(** [put] on a stored key, [get] on a stored key. *)
Lemma put_present h c k v node :
  inv h c →
  capacity c ≠ 0 →
  keyToNodeMap c !! k = Some node →
  ∃ c', put k v c = Ok c' ∧
    inv (h ++ [Put k v]) c' ∧
    keyToNodeMap c' =
      <[k := {| key := k; value := v; frequency := incr (frequency node) |}]>
        (keyToNodeMap c).
Proof.
  intros Hinv Hcap Hk. unfold put.
  destruct (Z.eqb_spec (capacity c) 0) as [?|_]; [done|]. rewrite Hk.
  destruct (inv_set_value h c k node v Hinv Hk) as [Hinv1 _].
  pose proof (inv_key _ _ (inv_struct _ _ Hinv) _ _ Hk) as Hkey.
  set (node' := {| key := key node; value := v; frequency := frequency node |}) in *.
  set (c1 := set_nodes (<[k := node']> (keyToNodeMap c)) c) in *.
  destruct (updateFrequency_inv h (Put k v) c1 node')
    as (c' & Hu & Hinv' & _ & Hm & _); [done| |done|].
  { simpl. rewrite Hkey. apply lookup_insert_eq. }
  exists c'. split_and!; [done..|].
  rewrite Hm. simpl. rewrite Hkey. by rewrite insert_insert_eq.
Qed.

Lemma get_present h c k node :
  inv h c →
  keyToNodeMap c !! k = Some node →
  ∃ c', get k c = Ok (value node, c') ∧
    inv (h ++ [Get k]) c' ∧
    keyToNodeMap c' =
      <[k := {| key := k; value := value node; frequency := incr (frequency node) |}]>
        (keyToNodeMap c).
Proof.
  intros Hinv Hk. unfold get. rewrite Hk.
  pose proof (inv_key _ _ (inv_struct _ _ Hinv) _ _ Hk) as Hkey.
  destruct (updateFrequency_inv h (Get k) c node)
    as (c' & Hu & Hinv' & _ & Hm & _); [done|by rewrite Hkey|done|].
  rewrite Hu. simpl. exists c'. split_and!; [done..|].
  by rewrite Hm, Hkey.
Qed.

(** The lists and [minFrequency] that [updateFrequency] produces depend on
    the key and the frequency of the node only, not on its value. *)
Lemma updateFrequency_order node node' c c1 a b :
  key node' = key node →
  frequency node' = frequency node →
  frequencyToListMap c1 = frequencyToListMap c →
  minFrequency c1 = minFrequency c →
  updateFrequency node c = Ok a →
  updateFrequency node' c1 = Ok b →
  frequencyToListMap b = frequencyToListMap a ∧ minFrequency b = minFrequency a.
Proof.
  destruct node as [k v f], node' as [k' v' f'], c as [m fm cap mn],
    c1 as [m1 fm1 cap1 mn1]. simpl.
  intros -> -> -> ->. unfold updateFrequency. simpl.
  destruct ((unlink k <$> fm) !! f) as [l|]; simpl; [|done].
  intros [= <-] [= <-].
  destruct (isEmptyList l); [|done]. simpl. by destruct (mn =? f).
Qed.

(** With capacity 0 every call leaves the new cache as it is. *)
Lemma run_capacity_0 ops :
  run_new 0 ops = Ok (mkLFU ∅ ∅ 0 0).
Proof.
  unfold run_new, new. simpl. induction ops as [|o ops IH]; [done|].
  simpl. destruct o as [k|k v]; simpl.
  - unfold get. simpl. by rewrite lookup_empty.
  - done.
Qed.

(** [put] and [get] on a stored key reorder the lists in the same way. *)
Lemma put_get_same_order c k v node c' cg r :
  capacity c ≠ 0 →
  keyToNodeMap c !! k = Some node →
  put k v c = Ok c' →
  get k c = Ok (r, cg) →
  frequencyToListMap c' = frequencyToListMap cg ∧ minFrequency c' = minFrequency cg.
Proof.
  intros Hcap Hk. unfold put, get. rewrite Hk.
  destruct (Z.eqb_spec (capacity c) 0) as [?|_]; [done|].
  intros Hp. destruct (updateFrequency node c) as [a|] eqn:Ha; simpl; [|done].
  intros [= _ <-].
  eapply (updateFrequency_order node _ c); [| | | |exact Ha|exact Hp]; done.
Qed.

(** *** When a frequency counter wraps *)

Lemma run_app ops1 : ∀ ops2 c,
  run (ops1 ++ ops2) c = c' ← run ops1 c; run ops2 c'.
Proof.
  induction ops1 as [|o ops1 IH]; intros ops2 c; simpl; [done|].
  destruct (step o c) as [c1|e]; simpl; [apply IH|done].
Qed.

Lemma get_single k v f cap :
  get k (single k v f cap) = Ok (v, single k v (incr f) cap).
Proof.
  unfold get, single. cbn [keyToNodeMap]. rewrite lookup_singleton_eq.
  unfold updateFrequency.
  cbn [removeNode set_lists set_nodes frequencyToListMap key frequency].
  rewrite map_fmap_singleton, lookup_singleton_eq. cbn [deref bind].
  rewrite addNode_eq.
  assert (unlink k [k] = []) as ->.
  { unfold unlink. by rewrite filter_cons_False by (intros ?; congruence). }
  simpl. rewrite Z.eqb_refl. simpl.
  rewrite delete_singleton_eq, lookup_empty, insert_empty, insert_singleton_eq.
  done.
Qed.

(** [n] calls of [get] on the only key add [n] to its counter, as long as
    the counter stays within the range of [int]. *)
Lemma run_gets_single n : ∀ k v f cap,
  MIN_VALUE ≤ f → f + Z.of_nat n ≤ MAX_VALUE →
  run (repeat (Get k) n) (single k v f cap) = Ok (single k v (f + Z.of_nat n) cap).
Proof.
  induction n as [|n IH]; intros k v f cap Hlo Hhi.
  - simpl. by rewrite Z.add_0_r.
  - cbn [repeat run step]. rewrite get_single. cbn [bind snd].
    rewrite incr_small by lia. rewrite IH by lia.
    by replace (f + 1 + Z.of_nat n) with (f + Z.of_nat (S n)) by lia.
Qed.

(** The run that drives the counter of key 0 to [Integer.MAX_VALUE], stores
    key 1 and touches key 0 once more: the counter of key 0 wraps to
    [Integer.MIN_VALUE] while [minFrequency] stays 1. *)
Lemma run_counter_wraps (n : nat) :
  Z.of_nat n = 2147483646 →
  run_new 2 (Put 0 0 :: repeat (Get 0) n ++ [Put 1 0; Get 0]) =
    Ok {| keyToNodeMap :=
            <[0 := {| key := 0; value := 0; frequency := MIN_VALUE |}]>
              (<[1 := {| key := 1; value := 0; frequency := 1 |}]> ∅);
          frequencyToListMap := <[MIN_VALUE := [0]]> (<[1 := [1]]> ∅);
          capacity := 2; minFrequency := 1 |}.
Proof.
  intros Hn. unfold run_new, new. cbn [bind run step].
  rewrite (put_room _ 0 0);
    [|done|apply lookup_empty|by simpl; rewrite hsize_empty].
  cbn [keyToNodeMap frequencyToListMap capacity bind].
  rewrite lookup_empty. cbn [default]. rewrite !insert_empty.
  rewrite run_app.
  change (mkLFU {[0 := newCacheNode 0 0]} _ 2 1) with (single 0 0 1 2).
  rewrite (run_gets_single n 0 0 1 2) by (unfold MIN_VALUE, MAX_VALUE; lia).
  cbn [bind]. replace (1 + Z.of_nat n) with 2147483647 by lia.
  vm_compute. reflexivity.
Qed.

End LFUFacts.

Module LRUCacheFacts.
Import Java JavaFacts LRUCache.

Section facts.
Context `{Countable T}.
Implicit Types (c : LRUCache (T:=T)) (k : T) (v : option T).

Lemma lru_put_eq k v c :
  inv c →
  put k v c =
    let c3 := inserted k v c in
    if hsize (cache c3) >? capacity c3 then
      nodeToDelete ← deref (last (chain c3));
      Ok {| cache := delete nodeToDelete (cache c3);
            chain := unlink nodeToDelete (chain c3);
            capacity := capacity c3 |}
    else Ok c3.
Proof.
  intros Hinv. unfold put, inserted.
  destruct (cache c !! k) as [n|] eqn:Hk; simpl.
  - by rewrite (inv_key _ Hinv _ _ Hk).
  - rewrite (unlink_notin k (chain c)); [done|].
    rewrite (inv_mem _ Hinv), Hk. by intros [? ?].
Qed.

Lemma lru_get_eq k c n :
  inv c → cache c !! k = Some n →
  get k c = Ok (value n, {| cache := cache c; chain := k :: unlink k (chain c);
                            capacity := capacity c |}).
Proof.
  intros Hinv Hk. unfold get, addNode, remove. rewrite Hk. simpl.
  by rewrite (inv_key _ Hinv _ _ Hk).
Qed.

Lemma lru_inserted_wf k v c :
  inv c →
  (∀ x n, cache (inserted k v c) !! x = Some n → key n = x) ∧
  (∀ x, x ∈ chain (inserted k v c) ↔ is_Some (cache (inserted k v c) !! x)) ∧
  NoDup (chain (inserted k v c)) ∧
  size c ≤ size (inserted k v c) ≤ size c + 1.
Proof.
  intros [Hkey Hmem Hnd Hsize]. simpl. split_and!.
  - intros x n. rewrite lookup_insert_Some. intros [[<- <-]|[_ Hx]]; [done|eauto].
  - intros x. rewrite elem_of_cons, elem_of_unlink, Hmem, lookup_insert_is_Some.
    destruct (decide (k = x)); naive_solver.
  - apply NoDup_cons. split; [|by apply NoDup_unlink].
    rewrite elem_of_unlink. naive_solver.
  - unfold size, hsize. simpl. rewrite map_size_insert.
    destruct (cache c !! k); simpl; lia.
  - unfold size, hsize. simpl. rewrite map_size_insert.
    destruct (cache c !! k); simpl; lia.
Qed.

Lemma lru_put_inv k v c :
  inv c → ∃ c', put k v c = Ok c' ∧ inv c' ∧ capacity c' = capacity c.
Proof.
  intros Hinv. rewrite lru_put_eq by done. cbv zeta.
  destruct (lru_inserted_wf k v c Hinv) as (Hkey & Hmem & Hnd & Hsz).
  pose proof (inv_size _ Hinv) as Hsize.
  assert (Hcap : capacity (inserted k v c) = capacity c) by done.
  assert (Hne : chain (inserted k v c) ≠ []) by done.
  revert Hkey Hmem Hnd Hsz Hcap Hne. generalize (inserted k v c).
  intros c3 Hkey Hmem Hnd Hsz Hcap Hne.
  destruct (Z.gtb_spec (hsize (cache c3)) (capacity c3)) as [Hover|Hfit].
  - destruct (last (chain c3)) as [victim|] eqn:Hlast.
    + simpl. eexists. split; [reflexivity|]. split; [|done].
      assert (Hv : is_Some (cache c3 !! victim)).
      { apply Hmem. by eapply last_Some_elem_of. }
      destruct Hv as [nv Hv]. split; simpl.
      * intros x n. rewrite lookup_delete_Some. intros [_ Hx]. eauto.
      * intros x. rewrite elem_of_unlink, Hmem, lookup_delete_is_Some. naive_solver.
      * by apply NoDup_unlink.
      * unfold size, hsize in *. simpl in *.
        rewrite map_size_delete, Hv.
        assert (base.size (cache c3) ≠ 0%nat).
        { apply map_size_non_empty_iff. intros E. by rewrite E, lookup_empty in Hv. }
        lia.
    + by apply last_None in Hlast.
  - eexists. split; [reflexivity|]. split; [|done].
    split; try done. unfold size in *. lia.
Qed.

Lemma lru_get_inv k c :
  inv c → ∃ r c', get k c = Ok (r, c') ∧ inv c' ∧ capacity c' = capacity c.
Proof.
  intros Hinv. destruct (cache c !! k) as [n|] eqn:Hk.
  - rewrite (lru_get_eq k c n) by done. eexists _, _. split; [reflexivity|].
    split; [|done]. destruct Hinv as [Hkey Hmem Hnd Hsize]. split; simpl; try done.
    + intros x. rewrite elem_of_cons, elem_of_unlink, Hmem.
      destruct (decide (x = k)) as [->|]; naive_solver.
    + apply NoDup_cons. split; [|by apply NoDup_unlink].
      rewrite elem_of_unlink. naive_solver.
  - unfold get. rewrite Hk. eauto.
Qed.

Lemma lru_step_inv o c :
  inv c → ∃ c', step o c = Ok c' ∧ inv c' ∧ capacity c' = capacity c.
Proof.
  intros Hinv. destruct o as [k|k v]; simpl.
  - destruct (lru_get_inv k c Hinv) as (r & c' & -> & ?). simpl. eauto.
  - by apply lru_put_inv.
Qed.

Lemma lru_run_inv ops : ∀ c,
  inv c → ∃ c', run ops c = Ok c' ∧ inv c' ∧ capacity c' = capacity c.
Proof.
  induction ops as [|o ops IH]; intros c Hinv; simpl; [eauto|].
  destruct (lru_step_inv o c Hinv) as (c1 & -> & Hinv1 & Hcap1). simpl.
  destruct (IH c1 Hinv1) as (c' & ? & ? & ?). exists c'. split_and!; [done..|congruence].
Qed.

Lemma lru_inv_new cap : inv (mkLRU (T:=T) ∅ [] cap).
Proof.
  split; simpl.
  - intros k n. by rewrite lookup_empty.
  - intros k. rewrite elem_of_nil, lookup_empty. split; [done|]. by intros [? ?].
  - apply NoDup_nil_2.
  - unfold size, hsize. simpl. rewrite map_size_empty. lia.
Qed.

Lemma lru_run_new_inv cap ops :
  ∃ c, run_new cap ops = Ok c ∧ inv c ∧ capacity c = cap.
Proof.
  unfold run_new, new. simpl. apply (lru_run_inv ops _ (lru_inv_new cap)).
Qed.

(** The three ways through [put], and [get] on a stored key. *)
Lemma lru_put_absent_room k v c :
  cache c !! k = None →
  hsize (cache c) + 1 ≤ capacity c →
  put k v c =
    Ok {| cache := <[k := {| key := k; value := v |}]> (cache c);
          chain := k :: chain c;
          capacity := capacity c |}.
Proof.
  intros Hk Hroom. unfold put. rewrite Hk. simpl.
  rewrite size_insert_absent by done.
  destruct (Z.gtb_spec (hsize (cache c) + 1) (capacity c)); [lia|done].
Qed.

Lemma lru_put_absent_full k v c victim :
  cache c !! k = None →
  capacity c < hsize (cache c) + 1 →
  last (k :: chain c) = Some victim →
  put k v c =
    Ok {| cache := delete victim (<[k := {| key := k; value := v |}]> (cache c));
          chain := unlink victim (k :: chain c);
          capacity := capacity c |}.
Proof.
  intros Hk Hfull Hlast. unfold put. rewrite Hk. simpl chain. simpl capacity.
  simpl cache. rewrite size_insert_absent by done.
  destruct (Z.gtb_spec (hsize (cache c) + 1) (capacity c)); [|lia].
  by rewrite Hlast.
Qed.

Lemma lru_put_present k v c n :
  cache c !! k = Some n →
  key n = k →
  hsize (cache c) ≤ capacity c →
  put k v c =
    Ok {| cache := <[k := {| key := k; value := v |}]> (cache c);
          chain := k :: unlink k (chain c);
          capacity := capacity c |}.
Proof.
  intros Hk Hkey Hfit. unfold put. rewrite Hk, Hkey. simpl.
  rewrite (size_insert_present _ _ n) by done.
  destruct (Z.gtb_spec (hsize (cache c)) (capacity c)); [lia|done].
Qed.

Lemma lru_get_present k c n :
  cache c !! k = Some n →
  key n = k →
  get k c =
    Ok (value n, {| cache := cache c; chain := k :: unlink k (chain c);
                    capacity := capacity c |}).
Proof. intros Hk Hkey. unfold get, addNode, remove. rewrite Hk, Hkey. done. Qed.

(** With capacity 0 every call leaves the new cache as it is. *)
Lemma lru_put_capacity_0 k v :
  put k v (mkLRU (T:=T) ∅ [] 0) = Ok (mkLRU ∅ [] 0).
Proof.
  rewrite (lru_put_absent_full k v _ k);
    [|apply lookup_empty
     |cbn [cache capacity]; unfold hsize; rewrite map_size_empty; lia
     |done].
  cbn [cache chain capacity]. f_equal. f_equal.
  - by rewrite delete_insert_eq, delete_empty.
  - unfold unlink. by rewrite filter_cons_False by (intros ?; congruence).
Qed.

Lemma lru_run_capacity_0 ops :
  run_new (T:=T) 0 ops = Ok (mkLRU ∅ [] 0).
Proof.
  unfold run_new, new. simpl. induction ops as [|o ops IH]; [done|].
  simpl. destruct o as [k|k v]; simpl.
  - unfold get. simpl. by rewrite lookup_empty.
  - by rewrite lru_put_capacity_0.
Qed.

End facts.
End LRUCacheFacts.

Module DesignLRUFacts.
Import Java JavaFacts DesignLRU.

Section facts.
Context `{Countable K} {V : Type}.
Implicit Types (c : LRUCache (K:=K) (V:=V)) (k : K) (v : option V).

Lemma dlru_inv_nonempty_dll c :
  inv c → 0 < size c → ∃ lst, last (dll c) = Some lst ∧ is_Some (cache c !! lst).
Proof.
  intros Hinv Hpos.
  destruct (last (dll c)) as [lst|] eqn:Hlast.
  - exists lst. split; [done|]. apply (inv_mem _ Hinv). by eapply last_Some_elem_of.
  - exfalso. apply last_None in Hlast.
    assert (cache c = ∅) as Hempty.
    { apply map_empty. intros x. apply eq_None_not_Some.
      rewrite <- (inv_mem _ Hinv), Hlast. apply not_elem_of_nil. }
    unfold size, hsize in Hpos. rewrite Hempty, map_size_empty in Hpos. lia.
Qed.

(** A [put] that returns keeps the invariant. *)
Lemma dlru_put_inv k v c c' :
  inv c → put k v c = Ok c' → inv c' ∧ capacity c' = capacity c.
Proof.
  intros Hinv. pose proof Hinv as [Hkey Hmem Hnd Hsize]. unfold put.
  destruct (cache c !! k) as [n|] eqn:Hk.
  - intros [= <-]. split; [|done]. simpl. rewrite (Hkey _ _ Hk). split; simpl.
    + intros x nx. rewrite lookup_insert_Some. intros [[<- <-]|[_ Hx]]; simpl; eauto.
    + intros x. unfold moveToFront, addFirst, dll_remove.
      rewrite elem_of_cons, elem_of_unlink, Hmem, lookup_insert_is_Some.
      destruct (decide (x = k)) as [->|]; naive_solver.
    + unfold moveToFront, addFirst, dll_remove. apply NoDup_cons.
      split; [|by apply NoDup_unlink]. rewrite elem_of_unlink. naive_solver.
    + unfold size, hsize in *. simpl.
      rewrite map_size_insert_Some by eauto. done.
  - assert (Hkd : k ∉ dll c) by (rewrite Hmem, Hk; by intros [? ?]).
    destruct (Z.geb_spec (hsize (cache c)) (capacity c)) as [Hfull|Hroom].
    + unfold removeLast. destruct (last (dll c)) as [lst|] eqn:Hlast; simpl; [|done].
      intros [= <-]. split; [|done].
      assert (Hl : is_Some (cache c !! lst)).
      { apply Hmem. by eapply last_Some_elem_of. }
      assert (lst ≠ k) by (intros ->; destruct Hl; congruence).
      split; simpl.
      * intros x nx. rewrite lookup_insert_Some, lookup_delete_Some.
        intros [[<- <-]|[_ [_ Hx]]]; eauto.
      * intros x. unfold addFirst, dll_remove.
        rewrite elem_of_cons, elem_of_unlink, Hmem, lookup_insert_is_Some,
          lookup_delete_is_Some.
        destruct (decide (x = k)) as [->|]; naive_solver.
      * unfold addFirst, dll_remove. apply NoDup_cons.
        split; [|by apply NoDup_unlink]. rewrite elem_of_unlink. naive_solver.
      * unfold size, hsize in *. simpl.
        rewrite map_size_insert_None by (by rewrite lookup_delete_ne).
        destruct Hl as [nl Hl]. rewrite map_size_delete, Hl.
        assert (base.size (cache c) ≠ 0%nat).
        { apply map_size_non_empty_iff. intros E. by rewrite E, lookup_empty in Hl. }
        lia.
    + simpl. intros [= <-]. split; [|done]. split; simpl.
      * intros x nx. rewrite lookup_insert_Some. intros [[<- <-]|[_ Hx]]; eauto.
      * intros x. unfold addFirst.
        rewrite elem_of_cons, Hmem, lookup_insert_is_Some.
        destruct (decide (x = k)) as [->|]; naive_solver.
      * unfold addFirst. by apply NoDup_cons.
      * unfold size, hsize in *. simpl.
        rewrite map_size_insert_None by done. lia.
Qed.

(** With room for at least one entry, [put] returns. *)
Lemma dlru_put_total k v c :
  inv c → 0 < capacity c → ∃ c', put k v c = Ok c'.
Proof.
  intros Hinv Hcap. unfold put.
  destruct (cache c !! k) as [n|] eqn:Hk; [eauto|].
  destruct (Z.geb_spec (hsize (cache c)) (capacity c)) as [Hfull|Hroom]; [|simpl; eauto].
  destruct (dlru_inv_nonempty_dll c Hinv) as (lst & Hlast & _).
  { unfold size. lia. }
  unfold removeLast. rewrite Hlast. simpl. eauto.
Qed.

Lemma dlru_get_inv k c :
  inv c → ∃ r c', get k c = Ok (r, c') ∧ inv c' ∧ capacity c' = capacity c.
Proof.
  intros Hinv. pose proof Hinv as [Hkey Hmem Hnd Hsize]. unfold get.
  destruct (cache c !! k) as [n|] eqn:Hk; [|eauto].
  eexists _, _. split; [reflexivity|]. split; [|done].
  rewrite (Hkey _ _ Hk). split; simpl; try done.
  - intros x. unfold moveToFront, addFirst, dll_remove.
    rewrite elem_of_cons, elem_of_unlink, Hmem.
    destruct (decide (x = k)) as [->|]; naive_solver.
  - unfold moveToFront, addFirst, dll_remove. apply NoDup_cons.
    split; [|by apply NoDup_unlink]. rewrite elem_of_unlink. naive_solver.
Qed.

Lemma dlru_remove_inv k c :
  inv c → ∃ c', remove k c = Ok c' ∧ inv c' ∧ capacity c' = capacity c.
Proof.
  intros Hinv. pose proof Hinv as [Hkey Hmem Hnd Hsize]. unfold remove.
  destruct (cache c !! k) as [n|] eqn:Hk.
  - eexists. split; [reflexivity|]. split; [|done].
    rewrite (Hkey _ _ Hk). split; simpl.
    + intros x nx. rewrite lookup_delete_Some. intros [_ Hx]. eauto.
    + intros x. unfold dll_remove.
      rewrite elem_of_unlink, Hmem, lookup_delete_is_Some. naive_solver.
    + by apply NoDup_unlink.
    + unfold size, hsize in *. simpl. rewrite map_size_delete, Hk. lia.
  - eexists. split; [reflexivity|]. split; [|done].
    rewrite delete_id by done. by destruct c.
Qed.

Lemma dlru_step_inv o c c' :
  inv c → step o c = Ok c' → inv c' ∧ capacity c' = capacity c.
Proof.
  intros Hinv. destruct o as [k|k v|k]; simpl.
  - destruct (dlru_get_inv k c Hinv) as (r & c1 & -> & ? & ?). simpl. by intros [= <-].
  - by apply dlru_put_inv.
  - destruct (dlru_remove_inv k c Hinv) as (c1 & -> & ? & ?). by intros [= <-].
Qed.

Lemma dlru_step_total o c :
  inv c → 0 < capacity c → ∃ c', step o c = Ok c'.
Proof.
  intros Hinv Hcap. destruct o as [k|k v|k]; simpl.
  - destruct (dlru_get_inv k c Hinv) as (r & c1 & -> & ? & ?). simpl. eauto.
  - by apply dlru_put_total.
  - destruct (dlru_remove_inv k c Hinv) as (c1 & -> & ? & ?). eauto.
Qed.

Lemma dlru_run_inv ops : ∀ c c',
  inv c → run ops c = Ok c' → inv c' ∧ capacity c' = capacity c.
Proof.
  induction ops as [|o ops IH]; intros c c' Hinv; simpl.
  - by intros [= <-].
  - destruct (step o c) as [c1|e] eqn:Hstep; simpl; [|done].
    destruct (dlru_step_inv o c c1 Hinv Hstep) as [Hinv1 Hcap1].
    intros Hrun. destruct (IH _ _ Hinv1 Hrun). split; [done|congruence].
Qed.

Lemma dlru_run_total ops : ∀ c,
  inv c → 0 < capacity c → ∃ c', run ops c = Ok c'.
Proof.
  induction ops as [|o ops IH]; intros c Hinv Hcap; simpl; [eauto|].
  destruct (dlru_step_total o c Hinv Hcap) as [c1 Hstep]. rewrite Hstep. simpl.
  destruct (dlru_step_inv o c c1 Hinv Hstep) as [Hinv1 Hcap1].
  apply IH; [done|lia].
Qed.

Lemma dlru_inv_new cap : inv (mkLRU (K:=K) (V:=V) cap ∅ []).
Proof.
  split; simpl.
  - intros k n. by rewrite lookup_empty.
  - intros k. rewrite elem_of_nil, lookup_empty. split; [done|]. by intros [? ?].
  - apply NoDup_nil_2.
  - unfold size, hsize. simpl. rewrite map_size_empty. lia.
Qed.

End facts.
End DesignLRUFacts.

(** * The heap level computes what the list level computes *)

Module DllFacts.
Import Java JavaFacts Dll.

Lemma chain_frame h h' l : ∀ a b,
  chain h a l b →
  same_links h h' (a :: l) (l ++ [b]) →
  chain h' a l b.
Proof.
  induction l as [|x l IH]; intros a b Hc [Hn Hp]; simpl in *.
  - destruct Hc as [Hab Hba]. split.
    + rewrite Hn; [done|]. apply elem_of_cons. by left.
    + rewrite Hp; [done|]. apply elem_of_cons. by left.
  - destruct Hc as (Hax & Hxa & Hc). split_and!.
    + rewrite Hn; [done|]. apply elem_of_cons. by left.
    + rewrite Hp; [done|]. apply elem_of_cons. by left.
    + apply IH; [done|]. split; intros y Hy.
      * apply Hn. apply elem_of_cons. by right.
      * apply Hp. apply elem_of_cons. by right.
Qed.

Lemma chain_head h a l b :
  chain h a l b → next h !! a = head (l ++ [b]).
Proof. destruct l; simpl; naive_solver. Qed.

Lemma chain_last h l : ∀ a b,
  chain h a l b → prev h !! b = Some (default a (last l)).
Proof.
  induction l as [|x l IH]; intros a b Hc; simpl in *; [naive_solver|].
  destruct Hc as (_ & _ & Hc). rewrite (IH _ _ Hc).
  rewrite last_cons. by destruct (last l).
Qed.

Lemma chain_empty h a l b :
  NoDup (a :: l ++ [b]) → chain h a l b → (next h !! a = Some b ↔ l = []).
Proof.
  intros Hnd Hc. destruct l as [|x l]; simpl in *; [naive_solver|].
  destruct Hc as (Hax & _). split; [|done]. rewrite Hax. intros [= ->].
  apply NoDup_cons in Hnd as [_ Hnd]. apply NoDup_cons in Hnd as [Hb _].
  exfalso. apply Hb. apply elem_of_app. right. by apply list_elem_of_singleton.
Qed.

(** Unlinking [x], which sits between [l1] and [l2]. *)
Lemma chain_unlink h l1 : ∀ a x l2 b,
  NoDup (a :: l1 ++ x :: l2 ++ [b]) →
  chain h a l1 x →
  chain h x l2 b →
  let p := default a (last l1) in
  let n := default b (head l2) in
  chain (set_prev n (Some p) (set_next p (Some n) h)) a (l1 ++ l2) b.
Proof.
  induction l1 as [|y l1 IH]; intros a x l2 b Hnd Hc1 Hc2 p n.
  - simpl in *. unfold p, n. clear p n. destruct Hc1 as [Hax Hxa].
    apply NoDup_cons in Hnd as [Ha Hnd]. apply NoDup_cons in Hnd as [Hx Hnd].
    destruct l2 as [|z l2]; simpl in *.
    + rewrite !lookup_insert_eq. done.
    + destruct Hc2 as (Hxz & Hzx & Hc2). rewrite !lookup_insert_eq.
      split_and!; [done..|].
      apply NoDup_cons in Hnd as [Hz Hnd].
      eapply chain_frame; [exact Hc2|]. split; intros y Hy; simpl.
      * rewrite lookup_insert_ne; [done|]. intros <-. apply Ha. set_solver.
      * rewrite lookup_insert_ne; [done|]. intros <-. done.
  - simpl in Hc1. destruct Hc1 as (Hay & Hya & Hc1).
    assert (Hp : p = default y (last l1)).
    { unfold p. rewrite last_cons. by destruct (last l1). }
    rewrite Hp. clear p Hp.
    change ((y :: l1) ++ l2) with (y :: (l1 ++ l2)). simpl.
    apply NoDup_cons in Hnd as [Ha Hnd].
    assert (Hpin : default y (last l1) ∈ y :: l1).
    { destruct (last l1) as [q|] eqn:Hq; simpl; [|set_solver].
      apply last_Some_elem_of in Hq. set_solver. }
    assert (Hnin : n ∈ l2 ++ [b]).
    { unfold n. destruct l2; simpl; set_solver. }
    split_and!.
    + rewrite lookup_insert_ne; [done|]. intros <-. apply Ha.
      rewrite app_comm_cons. apply elem_of_app. by left.
    + rewrite lookup_insert_ne; [done|]. intros <-.
      simpl in Hnd. apply NoDup_cons in Hnd as [Hy _]. apply Hy.
      apply elem_of_app. right. apply elem_of_cons. by right.
    + by apply (IH y x l2 b).
Qed.

Lemma chain_app h l1 : ∀ a x l2 b,
  chain h a (l1 ++ x :: l2) b ↔ chain h a l1 x ∧ chain h x l2 b.
Proof.
  induction l1 as [|y l1 IH]; intros a x l2 b; simpl; [naive_solver|].
  rewrite IH. naive_solver.
Qed.

Lemma is_dll_frame h h' hd l tl :
  is_dll h hd l tl → same_links h h' (hd :: l) (l ++ [tl]) → is_dll h' hd l tl.
Proof. intros [Hnd Hc] Hs. split; [done|]. by eapply chain_frame. Qed.

Lemma init_spec h hd tl : hd ≠ tl → is_dll (init hd tl h) hd [] tl.
Proof.
  intros Hne. split; simpl.
  - apply NoDup_cons. split; [set_solver|]. apply NoDup_singleton.
  - by rewrite !lookup_insert_eq.
Qed.

Lemma tailPrev_spec h hd l tl :
  is_dll h hd l tl → tailPrev tl h = Some (default hd (last l)).
Proof. intros [_ Hc]. by apply chain_last. Qed.

Lemma isEmpty_spec h hd l tl :
  is_dll h hd l tl → isEmpty hd tl h = true ↔ l = [].
Proof.
  intros [Hnd Hc]. unfold isEmpty. rewrite bool_decide_eq_true.
  by apply chain_empty.
Qed.

(** The first assignment of [remove] changes neither field of [node], so
    reading them again gives the same nodes. *)
Lemma remove_inline_eq x h : remove_inline x h = remove x h.
Proof.
  unfold remove_inline, remove, assign_next.
  destruct (prev h !! x) as [p|] eqn:Hp; [|done]. cbn [bind deref].
  change (prev (set_next p (next h !! x) h)) with (prev h). rewrite Hp.
  assert (Hn : next (set_next p (next h !! x) h) !! x = next h !! x).
  { unfold set_next. simpl. destruct (decide (p = x)) as [->|Hne].
    - destruct (next h !! x) as [n|] eqn:Hn.
      + by rewrite lookup_insert_eq.
      + by rewrite lookup_delete_eq.
    - destruct (next h !! x) as [n|] eqn:Hn.
      + by rewrite lookup_insert_ne.
      + by rewrite lookup_delete_ne. }
  by rewrite Hn.
Qed.

(** [remove] unlinks a node of the list and touches the links of no node
    outside the list. *)
Lemma remove_spec h hd l tl x :
  is_dll h hd l tl → x ∈ l →
  ∃ h', remove x h = Ok h' ∧
    is_dll h' hd (unlink x l) tl ∧
    ∀ xs ys, (∀ y, y ∈ xs ++ ys → y ∉ hd :: l ++ [tl]) → same_links h h' xs ys.
Proof.
  intros [Hnd Hc] Hx.
  apply list_elem_of_split in Hx as (l1 & l2 & ->).
  apply chain_app in Hc as [Hc1 Hc2].
  pose proof (chain_last _ _ _ _ Hc1) as Hprev.
  pose proof (chain_head _ _ _ _ Hc2) as Hnext.
  set (p := default hd (last l1)) in *.
  set (n := default tl (head l2)).
  assert (Hn : head (l2 ++ [tl]) = Some n) by (unfold n; by destruct l2).
  rewrite Hn in Hnext.
  assert (Hndx : NoDup (hd :: l1 ++ x :: l2 ++ [tl])).
  { by rewrite <- app_assoc in Hnd. }
  assert (Hpin : p ∈ hd :: l1).
  { unfold p. destruct (last l1) as [q|] eqn:Hq; simpl; [|set_solver].
    apply last_Some_elem_of in Hq. set_solver. }
  assert (Hnin : n ∈ l2 ++ [tl]).
  { unfold n. destruct l2; simpl; set_solver. }
  exists (set_prev n (Some p) (set_next p (Some n) h)). split_and!.
  - unfold remove. rewrite Hprev, Hnext. done.
  - assert (Hxl : (x ∉ l1) ∧ (x ∉ l2)).
    { apply NoDup_cons in Hndx as [_ Hndx]. apply NoDup_app in Hndx as (_ & H1 & H2).
      apply NoDup_cons in H2 as [H2 _]. split.
      - intros Hin. apply (H1 _ Hin). set_solver.
      - intros Hin. apply H2. set_solver. }
    assert (unlink x (l1 ++ x :: l2) = l1 ++ l2) as ->.
    { unfold unlink. rewrite filter_app, filter_cons_False by (intros ?; congruence).
      fold (unlink x l1). fold (unlink x l2).
      by rewrite !unlink_notin by tauto. }
    split; [|by apply (chain_unlink h l1 hd x l2 tl)].
    rewrite <- app_assoc.
    change (hd :: l1 ++ l2 ++ [tl]) with ((hd :: l1) ++ l2 ++ [tl]).
    change (hd :: l1 ++ x :: l2 ++ [tl]) with ((hd :: l1) ++ x :: l2 ++ [tl]) in Hndx.
    apply NoDup_app in Hndx as (H1 & H2 & H3). apply NoDup_cons in H3 as [_ H3].
    apply NoDup_app. split_and!; [done| |done].
    intros y Hy Hy'. apply (H2 _ Hy). set_solver.
  - intros xs ys Hout. split; intros y Hy; simpl.
    + rewrite lookup_insert_ne; [done|]. intros <-.
      apply (Hout p); set_solver.
    + rewrite lookup_insert_ne; [done|]. intros <-.
      apply (Hout n); set_solver.
Qed.

(** Links that put [x] between [hd] and the former first node. *)
Lemma chain_link h h' hd l tl x :
  NoDup (x :: hd :: l ++ [tl]) →
  chain h hd l tl →
  next h' !! hd = Some x →
  prev h' !! x = Some hd →
  next h' !! x = head (l ++ [tl]) →
  prev h' !! default tl (head l) = Some x →
  same_links h h' l (tail (l ++ [tl])) →
  chain h' hd (x :: l) tl.
Proof.
  intros Hnd Hc Hhx Hxh Hxc Hcx [Hn Hp]. simpl. split_and!; [done..|].
  destruct l as [|c l]; simpl in *; [done|].
  destruct Hc as (_ & _ & Hc). split_and!; [done..|].
  eapply chain_frame; [exact Hc|]. split; intros y Hy.
  - by apply Hn.
  - by apply Hp.
Qed.

Section add.
Variables (h : links) (hd tl x : addr) (l : list addr).
Hypothesis Hdll : is_dll h hd l tl.
Hypothesis Hx : x ∉ hd :: l ++ [tl].

Let Hnd : NoDup (x :: hd :: l ++ [tl]).
Proof. apply NoDup_cons. split; [done|]. apply Hdll. Qed.

Let Hnd' : NoDup (hd :: (x :: l) ++ [tl]).
Proof.
  destruct Hdll as [Hd _]. apply NoDup_cons in Hd as [Hhd Hd].
  simpl. apply NoDup_cons. split; [set_solver|].
  apply NoDup_cons. split; [set_solver|done].
Qed.

Let Hhd : hd ∉ l ++ [tl].
Proof. destruct Hdll as [Hd _]. by apply NoDup_cons in Hd as [? _]. Qed.

Let Hcurr : next h !! hd = Some (default tl (head l)).
Proof.
  destruct Hdll as [_ Hc]. rewrite (chain_head _ _ _ _ Hc). by destruct l.
Qed.

Let Hc_in : default tl (head l) ∈ l ++ [tl].
Proof. destruct l; simpl; set_solver. Qed.

Let Hc_tail : default tl (head l) ∉ tail (l ++ [tl]).
Proof.
  destruct Hdll as [Hd _]. apply NoDup_cons in Hd as [_ Hd].
  destruct l as [|c l']; simpl in *; [set_solver|].
  by apply NoDup_cons in Hd as [? _].
Qed.

Let Htail_in : ∀ y, y ∈ tail (l ++ [tl]) → y ∈ l ++ [tl].
Proof. intros y. destruct l; simpl; set_solver. Qed.

Lemma addNode_spec :
  ∃ h', addNode hd x h = Ok h' ∧ is_dll h' hd (x :: l) tl ∧ add_frame h hd tl x l h'.
Proof.
  unfold addNode. rewrite Hcurr. simpl. eexists. split; [reflexivity|].
  assert (Hne1 : x ≠ hd) by set_solver.
  assert (Hne2 : default tl (head l) ≠ x) by (intros E; apply Hx; rewrite <- E; set_solver).
  split; [split; [apply Hnd'|]|].
  - destruct Hdll as [_ Hc].
    apply (chain_link h _ hd l tl x Hnd Hc).
    + simpl. apply lookup_insert_eq.
    + simpl. apply lookup_insert_eq.
    + simpl. rewrite lookup_insert_ne by done. rewrite lookup_insert_eq. by destruct l.
    + simpl. rewrite lookup_insert_ne by done. apply lookup_insert_eq.
    + split; intros y Hy; simpl.
      * rewrite !lookup_insert_ne; [done| |]; intros <-.
        -- apply Hx. set_solver.
        -- apply Hhd. set_solver.
      * rewrite !lookup_insert_ne; [done| |]; intros <-.
        -- by apply Hc_tail.
        -- apply Hx. apply Htail_in in Hy. set_solver.
  - intros xs ys Hout. split; intros y Hy; simpl.
    + rewrite !lookup_insert_ne; [done| |];
        (intros E; apply (Hout y); [set_solver|rewrite <- E; set_solver]).
    + rewrite !lookup_insert_ne; [done| |];
        (intros E; apply (Hout y); [set_solver|rewrite <- E; set_solver]).
Qed.

Lemma addAfterHead_spec :
  ∃ h', addAfterHead hd x h = Ok h' ∧ is_dll h' hd (x :: l) tl ∧ add_frame h hd tl x l h'.
Proof.
  unfold addAfterHead. rewrite Hcurr. simpl. eexists. split; [reflexivity|].
  assert (Hne1 : x ≠ hd) by set_solver.
  assert (Hne2 : default tl (head l) ≠ x) by (intros E; apply Hx; rewrite <- E; set_solver).
  split; [split; [apply Hnd'|]|].
  - destruct Hdll as [_ Hc].
    apply (chain_link h _ hd l tl x Hnd Hc).
    + simpl. rewrite lookup_insert_ne by done. apply lookup_insert_eq.
    + simpl. rewrite lookup_insert_ne by done. apply lookup_insert_eq.
    + simpl. rewrite lookup_insert_eq. by destruct l.
    + simpl. apply lookup_insert_eq.
    + split; intros y Hy; simpl.
      * rewrite !lookup_insert_ne; [done| |]; intros <-.
        -- apply Hhd. set_solver.
        -- apply Hx. set_solver.
      * rewrite !lookup_insert_ne; [done| |]; intros <-.
        -- apply Hx. apply Htail_in in Hy. set_solver.
        -- by apply Hc_tail.
  - intros xs ys Hout. split; intros y Hy; simpl.
    + rewrite !lookup_insert_ne; [done| |];
        (intros E; apply (Hout y); [set_solver|rewrite <- E; set_solver]).
    + rewrite !lookup_insert_ne; [done| |];
        (intros E; apply (Hout y); [set_solver|rewrite <- E; set_solver]).
Qed.

Lemma addFirst_spec :
  ∃ h', addFirst hd x h = Ok h' ∧ is_dll h' hd (x :: l) tl ∧ add_frame h hd tl x l h'.
Proof.
  assert (Hne1 : x ≠ hd) by set_solver.
  assert (Hne2 : default tl (head l) ≠ x) by (intros E; apply Hx; rewrite <- E; set_solver).
  unfold addFirst. rewrite Hcurr. simpl.
  rewrite lookup_insert_ne by done. rewrite Hcurr. simpl.
  eexists. split; [reflexivity|].
  split; [split; [apply Hnd'|]|].
  - destruct Hdll as [_ Hc].
    apply (chain_link h _ hd l tl x Hnd Hc).
    + simpl. apply lookup_insert_eq.
    + simpl. rewrite lookup_insert_ne by done. apply lookup_insert_eq.
    + simpl. rewrite lookup_insert_ne by done. rewrite lookup_insert_eq. by destruct l.
    + simpl. apply lookup_insert_eq.
    + split; intros y Hy; simpl.
      * rewrite !lookup_insert_ne; [done| |]; intros <-.
        -- apply Hx. set_solver.
        -- apply Hhd. set_solver.
      * rewrite !lookup_insert_ne; [done| |]; intros <-.
        -- apply Hx. apply Htail_in in Hy. set_solver.
        -- by apply Hc_tail.
  - intros xs ys Hout. split; intros y Hy; simpl.
    + rewrite !lookup_insert_ne; [done| |];
        (intros E; apply (Hout y); [set_solver|rewrite <- E; set_solver]).
    + rewrite !lookup_insert_ne; [done| |];
        (intros E; apply (Hout y); [set_solver|rewrite <- E; set_solver]).
Qed.

End add.

Lemma Forall2_unlink {A B} `{EqDecision A, EqDecision B} (R : A → B → Prop) l ks n kn :
  Forall2 R l ks →
  (∀ x k, x ∈ l → R x k → (k = kn ↔ x = n)) →
  Forall2 R (unlink n l) (unlink kn ks).
Proof.
  unfold unlink. induction 1 as [|x k l ks HR HF IH]; intros Hinj; [constructor|].
  rewrite !filter_cons.
  assert (IH' : Forall2 R (filter (λ y, y ≠ n) l) (filter (λ y, y ≠ kn) ks)).
  { apply IH. intros y ky Hy. apply Hinj. by right. }
  pose proof (Hinj x k ltac:(left) HR) as Hxk.
  destruct (decide (x ≠ n)) as [Hx|Hx], (decide (k ≠ kn)) as [Hk|Hk]; try done.
  - by constructor.
  - exfalso. apply Hx, Hxk. by destruct (decide (k = kn)).
  - exfalso. apply Hk, Hxk. by destruct (decide (x = n)).
Qed.

Lemma Forall2_last_l {A B} (R : A → B → Prop) l ks y :
  Forall2 R l ks → last l = Some y → ∃ k, last ks = Some k ∧ R y k.
Proof.
  induction 1 as [|x k l ks HR HF IH]; [done|].
  destruct HF as [|x' k' l' ks' HR' HF'].
  - simpl. intros [= <-]. by exists k.
  - rewrite !last_cons_cons. apply IH.
Qed.

Lemma Forall2_elem_of_r {A B} (R : A → B → Prop) l ks k :
  Forall2 R l ks → k ∈ ks → ∃ y, y ∈ l ∧ R y k.
Proof.
  induction 1 as [|x k0 l ks HR HF IH]; [by intros ?%elem_of_nil|].
  intros [->|Hk]%elem_of_cons.
  - exists x. split; [by left|done].
  - destruct (IH Hk) as (y & Hy & HRy). exists y. split; [by right|done].
Qed.

Lemma Forall2_last_r {A B} (R : A → B → Prop) l ks k :
  Forall2 R l ks → last ks = Some k → ∃ y, last l = Some y ∧ R y k.
Proof.
  induction 1 as [|x k0 l ks HR HF IH]; [done|].
  destruct HF as [|x' k' l' ks' HR' HF'].
  - simpl. intros [= <-]. by exists x.
  - rewrite !last_cons_cons. apply IH.
Qed.

End DllFacts.

Module LRUCacheHeapFacts.
Import Java JavaFacts DllFacts LRUCacheHeap.

Section facts.
Context `{Countable T}.
Implicit Types (s : state (T := T)) (a : LRUCache.LRUCache (T := T)).
Implicit Types (k : T) (v : option T) (l : list Dll.addr).

Lemma lh_Forall2_key_at s s' l (ks : list T) :
  Forall2 (key_at s) l ks →
  (∀ y, y ∈ l → hkey s' !! y = hkey s !! y) →
  Forall2 (key_at s') l ks.
Proof.
  induction 1 as [|x k l ks HR HF IH]; intros Hsame; constructor.
  - unfold key_at in *. rewrite Hsame; [done|by left].
  - apply IH. intros y Hy. apply Hsame. by right.
Qed.

(** Related states hold the same keys. *)
Lemma lh_rep_dom l s a : rep_nodes l s a → dom (cache s) = dom (LRUCache.cache a).
Proof.
  intros Hr. apply set_eq. intros k. rewrite !elem_of_dom.
  destruct (cache s !! k) as [x|] eqn:E.
  - destruct (rep_some _ _ _ Hr _ _ E) as (_ & _ & v & _ & ->). split; eauto.
  - rewrite (rep_none _ _ _ Hr _ E). split; intros [? ?]; done.
Qed.

Lemma lh_rep_size l s a : rep_nodes l s a → hsize (cache s) = hsize (LRUCache.cache a).
Proof.
  intros Hr. unfold hsize. f_equal.
  rewrite <- (size_dom (cache s)), <- (size_dom (LRUCache.cache a)).
  by rewrite (lh_rep_dom _ _ _ Hr).
Qed.

Lemma lh_rep_key_inj l s a x k : 
  rep_nodes l s a → x ∈ l → key_at s x k → cache s !! k = Some x.
Proof.
  intros Hr Hx Hk. destruct (rep_mapped _ _ _ Hr _ Hx) as (k' & Hk' & Hc).
  unfold key_at in *. congruence.
Qed.

(** Unlinking the node of a stored key and taking the key out of the map. *)
Lemma lh_drop_sim l s a k n :
  rep_nodes l s a → cache s !! k = Some n →
  ∃ h', remove n s = Ok (set_links h' s) ∧
    rep_nodes (unlink n l)
      (set_cache (delete k (cache s)) (set_links h' s))
      (LRUCache.set_cache (delete k (LRUCache.cache a)) (LRUCache.remove k a)).
Proof.
  intros Hr Hk.
  destruct (rep_some _ _ _ Hr _ _ Hk) as (Hn & Hkn & v0 & Hv0 & Ha).
  destruct (remove_spec _ _ _ _ n (rep_dll _ _ _ Hr) Hn) as (h' & Hrm & Hdll & _).
  exists h'. split; [unfold remove; by rewrite Hrm|].
  split; simpl.
  - done.
  - apply Forall2_unlink; [apply Hr|].
    intros x k0 Hx Hk0. split.
    + intros ->. pose proof (lh_rep_key_inj _ _ _ _ _ Hr Hx Hk0). congruence.
    + intros ->. unfold key_at in *. simpl in *. congruence.
  - intros k' x'. rewrite lookup_delete_Some. intros [Hne Hk'].
    destruct (rep_some _ _ _ Hr _ _ Hk') as (Hx' & Hkx' & v & Hv & Ha').
    split; [|split; [exact Hkx'|]].
    + apply elem_of_unlink. split; [|done].
      intros ->. unfold key_at in *. congruence.
    + exists v. split; [done|]. by rewrite lookup_delete_ne.
  - intros k'. rewrite lookup_delete_None. intros [<-|Hk'].
    + apply lookup_delete_eq.
    + apply lookup_delete_None. right. by apply (rep_none _ _ _ Hr).
  - intros x' [Hne Hx']%elem_of_unlink.
    destruct (rep_mapped _ _ _ Hr _ Hx') as (k' & Hkx' & Hc').
    exists k'. split; [exact Hkx'|]. rewrite lookup_delete_ne; [done|].
    intros <-. congruence.
  - intros x' Hx'. apply (rep_alloc _ _ _ Hr).
    rewrite elem_of_cons, elem_of_app, elem_of_unlink in Hx'.
    rewrite elem_of_cons, elem_of_app. naive_solver.
  - apply Hr.
Qed.

(** Allocating the node of an absent key, mapping the key to it and linking
    it at the head. *)
Lemma lh_insert_sim l s a k v :
  rep_nodes l s a → cache s !! k = None →
  ∃ h', addNode (fresh s)
          (set_cache (<[k := fresh s]> (cache s)) (newNodeEntry k v s).2) =
        Ok (set_links h' (set_cache (<[k := fresh s]> (cache s)) (newNodeEntry k v s).2)) ∧
    rep_nodes (fresh s :: l)
      (set_links h' (set_cache (<[k := fresh s]> (cache s)) (newNodeEntry k v s).2))
      (LRUCache.addNode {| LRUCache.key := k; LRUCache.value := v |}
         (LRUCache.set_cache
            (<[k := {| LRUCache.key := k; LRUCache.value := v |}]> (LRUCache.cache a)) a)).
Proof.
  intros Hr Hk. set (x := fresh s).
  assert (Hx : x ∉ head s :: l ++ [tail s]).
  { intros Hx. apply (rep_alloc _ _ _ Hr) in Hx. unfold x in Hx. lia. }
  assert (Hxl : ∀ y, y ∈ l → y ≠ x) by (intros y Hy ->; apply Hx; set_solver).
  assert (Hdll : Dll.is_dll (Dll.set_next x None (Dll.set_prev x None (links s)))
                   (head s) l (tail s)).
  { apply (is_dll_frame (links s)); [apply Hr|].
    split; intros y Hy; simpl; apply lookup_delete_ne; intros ->; apply Hx; set_solver. }
  destruct (addNode_spec _ _ _ _ _ Hdll Hx) as (h' & Hadd & Hdll' & _).
  exists h'. split; [unfold addNode; simpl; fold x; by rewrite Hadd|].
  split; simpl; fold x.
  - done.
  - constructor; [apply lookup_insert_eq|].
    apply (lh_Forall2_key_at s); [apply Hr|].
    intros y Hy. simpl. apply lookup_insert_ne. by apply not_eq_sym, Hxl.
  - intros k' x'. destruct (decide (k' = k)) as [->|Hne].
    + rewrite lookup_insert_eq. intros [= <-].
      split; [by left|]. split; [apply lookup_insert_eq|].
      exists v. by rewrite !lookup_insert_eq.
    + rewrite lookup_insert_ne by done. intros Hk'.
      destruct (rep_some _ _ _ Hr _ _ Hk') as (Hx' & Hkx' & v' & Hv' & Ha').
      pose proof (Hxl _ Hx') as Hne'.
      split; [by right|]. split.
      * unfold key_at. simpl. by rewrite lookup_insert_ne.
      * exists v'. by rewrite !lookup_insert_ne.
  - intros k'. destruct (decide (k' = k)) as [->|Hne].
    + by rewrite lookup_insert_eq.
    + rewrite !lookup_insert_ne by done. apply Hr.
  - intros y [->|Hy]%elem_of_cons.
    + exists k. split; apply lookup_insert_eq.
    + destruct (rep_mapped _ _ _ Hr _ Hy) as (k' & Hky & Hc').
      pose proof (Hxl _ Hy) as Hne'.
      exists k'. split.
      * unfold key_at. simpl. by rewrite lookup_insert_ne.
      * rewrite lookup_insert_ne; [done|]. intros <-. congruence.
  - intros y Hy.
    assert (y = x ∨ (y < x)%positive) as [->|Hlt]; [|lia|lia].
    rewrite elem_of_cons in Hy. simpl in Hy. rewrite elem_of_cons in Hy.
    destruct Hy as [->|[->|Hy]]; [right|by left|right];
      apply (rep_alloc _ _ _ Hr); set_solver.
  - apply Hr.
Qed.

(** The capacity check of [put] on a list that is not empty. *)
Lemma lh_evict_sim l s a :
  rep_nodes l s a → l ≠ [] →
  ∃ s' a',
    (nodeToDelete ← deref (Dll.tailPrev (tail s) (links s));
     s5 ← remove nodeToDelete s;
     nodeKey ← deref (hkey s5 !! nodeToDelete);
     Ok (set_cache (delete nodeKey (cache s5)) s5)) = Ok s' ∧
    (nodeToDelete ← deref (last (LRUCache.chain a));
     Ok (LRUCache.set_cache
           (delete nodeToDelete (LRUCache.cache (LRUCache.remove nodeToDelete a)))
           (LRUCache.remove nodeToDelete a))) = Ok a' ∧
    rep s' a'.
Proof.
  intros Hr Hne.
  destruct (last l) as [y|] eqn:Hlast; [|by apply last_None in Hlast].
  rewrite (tailPrev_spec _ _ _ _ (rep_dll _ _ _ Hr)), Hlast. simpl.
  destruct (Forall2_last_l _ _ _ _ (rep_chain _ _ _ Hr) Hlast) as (ky & Hlast' & Hky).
  rewrite Hlast'. simpl.
  pose proof (lh_rep_key_inj _ _ _ _ _ Hr (last_Some_elem_of _ _ Hlast) Hky) as Hc.
  destruct (lh_drop_sim _ _ _ _ _ Hr Hc) as (h' & -> & Hr').
  simpl. unfold key_at in Hky. rewrite Hky. simpl.
  eexists _, _. split; [reflexivity|]. split; [reflexivity|].
  by exists (unlink y l).
Qed.

Lemma lh_put_eq k v s :
  put k v s =
  (s1 ← match cache s !! k with Some n => remove n s | None => Ok s end;
   put_rest k v s1).
Proof. reflexivity. Qed.

Lemma lh_put_rest_delete k v s :
  put_rest k v (set_cache (delete k (cache s)) s) = put_rest k v s.
Proof. unfold put_rest. simpl. by rewrite insert_delete_eq. Qed.

Lemma lh_put_rest_sim l s a k v :
  rep_nodes l s a → cache s !! k = None →
  ∃ s' a', put_rest k v s = Ok s' ∧
    LRUCache.put k v a = Ok a' ∧ rep s' a'.
Proof.
  intros Hr Hk.
  destruct (lh_insert_sim _ _ _ _ v Hr Hk) as (h' & Hadd & Hr').
  unfold put_rest, LRUCache.put. cbv zeta.
  change (cache (newNodeEntry k v s).2) with (cache s). rewrite Hadd. cbn [bind].
  rewrite (rep_none _ _ _ Hr _ Hk).
  rewrite (lh_rep_size _ _ _ Hr'), <- (rep_capacity _ _ _ Hr').
  destruct (_ >? _).
  - by apply (lh_evict_sim _ _ _ Hr').
  - eexists _, _. split; [reflexivity|]. split; [reflexivity|]. by eexists.
Qed.

(** [put] on the heap does what [put] on the list does. *)
Lemma lh_put_sim s a k v :
  rep s a → ∃ s' a', put k v s = Ok s' ∧ LRUCache.put k v a = Ok a' ∧ rep s' a'.
Proof.
  intros [l Hr]. rewrite lh_put_eq.
  destruct (cache s !! k) as [n|] eqn:Hk.
  - destruct (lh_drop_sim _ _ _ _ _ Hr Hk) as (h' & -> & Hr'). cbn [bind].
    destruct (rep_some _ _ _ Hr _ _ Hk) as (_ & _ & v0 & _ & Ha).
    destruct (lh_put_rest_sim _ _ _ k v Hr') as (s' & a' & Hs' & Ha' & Hrep).
    { simpl. apply lookup_delete_eq. }
    change (set_cache (delete k (cache s)) (set_links h' s))
      with (set_cache (delete k (cache (set_links h' s))) (set_links h' s)) in Hs'.
    rewrite lh_put_rest_delete in Hs'.
    exists s', a'. split; [done|]. split; [|done].
    rewrite <- Ha'. unfold LRUCache.put. rewrite Ha. simpl.
    rewrite lookup_delete_eq. simpl. by rewrite insert_delete_eq.
  - simpl. by apply (lh_put_rest_sim l).
Qed.

(** [get] on the heap does what [get] on the list does, and returns the
    same value. *)
Lemma lh_get_sim s a k :
  rep s a →
  ∃ r s' a', get k s = Ok (r, s') ∧ LRUCache.get k a = Ok (r, a') ∧ rep s' a'.
Proof.
  intros [l Hr]. unfold get, LRUCache.get.
  destruct (cache s !! k) as [n|] eqn:Hk.
  - destruct (rep_some _ _ _ Hr _ _ Hk) as (Hn & Hkn & v0 & Hv0 & ->).
    destruct (remove_spec _ _ _ _ n (rep_dll _ _ _ Hr) Hn) as (h1 & Hrm & Hdll & _).
    unfold remove. rewrite Hrm. cbn [bind].
    assert (Hx : n ∉ head s :: unlink n l ++ [tail s]).
    { destruct (rep_dll _ _ _ Hr) as [Hnd _].
      apply NoDup_cons in Hnd as [Hhd Hnd]. apply NoDup_app in Hnd as (_ & Htl & _).
      rewrite elem_of_cons, elem_of_app, elem_of_unlink.
      intros [->|[[? _]|Ht]]; [set_solver|done|by apply (Htl n)]. }
    destruct (addNode_spec _ _ _ _ _ Hdll Hx) as (h2 & Hadd & Hdll' & _).
    unfold addNode. simpl. rewrite Hadd. simpl. rewrite Hv0. simpl.
    eexists _, _, _. split; [reflexivity|]. split; [reflexivity|].
    exists (n :: unlink n l). split; simpl.
    + done.
    + constructor; [done|]. apply Forall2_unlink; [apply Hr|].
      intros x k0 Hx0 Hk0. split.
      * intros ->. pose proof (lh_rep_key_inj _ _ _ _ _ Hr Hx0 Hk0). congruence.
      * intros ->. unfold key_at in *. simpl in *. congruence.
    + intros k' x' Hk'.
      destruct (rep_some _ _ _ Hr _ _ Hk') as (Hx' & Hkx' & v & Hv & Ha').
      split; [|split; [exact Hkx'|by exists v]].
      rewrite elem_of_cons, elem_of_unlink.
      destruct (decide (x' = n)); [by left|by right].
    + apply Hr.
    + intros x' Hx'. apply (rep_mapped _ _ _ Hr).
      rewrite elem_of_cons, elem_of_unlink in Hx'. naive_solver.
    + intros x' Hx'. apply (rep_alloc _ _ _ Hr).
      rewrite elem_of_cons in Hx'. simpl in Hx'.
      rewrite elem_of_cons, elem_of_app, elem_of_unlink in Hx'.
      rewrite elem_of_cons, elem_of_app. naive_solver.
    + apply Hr.
  - rewrite (rep_none _ _ _ Hr _ Hk).
    eexists _, _, _. split; [reflexivity|]. split; [reflexivity|]. by exists l.
Qed.

Lemma lh_step_sim o s a :
  rep s a → ∃ s' a', step o s = Ok s' ∧ LRUCache.step o a = Ok a' ∧ rep s' a'.
Proof.
  intros Hr. destruct o as [k|k v]; simpl.
  - destruct (lh_get_sim _ _ k Hr) as (r & s' & a' & -> & -> & Hr'). simpl. eauto.
  - by apply lh_put_sim.
Qed.

Lemma lh_run_sim ops : ∀ s a,
  rep s a → ∃ s' a', run ops s = Ok s' ∧ LRUCache.run ops a = Ok a' ∧ rep s' a'.
Proof.
  induction ops as [|o ops IH]; intros s a Hr; simpl; [eauto|].
  destruct (lh_step_sim o _ _ Hr) as (s1 & a1 & -> & -> & Hr1). simpl. by apply IH.
Qed.

Lemma lh_rep_new cap :
  ∃ s a, new cap = Ok s ∧ LRUCache.new cap = Ok a ∧ rep s a.
Proof.
  eexists _, _. split; [reflexivity|]. split; [reflexivity|].
  exists []. split; simpl; try done.
  - by apply init_spec.
  - intros x Hx. by apply elem_of_nil in Hx.
  - intros x Hx. rewrite !elem_of_cons in Hx.
    destruct Hx as [->|[->|Hx]]; [lia|lia|by apply elem_of_nil in Hx].
Qed.

(** Every run of the heap-level cache from its constructor completes, in a
    state that the run of the list-level cache represents. *)
Theorem lh_run_new_sim cap ops :
  ∃ s a, run_new cap ops = Ok s ∧ LRUCache.run_new cap ops = Ok a ∧ rep s a.
Proof.
  destruct (lh_rep_new cap) as (s0 & a0 & E1 & E2 & Hr).
  unfold run_new, LRUCache.run_new. rewrite E1, E2. simpl. by apply lh_run_sim.
Qed.

(** What a client can observe after a run is the same at both levels: the
    stored keys, and the value and the state that any [get] returns. *)
Theorem lh_run_new_observation cap ops :
  ∃ s a, run_new cap ops = Ok s ∧ LRUCache.run_new cap ops = Ok a ∧
    dom (cache s) = dom (LRUCache.cache a) ∧
    ∀ k, ∃ r s' a', get k s = Ok (r, s') ∧ LRUCache.get k a = Ok (r, a') ∧ rep s' a'.
Proof.
  destruct (lh_run_new_sim cap ops) as (s & a & Hs & Ha & Hr).
  exists s, a. split; [done|]. split; [done|]. split.
  - destruct Hr as [l Hr]. by apply (lh_rep_dom l).
  - intros k. by apply lh_get_sim.
Qed.

End facts.
End LRUCacheHeapFacts.

Module DesignLRUHeapFacts.
Import Java JavaFacts DllFacts DesignLRUHeap.

Section facts.
Context `{Countable K} {V : Type}.
Implicit Types (s : state (K := K) (V := V)) (a : DesignLRU.LRUCache (K := K) (V := V)).
Implicit Types (k : K) (v : option V) (l : list Dll.addr).

Lemma dh_Forall2_key_at s s' l (ks : list K) :
  Forall2 (key_at s) l ks →
  (∀ y, y ∈ l → hkey s' !! y = hkey s !! y) →
  Forall2 (key_at s') l ks.
Proof.
  induction 1 as [|x k l ks HR HF IH]; intros Hsame; constructor.
  - unfold key_at in *. rewrite Hsame; [done|by left].
  - apply IH. intros y Hy. apply Hsame. by right.
Qed.

Lemma dh_rep_dom l s a : rep_nodes l s a → dom (cache s) = dom (DesignLRU.cache a).
Proof.
  intros Hr. apply set_eq. intros k. rewrite !elem_of_dom.
  destruct (cache s !! k) as [x|] eqn:E.
  - destruct (rep_some _ _ _ Hr _ _ E) as (_ & _ & v & _ & ->). split; eauto.
  - rewrite (rep_none _ _ _ Hr _ E). split; intros [? ?]; done.
Qed.

Lemma dh_rep_size l s a : rep_nodes l s a → hsize (cache s) = hsize (DesignLRU.cache a).
Proof.
  intros Hr. unfold hsize. f_equal.
  rewrite <- (size_dom (cache s)), <- (size_dom (DesignLRU.cache a)).
  by rewrite (dh_rep_dom _ _ _ Hr).
Qed.

Lemma dh_rep_key_inj l s a x k :
  rep_nodes l s a → x ∈ l → key_at s x k → cache s !! k = Some x.
Proof.
  intros Hr Hx Hk. destruct (rep_mapped _ _ _ Hr _ Hx) as (k' & Hk' & Hc).
  unfold key_at in *. congruence.
Qed.

Lemma dh_unlink_keys l s a k n :
  rep_nodes l s a → cache s !! k = Some n →
  Forall2 (key_at s) (unlink n l) (unlink k (DesignLRU.dll a)).
Proof.
  intros Hr Hk. destruct (rep_some _ _ _ Hr _ _ Hk) as (Hn & Hkn & _).
  apply Forall2_unlink; [apply Hr|].
  intros x k0 Hx Hk0. split.
  - intros ->. pose proof (dh_rep_key_inj _ _ _ _ _ Hr Hx Hk0). congruence.
  - intros ->. unfold key_at in *. congruence.
Qed.

(** [dll.remove(node)] on the node of a key that has just left the map. *)
Lemma dh_drop_sim l s a k n :
  rep_nodes l s a → cache s !! k = Some n →
  ∃ h', Dll.remove n (links s) = Ok h' ∧
    rep_nodes (unlink n l)
      (set_cache (delete k (cache s)) (set_links h' s))
      {| DesignLRU.capacity := DesignLRU.capacity a;
         DesignLRU.cache := delete k (DesignLRU.cache a);
         DesignLRU.dll := unlink k (DesignLRU.dll a) |}.
Proof.
  intros Hr Hk.
  destruct (rep_some _ _ _ Hr _ _ Hk) as (Hn & Hkn & v0 & Hv0 & Ha).
  destruct (remove_spec _ _ _ _ n (rep_dll _ _ _ Hr) Hn) as (h' & Hrm & Hdll & _).
  exists h'. split; [done|].
  split; simpl.
  - done.
  - by apply (dh_unlink_keys _ _ _ _ _ Hr).
  - intros k' x'. rewrite lookup_delete_Some. intros [Hne Hk'].
    destruct (rep_some _ _ _ Hr _ _ Hk') as (Hx' & Hkx' & v & Hv & Ha').
    split; [|split; [exact Hkx'|]].
    + apply elem_of_unlink. split; [|done].
      intros ->. unfold key_at in *. congruence.
    + exists v. split; [done|]. by rewrite lookup_delete_ne.
  - intros k'. rewrite lookup_delete_None. intros [<-|Hk'].
    + apply lookup_delete_eq.
    + apply lookup_delete_None. right. by apply (rep_none _ _ _ Hr).
  - intros x' [Hne Hx']%elem_of_unlink.
    destruct (rep_mapped _ _ _ Hr _ Hx') as (k' & Hkx' & Hc').
    exists k'. split; [exact Hkx'|]. rewrite lookup_delete_ne; [done|].
    intros <-. congruence.
  - intros x' Hx'. apply (rep_alloc _ _ _ Hr).
    rewrite elem_of_cons, elem_of_app, elem_of_unlink in Hx'.
    rewrite elem_of_cons, elem_of_app. naive_solver.
  - apply Hr.
Qed.

(** [moveToFront(node)] on the node of a stored key. *)
Lemma dh_move_sim l s a k n :
  rep_nodes l s a → cache s !! k = Some n →
  ∃ h', moveToFront n s = Ok (set_links h' s) ∧
    rep_nodes (n :: unlink n l) (set_links h' s)
      {| DesignLRU.capacity := DesignLRU.capacity a;
         DesignLRU.cache := DesignLRU.cache a;
         DesignLRU.dll := DesignLRU.moveToFront k (DesignLRU.dll a) |}.
Proof.
  intros Hr Hk.
  destruct (rep_some _ _ _ Hr _ _ Hk) as (Hn & Hkn & v0 & Hv0 & Ha).
  destruct (remove_spec _ _ _ _ n (rep_dll _ _ _ Hr) Hn) as (h1 & Hrm & Hdll & _).
  assert (Hx : n ∉ head s :: unlink n l ++ [tail s]).
  { destruct (rep_dll _ _ _ Hr) as [Hnd _].
    apply NoDup_cons in Hnd as [Hhd Hnd]. apply NoDup_app in Hnd as (_ & Htl & _).
    rewrite elem_of_cons, elem_of_app, elem_of_unlink.
    intros [->|[[? _]|Ht]]; [set_solver|done|by apply (Htl n)]. }
  destruct (addFirst_spec _ _ _ _ _ Hdll Hx) as (h2 & Hadd & Hdll' & _).
  exists h2. split.
  { unfold moveToFront, dll_remove. rewrite remove_inline_eq, Hrm. cbn [bind].
    unfold addFirst. simpl. by rewrite Hadd. }
  split; simpl.
  - done.
  - constructor; [done|]. by apply (dh_unlink_keys _ _ _ _ _ Hr).
  - intros k' x' Hk'.
    destruct (rep_some _ _ _ Hr _ _ Hk') as (Hx' & Hkx' & v & Hv & Ha').
    split; [|split; [exact Hkx'|by exists v]].
    rewrite elem_of_cons, elem_of_unlink.
    destruct (decide (x' = n)); [by left|by right].
  - apply Hr.
  - intros x' Hx'. apply (rep_mapped _ _ _ Hr).
    rewrite elem_of_cons, elem_of_unlink in Hx'. naive_solver.
  - intros x' Hx'. apply (rep_alloc _ _ _ Hr).
    rewrite elem_of_cons in Hx'. simpl in Hx'.
    rewrite elem_of_cons, elem_of_app, elem_of_unlink in Hx'.
    rewrite elem_of_cons, elem_of_app. naive_solver.
  - apply Hr.
Qed.

(** [existing.value = value] *)
Lemma dh_set_value_sim l s a k n v :
  rep_nodes l s a → cache s !! k = Some n →
  rep_nodes l (set_value n v s)
    {| DesignLRU.capacity := DesignLRU.capacity a;
       DesignLRU.cache := <[k := {| DesignLRU.key := k; DesignLRU.value := v |}]>
                            (DesignLRU.cache a);
       DesignLRU.dll := DesignLRU.dll a |}.
Proof.
  intros Hr Hk. split; simpl; try apply Hr.
  - intros k' x' Hk'.
    destruct (rep_some _ _ _ Hr _ _ Hk') as (Hx' & Hkx' & v' & Hv' & Ha').
    split; [done|]. split; [exact Hkx'|].
    destruct (decide (k' = k)) as [->|Hne].
    + assert (x' = n) as -> by congruence.
      exists v. by rewrite !lookup_insert_eq.
    + assert (x' ≠ n).
      { intros ->. destruct (rep_some _ _ _ Hr _ _ Hk) as (_ & Hkn & _).
        unfold key_at in *. congruence. }
      exists v'. by rewrite !lookup_insert_ne.
  - intros k' Hk'. rewrite lookup_insert_ne; [by apply Hr|]. intros <-. congruence.
Qed.

(** Allocating the node of an absent key, linking it at the head and
    mapping the key to it. *)
Lemma dh_insert_sim l s a k v :
  rep_nodes l s a → cache s !! k = None →
  ∃ h', addFirst (fresh s) (newNode k v s).2 = Ok (set_links h' (newNode k v s).2) ∧
    rep_nodes (fresh s :: l)
      (set_cache (<[k := fresh s]> (cache s)) (set_links h' (newNode k v s).2))
      {| DesignLRU.capacity := DesignLRU.capacity a;
         DesignLRU.cache := <[k := {| DesignLRU.key := k; DesignLRU.value := v |}]>
                              (DesignLRU.cache a);
         DesignLRU.dll := DesignLRU.addFirst k (DesignLRU.dll a) |}.
Proof.
  intros Hr Hk. set (x := fresh s).
  assert (Hx : x ∉ head s :: l ++ [tail s]).
  { intros Hx. apply (rep_alloc _ _ _ Hr) in Hx. unfold x in Hx. lia. }
  assert (Hxl : ∀ y, y ∈ l → y ≠ x) by (intros y Hy ->; apply Hx; set_solver).
  assert (Hdll : Dll.is_dll (Dll.set_next x None (Dll.set_prev x None (links s)))
                   (head s) l (tail s)).
  { apply (is_dll_frame (links s)); [apply Hr|].
    split; intros y Hy; simpl; apply lookup_delete_ne; intros ->; apply Hx; set_solver. }
  destruct (addFirst_spec _ _ _ _ _ Hdll Hx) as (h' & Hadd & Hdll' & _).
  exists h'. split; [unfold addFirst; simpl; fold x; by rewrite Hadd|].
  split; simpl; fold x.
  - done.
  - constructor; [apply lookup_insert_eq|].
    apply (dh_Forall2_key_at s); [apply Hr|].
    intros y Hy. simpl. apply lookup_insert_ne. by apply not_eq_sym, Hxl.
  - intros k' x'. destruct (decide (k' = k)) as [->|Hne].
    + rewrite lookup_insert_eq. intros [= <-].
      split; [by left|]. split; [apply lookup_insert_eq|].
      exists v. by rewrite !lookup_insert_eq.
    + rewrite lookup_insert_ne by done. intros Hk'.
      destruct (rep_some _ _ _ Hr _ _ Hk') as (Hx' & Hkx' & v' & Hv' & Ha').
      pose proof (Hxl _ Hx') as Hne'.
      split; [by right|]. split.
      * unfold key_at. simpl. by rewrite lookup_insert_ne.
      * exists v'. by rewrite !lookup_insert_ne.
  - intros k'. destruct (decide (k' = k)) as [->|Hne].
    + by rewrite lookup_insert_eq.
    + rewrite !lookup_insert_ne by done. apply Hr.
  - intros y [->|Hy]%elem_of_cons.
    + exists k. split; apply lookup_insert_eq.
    + destruct (rep_mapped _ _ _ Hr _ Hy) as (k' & Hky & Hc').
      pose proof (Hxl _ Hy) as Hne'.
      exists k'. split.
      * unfold key_at. simpl. by rewrite lookup_insert_ne.
      * rewrite lookup_insert_ne; [done|]. intros <-. congruence.
  - intros y Hy.
    assert (y = x ∨ (y < x)%positive) as [->|Hlt]; [|lia|lia].
    rewrite elem_of_cons in Hy. simpl in Hy. rewrite elem_of_cons in Hy.
    destruct Hy as [->|[->|Hy]]; [right|by left|right];
      apply (rep_alloc _ _ _ Hr); set_solver.
  - apply Hr.
Qed.

(** The eviction of [put]: on an empty list [removeLast()] returns [null]
    and reading [lru.key] throws, at both levels. *)
Lemma dh_evict_sim l s a :
  rep_nodes l s a →
  let heap := (r ← removeLast s;
               lru ← deref r.1;
               lruKey ← deref (hkey r.2 !! lru);
               Ok (set_cache (delete lruKey (cache r.2)) r.2)) in
  let list := (let '(lru, l') := DesignLRU.removeLast (DesignLRU.dll a) in
               lruKey ← deref lru;
               Ok {| DesignLRU.capacity := DesignLRU.capacity a;
                     DesignLRU.cache := delete lruKey (DesignLRU.cache a);
                     DesignLRU.dll := l' |}) in
  (heap = Err NullPointerException ∧ list = Err NullPointerException) ∨
  (∃ s1 a1, heap = Ok s1 ∧ list = Ok a1 ∧ rep s1 a1 ∧
            ∀ k, cache s !! k = None → cache s1 !! k = None).
Proof.
  intros Hr. cbv zeta. unfold removeLast, DesignLRU.removeLast.
  rewrite (tailPrev_spec _ _ _ _ (rep_dll _ _ _ Hr)).
  destruct (last l) as [y|] eqn:Hlast; simpl.
  - right. assert (Hy : y ∈ l) by by apply last_Some_elem_of.
    rewrite bool_decide_eq_false_2.
    2:{ intros [= ->]. destruct (rep_dll _ _ _ Hr) as [Hnd _].
        apply NoDup_cons in Hnd as [Hhd _]. apply Hhd. set_solver. }
    simpl.
    destruct (Forall2_last_l _ _ _ _ (rep_chain _ _ _ Hr) Hlast) as (ky & Hlast' & Hky).
    rewrite Hlast'. simpl.
    pose proof (dh_rep_key_inj _ _ _ _ _ Hr Hy Hky) as Hc.
    destruct (dh_drop_sim _ _ _ _ _ Hr Hc) as (h' & Hrm & Hr').
    unfold dll_remove. rewrite remove_inline_eq, Hrm. simpl.
    unfold key_at in Hky. rewrite Hky. simpl.
    eexists _, _. split; [reflexivity|]. split; [reflexivity|].
    split; [by exists (unlink y l)|].
    intros k Hk. simpl. apply lookup_delete_None. by right.
  - left. rewrite bool_decide_eq_true_2 by done. simpl.
    apply last_None in Hlast as ->.
    pose proof (rep_chain _ _ _ Hr) as Hc. apply Forall2_nil_inv_l in Hc as ->.
    done.
Qed.

(** The rest of [put] for a key that is not stored. *)
Lemma dh_put_new_sim s a k v :
  rep s a → cache s !! k = None →
  ∃ s' a',
    (let '(node, s2) := newNode k v s in
     s3 ← addFirst node s2;
     Ok (set_cache (<[k := node]> (cache s3)) s3)) = Ok s' ∧
    Ok {| DesignLRU.capacity := DesignLRU.capacity a;
          DesignLRU.cache := <[k := {| DesignLRU.key := k; DesignLRU.value := v |}]>
                               (DesignLRU.cache a);
          DesignLRU.dll := DesignLRU.addFirst k (DesignLRU.dll a) |} = Ok a' ∧
    rep s' a'.
Proof.
  intros [l Hr] Hk.
  destruct (dh_insert_sim _ _ _ _ v Hr Hk) as (h' & Hadd & Hr').
  change (newNode k v s) with (fresh s, (newNode k v s).2). cbv iota beta.
  rewrite Hadd. cbn [bind].
  eexists _, _. split; [reflexivity|]. split; [reflexivity|]. by eexists.
Qed.

(** [put] on the heap has the outcome of [put] on the list. *)
Lemma dh_put_sim s a k v :
  rep s a → rep_res (put k v s) (DesignLRU.put k v a).
Proof.
  intros [l Hr]. unfold put, DesignLRU.put.
  destruct (cache s !! k) as [n|] eqn:Hk.
  - destruct (rep_some _ _ _ Hr _ _ Hk) as (_ & _ & v0 & _ & ->).
    pose proof (dh_set_value_sim _ _ _ _ _ v Hr Hk) as Hr1.
    destruct (dh_move_sim _ _ _ k n Hr1 Hk) as (h' & -> & Hr2).
    simpl. by eexists.
  - rewrite (rep_none _ _ _ Hr _ Hk).
    rewrite (dh_rep_size _ _ _ Hr), <- (rep_capacity _ _ _ Hr).
    destruct (_ >=? _).
    + destruct (dh_evict_sim _ _ _ Hr) as [[-> ->]|(s1 & a1 & -> & -> & Hr1 & Hnone)];
        [done|].
      cbn [bind].
      destruct (dh_put_new_sim _ _ k v Hr1 (Hnone _ Hk)) as (s' & a' & -> & [= <-] & Hr').
      done.
    + cbn [bind].
      destruct (dh_put_new_sim s a k v (ex_intro _ l Hr) Hk) as (s' & a' & -> & [= <-] & Hr').
      done.
Qed.

(** [get] on the heap does what [get] on the list does, and returns the
    same value. *)
Lemma dh_get_sim s a k :
  rep s a →
  ∃ r s' a', get k s = Ok (r, s') ∧ DesignLRU.get k a = Ok (r, a') ∧ rep s' a'.
Proof.
  intros [l Hr]. unfold get, DesignLRU.get.
  destruct (cache s !! k) as [n|] eqn:Hk.
  - destruct (rep_some _ _ _ Hr _ _ Hk) as (_ & _ & v0 & Hv0 & ->).
    destruct (dh_move_sim _ _ _ k n Hr Hk) as (h' & -> & Hr2).
    simpl. rewrite Hv0. simpl.
    eexists _, _, _. split; [reflexivity|]. split; [reflexivity|]. by eexists.
  - rewrite (rep_none _ _ _ Hr _ Hk).
    eexists _, _, _. split; [reflexivity|]. split; [reflexivity|]. by exists l.
Qed.

(** [remove(key)] on the heap does what [remove] on the list does. *)
Lemma dh_remove_sim s a k :
  rep s a →
  ∃ s' a', remove k s = Ok s' ∧ DesignLRU.remove k a = Ok a' ∧ rep s' a'.
Proof.
  intros [l Hr]. unfold remove, DesignLRU.remove.
  destruct (cache s !! k) as [n|] eqn:Hk.
  - destruct (rep_some _ _ _ Hr _ _ Hk) as (_ & _ & v0 & _ & ->).
    destruct (dh_drop_sim _ _ _ _ _ Hr Hk) as (h' & Hrm & Hr').
    unfold dll_remove. simpl. rewrite remove_inline_eq, Hrm. simpl.
    eexists _, _. split; [reflexivity|]. split; [reflexivity|]. by eexists.
  - rewrite (rep_none _ _ _ Hr _ Hk).
    eexists _, _. split; [reflexivity|]. split; [reflexivity|].
    exists l. split; simpl; try apply Hr.
    + intros k' x'. rewrite lookup_delete_Some. intros [Hne Hk'].
      destruct (rep_some _ _ _ Hr _ _ Hk') as (Hx' & Hkx' & v & Hv & Ha').
      split; [done|]. split; [exact Hkx'|].
      exists v. split; [done|]. by rewrite lookup_delete_ne.
    + intros k'. rewrite lookup_delete_None. intros [<-|Hk'].
      * apply lookup_delete_eq.
      * apply lookup_delete_None. right. by apply (rep_none _ _ _ Hr).
    + intros x' Hx'. destruct (rep_mapped _ _ _ Hr _ Hx') as (k' & Hkx' & Hc').
      exists k'. split; [exact Hkx'|]. rewrite lookup_delete_ne; [done|].
      intros <-. congruence.
Qed.

Lemma dh_step_sim o s a :
  rep s a → rep_res (step o s) (DesignLRU.step o a).
Proof.
  intros Hr. destruct o as [k|k v|k]; simpl.
  - destruct (dh_get_sim _ _ k Hr) as (r & s' & a' & -> & -> & Hr'). done.
  - by apply dh_put_sim.
  - destruct (dh_remove_sim _ _ k Hr) as (s' & a' & -> & -> & Hr'). done.
Qed.

Lemma dh_run_sim (ops : list (DesignLRU.op (K := K) (V := V))) : ∀ s a,
  rep s a → rep_res (run ops s) (DesignLRU.run ops a).
Proof.
  induction ops as [|o ops IH]; intros s a Hr; simpl; [done|].
  pose proof (dh_step_sim o _ _ Hr) as Hs.
  destruct (step o s) as [s1|e], (DesignLRU.step o a) as [a1|e']; simpl in *; try done.
  by apply IH.
Qed.

Lemma dh_rep_new cap :
  ∃ s a, new cap = Ok s ∧ DesignLRU.new cap = Ok a ∧ rep s a.
Proof.
  eexists _, _. split; [reflexivity|]. split; [reflexivity|].
  exists []. split; simpl; try done.
  - by apply init_spec.
  - intros x Hx. by apply elem_of_nil in Hx.
  - intros x Hx. rewrite !elem_of_cons in Hx.
    destruct Hx as [->|[->|Hx]]; [lia|lia|by apply elem_of_nil in Hx].
Qed.

(** Every run of the heap-level cache from its constructor has the outcome
    of the run of the list-level cache: both complete, in related states,
    or both stop at the same exception. *)
Theorem dh_run_new_sim cap (ops : list (DesignLRU.op (K := K) (V := V))) :
  rep_res (run_new cap ops) (DesignLRU.run_new cap ops).
Proof.
  destruct (dh_rep_new cap) as (s0 & a0 & E1 & E2 & Hr).
  unfold run_new, DesignLRU.run_new. rewrite E1, E2. simpl. by apply dh_run_sim.
Qed.

(** What a client can observe of a run is the same at both levels: whether
    it completes or which exception stops it, and after it the stored keys
    and the value and the state that any [get] returns. *)
Theorem dh_run_new_observation cap (ops : list (DesignLRU.op (K := K) (V := V))) :
  match run_new cap ops, DesignLRU.run_new cap ops with
  | Ok s, Ok a =>
      dom (cache s) = dom (DesignLRU.cache a) ∧
      ∀ k, ∃ r s' a', get k s = Ok (r, s') ∧ DesignLRU.get k a = Ok (r, a') ∧ rep s' a'
  | Err e, Err e' => e = e'
  | _, _ => False
  end.
Proof.
  pose proof (dh_run_new_sim cap ops) as Hsim.
  destruct (run_new cap ops) as [s|e], (DesignLRU.run_new cap ops) as [a|e']; try done.
  simpl in Hsim. split.
  - destruct Hsim as [l Hr]. by apply (dh_rep_dom l).
  - intros k. by apply dh_get_sim.
Qed.

(** With capacity 0 the first [put] throws: [removeLast()] finds
    [tail.prev == head] and returns [null], and [put] reads [lru.key]. *)
Lemma dh_put_capacity_0 (k : K) (v : option V) :
  run_new 0 [DesignLRU.Put k v] = Err NullPointerException.
Proof.
  unfold run_new, new. simpl. unfold put. simpl. rewrite lookup_empty.
  unfold hsize. rewrite map_size_empty. simpl. reflexivity.
Qed.

End facts.
End DesignLRUHeapFacts.

Module LFUHeapFacts.
Import Java JavaFacts DllFacts LFUHeap.

Implicit Types (s : state) (a : LFU.LFUCache) (G : gmap Z nodes) (g : nodes).
Implicit Types (k v f : Z) (x : Dll.addr).

Lemma same_node (m : gmap Z Dll.addr) k x y : m !! k = Some x → m !! k = Some y → x = y.
Proof. congruence. Qed.

Lemma fh_Forall2_key_at s s' (l : list Dll.addr) (ks : list Z) :
  Forall2 (key_at s) l ks →
  (∀ y, y ∈ l → hkey s' !! y = hkey s !! y) →
  Forall2 (key_at s') l ks.
Proof.
  induction 1 as [|x k l ks HR HF IH]; intros Hsame; constructor.
  - unfold key_at in *. rewrite Hsame; [done|by left].
  - apply IH. intros y Hy. apply Hsame. by right.
Qed.

Lemma fh_rep_dom G s a :
  rep_nodes G s a → dom (keyToNodeMap s) = dom (LFU.keyToNodeMap a).
Proof.
  intros Hr. apply set_eq. intros k. rewrite !elem_of_dom.
  destruct (keyToNodeMap s !! k) as [x|] eqn:E.
  - destruct (rep_some _ _ _ Hr _ _ E) as (_ & _ & v & fr & _ & _ & ->). split; eauto.
  - rewrite (rep_none _ _ _ Hr _ E). split; intros [? ?]; done.
Qed.

Lemma fh_rep_size G s a :
  rep_nodes G s a → hsize (keyToNodeMap s) = hsize (LFU.keyToNodeMap a).
Proof.
  intros Hr. unfold hsize. f_equal.
  rewrite <- (size_dom (keyToNodeMap s)), <- (size_dom (LFU.keyToNodeMap a)).
  by rewrite (fh_rep_dom _ _ _ Hr).
Qed.

Lemma fh_rep_key_inj G s a f g x k :
  rep_nodes G s a → G !! f = Some g → x ∈ g.1.2 → key_at s x k →
  keyToNodeMap s !! k = Some x.
Proof.
  intros Hr Hg Hx Hk. destruct (rep_mapped _ _ _ Hr _ _ _ Hg Hx) as (k' & Hk' & Hc).
  unfold key_at in *. congruence.
Qed.

Lemma cells_real g x : x ∈ g.1.2 → x ∈ cells g.
Proof. unfold cells. set_solver. Qed.

Lemma cells_without x g y : y ∈ cells (without x g) → y ∈ cells g.
Proof.
  unfold cells, without. simpl.
  rewrite !elem_of_cons, !elem_of_app, elem_of_unlink. naive_solver.
Qed.

Lemma ends_without x : ends ∘ without x = ends.
Proof. done. Qed.

(** The node of a stored key, in the list where it is. *)
Lemma fh_unlink_keys G s a k x f g ks :
  rep_nodes G s a → keyToNodeMap s !! k = Some x →
  G !! f = Some g → Forall2 (key_at s) g.1.2 ks →
  Forall2 (key_at s) (unlink x g.1.2) (unlink k ks).
Proof.
  intros Hr Hk Hg HF. destruct (rep_some _ _ _ Hr _ _ Hk) as (_ & Hkx & _).
  apply Forall2_unlink; [done|].
  intros y k0 Hy Hk0. split.
  - intros ->. pose proof (fh_rep_key_inj _ _ _ _ _ _ _ Hr Hg Hy Hk0). congruence.
  - intros ->. unfold key_at in *. congruence.
Qed.

(** [removeNode(node)] unlinks the node from its list and leaves the other
    lists as they are. *)
Lemma fh_removeNode_sim G s a k x f g :
  rep_nodes G s a → keyToNodeMap s !! k = Some x →
  G !! f = Some g → x ∈ g.1.2 →
  ∃ h', removeNode x s = Ok (set_links h' s) ∧
    rep_nodes (without x <$> G) (set_links h' s) (LFU.removeNode k a).
Proof.
  intros Hr Hk Hg Hx.
  destruct (rep_list _ _ _ Hr _ _ Hg) as (ks & Hks & Hdll & HF).
  destruct (remove_spec _ _ _ _ x Hdll Hx) as (h' & Hrm & Hdll' & Hframe).
  exists h'. split; [unfold removeNode; by rewrite Hrm|].
  split; simpl.
  - rewrite (rep_fm _ _ _ Hr). by rewrite <- map_fmap_compose.
  - intros f' g'' Hg''. apply lookup_fmap_Some in Hg'' as (g' & <- & Hg').
    destruct (rep_list _ _ _ Hr _ _ Hg') as (ks' & Hks' & Hdll0 & HF').
    exists (unlink k ks'). rewrite lookup_unlink_map, Hks'. split; [done|].
    split; [|by apply (fh_unlink_keys _ _ _ _ _ _ _ _ Hr Hk Hg')].
    simpl. destruct (decide (f' = f)) as [->|Hne].
    + by replace g' with g by congruence.
    + assert (Hx' : x ∉ g'.1.2).
      { intros Hx'. apply Hne.
        by apply (rep_disjoint _ _ _ Hr f' f g' g x); [..|apply cells_real|apply cells_real]. }
      rewrite unlink_notin by done.
      apply (is_dll_frame (links s)); [done|]. apply Hframe.
      intros y Hy Hy'. apply Hne.
      apply (rep_disjoint _ _ _ Hr f' f g' g y); [done|done| |done].
      unfold cells. rewrite elem_of_app in Hy. rewrite elem_of_cons, elem_of_app.
      rewrite !elem_of_cons, elem_of_app in Hy. set_solver.
  - intros f'. rewrite lookup_fmap, lookup_unlink_map.
    destruct (G !! f') eqn:E; [done|]. intros _. by rewrite (rep_nolist _ _ _ Hr _ E).
  - intros f1 f2 g1 g2 y Hg1 Hg2 Hy1 Hy2.
    apply lookup_fmap_Some in Hg1 as (g1' & <- & Hg1).
    apply lookup_fmap_Some in Hg2 as (g2' & <- & Hg2).
    apply (rep_disjoint _ _ _ Hr f1 f2 g1' g2' y); try done; by eapply cells_without.
  - apply Hr.
  - apply Hr.
  - intros f' g'' y Hg'' Hy. apply lookup_fmap_Some in Hg'' as (g' & <- & Hg').
    simpl in Hy. apply elem_of_unlink in Hy as [_ Hy].
    by apply (rep_mapped _ _ _ Hr _ _ _ Hg').
  - intros f' g'' y Hg'' Hy. apply lookup_fmap_Some in Hg'' as (g' & <- & Hg').
    apply (rep_alloc _ _ _ Hr _ _ _ Hg'). by eapply cells_without.
  - apply Hr.
  - apply Hr.
Qed.

(** [node.frequency = f'] and [node.value = v] on the node of a stored
    key. *)
Lemma fh_set_frequency_sim G s a k x v f' :
  rep_nodes G s a → keyToNodeMap s !! k = Some x → hvalue s !! x = Some v →
  rep_nodes G (set_frequency x f' s)
    (LFU.set_nodes (<[k := {| LFU.key := k; LFU.value := v; LFU.frequency := f' |}]>
                      (LFU.keyToNodeMap a)) a).
Proof.
  intros Hr Hk Hv. split; simpl; try apply Hr.
  - intros k' x' Hk'.
    destruct (rep_some _ _ _ Hr _ _ Hk') as (Hlt & Hkx' & v' & fr' & Hv' & Hf' & Ha').
    split; [done|]. split; [exact Hkx'|].
    destruct (decide (k' = k)) as [->|Hne].
    + assert (x' = x) as -> by exact (same_node _ _ _ _ Hk' Hk).
      exists v, f'. rewrite !lookup_insert_eq. split; [done|]. split; [done|]. done.
    + assert (x' ≠ x).
      { intros ->. destruct (rep_some _ _ _ Hr _ _ Hk) as (_ & Hkx & _).
        unfold key_at in *. congruence. }
      exists v', fr'. by rewrite !lookup_insert_ne.
  - intros k' Hk'. rewrite lookup_insert_ne; [by apply Hr|]. intros <-. congruence.
Qed.

Lemma fh_set_value_sim G s a k x v fr :
  rep_nodes G s a → keyToNodeMap s !! k = Some x → hfrequency s !! x = Some fr →
  rep_nodes G (set_value x v s)
    (LFU.set_nodes (<[k := {| LFU.key := k; LFU.value := v; LFU.frequency := fr |}]>
                      (LFU.keyToNodeMap a)) a).
Proof.
  intros Hr Hk Hv. split; simpl; try apply Hr.
  - intros k' x' Hk'.
    destruct (rep_some _ _ _ Hr _ _ Hk') as (Hlt & Hkx' & v' & fr' & Hv' & Hf' & Ha').
    split; [done|]. split; [exact Hkx'|].
    destruct (decide (k' = k)) as [->|Hne].
    + assert (x' = x) as -> by exact (same_node _ _ _ _ Hk' Hk).
      exists v, fr. rewrite !lookup_insert_eq. split; [done|]. split; [done|]. done.
    + assert (x' ≠ x).
      { intros ->. destruct (rep_some _ _ _ Hr _ _ Hk) as (_ & Hkx & _).
        unfold key_at in *. congruence. }
      exists v', fr'. by rewrite !lookup_insert_ne.
  - intros k' Hk'. rewrite lookup_insert_ne; [by apply Hr|]. intros <-. congruence.
Qed.

(** [frequencyToListMap.remove(f)] *)
Lemma fh_delete_list_sim G s a f :
  rep_nodes G s a →
  rep_nodes (delete f G) (set_lists (delete f (frequencyToListMap s)) s)
    (LFU.set_lists (delete f (LFU.frequencyToListMap a)) a).
Proof.
  intros Hr. split; simpl; try apply Hr.
  - rewrite (rep_fm _ _ _ Hr). by rewrite fmap_delete.
  - intros f' g. rewrite lookup_delete_Some. intros [Hne Hg].
    rewrite lookup_delete_ne by done. by apply (rep_list _ _ _ Hr).
  - intros f'. rewrite lookup_delete_None. intros [<-|Hg].
    + apply lookup_delete_eq.
    + apply lookup_delete_None. right. by apply (rep_nolist _ _ _ Hr).
  - intros f1 f2 g1 g2 y [_ Hg1]%lookup_delete_Some [_ Hg2]%lookup_delete_Some.
    by apply (rep_disjoint _ _ _ Hr).
  - intros f' g y [_ Hg]%lookup_delete_Some. by apply (rep_mapped _ _ _ Hr _ _ _ Hg).
  - intros f' g y [_ Hg]%lookup_delete_Some. by apply (rep_alloc _ _ _ Hr _ _ _ Hg).
Qed.

Lemma fh_set_min_sim G s a m :
  rep_nodes G s a → rep_nodes G (set_min m s) (LFU.set_min m a).
Proof. intros Hr. split; simpl; try apply Hr. done. Qed.

(** [keyToNodeMap.remove(key)] for a key whose node is in no list. *)
Lemma fh_delete_key_sim G s a k x :
  rep_nodes G s a → keyToNodeMap s !! k = Some x →
  (∀ f g, G !! f = Some g → x ∉ g.1.2) →
  rep_nodes G (set_nodes (delete k (keyToNodeMap s)) s)
    (LFU.set_nodes (delete k (LFU.keyToNodeMap a)) a).
Proof.
  intros Hr Hk Hout. split; simpl; try apply Hr.
  - intros k' x'. rewrite lookup_delete_Some. intros [Hne Hk'].
    destruct (rep_some _ _ _ Hr _ _ Hk') as (Hlt & Hkx' & v' & fr' & Hv' & Hf' & Ha').
    split; [done|]. split; [exact Hkx'|].
    exists v', fr'. by rewrite lookup_delete_ne.
  - intros k'. rewrite lookup_delete_None. intros [<-|Hk'].
    + apply lookup_delete_eq.
    + apply lookup_delete_None. right. by apply (rep_none _ _ _ Hr).
  - intros f g y Hg Hy.
    destruct (rep_mapped _ _ _ Hr _ _ _ Hg Hy) as (k' & Hky & Hc').
    exists k'. split; [exact Hky|]. rewrite lookup_delete_ne; [done|].
    intros <-. assert (y = x) as -> by exact (same_node _ _ _ _ Hc' Hk). by apply (Hout _ _ Hg).
Qed.

(** The check [list.head.next == list.tail] *)
Lemma fh_isEmpty_sim G s a f g ks :
  rep_nodes G s a → G !! f = Some g → LFU.frequencyToListMap a !! f = Some ks →
  Dll.isEmpty g.1.1 g.2 (links s) = LFU.isEmptyList ks.
Proof.
  intros Hr Hg Hks.
  destruct (rep_list _ _ _ Hr _ _ Hg) as (ks' & Hks' & Hdll & HF).
  assert (ks' = ks) as -> by congruence.
  pose proof (isEmpty_spec _ _ _ _ Hdll) as He.
  destruct HF as [|y k0 l ks0 HR HF]; simpl.
  - by apply He.
  - destruct (Dll.isEmpty _ _ _); [|done]. by destruct He as [He _]; specialize (He eq_refl).
Qed.

(** [new CacheNode(key, value)] for an absent key, and
    [keyToNodeMap.put(key, newNode)]. *)
Lemma fh_new_node_sim G s a k v :
  rep_nodes G s a → keyToNodeMap s !! k = None →
  rep_nodes G
    (set_nodes (<[k := fresh s]> (keyToNodeMap s)) (newCacheNode k v s).2)
    (LFU.set_nodes (<[k := LFU.newCacheNode k v]> (LFU.keyToNodeMap a)) a).
Proof.
  intros Hr Hk. set (x := fresh s).
  assert (Hx : ∀ f g y, G !! f = Some g → y ∈ cells g → y ≠ x).
  { intros f g y Hg Hy ->. pose proof (rep_alloc _ _ _ Hr _ _ _ Hg Hy). unfold x in *. lia. }
  split; simpl; fold x; try apply Hr.
  - intros f g Hg. destruct (rep_list _ _ _ Hr _ _ Hg) as (ks & Hks & Hdll & HF).
    exists ks. split; [done|]. split.
    + apply (is_dll_frame (links s)); [done|].
      split; intros y Hy; simpl; apply lookup_delete_ne; apply not_eq_sym;
        apply (Hx _ _ _ Hg); unfold cells; set_solver.
    + apply (fh_Forall2_key_at s); [done|].
      intros y Hy. simpl. apply lookup_insert_ne, not_eq_sym.
      by apply (Hx _ _ _ Hg), cells_real.
  - intros k' x'. destruct (decide (k' = k)) as [->|Hne].
    + rewrite lookup_insert_eq. intros [= <-].
      split; [lia|]. split; [apply lookup_insert_eq|].
      exists v, 1. by rewrite !lookup_insert_eq.
    + rewrite lookup_insert_ne by done. intros Hk'.
      destruct (rep_some _ _ _ Hr _ _ Hk') as (Hlt & Hkx' & v' & fr' & Hv' & Hf' & Ha').
      assert (x' ≠ x) by (unfold x; lia).
      split; [fold x in Hlt; lia|]. split.
      * unfold key_at. simpl. by rewrite lookup_insert_ne.
      * exists v', fr'. by rewrite !lookup_insert_ne.
  - intros k'. destruct (decide (k' = k)) as [->|Hne].
    + by rewrite lookup_insert_eq.
    + rewrite !lookup_insert_ne by done. apply Hr.
  - intros f g y Hg Hy.
    destruct (rep_mapped _ _ _ Hr _ _ _ Hg Hy) as (k' & Hky & Hc').
    pose proof (Hx _ _ _ Hg (cells_real _ _ Hy)).
    exists k'. split.
    + unfold key_at. simpl. by rewrite lookup_insert_ne.
    + rewrite lookup_insert_ne; [done|]. intros <-. congruence.
  - intros f g y Hg Hy. pose proof (rep_alloc _ _ _ Hr _ _ _ Hg Hy). fold x in H. lia.
Qed.

(** [frequencyToListMap.put(freq, new DoublyLinkedList())] *)
Lemma fh_new_list_sim G s a f :
  rep_nodes G s a → G !! f = None →
  rep_nodes (<[f := (fresh s, [], Pos.succ (fresh s))]> G)
    (set_lists (<[f := (newDoublyLinkedList s).1]>
                  (frequencyToListMap (newDoublyLinkedList s).2))
       (newDoublyLinkedList s).2)
    (LFU.set_lists (<[f := []]> (LFU.frequencyToListMap a)) a).
Proof.
  intros Hr Hf. set (d1 := fresh s). set (d2 := Pos.succ d1).
  assert (Hd : ∀ f' g y, G !! f' = Some g → y ∈ cells g → y ≠ d1 ∧ y ≠ d2).
  { intros f' g y Hg Hy. pose proof (rep_alloc _ _ _ Hr _ _ _ Hg Hy).
    unfold d2, d1 in *. lia. }
  split; simpl; fold d1; fold d2; try apply Hr.
  - rewrite fmap_insert. by rewrite (rep_fm _ _ _ Hr).
  - intros f' g. destruct (decide (f' = f)) as [->|Hne].
    + rewrite lookup_insert_eq. intros [= <-]. exists [].
      rewrite lookup_insert_eq. split; [done|]. split; [|constructor].
      apply init_spec. simpl. apply Pos.succ_discr.
    + rewrite !lookup_insert_ne by done. intros Hg.
      destruct (rep_list _ _ _ Hr _ _ Hg) as (ks & Hks & Hdll & HF).
      exists ks. split; [done|]. split.
      * apply (is_dll_frame (links s)); [done|].
        split; intros y Hy; simpl;
          (destruct (Hd f' g y Hg) as [Hy1 Hy2]; [unfold cells; set_solver|]).
        -- rewrite lookup_insert_ne by done. by rewrite !lookup_delete_ne.
        -- rewrite lookup_insert_ne by done. by rewrite !lookup_delete_ne.
      * apply (fh_Forall2_key_at s); [done|].
        intros y Hy. simpl.
        destruct (Hd f' g y Hg (cells_real _ _ Hy)) as [Hy1 Hy2].
        by rewrite !lookup_insert_ne.
  - intros f'. destruct (decide (f' = f)) as [->|Hne].
    + by rewrite lookup_insert_eq.
    + rewrite !lookup_insert_ne by done. apply Hr.
  - intros f1 f2 g1 g2 y.
    destruct (decide (f1 = f)) as [->|Hne1], (decide (f2 = f)) as [->|Hne2]; [done|..].
    + rewrite lookup_insert_eq, lookup_insert_ne by done. intros [= <-] Hg2 Hy1 Hy2.
      destruct (Hd _ _ _ Hg2 Hy2). unfold cells in Hy1. simpl in Hy1. set_solver.
    + rewrite lookup_insert_eq, lookup_insert_ne by done. intros Hg1 [= <-] Hy1 Hy2.
      destruct (Hd _ _ _ Hg1 Hy1). unfold cells in Hy2. simpl in Hy2. set_solver.
    + rewrite !lookup_insert_ne by done. apply Hr.
  - intros k x Hk.
    destruct (rep_some _ _ _ Hr _ _ Hk) as (Hlt & Hkx & v' & fr' & Hv' & Hf' & Ha').
    fold d1 in Hlt. assert (x ≠ d1 ∧ x ≠ d2) as [? ?] by (unfold d2; lia).
    split; [unfold d2; lia|]. split.
    + unfold key_at. simpl. by rewrite !lookup_insert_ne.
    + exists v', fr'. by rewrite !lookup_insert_ne.
  - intros f' g y. destruct (decide (f' = f)) as [->|Hne].
    + rewrite lookup_insert_eq. intros [= <-]. simpl. by intros ?%elem_of_nil.
    + rewrite lookup_insert_ne by done. intros Hg Hy.
      destruct (rep_mapped _ _ _ Hr _ _ _ Hg Hy) as (k' & Hky & Hc').
      destruct (Hd _ _ _ Hg (cells_real _ _ Hy)).
      exists k'. split; [|done]. unfold key_at. simpl. by rewrite !lookup_insert_ne.
  - intros f' g y. destruct (decide (f' = f)) as [->|Hne].
    + rewrite lookup_insert_eq. intros [= <-]. unfold cells. simpl.
      rewrite !elem_of_cons. intros [->|[->|?%elem_of_nil]]; [unfold d2; lia..|done].
    + rewrite lookup_insert_ne by done. intros Hg Hy.
      pose proof (rep_alloc _ _ _ Hr _ _ _ Hg Hy). fold d1 in H. unfold d2. lia.
Qed.

Lemma cells_with_first x g y : y ∈ cells (with_first x g) ↔ y = x ∨ y ∈ cells g.
Proof.
  unfold cells, with_first. simpl.
  rewrite !elem_of_cons, !elem_of_app, !elem_of_cons. naive_solver.
Qed.

(** Linking the node of a stored key, which is in no list, at the head of
    the list of frequency [f]. *)
Lemma fh_link_sim G s a k x f g ks :
  rep_nodes G s a → keyToNodeMap s !! k = Some x →
  G !! f = Some g → LFU.frequencyToListMap a !! f = Some ks →
  (∀ f' g', G !! f' = Some g' → x ∉ cells g') →
  ∃ h', Dll.addAfterHead g.1.1 x (links s) = Ok h' ∧
    rep_nodes (<[f := with_first x g]> G) (set_links h' s)
      (LFU.set_lists (<[f := k :: ks]> (LFU.frequencyToListMap a)) a).
Proof.
  intros Hr Hk Hg Hks Hout.
  destruct (rep_list _ _ _ Hr _ _ Hg) as (ks' & Hks' & Hdll & HF).
  assert (ks' = ks) as -> by congruence.
  destruct (rep_some _ _ _ Hr _ _ Hk) as (Hlt & Hkx & _).
  destruct (addAfterHead_spec _ _ _ _ _ Hdll (Hout _ _ Hg)) as (h' & Hadd & Hdll' & Hframe).
  exists h'. split; [done|].
  split; simpl; try apply Hr.
  - rewrite fmap_insert, (rep_fm _ _ _ Hr). symmetry. apply insert_id.
    by rewrite lookup_fmap, Hg.
  - intros f' g'. destruct (decide (f' = f)) as [->|Hne].
    + rewrite lookup_insert_eq. intros [= <-]. exists (k :: ks).
      rewrite lookup_insert_eq. split; [done|]. split; [done|]. by constructor.
    + rewrite !lookup_insert_ne by done. intros Hg'.
      destruct (rep_list _ _ _ Hr _ _ Hg') as (ks' & Hks'' & Hdll0 & HF').
      exists ks'. split; [done|]. split; [|done].
      apply (is_dll_frame (links s)); [done|]. apply Hframe.
      intros y Hy Hy'.
      assert (Hc : y ∈ cells g').
      { unfold cells. rewrite elem_of_app, !elem_of_cons in Hy.
        rewrite elem_of_cons, elem_of_app. set_solver. }
      apply elem_of_cons in Hy' as [->|Hy'].
      * by apply (Hout _ _ Hg').
      * apply Hne. by apply (rep_disjoint _ _ _ Hr f' f g' g y).
  - intros f'. destruct (decide (f' = f)) as [->|Hne].
    + by rewrite lookup_insert_eq.
    + rewrite !lookup_insert_ne by done. apply Hr.
  - intros f1 f2 g1 g2 y.
    destruct (decide (f1 = f)) as [->|Hne1], (decide (f2 = f)) as [->|Hne2]; [done|..].
    + rewrite lookup_insert_eq, lookup_insert_ne by done.
      intros [= <-] Hg2 [->|Hy1]%cells_with_first Hy2.
      * by destruct (Hout _ _ Hg2).
      * by apply (rep_disjoint _ _ _ Hr f f2 g g2 y).
    + rewrite lookup_insert_eq, lookup_insert_ne by done.
      intros Hg1 [= <-] Hy1 [->|Hy2]%cells_with_first.
      * by destruct (Hout _ _ Hg1).
      * by apply (rep_disjoint _ _ _ Hr f1 f g1 g y).
    + rewrite !lookup_insert_ne by done. apply Hr.
  - intros f' g' y. destruct (decide (f' = f)) as [->|Hne].
    + rewrite lookup_insert_eq. intros [= <-]. simpl. intros [->|Hy]%elem_of_cons.
      * by exists k.
      * by apply (rep_mapped _ _ _ Hr _ _ _ Hg).
    + rewrite lookup_insert_ne by done. apply Hr.
  - intros f' g' y. destruct (decide (f' = f)) as [->|Hne].
    + rewrite lookup_insert_eq. intros [= <-] [->|Hy]%cells_with_first; [done|].
      by apply (rep_alloc _ _ _ Hr _ _ _ Hg).
    + rewrite lookup_insert_ne by done. apply Hr.
Qed.

(** [addNodeToFrequencyList(node)] on the node of a stored key that is in
    no list. *)
Lemma fh_addNode_sim G s a k x v fr :
  rep_nodes G s a → keyToNodeMap s !! k = Some x →
  hfrequency s !! x = Some fr →
  (∀ f g, G !! f = Some g → x ∉ cells g) →
  ∃ s', addNodeToFrequencyList x s = Ok s' ∧
    rep s' (LFU.addNodeToFrequencyList
              {| LFU.key := k; LFU.value := v; LFU.frequency := fr |} a) ∧
    hvalue s' !! x = hvalue s !! x.
Proof.
  intros Hr Hk Hfr Hout.
  unfold addNodeToFrequencyList, LFU.addNodeToFrequencyList. rewrite Hfr. simpl.
  destruct (G !! fr) as [g|] eqn:Hg.
  - destruct (rep_list _ _ _ Hr _ _ Hg) as (ks & Hks & _).
    assert (Hfm : frequencyToListMap s !! fr = Some (ends g))
      by by rewrite (rep_fm _ _ _ Hr), lookup_fmap, Hg.
    rewrite Hfm, Hks. simpl. rewrite Hfm. simpl.
    destruct (fh_link_sim _ _ _ _ _ _ _ _ Hr Hk Hg Hks Hout) as (h' & Hadd & Hr').
    simpl in Hadd. rewrite Hadd. simpl. rewrite Hks. simpl.
    eexists. split; [reflexivity|]. split; [by eexists|done].
  - assert (Hfm : frequencyToListMap s !! fr = None)
      by by rewrite (rep_fm _ _ _ Hr), lookup_fmap, Hg.
    rewrite Hfm, (rep_nolist _ _ _ Hr _ Hg). simpl.
    rewrite !lookup_insert_eq. simpl.
    pose proof (fh_new_list_sim _ _ _ _ Hr Hg) as Hr1. simpl in Hr1.
    destruct (rep_some _ _ _ Hr _ _ Hk) as (Hlt & _).
    edestruct (fh_link_sim _ _ _ k x fr (fresh s, [], Pos.succ (fresh s)) [] Hr1)
      as (h' & Hadd & Hr').
    { exact Hk. }
    { apply lookup_insert_eq. }
    { simpl. apply lookup_insert_eq. }
    { intros f' g'. destruct (decide (f' = fr)) as [->|Hne].
      - rewrite lookup_insert_eq. intros [= <-]. unfold cells. simpl.
        rewrite !elem_of_cons. intros [->|[->|?%elem_of_nil]]; [lia..|done].
      - rewrite lookup_insert_ne by done. apply Hout. }
    simpl in Hadd. rewrite Hadd. simpl.
    eexists. split; [reflexivity|]. split.
    + eexists. unfold LFU.set_lists in *. simpl in Hr'.
      rewrite !insert_insert_eq in Hr'. rewrite insert_insert_eq. exact Hr'.
    + simpl. rewrite !lookup_insert_ne; [done|lia..].
Qed.

(** Once unlinked, a node is in no list. *)
Lemma fh_removed_out G s a fr g x :
  rep_nodes G s a → G !! fr = Some g → x ∈ g.1.2 →
  ∀ f' g', (without x <$> G) !! f' = Some g' → x ∉ cells g'.
Proof.
  intros Hr Hg Hx f' g' Hg'. apply lookup_fmap_Some in Hg' as (g0 & <- & Hg0).
  destruct (decide (f' = fr)) as [->|Hne].
  - assert (g0 = g) as -> by congruence.
    destruct (rep_list _ _ _ Hr _ _ Hg) as (ks & _ & [Hnd _] & _).
    apply NoDup_cons in Hnd as [Hhd Hnd]. apply NoDup_app in Hnd as (_ & Htl & _).
    unfold cells, without. simpl.
    rewrite elem_of_cons, elem_of_app, elem_of_unlink.
    intros [->|[[? _]|Ht]]; [set_solver|done|by apply (Htl x)].
  - intros Hc. apply Hne.
    apply (rep_disjoint _ _ _ Hr f' fr g0 g x); [done|done| |by apply cells_real].
    by eapply cells_without.
Qed.

(** [updateFrequency(node)] on the node of a stored key. *)
Lemma fh_updateFrequency_sim G s a k x v fr g :
  rep_nodes G s a → keyToNodeMap s !! k = Some x →
  hvalue s !! x = Some v → hfrequency s !! x = Some fr →
  G !! fr = Some g → x ∈ g.1.2 →
  ∃ s' a', updateFrequency x s = Ok s' ∧
    LFU.updateFrequency {| LFU.key := k; LFU.value := v; LFU.frequency := fr |} a = Ok a' ∧
    rep s' a' ∧ hvalue s' !! x = Some v.
Proof.
  intros Hr Hk Hv Hfr Hg Hx.
  destruct (rep_list _ _ _ Hr _ _ Hg) as (ks & Hks & _).
  destruct (fh_removeNode_sim _ _ _ _ _ _ _ Hr Hk Hg Hx) as (h1 & Hrm & Hr1).
  pose proof (fh_removed_out _ _ _ _ _ _ Hr Hg Hx) as Hout.
  pose proof (fh_set_frequency_sim _ _ _ _ _ _ (incr fr) Hr1 Hk Hv) as Hr2.
  assert (Hg1 : (without x <$> G) !! fr = Some (without x g))
    by by rewrite lookup_fmap, Hg.
  assert (Hks1 : LFU.frequencyToListMap (LFU.removeNode k a) !! fr = Some (unlink k ks))
    by (simpl; by rewrite lookup_unlink_map, Hks).
  pose proof (fh_isEmpty_sim _ _ _ _ _ _ Hr2 Hg1 Hks1) as Hemp.
  unfold updateFrequency, LFU.updateFrequency. rewrite Hfr. cbn [bind deref].
  rewrite Hrm. cbn [bind]. simpl hfrequency. rewrite Hfr. cbn [bind deref].
  simpl LFU.key. simpl LFU.frequency. simpl LFU.value.
  assert (Hfm : frequencyToListMap (set_frequency x (incr fr) (set_links h1 s)) !! fr =
                Some (ends g)) by (simpl; by rewrite (rep_fm _ _ _ Hr), lookup_fmap, Hg).
  rewrite Hfm. cbn [bind deref].
  change (LFU.frequencyToListMap (LFU.set_nodes ?m ?c)) with (LFU.frequencyToListMap c).
  rewrite Hks1. cbn [bind deref].
  change (ends g).1 with (without x g).1.1. change (ends g).2 with (without x g).2.
  rewrite Hemp.
  assert (Hfin : ∀ G3 s3 a3,
    rep_nodes G3 s3 a3 →
    keyToNodeMap s3 = keyToNodeMap s → hvalue s3 = hvalue s →
    hfrequency s3 !! x = Some (incr fr) →
    (∀ f' g', G3 !! f' = Some g' → x ∉ cells g') →
    ∃ s' a', addNodeToFrequencyList x s3 = Ok s' ∧
      Ok (LFU.addNodeToFrequencyList
            {| LFU.key := k; LFU.value := v; LFU.frequency := incr fr |} a3) = Ok a' ∧
      rep s' a' ∧ hvalue s' !! x = Some v).
  { intros G3 s3 a3 Hr3 Hm3 Hv3 Hf3 Hout3.
    destruct (fh_addNode_sim _ _ _ k x v (incr fr) Hr3) as (s' & Hs' & Hrep & Hval);
      [by rewrite Hm3|done|done|].
    eexists s', _. split; [done|]. split; [reflexivity|]. split; [done|].
    by rewrite Hval, Hv3. }
  destruct (LFU.isEmptyList (unlink k ks)).
  - pose proof (fh_delete_list_sim _ _ _ fr Hr2) as Hr3.
    assert (Hout3 : ∀ f' g', delete fr (without x <$> G) !! f' = Some g' → x ∉ cells g').
    { intros f' g' [_ Hg']%lookup_delete_Some. by apply (Hout f' g'). }
    simpl minFrequency. simpl LFU.minFrequency. rewrite (rep_min _ _ _ Hr).
    destruct (minFrequency s =? fr).
    + apply (Hfin _ _ _ (fh_set_min_sim _ _ _ _ Hr3)); try done.
      simpl. apply lookup_insert_eq.
    + apply (Hfin _ _ _ Hr3); try done. simpl. apply lookup_insert_eq.
  - apply (Hfin _ _ _ Hr2); try done. simpl. apply lookup_insert_eq.
Qed.

(** The node of a stored key is in the list of its frequency. *)
Lemma fh_own_list G s a h k x fr :
  rep_nodes G s a → LFU.inv_lists h a →
  keyToNodeMap s !! k = Some x → hfrequency s !! x = Some fr →
  ∃ g, G !! fr = Some g ∧ x ∈ g.1.2.
Proof.
  intros Hr Hi Hk Hfr.
  destruct (rep_some _ _ _ Hr _ _ Hk) as (_ & Hkx & v & fr' & _ & Hfr' & Ha).
  assert (fr' = fr) as -> by congruence.
  destruct (LFUFacts.inv_own_list _ _ _ _ Hi Ha) as (ks & Hks & Hin). simpl in Hks.
  destruct (G !! fr) as [g|] eqn:Hg.
  2:{ rewrite (rep_nolist _ _ _ Hr _ Hg) in Hks. done. }
  exists g. split; [done|].
  destruct (rep_list _ _ _ Hr _ _ Hg) as (ks' & Hks' & _ & HF).
  assert (ks' = ks) as -> by congruence.
  destruct (Forall2_elem_of_r _ _ _ _ HF Hin) as (y & Hy & Hky).
  pose proof (fh_rep_key_inj _ _ _ _ _ _ _ Hr Hg Hy Hky) as Hy'.
  by replace x with y by exact (same_node _ _ _ _ Hy' Hk).
Qed.

(** [get] on the heap does what [get] on the list does, and returns the
    same value. *)
Lemma fh_get_sim h s a k :
  rep s a → LFU.inv_lists h a →
  ∃ r s' a', get k s = Ok (r, s') ∧ LFU.get k a = Ok (r, a') ∧ rep s' a'.
Proof.
  intros [G Hr] Hi. unfold get, LFU.get.
  destruct (keyToNodeMap s !! k) as [x|] eqn:Hk.
  - destruct (rep_some _ _ _ Hr _ _ Hk) as (_ & _ & v & fr & Hv & Hfr & ->).
    destruct (fh_own_list _ _ _ _ _ _ _ Hr Hi Hk Hfr) as (g & Hg & Hx).
    destruct (fh_updateFrequency_sim _ _ _ _ _ _ _ _ Hr Hk Hv Hfr Hg Hx)
      as (s' & a' & -> & -> & Hr' & Hv').
    simpl. rewrite Hv'. simpl. eauto 10.
  - rewrite (rep_none _ _ _ Hr _ Hk).
    eexists _, _, _. split; [reflexivity|]. split; [reflexivity|]. by exists G.
Qed.

(** The eviction block of [put] on a cache that stores a key. *)
Lemma fh_evict_sim h s a :
  rep s a → LFU.inv h a → LFU.keyToNodeMap a ≠ ∅ →
  ∃ s' a', evict s = Ok s' ∧ LFU.evict a = Ok a' ∧ rep s' a' ∧
    ∀ k, keyToNodeMap s !! k = None → keyToNodeMap s' !! k = None.
Proof.
  intros [G Hr] [Hi Hmin _] Hne.
  destruct (Hmin Hne) as [ks Hks].
  pose proof (LFU.inv_nonempty _ _ Hi _ _ Hks) as Hnil.
  destruct (last ks) as [kv|] eqn:Hlast; [|by apply last_None in Hlast].
  rewrite (rep_min _ _ _ Hr) in Hks.
  destruct (G !! minFrequency s) as [g|] eqn:Hg.
  2:{ rewrite (rep_nolist _ _ _ Hr _ Hg) in Hks. done. }
  destruct (rep_list _ _ _ Hr _ _ Hg) as (ks' & Hks' & Hdll & HF).
  assert (ks' = ks) as -> by congruence.
  destruct (Forall2_last_r _ _ _ _ HF Hlast) as (y & Hy & Hky).
  assert (Hyin : y ∈ g.1.2) by by apply last_Some_elem_of.
  pose proof (fh_rep_key_inj _ _ _ _ _ _ _ Hr Hg Hyin Hky) as Hkv.
  destruct (fh_removeNode_sim _ _ _ _ _ _ _ Hr Hkv Hg Hyin) as (h' & Hrm & Hr1).
  pose proof (fh_removed_out _ _ _ _ _ _ Hr Hg Hyin) as Hout.
  assert (Hr2 := fh_delete_key_sim _ _ _ _ _ Hr1 Hkv).
  assert (Hg1 : (without y <$> G) !! minFrequency s = Some (without y g))
    by by rewrite lookup_fmap, Hg.
  assert (Hks1 : LFU.frequencyToListMap
                   (LFU.set_nodes (delete kv (LFU.keyToNodeMap (LFU.removeNode kv a)))
                      (LFU.removeNode kv a)) !! minFrequency s = Some (unlink kv ks))
    by (simpl; by rewrite lookup_unlink_map, Hks).
  lapply Hr2.
  2:{ intros f' g' Hg' Hin. by apply (Hout f' g' Hg'), cells_real. }
  clear Hr2. intros Hr2.
  pose proof (fh_isEmpty_sim _ _ _ _ _ _ Hr2 Hg1 Hks1) as Hemp.
  unfold evict, LFU.evict.
  rewrite (rep_min _ _ _ Hr), Hks. cbn [bind deref]. rewrite Hlast. cbn [bind deref].
  assert (Hfm : frequencyToListMap s !! minFrequency s = Some (ends g))
    by by rewrite (rep_fm _ _ _ Hr), lookup_fmap, Hg.
  rewrite Hfm. cbn [bind deref].
  change (ends g).2 with g.2.
  rewrite (tailPrev_spec _ _ _ _ Hdll), Hy. cbn [bind deref default from_option id].
  unfold key_at in Hky. rewrite Hky. cbn [bind deref].
  unfold removeNode in *. simpl links in *.
  destruct (Dll.remove y (links s)) as [h1|e] eqn:Hrem; [|done].
  assert (h1 = h') as -> by (unfold set_links in Hrm; simpl in Hrm; congruence).
  cbn [bind]. simpl frequencyToListMap. simpl minFrequency. simpl LFU.frequencyToListMap.
  simpl LFU.minFrequency.
  rewrite Hfm, (rep_min _ _ _ Hr). cbn [bind deref].
  rewrite lookup_unlink_map, Hks. cbn [bind deref fmap option_fmap option_map].
  change (ends g).1 with (without y g).1.1. change (ends g).2 with (without y g).2.
  simpl links. simpl links in Hemp. rewrite Hemp.
  eexists _, _. split; [reflexivity|]. split; [reflexivity|].
  destruct (LFU.isEmptyList (unlink kv ks)).
  - split.
    + eexists. apply (fh_delete_list_sim _ _ _ (minFrequency s) Hr2).
    + intros k Hk. simpl. apply lookup_delete_None. by right.
  - split.
    + eexists. exact Hr2.
    + intros k Hk. simpl. apply lookup_delete_None. by right.
Qed.

(** The insertion of [put], for a key that is not stored. *)
Lemma fh_insert_sim s a k v :
  rep s a → keyToNodeMap s !! k = None →
  ∃ s' a',
    (let '(newNode, s2) := newCacheNode k v s in
     let s3 := set_min 1 s2 in
     let s4 := set_nodes (<[k := newNode]> (keyToNodeMap s3)) s3 in
     addNodeToFrequencyList newNode s4) = Ok s' ∧
    Ok (LFU.addNodeToFrequencyList (LFU.newCacheNode k v)
          (LFU.set_nodes (<[k := LFU.newCacheNode k v]>
                            (LFU.keyToNodeMap (LFU.set_min 1 a)))
             (LFU.set_min 1 a))) = Ok a' ∧
    rep s' a'.
Proof.
  intros [G Hr] Hk.
  pose proof (fh_set_min_sim _ _ _ 1 (fh_new_node_sim _ _ _ _ v Hr Hk)) as Hr1.
  destruct (fh_addNode_sim _ _ _ k (fresh s) v 1 Hr1) as (s' & Hs' & Hrep & _).
  { simpl. apply lookup_insert_eq. }
  { simpl. apply lookup_insert_eq. }
  { intros f g Hg Hin. pose proof (rep_alloc _ _ _ Hr _ _ _ Hg Hin). lia. }
  exists s'. eexists. split; [exact Hs'|]. split; [reflexivity|]. exact Hrep.
Qed.

(** [put] on the heap does what [put] on the list does. *)
Lemma fh_put_sim h s a k v :
  rep s a → LFU.inv h a →
  ∃ s' a', put k v s = Ok s' ∧ LFU.put k v a = Ok a' ∧ rep s' a'.
Proof.
  intros [G Hr] Hinv. unfold put, LFU.put. rewrite (rep_capacity _ _ _ Hr).
  destruct (Z.eqb_spec (capacity s) 0) as [Hcap|Hcap].
  { eexists _, _. split; [reflexivity|]. split; [reflexivity|]. by exists G. }
  destruct (keyToNodeMap s !! k) as [x|] eqn:Hk.
  - destruct (rep_some _ _ _ Hr _ _ Hk) as (_ & _ & v0 & fr & Hv & Hfr & ->).
    destruct (fh_own_list _ _ _ _ _ _ _ Hr (LFU.inv_struct _ _ Hinv) Hk Hfr)
      as (g & Hg & Hx).
    pose proof (fh_set_value_sim _ _ _ _ _ v _ Hr Hk Hfr) as Hr1.
    destruct (fh_updateFrequency_sim _ _ _ k x v fr g Hr1)
      as (s' & a' & Hs' & Ha' & Hr' & _); try done.
    { simpl. apply lookup_insert_eq. }
    exists s', a'. split; [done|]. split; [exact Ha'|done].
  - rewrite (rep_none _ _ _ Hr _ Hk), (fh_rep_size _ _ _ Hr).
    destruct (Z.eqb_spec (hsize (LFU.keyToNodeMap a)) (capacity s)) as [Hfull|Hroom].
    + assert (Hne : LFU.keyToNodeMap a ≠ ∅).
      { intros E. rewrite E in Hfull. unfold hsize in Hfull.
        rewrite map_size_empty in Hfull. simpl in Hfull. lia. }
      destruct (fh_evict_sim h s a (ex_intro _ G Hr) Hinv Hne)
        as (s1 & a1 & -> & -> & Hr1 & Hnone).
      cbn [bind].
      destruct (fh_insert_sim s1 a1 k v Hr1 (Hnone _ Hk)) as (s' & a' & Hs' & Ha' & Hr').
      exists s', a'. split; [exact Hs'|]. split; [exact Ha'|done].
    + cbn [bind].
      destruct (fh_insert_sim s a k v (ex_intro _ G Hr) Hk) as (s' & a' & Hs' & Ha' & Hr').
      exists s', a'. split; [exact Hs'|]. split; [exact Ha'|done].
Qed.

Lemma fh_step_sim h o s a :
  rep s a → LFU.inv h a →
  ∃ s' a', step o s = Ok s' ∧ LFU.step o a = Ok a' ∧ rep s' a'.
Proof.
  intros Hr Hinv. destruct o as [k|k v]; simpl.
  - destruct (fh_get_sim h _ _ k Hr (LFU.inv_struct _ _ Hinv))
      as (r & s' & a' & -> & -> & Hr').
    simpl. eauto.
  - by apply (fh_put_sim h).
Qed.

Lemma fh_run_sim ops : ∀ h s a,
  rep s a → LFU.inv h a →
  ∃ s' a', run ops s = Ok s' ∧ LFU.run ops a = Ok a' ∧ rep s' a'.
Proof.
  induction ops as [|o ops IH]; intros h s a Hr Hinv; simpl; [eauto|].
  destruct (fh_step_sim h o _ _ Hr Hinv) as (s1 & a1 & -> & Ha1 & Hr1).
  destruct (LFUFacts.step_inv h o a Hinv) as (a1' & Ha1' & Hinv1 & _).
  rewrite Ha1 in Ha1'. injection Ha1' as <-. rewrite Ha1. simpl.
  by apply (IH (h ++ [o])).
Qed.

Lemma fh_rep_new cap :
  ∃ s a, new cap = Ok s ∧ LFU.new cap = Ok a ∧ rep s a.
Proof.
  eexists _, _. split; [reflexivity|]. split; [reflexivity|].
  exists ∅. split; simpl; try done.
Qed.

(** Every run of the heap-level cache from its constructor completes, in a
    state that the run of the list-level cache represents. *)
Theorem fh_run_new_sim cap ops :
  ∃ s a, run_new cap ops = Ok s ∧ LFU.run_new cap ops = Ok a ∧ rep s a.
Proof.
  destruct (fh_rep_new cap) as (s0 & a0 & E1 & E2 & Hr).
  unfold run_new, LFU.run_new. rewrite E1, E2. simpl.
  apply (fh_run_sim ops []); [done|].
  unfold LFU.new in E2. injection E2 as <-. apply LFUFacts.inv_new.
Qed.

(** What a client can observe after a run is the same at both levels: the
    stored keys, and the value and the state that any [get] returns. *)
Theorem fh_run_new_observation cap ops :
  ∃ s a, run_new cap ops = Ok s ∧ LFU.run_new cap ops = Ok a ∧
    dom (keyToNodeMap s) = dom (LFU.keyToNodeMap a) ∧
    ∀ k, ∃ r s' a', get k s = Ok (r, s') ∧ LFU.get k a = Ok (r, a') ∧ rep s' a'.
Proof.
  destruct (fh_run_new_sim cap ops) as (s & a & Hs & Ha & Hr).
  destruct (LFUFacts.run_new_inv cap ops) as (a0 & Ha0 & Hinv & _).
  assert (a0 = a) as -> by congruence.
  exists s, a. split; [done|]. split; [done|]. split.
  - destruct Hr as [G Hr]. by apply (fh_rep_dom G).
  - intros k. by apply (fh_get_sim ops), Hinv.
Qed.

End LFUHeapFacts.

(** * Proofs about histories of calls on the caches *)

Module RecencyFacts.
Import Java JavaFacts Recency.

Section recency.
Context `{EqDecision K}.
Implicit Types (h l : list K) (k x y : K).

Lemma rec_last_touch_snoc h x k :
  last_touch (h ++ [x]) k = if decide (x = k) then S (length h) else last_touch h k.
Proof.
  unfold last_touch. rewrite rev_app_distr. simpl. by rewrite length_rev.
Qed.

Lemma rec_touch_rev_le rh k : (touch_rev rh k ≤ length rh)%nat.
Proof.
  induction rh as [|o rh IH]; simpl; [lia|]. case_decide; lia.
Qed.

Lemma rec_last_touch_le h k : (last_touch h k ≤ length h)%nat.
Proof.
  unfold last_touch. rewrite <- (length_rev h). apply rec_touch_rev_le.
Qed.

Lemma rec_sorted_snoc_notin h x l :
  x ∉ l →
  StronglySorted (more_recent h) l →
  StronglySorted (more_recent (h ++ [x])) l.
Proof.
  intros Hk Hs. induction Hs as [|y l Hs IH Hy]; [constructor|].
  apply not_elem_of_cons in Hk as [Hne Hk]. constructor; [by apply IH|].
  rewrite Forall_forall in Hy. apply Forall_forall. intros z Hz.
  specialize (Hy z Hz). unfold more_recent in *. rewrite !rec_last_touch_snoc.
  repeat case_decide; subst; try done; lia.
Qed.

(** The node a call touches goes to the front; the others keep their
    order. *)
Lemma rec_sorted_touch h x l :
  StronglySorted (more_recent h) l →
  StronglySorted (more_recent (h ++ [x])) (x :: unlink x l).
Proof.
  intros Hs. constructor.
  - apply rec_sorted_snoc_notin; [|by apply StronglySorted_unlink].
    rewrite elem_of_unlink. naive_solver.
  - apply Forall_forall. intros y Hy. apply elem_of_unlink in Hy as [Hne _].
    unfold more_recent. rewrite !rec_last_touch_snoc.
    pose proof (rec_last_touch_le h y).
    repeat case_decide; subst; try done; lia.
Qed.

(** The tail of a list ordered by recency is older than every other node
    of the list. *)
Lemma rec_sorted_last_oldest h l x y :
  StronglySorted (more_recent h) l → last l = Some x → y ∈ l → y ≠ x →
  more_recent h y x.
Proof.
  intros Hs Hlast Hy Hne. apply last_Some in Hlast as [l' ->].
  apply elem_of_app in Hy as [Hy|Hy].
  - eapply StronglySorted_app_1_elem_of; [exact Hs|done|].
    by apply list_elem_of_singleton.
  - by apply list_elem_of_singleton in Hy.
Qed.

End recency.

(** *** [LRUCache.java]: the list is ordered by recency *)

Section lru.
Context `{Countable T}.
Implicit Types (c : LRUCache.LRUCache (T:=T)) (k : T) (v : option T).

Lemma lru_step_sorted h o c c' :
  LRUCache.inv c →
  StronglySorted (more_recent h) (LRUCache.chain c) →
  LRUCache.step o c = Ok c' →
  StronglySorted (more_recent (h ++ [lru_key o])) (LRUCache.chain c').
Proof.
  intros Hinv Hs. destruct o as [k|k v]; simpl.
  - destruct (LRUCache.cache c !! k) as [n|] eqn:Hk.
    + rewrite (LRUCacheFacts.lru_get_eq k c n) by done. simpl. intros [= <-]. simpl.
      by apply rec_sorted_touch.
    + unfold LRUCache.get. rewrite Hk. simpl. intros [= <-].
      apply rec_sorted_snoc_notin; [|done].
      rewrite (LRUCache.inv_mem _ Hinv), Hk. by intros [? ?].
  - rewrite LRUCacheFacts.lru_put_eq by done. cbv zeta.
    pose proof (rec_sorted_touch h k _ Hs) as Hs'.
    destruct (_ >? _).
    + destruct (last _) as [victim|]; simpl; [|done]. intros [= <-]. simpl.
      by apply (StronglySorted_unlink _ victim) in Hs'.
    + intros [= <-]. done.
Qed.

Lemma lru_run_sorted ops : ∀ h c c',
  LRUCache.inv c →
  StronglySorted (more_recent h) (LRUCache.chain c) →
  LRUCache.run ops c = Ok c' →
  StronglySorted (more_recent (h ++ (lru_key <$> ops))) (LRUCache.chain c').
Proof.
  induction ops as [|o ops IH]; intros h c c' Hinv Hs; simpl.
  - intros [= <-]. by rewrite app_nil_r.
  - destruct (LRUCacheFacts.lru_step_inv o c Hinv) as (c1 & E1 & Hinv1 & _).
    rewrite E1. simpl. intros Hrun.
    rewrite (cons_middle (lru_key o)), app_assoc.
    apply (IH _ c1); [done| |done]. by apply (lru_step_sorted h o c c1).
Qed.

Lemma lru_run_new_sorted cap ops c :
  LRUCache.run_new cap ops = Ok c →
  LRUCache.inv c ∧ LRUCache.capacity c = cap ∧
  StronglySorted (more_recent (lru_key <$> ops)) (LRUCache.chain c).
Proof.
  intros Hrun.
  destruct (LRUCacheFacts.lru_run_new_inv cap ops) as (c0 & E & Hinv & Hcap).
  assert (c0 = c) as -> by congruence. split; [done|]. split; [done|].
  unfold LRUCache.run_new, LRUCache.new in Hrun. simpl in Hrun.
  apply (lru_run_sorted ops [] _ c) in Hrun; [done| |constructor].
  apply LRUCacheFacts.lru_inv_new.
Qed.

(** A full cache of capacity at least 1 has a last node. *)
Lemma lru_full_last c :
  LRUCache.inv c → 1 ≤ LRUCache.size c →
  ∃ victim, last (LRUCache.chain c) = Some victim ∧
            is_Some (LRUCache.cache c !! victim).
Proof.
  intros Hinv Hsz. destruct (last (LRUCache.chain c)) as [victim|] eqn:Hlast.
  - exists victim. split; [done|]. apply (LRUCache.inv_mem _ Hinv).
    by eapply last_Some_elem_of.
  - apply last_None in Hlast.
    assert (LRUCache.cache c = ∅) as E.
    { apply map_empty. intros x. apply eq_None_not_Some.
      rewrite <- (LRUCache.inv_mem _ Hinv), Hlast. apply not_elem_of_nil. }
    unfold LRUCache.size, hsize in Hsz. rewrite E, map_size_empty in Hsz. lia.
Qed.

(** What [put] does on each of its paths, in a state that keeps the
    invariant. *)
Lemma lru_put_stores k v c :
  LRUCache.inv c → 1 ≤ LRUCache.capacity c →
  ∃ c', LRUCache.put k v c = Ok c' ∧
        LRUCache.cache c' !! k = Some (LRUCache.mkNodeEntry k v).
Proof.
  intros Hinv Hcap. pose proof (LRUCache.inv_size _ Hinv) as Hsz.
  unfold LRUCache.size in Hsz.
  destruct (LRUCache.cache c !! k) as [n|] eqn:Hk.
  - rewrite (LRUCacheFacts.lru_put_present k v c n);
      [|done|by apply (LRUCache.inv_key _ Hinv)|lia].
    eexists. split; [done|]. simpl. by rewrite lookup_insert_eq.
  - destruct (decide (hsize (LRUCache.cache c) + 1 ≤ LRUCache.capacity c)) as [Hr|Hf].
    + rewrite LRUCacheFacts.lru_put_absent_room by done.
      eexists. split; [done|]. simpl. by rewrite lookup_insert_eq.
    + destruct (lru_full_last c Hinv) as (victim & Hlast & Hv).
      { unfold LRUCache.size. lia. }
      assert (victim ≠ k) as Hne.
      { intros ->. rewrite Hk in Hv. by destruct Hv. }
      rewrite (LRUCacheFacts.lru_put_absent_full k v c victim); [|done|lia|].
      * eexists. split; [done|]. simpl.
        rewrite lookup_delete_ne by done. by rewrite lookup_insert_eq.
      * destruct (LRUCache.chain c); [done|]. done.
Qed.

(** With a capacity of 0 or less, [put] on the empty cache leaves it
    empty: the node it links is the one it evicts. *)
Lemma lru_put_capacity_le_0 cap k v :
  cap ≤ 0 →
  LRUCache.put k v (LRUCache.mkLRU (T:=T) ∅ [] cap) = Ok (LRUCache.mkLRU ∅ [] cap).
Proof.
  intros Hcap.
  rewrite (LRUCacheFacts.lru_put_absent_full k v _ k);
    [|apply lookup_empty
     |cbn [LRUCache.cache LRUCache.capacity]; unfold hsize; rewrite map_size_empty; lia
     |done].
  cbn [LRUCache.cache LRUCache.chain LRUCache.capacity]. f_equal. f_equal.
  - by rewrite delete_insert_eq, delete_empty.
  - unfold unlink. by rewrite filter_cons_False by (intros ?; congruence).
Qed.

(** A stored value is the one of the last [put] of its key. *)
Lemma lru_step_fresh h o c c' :
  LRUCache.inv c →
  (∀ k n, LRUCache.cache c !! k = Some n → lru_last_put h k = Some (LRUCache.value n)) →
  LRUCache.step o c = Ok c' →
  ∀ k n, LRUCache.cache c' !! k = Some n →
         lru_last_put (h ++ [o]) k = Some (LRUCache.value n).
Proof.
  intros Hinv Hc Hstep x n. unfold lru_last_put. rewrite foldl_app. simpl.
  fold (lru_last_put h x). destruct o as [k|k v]; simpl in Hstep.
  - destruct (LRUCache.cache c !! k) as [nk|] eqn:Hk.
    + rewrite (LRUCacheFacts.lru_get_eq k c nk) in Hstep by done. simpl in Hstep.
      injection Hstep as <-. simpl. apply Hc.
    + unfold LRUCache.get in Hstep. rewrite Hk in Hstep. simpl in Hstep.
      injection Hstep as <-. apply Hc.
  - rewrite LRUCacheFacts.lru_put_eq in Hstep by done. cbv zeta in Hstep.
    assert (LRUCache.cache (LRUCache.inserted k v c) !! x = Some n →
            (if decide (k = x) then Some v else lru_last_put h x) =
              Some (LRUCache.value n)) as Hins.
    { simpl. rewrite lookup_insert_Some. intros [[-> <-]|[Hne Hx]].
      - by rewrite decide_True.
      - rewrite decide_False by done. by apply Hc. }
    destruct (_ >? _).
    + destruct (last _) as [victim|]; simpl in Hstep; [|done].
      injection Hstep as <-. simpl. rewrite lookup_delete_Some. intros [_ Hx].
      by apply Hins.
    + injection Hstep as <-. done.
Qed.

Lemma lru_run_fresh ops : ∀ h c c',
  LRUCache.inv c →
  (∀ k n, LRUCache.cache c !! k = Some n → lru_last_put h k = Some (LRUCache.value n)) →
  LRUCache.run ops c = Ok c' →
  ∀ k n, LRUCache.cache c' !! k = Some n →
         lru_last_put (h ++ ops) k = Some (LRUCache.value n).
Proof.
  induction ops as [|o ops IH]; intros h c c' Hinv Hc; simpl.
  - intros [= <-]. by rewrite app_nil_r.
  - destruct (LRUCacheFacts.lru_step_inv o c Hinv) as (c1 & E1 & Hinv1 & _).
    rewrite E1. simpl. intros Hrun. rewrite (cons_middle o), app_assoc.
    apply (IH _ c1); [done| |done]. by apply (lru_step_fresh h o c c1).
Qed.

End lru.

(** *** The LRU cache of the design document: the list is ordered by recency *)

Section dlru.
Context `{Countable K} {V : Type}.
Implicit Types (c : DesignLRU.LRUCache (K:=K) (V:=V)) (k : K) (v : option V).

Lemma dlru_step_sorted h o c c' :
  DesignLRU.inv c →
  StronglySorted (more_recent h) (DesignLRU.dll c) →
  DesignLRU.step o c = Ok c' →
  StronglySorted (more_recent (h ++ [dlru_key o])) (DesignLRU.dll c').
Proof.
  intros Hinv Hs. pose proof Hinv as [Hkey Hmem Hnd Hsize].
  destruct o as [k|k v|k]; simpl.
  - unfold DesignLRU.get. destruct (DesignLRU.cache c !! k) as [n|] eqn:Hk; simpl.
    + intros [= <-]. simpl. rewrite (Hkey _ _ Hk). by apply rec_sorted_touch.
    + intros [= <-]. apply rec_sorted_snoc_notin; [|done].
      rewrite Hmem, Hk. by intros [? ?].
  - unfold DesignLRU.put. destruct (DesignLRU.cache c !! k) as [n|] eqn:Hk.
    + intros [= <-]. simpl. rewrite (Hkey _ _ Hk). by apply rec_sorted_touch.
    + assert (Hkd : k ∉ DesignLRU.dll c) by (rewrite Hmem, Hk; by intros [? ?]).
      pose proof (rec_sorted_touch h k _ Hs) as Hs'.
      rewrite (unlink_notin k) in Hs' by done.
      destruct (_ >=? _).
      * unfold DesignLRU.removeLast.
        destruct (last (DesignLRU.dll c)) as [lst|] eqn:Hlast; simpl; [|done].
        intros [= <-]. simpl. unfold DesignLRU.addFirst, DesignLRU.dll_remove.
        assert (lst ≠ k) as Hne.
        { intros ->. apply Hkd. by eapply last_Some_elem_of. }
        apply (StronglySorted_unlink _ lst) in Hs'.
        unfold unlink in Hs'. rewrite filter_cons_True in Hs' by congruence. done.
      * simpl. intros [= <-]. done.
  - unfold DesignLRU.remove. destruct (DesignLRU.cache c !! k) as [n|] eqn:Hk.
    + intros [= <-]. simpl. rewrite (Hkey _ _ Hk). unfold DesignLRU.dll_remove.
      apply rec_sorted_snoc_notin; [|by apply StronglySorted_unlink].
      rewrite elem_of_unlink. naive_solver.
    + intros [= <-]. simpl. apply rec_sorted_snoc_notin; [|done].
      rewrite Hmem, Hk. by intros [? ?].
Qed.

Lemma dlru_run_sorted ops : ∀ h c c',
  DesignLRU.inv c →
  StronglySorted (more_recent h) (DesignLRU.dll c) →
  DesignLRU.run ops c = Ok c' →
  StronglySorted (more_recent (h ++ (dlru_key <$> ops))) (DesignLRU.dll c').
Proof.
  induction ops as [|o ops IH]; intros h c c' Hinv Hs; simpl.
  - intros [= <-]. by rewrite app_nil_r.
  - destruct (DesignLRU.step o c) as [c1|e] eqn:E1; simpl; [|done].
    destruct (DesignLRUFacts.dlru_step_inv o c c1 Hinv E1) as [Hinv1 _].
    intros Hrun. rewrite (cons_middle (dlru_key o)), app_assoc.
    apply (IH _ c1); [done| |done]. by apply (dlru_step_sorted h o c c1).
Qed.

Lemma dlru_run_new_sorted cap (ops : list (DesignLRU.op (K:=K) (V:=V))) c :
  DesignLRU.run_new cap ops = Ok c →
  DesignLRU.inv c ∧ DesignLRU.capacity c = cap ∧
  StronglySorted (more_recent (dlru_key <$> ops)) (DesignLRU.dll c).
Proof.
  intros Hrun. unfold DesignLRU.run_new, DesignLRU.new in Hrun. simpl in Hrun.
  pose proof (DesignLRUFacts.dlru_inv_new (K:=K) (V:=V) cap) as Hinv0.
  destruct (DesignLRUFacts.dlru_run_inv ops _ c Hinv0 Hrun) as [Hinv Hcap].
  split; [done|]. split; [done|].
  apply (dlru_run_sorted ops [] _ c) in Hrun; [done|done|constructor].
Qed.

(** [put] ends with the new value stored, whenever it returns. *)
Lemma dlru_put_stores k v c c' :
  DesignLRU.inv c → DesignLRU.put k v c = Ok c' →
  DesignLRU.cache c' !! k = Some (DesignLRU.mkNode k v).
Proof.
  intros Hinv. unfold DesignLRU.put.
  destruct (DesignLRU.cache c !! k) as [n|] eqn:Hk.
  - intros [= <-]. simpl. rewrite lookup_insert_eq.
    by rewrite (DesignLRU.inv_key _ Hinv _ _ Hk).
  - destruct (_ >=? _).
    + unfold DesignLRU.removeLast. destruct (last (DesignLRU.dll c)); simpl; [|done].
      intros [= <-]. simpl. by rewrite lookup_insert_eq.
    + simpl. intros [= <-]. simpl. by rewrite lookup_insert_eq.
Qed.

(** With a capacity of 0 or less the cache stays empty as long as no [put]
    is made, and the first [put] throws. *)
Lemma dlru_run_capacity_le_0 cap (ops : list (DesignLRU.op (K:=K) (V:=V))) :
  cap ≤ 0 →
  DesignLRU.run ops (DesignLRU.mkLRU cap ∅ []) =
    if existsb dlru_is_put ops
    then Err NullPointerException
    else Ok (DesignLRU.mkLRU cap ∅ []).
Proof.
  intros Hcap. induction ops as [|o ops IH]; [done|].
  destruct o as [k|k v|k]; simpl.
  - unfold DesignLRU.get. simpl. rewrite lookup_empty. simpl. by rewrite IH.
  - unfold DesignLRU.put. simpl. rewrite lookup_empty.
    unfold hsize. rewrite map_size_empty.
    destruct (Z.geb_spec (Z.of_nat 0) cap); [done|lia].
  - unfold DesignLRU.remove. simpl. rewrite lookup_empty, delete_empty. simpl. by rewrite IH.
Qed.

(** A stored value is the one of the last [put] of its key. *)
Lemma dlru_step_fresh h o c c' :
  DesignLRU.inv c →
  (∀ k n, DesignLRU.cache c !! k = Some n → dlru_last_put h k = Some (DesignLRU.value n)) →
  DesignLRU.step o c = Ok c' →
  ∀ k n, DesignLRU.cache c' !! k = Some n →
         dlru_last_put (h ++ [o]) k = Some (DesignLRU.value n).
Proof.
  intros Hinv Hc Hstep x n. unfold dlru_last_put. rewrite foldl_app. simpl.
  fold (dlru_last_put h x). destruct o as [k|k v|k]; simpl in Hstep.
  - unfold DesignLRU.get in Hstep.
    destruct (DesignLRU.cache c !! k) as [nk|] eqn:Hk; simpl in Hstep;
      injection Hstep as <-; apply Hc.
  - unfold DesignLRU.put in Hstep.
    destruct (DesignLRU.cache c !! k) as [nk|] eqn:Hk.
    + injection Hstep as <-. simpl. rewrite lookup_insert_Some.
      intros [[-> <-]|[Hne Hx]]; [by rewrite decide_True|].
      rewrite decide_False by done. by apply Hc.
    + destruct (_ >=? _).
      * unfold DesignLRU.removeLast in Hstep.
        destruct (last (DesignLRU.dll c)) as [lst|]; simpl in Hstep; [|done].
        injection Hstep as <-. simpl. rewrite lookup_insert_Some.
        intros [[-> <-]|[Hne Hx]]; [by rewrite decide_True|].
        rewrite decide_False by done. apply lookup_delete_Some in Hx as [_ Hx].
        by apply Hc.
      * simpl in Hstep. injection Hstep as <-. simpl. rewrite lookup_insert_Some.
        intros [[-> <-]|[Hne Hx]]; [by rewrite decide_True|].
        rewrite decide_False by done. by apply Hc.
  - unfold DesignLRU.remove in Hstep.
    destruct (DesignLRU.cache c !! k) as [nk|] eqn:Hk; injection Hstep as <-; simpl;
      rewrite lookup_delete_Some; intros [_ Hx]; by apply Hc.
Qed.

Lemma dlru_run_fresh ops : ∀ h c c',
  DesignLRU.inv c →
  (∀ k n, DesignLRU.cache c !! k = Some n → dlru_last_put h k = Some (DesignLRU.value n)) →
  DesignLRU.run ops c = Ok c' →
  ∀ k n, DesignLRU.cache c' !! k = Some n →
         dlru_last_put (h ++ ops) k = Some (DesignLRU.value n).
Proof.
  induction ops as [|o ops IH]; intros h c c' Hinv Hc; simpl.
  - intros [= <-]. by rewrite app_nil_r.
  - destruct (DesignLRU.step o c) as [c1|e] eqn:E1; simpl; [|done].
    destruct (DesignLRUFacts.dlru_step_inv o c c1 Hinv E1) as [Hinv1 _].
    intros Hrun. rewrite (cons_middle o), app_assoc.
    apply (IH _ c1); [done| |done]. by apply (dlru_step_fresh h o c c1).
Qed.

End dlru.

End RecencyFacts.

(** *** The LFU cache as a map *)

Module LFUMapFacts.
Import Java JavaFacts LFU LFUFacts Recency.

(** After [put(k, v)] the value [v] is stored under [k]. *)
Lemma lfu_put_stores h c k v :
  inv h c → capacity c ≠ 0 →
  ∃ c', put k v c = Ok c' ∧ inv (h ++ [Put k v]) c' ∧
        value <$> keyToNodeMap c' !! k = Some v.
Proof.
  intros Hinv Hcap.
  destruct (put_inv h c k v Hinv) as (c' & Hput & Hinv' & _).
  exists c'. split; [done|]. split; [done|].
  destruct (keyToNodeMap c !! k) as [node|] eqn:Hk.
  - destruct (put_present h c k v node Hinv Hcap Hk) as (c1 & E1 & _ & Hm).
    assert (c1 = c') as -> by congruence. rewrite Hm, lookup_insert_eq. done.
  - destruct (decide (hsize (keyToNodeMap c) = capacity c)) as [Hfull|Hroom].
    + destruct (put_full h c k v Hinv Hcap Hk Hfull)
        as (l & victim & nv & c1 & E1 & _ & _ & _ & _ & Hm).
      assert (c1 = c') as -> by congruence. rewrite Hm, lookup_insert_eq. done.
    + rewrite (put_room c k v Hcap Hk Hroom) in Hput. injection Hput as <-.
      simpl. by rewrite lookup_insert_eq.
Qed.

(** With a negative capacity no call evicts: a call changes the value
    stored under the key of a [put], and nothing else. *)
Lemma lfu_step_negative h o c :
  inv h c → capacity c < 0 →
  ∃ c', step o c = Ok c' ∧ inv (h ++ [o]) c' ∧ capacity c' = capacity c ∧
    ∀ k, value <$> keyToNodeMap c' !! k =
         match o with
         | Put k' v => if decide (k' = k) then Some v else value <$> keyToNodeMap c !! k
         | Get _ => value <$> keyToNodeMap c !! k
         end.
Proof.
  intros Hinv Hcap.
  destruct (step_inv h o c Hinv) as (c' & Hstep & Hinv' & Hcap' & _).
  exists c'. split; [done|]. split; [done|]. split; [done|]. intros x.
  destruct o as [k|k v]; simpl in Hstep.
  - destruct (keyToNodeMap c !! k) as [node|] eqn:Hk.
    + destruct (get_present h c k node Hinv Hk) as (c1 & E1 & _ & Hm).
      rewrite E1 in Hstep. simpl in Hstep. injection Hstep as <-.
      rewrite Hm. destruct (decide (x = k)) as [->|Hne].
      * by rewrite lookup_insert_eq, Hk.
      * by rewrite lookup_insert_ne.
    + unfold get in Hstep. rewrite Hk in Hstep. simpl in Hstep. by injection Hstep as <-.
  - destruct (keyToNodeMap c !! k) as [node|] eqn:Hk.
    + destruct (put_present h c k v node Hinv ltac:(lia) Hk) as (c1 & E1 & _ & Hm).
      assert (c1 = c') as -> by congruence. rewrite Hm.
      case_decide as Hx; [subst x; by rewrite lookup_insert_eq|by rewrite lookup_insert_ne].
    + assert (hsize (keyToNodeMap c) ≠ capacity c) as Hroom by (unfold hsize; lia).
      rewrite (put_room c k v ltac:(lia) Hk Hroom) in Hstep. injection Hstep as <-.
      simpl.
      case_decide as Hx; [subst x; by rewrite lookup_insert_eq|by rewrite lookup_insert_ne].
Qed.

Lemma lfu_run_negative ops : ∀ h c,
  inv h c → capacity c < 0 →
  ∃ c', run ops c = Ok c' ∧ inv (h ++ ops) c' ∧
    ∀ k, value <$> keyToNodeMap c' !! k =
         foldl (λ acc o,
                  match o with
                  | Put k' v => if decide (k' = k) then Some v else acc
                  | Get _ => acc
                  end) (value <$> keyToNodeMap c !! k) ops.
Proof.
  induction ops as [|o ops IH]; intros h c Hinv Hcap; simpl.
  - exists c. by rewrite app_nil_r.
  - destruct (lfu_step_negative h o c Hinv Hcap) as (c1 & -> & Hinv1 & Hcap1 & Hv1).
    simpl. destruct (IH (h ++ [o]) c1 Hinv1 ltac:(lia)) as (c' & Hrun & Hinv' & Hv).
    exists c'. split; [done|]. split; [by rewrite <- app_assoc in Hinv'|].
    intros k. rewrite Hv, Hv1. by destruct o.
Qed.

(** A stored value is the one of the last [put] of its key. *)
Lemma lfu_step_fresh h o c :
  inv h c →
  (∀ k n, keyToNodeMap c !! k = Some n → last_put h k = Some (value n)) →
  ∃ c', step o c = Ok c' ∧ inv (h ++ [o]) c' ∧
    ∀ k n, keyToNodeMap c' !! k = Some n → last_put (h ++ [o]) k = Some (value n).
Proof.
  intros Hinv Hc.
  destruct (step_inv h o c Hinv) as (c' & Hstep & Hinv' & Hcap' & _).
  exists c'. split; [done|]. split; [done|]. intros x n.
  unfold last_put. rewrite foldl_app. simpl. fold (last_put h x).
  destruct o as [k|k v]; simpl in Hstep.
  - destruct (keyToNodeMap c !! k) as [node|] eqn:Hk.
    + destruct (get_present h c k node Hinv Hk) as (c1 & E1 & _ & Hm).
      rewrite E1 in Hstep. simpl in Hstep. injection Hstep as <-.
      rewrite Hm, lookup_insert_Some. intros [[-> <-]|[Hne Hx]]; simpl; by apply Hc.
    + unfold get in Hstep. rewrite Hk in Hstep. simpl in Hstep. injection Hstep as <-.
      apply Hc.
  - destruct (decide (capacity c = 0)) as [Hz|Hnz].
    { rewrite (inv_capacity_0 h c Hinv Hz) in Hc.
      unfold put in Hstep. rewrite Hz in Hstep. simpl in Hstep. injection Hstep as <-.
      rewrite (inv_capacity_0 h c Hinv Hz), lookup_empty. done. }
    destruct (keyToNodeMap c !! k) as [node|] eqn:Hk.
    + destruct (put_present h c k v node Hinv Hnz Hk) as (c1 & E1 & _ & Hm).
      assert (c1 = c') as -> by congruence. rewrite Hm, lookup_insert_Some.
      intros [[-> <-]|[Hne Hx]]; simpl; [by rewrite decide_True|].
      rewrite decide_False by done. by apply Hc.
    + destruct (decide (hsize (keyToNodeMap c) = capacity c)) as [Hfull|Hroom].
      * destruct (put_full h c k v Hinv Hnz Hk Hfull)
          as (l & victim & nv & c1 & E1 & _ & _ & _ & _ & Hm).
        assert (c1 = c') as -> by congruence. rewrite Hm, lookup_insert_Some.
        intros [[-> <-]|[Hne Hx]]; simpl; [by rewrite decide_True|].
        rewrite decide_False by done. apply lookup_delete_Some in Hx as [_ Hx].
        by apply Hc.
      * rewrite (put_room c k v Hnz Hk Hroom) in Hstep. injection Hstep as <-.
        simpl. rewrite lookup_insert_Some.
        intros [[-> <-]|[Hne Hx]]; simpl; [by rewrite decide_True|].
        rewrite decide_False by done. by apply Hc.
Qed.

Lemma lfu_run_fresh ops : ∀ h c,
  inv h c →
  (∀ k n, keyToNodeMap c !! k = Some n → last_put h k = Some (value n)) →
  ∃ c', run ops c = Ok c' ∧ inv (h ++ ops) c' ∧
    ∀ k n, keyToNodeMap c' !! k = Some n → last_put (h ++ ops) k = Some (value n).
Proof.
  induction ops as [|o ops IH]; intros h c Hinv Hc; simpl.
  - exists c. by rewrite app_nil_r.
  - destruct (lfu_step_fresh h o c Hinv Hc) as (c1 & -> & Hinv1 & Hc1). simpl.
    destruct (IH (h ++ [o]) c1 Hinv1 Hc1) as (c' & Hrun & Hinv' & Hc').
    exists c'. rewrite <- app_assoc in Hinv', Hc'. done.
Qed.

(** The run that drives the counter of the only key to
    [Integer.MAX_VALUE]. *)
Lemma run_counter_at_max (n : nat) :
  Z.of_nat n = 2147483646 →
  run_new 1 (Put 0 0 :: repeat (Get 0) n) = Ok (single 0 0 MAX_VALUE 1).
Proof.
  intros Hn. unfold run_new, new. cbn [bind run step].
  rewrite (put_room _ 0 0);
    [|done|apply lookup_empty|by simpl; rewrite hsize_empty].
  cbn [keyToNodeMap frequencyToListMap capacity bind].
  rewrite lookup_empty. cbn [default]. rewrite !insert_empty.
  change (mkLFU {[0 := newCacheNode 0 0]} _ 1 1) with (single 0 0 1 1).
  rewrite (run_gets_single n 0 0 1 1) by (unfold MIN_VALUE, MAX_VALUE; lia).
  by replace (1 + Z.of_nat n) with MAX_VALUE by (unfold MAX_VALUE; lia).
Qed.

End LFUMapFacts.

(** * Proofs about the rate limiter *)

Module SlidingWindowFacts.
Import Jvm SlidingWindowLogStrategy.

Implicit Types (s : t) (q l : list Z) (cs : list (Z * call)) (w m now : Z).

Lemma wrap_long_small z :
  Long_MIN_VALUE ≤ z ≤ Long_MAX_VALUE → wrap_long z = z.
Proof.
  unfold wrap_long, Long_MIN_VALUE, Long_MAX_VALUE. intros Hz.
  rewrite Z.mod_small; lia.
Qed.

(** For an [int] number of seconds the multiplication does not saturate. *)
Lemma toMillis_int d :
  Java.MIN_VALUE ≤ d ≤ Java.MAX_VALUE → toMillis d = d * 1000.
Proof.
  unfold toMillis, Java.MIN_VALUE, Java.MAX_VALUE, Long_MAX_VALUE. intros Hd.
  change (9223372036854775807 `quot` 1000) with 9223372036854775.
  destruct (Z.gtb_spec d 9223372036854775); [lia|].
  destruct (Z.ltb_spec d (- (9223372036854775))); [lia|done].
Qed.

Lemma filter_Forall_id (P : Z → Prop) `{∀ x, Decision (P x)} l :
  Forall P l → filter P l = l.
Proof.
  induction 1 as [|x l Hx Hl IH]; [done|].
  rewrite filter_cons, decide_True by done. by rewrite IH.
Qed.

Lemma expire_length th q : (length (expire th q) ≤ length q)%nat.
Proof.
  induction q as [|x q IH]; simpl; [done|].
  destruct (x <=? th); simpl; lia.
Qed.

(** On a queue in time order the loop removes exactly the timestamps up to
    the threshold. *)
Lemma expire_sorted th q :
  Sorted Z.le q → expire th q = filter (λ x, th < x) q.
Proof.
  intros Hs. apply Sorted_StronglySorted in Hs; [|intros ???; lia].
  induction Hs as [|x q Hq IH Hx]; simpl; [done|].
  rewrite filter_cons. destruct (Z.leb_spec x th) as [Hle|Hgt].
  - rewrite decide_False by lia. done.
  - rewrite decide_True by lia. f_equal. symmetry.
    apply filter_Forall_id. eapply Forall_impl; [exact Hx|]. simpl. lia.
Qed.

Lemma swl_run_app cs1 cs2 s :
  run (cs1 ++ cs2) s =
    ((run cs1 s).1 ++ (run cs2 (run cs1 s).2).1, (run cs2 (run cs1 s).2).2).
Proof.
  revert s. induction cs1 as [|c cs1 IH]; intros s; simpl.
  - by destruct (run cs2 s).
  - by rewrite IH.
Qed.

Lemma granted_app cs1 cs2 s :
  granted (cs1 ++ cs2) s = granted cs1 s ++ granted cs2 (run cs1 s).2.
Proof.
  revert s. induction cs1 as [|c cs1 IH]; intros s; simpl; [done|].
  rewrite IH. by destruct (step c s).1 as [[]|].
Qed.

Lemma run_fields cs : ∀ s,
  windowSizeMillis (run cs s).2 = windowSizeMillis s ∧
  maxRequests (run cs s).2 = maxRequests s.
Proof.
  induction cs as [|[now c] cs IH]; intros s; simpl; [done|].
  destruct (IH (step (now, c) s).2) as [-> ->].
  unfold step, allow, getCurrentRequestCount. simpl.
  destruct c; simpl; [|done]. by destruct (_ <? _).
Qed.

(** The queue never holds more than [maxRequests] timestamps, whatever the
    clock does. *)
Lemma run_log_length cs : ∀ s,
  Z.of_nat (length (requestTimestamps s)) ≤ Z.max 0 (maxRequests s) →
  Z.of_nat (length (requestTimestamps (run cs s).2)) ≤ Z.max 0 (maxRequests s).
Proof.
  induction cs as [|[now c] cs IH]; intros s Hs; simpl; [done|].
  set (s1 := (step (now, c) s).2).
  assert (H1 : maxRequests s1 = maxRequests s ∧
               Z.of_nat (length (requestTimestamps s1)) ≤ Z.max 0 (maxRequests s)).
  { unfold s1, step, allow, getCurrentRequestCount. simpl.
    pose proof (expire_length (wrap_long (now - windowSizeMillis s)) (requestTimestamps s)).
    destruct c; simpl.
    - destruct (Z.ltb_spec (Z.of_nat (length (expire (wrap_long (now - windowSizeMillis s))
                                                 (requestTimestamps s)))) (maxRequests s));
        simpl; [rewrite length_app; simpl|]; lia.
    - lia. }
  destruct H1 as [Hm H1]. rewrite <- Hm. apply IH. by rewrite Hm.
Qed.

Lemma StronglySorted_le_filter (P : Z → Prop) `{∀ x, Decision (P x)} l :
  StronglySorted Z.le l → StronglySorted Z.le (filter P l).
Proof.
  induction 1 as [|x l Hl IH Hx]; [constructor|].
  rewrite filter_cons. destruct (decide (P x)); [|done].
  constructor; [done|]. apply Forall_forall. intros y [_ Hy]%list_elem_of_filter.
  by apply (proj1 (Forall_forall _ _) Hx).
Qed.

Lemma expire_strongly_sorted th q :
  StronglySorted Z.le q → expire th q = filter (λ x, th < x) q.
Proof. intros Hs. by apply expire_sorted, StronglySorted_Sorted. Qed.

Lemma clock_ok_snoc cs now c :
  clock_ok (cs ++ [(now, c)]) →
  clock_ok cs ∧ Forall (λ x, x ≤ now) cs.*1 ∧ 0 ≤ now ≤ Long_MAX_VALUE.
Proof.
  unfold clock_ok. rewrite fmap_app. simpl. intros [Hs Hb].
  apply Sorted_StronglySorted in Hs; [|intros ???; lia].
  apply StronglySorted_app in Hs as (Hle & Hs1 & _).
  apply Forall_app in Hb as [Hb1 Hb2].
  split_and!.
  - by apply StronglySorted_Sorted.
  - done.
  - apply Forall_forall. intros x Hx. apply Hle; [done|]. by left.
  - rewrite Forall_singleton in Hb2. lia.
  - rewrite Forall_singleton in Hb2. lia.
Qed.

(** What the queue holds after a run from the empty queue, read at any later
    clock reading [now]: the requests the run allowed that are later than
    [now - w]. *)
Lemma log_spec w m cs :
  0 ≤ w ≤ Long_MAX_VALUE → clock_ok cs →
  StronglySorted Z.le (granted cs (mk w m [])) ∧
  Forall (λ x, x ∈ cs.*1) (granted cs (mk w m [])) ∧
  StronglySorted Z.le (requestTimestamps (run cs (mk w m [])).2) ∧
  ∀ now, Forall (λ x, x ≤ now) cs.*1 → 0 ≤ now ≤ Long_MAX_VALUE →
    expire (wrap_long (now - w)) (requestTimestamps (run cs (mk w m [])).2) =
      filter (λ x, now - w < x) (granted cs (mk w m [])).
Proof.
  intros Hw. induction cs as [|[t c] cs IH] using rev_ind; intros Hclock.
  { simpl. split_and!; try constructor. }
  apply clock_ok_snoc in Hclock as (Hclock & Hle & Ht).
  destruct (IH Hclock) as (HG & Hin & Hq & Hexp). clear IH.
  specialize (Hexp t Hle Ht).
  rewrite swl_run_app, granted_app. simpl.
  destruct (run_fields cs (mk w m [])) as [Hfw Hfm]. simpl in Hfw, Hfm.
  set (s := (run cs (mk w m [])).2) in *.
  set (G := granted cs (mk w m [])) in *.
  assert (HGt : Forall (λ x, x ≤ t) G).
  { apply Forall_forall. intros x Hx.
    apply (proj1 (Forall_forall _ _) Hle). by apply (proj1 (Forall_forall _ _) Hin). }
  assert (Hfilter : ∀ now, t ≤ now →
            filter (λ x, now - w < x) (filter (λ x, t - w < x) G) =
            filter (λ x, now - w < x) G).
  { intros now Hnow. apply list_filter_filter_l. intros x. lia. }
  assert (Hsub : ∀ P `{∀ x, Decision (P x)}, Forall (λ x, x ≤ t) (filter P G)).
  { intros P ?. apply Forall_forall. intros x [_ Hx]%list_elem_of_filter.
    by apply (proj1 (Forall_forall _ _) HGt). }
  assert (Hin' : Forall (λ x, x ∈ (cs ++ [(t, c)]).*1) G).
  { eapply Forall_impl; [exact Hin|]. intros x Hx. rewrite fmap_app. set_solver. }
  unfold step. simpl. destruct c; simpl.
  - unfold allow. rewrite Hfw, Hfm, Hexp.
    destruct (_ <? _); simpl.
    + assert (Hq' : StronglySorted Z.le (filter (λ x, t - w < x) G ++ [t])).
      { apply StronglySorted_app_2.
        - intros x1 x2 Hx1 ->%list_elem_of_singleton.
          by apply (proj1 (Forall_forall _ _) (Hsub (λ x, t - w < x) _)).
        - by apply StronglySorted_le_filter.
        - repeat constructor. }
      split_and!.
      * apply StronglySorted_app_2; [|done|repeat constructor].
        intros x1 x2 Hx1 ->%list_elem_of_singleton.
        by apply (proj1 (Forall_forall _ _) HGt).
      * apply Forall_app. split; [done|]. apply Forall_singleton.
        rewrite fmap_app. set_solver.
      * done.
      * intros now Hnow Hb. rewrite fmap_app in Hnow. simpl in Hnow. apply Forall_app in Hnow as [_ Hnow].
        rewrite Forall_singleton in Hnow.
        rewrite wrap_long_small by (unfold Long_MIN_VALUE, Long_MAX_VALUE in *; lia).
        rewrite expire_strongly_sorted by done.
        rewrite !filter_app. by rewrite Hfilter.
    + rewrite app_nil_r. split_and!; [done|done|by apply StronglySorted_le_filter|].
      intros now Hnow Hb. rewrite fmap_app in Hnow. simpl in Hnow. apply Forall_app in Hnow as [_ Hnow].
      rewrite Forall_singleton in Hnow.
      rewrite wrap_long_small by (unfold Long_MIN_VALUE, Long_MAX_VALUE in *; lia).
      rewrite expire_strongly_sorted by by apply StronglySorted_le_filter.
      by apply Hfilter.
  - rewrite app_nil_r. unfold getCurrentRequestCount. simpl. rewrite Hfw, Hexp.
    split_and!; [done|done|by apply StronglySorted_le_filter|].
    intros now Hnow Hb. rewrite fmap_app in Hnow. simpl in Hnow. apply Forall_app in Hnow as [_ Hnow].
    rewrite Forall_singleton in Hnow.
    rewrite wrap_long_small by (unfold Long_MIN_VALUE, Long_MAX_VALUE in *; lia).
    rewrite expire_strongly_sorted by by apply StronglySorted_le_filter.
    by apply Hfilter.
Qed.

Lemma in_window_past w now l :
  Forall (λ x, x ≤ now) l → in_window w now l = filter (λ x, now - w < x) l.
Proof.
  unfold in_window. induction 1 as [|x l Hx Hl IH]; [done|].
  rewrite !filter_cons, IH.
  destruct (decide (now - w < x ∧ x ≤ now)), (decide (now - w < x)); try done; lia.
Qed.

Lemma granted_past w m cs now :
  0 ≤ w ≤ Long_MAX_VALUE → clock_ok cs → Forall (λ x, x ≤ now) cs.*1 →
  Forall (λ x, x ≤ now) (granted cs (mk w m [])).
Proof.
  intros Hw Hclock Hnow. destruct (log_spec w m cs Hw Hclock) as (_ & Hin & _).
  apply Forall_forall. intros x Hx.
  apply (proj1 (Forall_forall _ _) Hnow). by apply (proj1 (Forall_forall _ _) Hin).
Qed.

(** At a call, the queue after the loop is the window of the requests
    allowed so far. *)
Lemma log_window w m cs now :
  0 ≤ w ≤ Long_MAX_VALUE → clock_ok cs →
  Forall (λ x, x ≤ now) cs.*1 → 0 ≤ now ≤ Long_MAX_VALUE →
  expire (wrap_long (now - windowSizeMillis (run cs (mk w m [])).2))
    (requestTimestamps (run cs (mk w m [])).2) =
  in_window w now (granted cs (mk w m [])).
Proof.
  intros Hw Hclock Hnow Hb.
  destruct (log_spec w m cs Hw Hclock) as (_ & _ & _ & Hexp).
  destruct (run_fields cs (mk w m [])) as [-> _]. simpl.
  rewrite (Hexp now Hnow Hb). symmetry.
  by apply in_window_past, granted_past.
Qed.

Lemma in_window_app w now l1 l2 :
  in_window w now (l1 ++ l2) = in_window w now l1 ++ in_window w now l2.
Proof. apply filter_app. Qed.

(** No window of length [w] holds more than [m] allowed requests. *)
Lemma rate_limit w m cs :
  0 ≤ w ≤ Long_MAX_VALUE → 0 ≤ m → clock_ok cs →
  ∀ t, Z.of_nat (length (in_window w t (granted cs (mk w m [])))) ≤ m.
Proof.
  intros Hw Hm. induction cs as [|[now c] cs IH] using rev_ind; intros Hclock t.
  { simpl. lia. }
  apply clock_ok_snoc in Hclock as (Hclock & Hle & Hb).
  specialize (IH Hclock).
  rewrite granted_app. simpl.
  pose proof (log_window w m cs now Hw Hclock Hle Hb) as Hlog.
  destruct (run_fields cs (mk w m [])) as [_ Hfm]. simpl in Hfm.
  unfold step. simpl. destruct c; simpl; [|rewrite app_nil_r; apply IH].
  unfold allow. rewrite Hlog, Hfm.
  destruct (Z.ltb_spec (Z.of_nat (length (in_window w now (granted cs (mk w m [])))))
              m) as [Hlt|Hge]; simpl; [|rewrite app_nil_r; apply IH].
  rewrite in_window_app, length_app.
  destruct (decide (now ≤ t)) as [Hin|Hout].
  - (* the window that ends at [t] lies within the one that ends at [now],
       as far as the earlier requests go *)
    assert (Hsub : (length (in_window w t (granted cs (mk w m []))) ≤
                    length (in_window w now (granted cs (mk w m []))))%nat).
    { pose proof (granted_past w m cs now Hw Hclock Hle) as Hpast.
      unfold in_window.
      assert (E : filter (λ x, t - w < x ∧ x ≤ t) (granted cs (mk w m [])) =
                  filter (λ x, t - w < x ∧ x ≤ t)
                    (filter (λ x, now - w < x ∧ x ≤ now) (granted cs (mk w m [])))).
      { rewrite list_filter_filter. clear -Hpast Hin.
        induction Hpast as [|x l Hx Hl IHl]; [done|].
        rewrite !filter_cons, IHl.
        destruct (decide (t - w < x ∧ x ≤ t)),
                 (decide ((t - w < x ∧ x ≤ t) ∧ now - w < x ∧ x ≤ now)); try done; lia. }
      rewrite E. apply length_filter. }
    unfold in_window at 2. rewrite filter_cons, filter_nil.
    destruct (decide (t - w < now ∧ now ≤ t)); simpl; lia.
  - (* the new request is later than [t] *)
    unfold in_window at 2. rewrite filter_cons, filter_nil.
    rewrite decide_False by lia. simpl. specialize (IH t). lia.
Qed.

(** [allow()] lets a request pass exactly when fewer than [m] requests were
    allowed in the window that ends now. *)
Lemma allow_decides w m cs now :
  0 ≤ w ≤ Long_MAX_VALUE → clock_ok (cs ++ [(now, Allow)]) →
  (allow now (run cs (mk w m [])).2).1 =
    bool_decide (Z.of_nat (length (in_window w now (granted cs (mk w m [])))) < m).
Proof.
  intros Hw (Hclock & Hle & Hb)%clock_ok_snoc.
  pose proof (log_window w m cs now Hw Hclock Hle Hb) as Hlog.
  destruct (run_fields cs (mk w m [])) as [_ Hfm]. simpl in Hfm.
  unfold allow. rewrite Hlog, Hfm.
  destruct (Z.ltb_spec (Z.of_nat (length (in_window w now (granted cs (mk w m [])))))
              m) as [Hlt|Hge]; simpl.
  - by rewrite bool_decide_eq_true_2.
  - rewrite bool_decide_eq_false_2; [done|lia].
Qed.

(** [getCurrentRequestCount()] is the number of requests allowed in the
    window that ends now. *)
Lemma count_spec w m cs now :
  0 ≤ w ≤ Long_MAX_VALUE → clock_ok (cs ++ [(now, GetCurrentRequestCount)]) →
  (getCurrentRequestCount now (run cs (mk w m [])).2).1 =
    Z.of_nat (length (in_window w now (granted cs (mk w m [])))).
Proof.
  intros Hw (Hclock & Hle & Hb)%clock_ok_snoc.
  pose proof (log_window w m cs now Hw Hclock Hle Hb) as Hlog.
  unfold getCurrentRequestCount. simpl. by rewrite Hlog.
Qed.

Lemma granted_snoc w m cs now c :
  0 ≤ w ≤ Long_MAX_VALUE → clock_ok (cs ++ [(now, c)]) →
  granted (cs ++ [(now, c)]) (mk w m []) =
    granted cs (mk w m []) ++
    match c with
    | Allow =>
        if bool_decide (Z.of_nat (length (in_window w now (granted cs (mk w m [])))) < m)
        then [now] else []
    | GetCurrentRequestCount => []
    end.
Proof.
  intros Hw Hclock. rewrite granted_app. f_equal. simpl. unfold step. simpl.
  destruct c; simpl; [|done].
  rewrite (allow_decides w m cs now Hw Hclock). by destruct (bool_decide _).
Qed.

Lemma clock_ok_app_inv cs1 cs2 : clock_ok (cs1 ++ cs2) → clock_ok cs1 ∧ clock_ok cs2.
Proof.
  unfold clock_ok. rewrite fmap_app. intros [Hs Hb].
  apply Sorted_StronglySorted in Hs; [|intros ???; lia].
  apply StronglySorted_app in Hs as (_ & Hs1 & Hs2).
  apply Forall_app in Hb as [Hb1 Hb2].
  split; (split; [by apply StronglySorted_Sorted|done]).
Qed.

Lemma clock_ok_drop cs1 c cs2 : clock_ok (cs1 ++ c :: cs2) → clock_ok (cs1 ++ cs2).
Proof.
  unfold clock_ok. rewrite !fmap_app, fmap_cons. intros [Hs Hb].
  apply Sorted_StronglySorted in Hs; [|intros ???; lia].
  apply StronglySorted_app in Hs as (Hle & Hs1 & Hs2).
  apply Forall_app in Hb as [Hb1 Hb2].
  split.
  - apply StronglySorted_Sorted, StronglySorted_app_2.
    + intros x1 x2 Hx1 Hx2. apply Hle; [done|]. by right.
    + done.
    + by inversion Hs2.
  - apply Forall_app. split; [done|]. by inversion Hb2.
Qed.

(** Reading the count does not change which requests are allowed. *)
Lemma count_transparent w m cs1 now cs2 :
  0 ≤ w ≤ Long_MAX_VALUE →
  clock_ok (cs1 ++ (now, GetCurrentRequestCount) :: cs2) →
  granted (cs1 ++ (now, GetCurrentRequestCount) :: cs2) (mk w m []) =
  granted (cs1 ++ cs2) (mk w m []).
Proof.
  intros Hw. induction cs2 as [|[t c] cs2 IH] using rev_ind; intros Hclock.
  - rewrite app_nil_r. rewrite (granted_snoc w m cs1 now _ Hw Hclock). by rewrite app_nil_r.
  - assert (Hclock' : clock_ok (cs1 ++ (now, GetCurrentRequestCount) :: cs2)).
    { change (clock_ok ((cs1 ++ (now, GetCurrentRequestCount) :: cs2 ++ [(t, c)])))
        in Hclock.
      replace (cs1 ++ (now, GetCurrentRequestCount) :: cs2 ++ [(t, c)])
        with ((cs1 ++ (now, GetCurrentRequestCount) :: cs2) ++ [(t, c)]) in Hclock
        by by rewrite <- app_assoc.
      by apply clock_ok_app_inv in Hclock as [? _]. }
    specialize (IH Hclock').
    replace (cs1 ++ (now, GetCurrentRequestCount) :: cs2 ++ [(t, c)])
      with ((cs1 ++ (now, GetCurrentRequestCount) :: cs2) ++ [(t, c)])
      by by rewrite <- app_assoc.
    replace (cs1 ++ cs2 ++ [(t, c)]) with ((cs1 ++ cs2) ++ [(t, c)])
      by by rewrite <- app_assoc.
    rewrite !granted_snoc; [by rewrite IH|done|..].
    + replace ((cs1 ++ cs2) ++ [(t, c)]) with (cs1 ++ cs2 ++ [(t, c)])
        by by rewrite <- app_assoc.
      by apply (clock_ok_drop cs1 (now, GetCurrentRequestCount)).
    + done.
    + replace ((cs1 ++ (now, GetCurrentRequestCount) :: cs2) ++ [(t, c)])
        with (cs1 ++ (now, GetCurrentRequestCount) :: cs2 ++ [(t, c)])
        by by rewrite <- app_assoc.
      done.
Qed.

End SlidingWindowFacts.

Module UserRateLimiterFacts.
Import Jvm UserRateLimiter.

Lemma skip_spaces_nil s : skip_spaces s = [] ↔ forallb is_space s = true.
Proof.
  induction s as [|c s IH]; simpl; [done|].
  destruct (is_space c); simpl; [done|]. split; intros; done.
Qed.

Lemma skip_spaces_suffix s : ∃ p, s = p ++ skip_spaces s ∧ forallb is_space p = true.
Proof.
  induction s as [|c s (p & Hp & Hs)]; simpl; [by exists []|].
  destruct (is_space c) eqn:Hc.
  - exists (c :: p). simpl. rewrite Hc, Hs. split; [by f_equal|done].
  - by exists [].
Qed.

(** The trimmed string is empty exactly when every code unit is at most
    U+0020. *)
Lemma isEmpty_trim s : isEmpty (trim s) = forallb is_space s.
Proof.
  unfold trim.
  destruct (forallb is_space s) eqn:Hs.
  - apply skip_spaces_nil in Hs. rewrite Hs. done.
  - destruct (skip_spaces_suffix s) as (p & Hp & Hsp).
    assert (Hrest : forallb is_space (skip_spaces s) = false).
    { rewrite Hp, forallb_app, Hsp in Hs. done. }
    assert (Hrev : forallb is_space (rev (skip_spaces s)) = false).
    { rewrite <- Hrest. clear. induction (skip_spaces s) as [|c l IH]; [done|].
      simpl. rewrite forallb_app, IH. simpl. rewrite andb_true_r. apply andb_comm. }
    destruct (skip_spaces (rev (skip_spaces s))) as [|c l] eqn:E.
    + apply skip_spaces_nil in E. congruence.
    + simpl. by destruct (rev l ++ [c]) eqn:E'; [destruct (rev l)|].
Qed.

End UserRateLimiterFacts.

Module TokenBucketFacts.
Import Jvm TokenBucketStrategy.









End TokenBucketFacts.

(** * Proofs about the two sorts *)

(** * Proofs about the sorting programs *)

Module ArraysFacts.
Import Java Jvm Arrays.

Implicit Types (arr A B C : list Z) (i v : Z).

Lemma wrap_int_small z : MIN_VALUE ≤ z ≤ MAX_VALUE → wrap_int z = z.
Proof.
  unfold wrap_int, MIN_VALUE, MAX_VALUE. intros Hz. rewrite Z.mod_small; lia.
Qed.

Lemma aget_middle A x C i :
  i = Z.of_nat (length A) → aget (A ++ x :: C) i = Return x.
Proof.
  intros ->. unfold aget. rewrite length_app. simpl.
  destruct (Z.leb_spec 0 (Z.of_nat (length A))); [|lia].
  destruct (Z.ltb_spec (Z.of_nat (length A)) (Z.of_nat (length A + S (length C))));
    [|lia].
  simpl. rewrite Nat2Z.id. by rewrite list_lookup_middle.
Qed.

Lemma lget_middle A x C i :
  i = Z.of_nat (length A) → lget (A ++ x :: C) i = Return x.
Proof.
  intros ->. unfold lget. rewrite length_app. simpl.
  destruct (Z.leb_spec 0 (Z.of_nat (length A))); [|lia].
  destruct (Z.ltb_spec (Z.of_nat (length A)) (Z.of_nat (length A + S (length C))));
    [|lia].
  simpl. rewrite Nat2Z.id. by rewrite list_lookup_middle.
Qed.

Lemma aset_middle A x C i v :
  i = Z.of_nat (length A) → aset (A ++ x :: C) i v = Return (A ++ v :: C).
Proof.
  intros ->. unfold aset. rewrite length_app. simpl.
  destruct (Z.leb_spec 0 (Z.of_nat (length A))); [|lia].
  destruct (Z.ltb_spec (Z.of_nat (length A)) (Z.of_nat (length A + S (length C))));
    [|lia].
  simpl. rewrite Nat2Z.id. f_equal.
  rewrite insert_app_r_alt by lia. by rewrite Nat.sub_diag.
Qed.

End ArraysFacts.

Module MergeSortFacts.
Import Java Jvm Arrays ArraysFacts MergeSortDemo.

Implicit Types (arr A B C L R M temp : list Z) (i j start mid stop : Z).

Local Ltac side :=
  first
    [ done
    | by rewrite <- ?app_assoc
    | rewrite ?length_app in *; simpl length in *; rewrite ?length_app in *;
      simpl length in *; unfold MIN_VALUE, MAX_VALUE in *; lia ].

(** Merging with [<] as the test keeps lists in ascending order. *)
Lemma HdRel_le_list_merge x L R :
  HdRel Z.le x L → HdRel Z.le x R → HdRel Z.le x (list_merge Z.lt L R).
Proof.
  destruct 1 as [|y L Hy], 1 as [|z R Hz];
    rewrite ?list_merge_nil_l, ?list_merge_nil_r, ?list_merge_cons; auto.
  by destruct (decide (y < z)); constructor.
Qed.

Lemma Sorted_le_list_merge L R :
  Sorted Z.le L → Sorted Z.le R → Sorted Z.le (list_merge Z.lt L R).
Proof.
  intros HL. revert R. induction HL as [|x L HL IHL Hx];
    intros R HR; [by rewrite list_merge_nil_l|].
  induction HR as [|y R HR IHR Hy]; [rewrite list_merge_nil_r; by constructor|].
  rewrite list_merge_cons. destruct (decide (x < y)) as [Hlt|Hge].
  - constructor; [apply IHL; by constructor|].
    apply HdRel_le_list_merge; [done|]. constructor. lia.
  - constructor; [apply IHR|].
    apply HdRel_le_list_merge; [|done]. constructor. lia.
Qed.

(** The two copying loops. *)
Lemma merge_rest_spec L : ∀ fuel arr A C stop i temp,
  arr = A ++ L ++ C → i = Z.of_nat (length A) →
  stop = i + Z.of_nat (length L) - 1 →
  Z.of_nat (length arr) ≤ MAX_VALUE →
  (length L < fuel)%nat →
  merge_rest fuel arr stop i temp = Return (stop + 1, temp ++ L).
Proof.
  induction L as [|x L IH]; intros fuel arr A C stop i temp -> -> -> Hlen Hfuel;
    (destruct fuel as [|fuel]; [simpl in Hfuel; lia|]); cbn [merge_rest].
  - rewrite (proj2 (Z.leb_gt _ _)) by (simpl; lia).
    rewrite app_nil_r. do 2 f_equal. simpl. lia.
  - rewrite (proj2 (Z.leb_le _ _)) by (simpl length; lia).
    rewrite (aget_middle A x (L ++ C)) by done. cbn [bind].
    rewrite !length_app in Hlen. simpl length in Hlen.
    rewrite wrap_int_small by (unfold MIN_VALUE, MAX_VALUE in *; lia).
    rewrite (IH fuel _ (A ++ [x]) C _ _ (temp ++ [x])).
    + by rewrite <- app_assoc.
    + by rewrite <- app_assoc.
    + rewrite length_app. simpl. lia.
    + simpl length. lia.
    + rewrite !length_app. simpl length. lia.
    + simpl in Hfuel. lia.
Qed.

(** The three loops of [merge] leave in [temp] the merge of the two runs. *)
Lemma merge_loops_spec {X} (k : list Z → outcome X) L : ∀ R f1 f2 f3 arr A B C mid e i j temp,
  arr = A ++ L ++ B ++ R ++ C → i = Z.of_nat (length A) →
  mid = i + Z.of_nat (length L) - 1 →
  j = mid + 1 + Z.of_nat (length B) →
  e = j + Z.of_nat (length R) - 1 →
  Z.of_nat (length arr) ≤ MAX_VALUE →
  (length L + length R < f1)%nat → (length L < f2)%nat → (length R < f3)%nat →
  (r1 ⟵ merge_both f1 arr mid e i j temp;
   r2 ⟵ merge_rest f2 arr mid r1.1.1 r1.2;
   r3 ⟵ merge_rest f3 arr e r1.1.2 r2.2;
   k r3.2) = k (temp ++ list_merge Z.lt L R).
Proof.
  induction L as [|x L IHL].
  { (* the left run is used up *)
    intros R f1 f2 f3 arr A B C mid e i j temp -> -> -> -> -> Hlen H1 H2 H3.
    destruct f1 as [|f1]; [lia|]. cbn [merge_both].
    rewrite (proj2 (Z.leb_gt _ _)) by (simpl; lia). cbn [andb bind fst snd].
    rewrite (merge_rest_spec [] f2 _ A (B ++ R ++ C)); [|done|done|simpl; lia|done|done].
    cbn [bind fst snd].
    rewrite (merge_rest_spec R f3 _ (A ++ B) C);
      [|by rewrite <- !app_assoc|rewrite length_app; simpl; lia|done|done|done].
    cbn [bind snd]. by rewrite app_nil_r, list_merge_nil_l. }
  induction R as [|y R IHR].
  { (* the right run is used up *)
    intros f1 f2 f3 arr A B C mid e i j temp -> -> -> -> -> Hlen H1 H2 H3.
    destruct f1 as [|f1]; [lia|]. cbn [merge_both].
    rewrite (proj2 (Z.leb_le _ _)) by (simpl length; lia).
    rewrite (proj2 (Z.leb_gt _ _)) by (simpl length; lia). cbn [andb bind fst snd].
    rewrite (merge_rest_spec (x :: L) f2 _ A (B ++ [] ++ C)); [|done..].
    cbn [bind fst snd].
    rewrite (merge_rest_spec [] f3 _ (A ++ (x :: L) ++ B) C);
      [|by rewrite <- !app_assoc|rewrite !length_app; simpl length; lia|done|done|done].
    cbn [bind snd]. by rewrite app_nil_r, list_merge_nil_r. }
  intros f1 f2 f3 arr A B C mid e i j temp -> -> -> -> -> Hlen H1 H2 H3.
  destruct f1 as [|f1]; [lia|]. cbn [merge_both].
  rewrite (proj2 (Z.leb_le _ _)) by (simpl length; lia).
  rewrite (proj2 (Z.leb_le _ _)) by (simpl length; lia). cbn [andb].
  rewrite (aget_middle A x (L ++ B ++ (y :: R) ++ C)) by done. cbn [bind].
  replace (A ++ (x :: L) ++ B ++ (y :: R) ++ C)
    with ((A ++ (x :: L) ++ B) ++ y :: R ++ C) by by rewrite <- !app_assoc.
  rewrite (aget_middle (A ++ (x :: L) ++ B) y (R ++ C))
    by (rewrite !length_app; simpl length; lia).
  cbn [bind].
  rewrite ?length_app in Hlen. simpl length in Hlen. rewrite ?length_app in Hlen.
  simpl length in Hlen.
  rewrite list_merge_cons. simpl length in H1, H2, H3.
  destruct (Z.ltb_spec x y) as [Hlt|Hge].
  - rewrite decide_True by done.
    rewrite wrap_int_small by side.
    rewrite (IHL (y :: R) f1 f2 f3 _ (A ++ [x]) B C); [|side..].
    by rewrite <- app_assoc.
  - rewrite decide_False by lia.
    rewrite wrap_int_small by side.
    rewrite (IHR f1 f2 f3 _ A (B ++ [y]) C); [|side..].
    by rewrite <- app_assoc.
Qed.

(** The loop that copies [temp] back. *)
Lemma merge_copy_spec T2 : ∀ fuel arr A T1 M2 C start e i temp,
  temp = T1 ++ T2 → arr = A ++ T1 ++ M2 ++ C → length M2 = length T2 →
  start = Z.of_nat (length A) → i = start + Z.of_nat (length T1) →
  e = i + Z.of_nat (length T2) - 1 →
  Z.of_nat (length arr) ≤ MAX_VALUE →
  (length T2 < fuel)%nat →
  merge_copy fuel arr start e i temp = Return (A ++ temp ++ C).
Proof.
  induction T2 as [|v T2 IH];
    intros fuel arr A T1 M2 C start e i temp -> -> HM -> -> -> Hlen Hfuel;
    (destruct fuel as [|fuel]; [simpl in Hfuel; lia|]); cbn [merge_copy].
  - rewrite (proj2 (Z.leb_gt _ _)) by (simpl; lia).
    destruct M2; [|done]. by rewrite !app_nil_r.
  - rewrite (proj2 (Z.leb_le _ _)) by (simpl length; lia).
    destruct M2 as [|m M2]; [done|]. simpl in HM.
    rewrite !length_app in Hlen. simpl length in Hlen.
    rewrite wrap_int_small by side.
    rewrite (lget_middle T1 v T2) by lia. cbn [bind].
    replace (A ++ T1 ++ (m :: M2) ++ C) with ((A ++ T1) ++ m :: M2 ++ C)
      by by rewrite <- !app_assoc.
    rewrite (aset_middle (A ++ T1) m (M2 ++ C)) by (rewrite length_app; lia).
    cbn [bind].
    rewrite wrap_int_small by side.
    rewrite (IH fuel _ A (T1 ++ [v]) M2 C); [|side..].
    by rewrite <- !app_assoc.
Qed.

(** [merge] on two adjacent runs: the runs are replaced by their merge and
    the rest of the array is untouched. *)
Lemma merge_spec arr A L R C start mid e :
  arr = A ++ L ++ R ++ C → start = Z.of_nat (length A) →
  mid = start + Z.of_nat (length L) - 1 →
  e = mid + Z.of_nat (length R) →
  Z.of_nat (length arr) ≤ MAX_VALUE →
  merge arr start mid e = Return (A ++ list_merge Z.lt L R ++ C).
Proof.
  intros -> -> -> -> Hlen. unfold merge.
  pose proof Hlen as Hlen'. rewrite !length_app in Hlen'.
  rewrite wrap_int_small by side.
  rewrite (merge_loops_spec _ L R _ _ _ _ A [] C);
    [|done|done|done|simpl; lia|simpl; lia|done|rewrite !length_app; lia..].
  simpl app.
  assert (HP : length (list_merge Z.lt L R) = (length L + length R)%nat).
  { rewrite (Permutation_length (merge_Permutation Z.lt L R)). apply length_app. }
  rewrite (merge_copy_spec (list_merge Z.lt L R) _ _ A [] (L ++ R) C); [done|done|..].
  - by rewrite <- app_assoc.
  - by rewrite length_app, HP.
  - done.
  - simpl. lia.
  - rewrite HP. simpl. lia.
  - done.
  - rewrite HP, !length_app. lia.
Qed.

(** [mergesort] on a range of an array of at most 2^30 elements: the range
    is sorted and the rest of the array is untouched. *)
Lemma mergesort_spec fuel : ∀ arr A M C start e,
  arr = A ++ M ++ C → start = Z.of_nat (length A) →
  e = start + Z.of_nat (length M) - 1 →
  Z.of_nat (length arr) ≤ 1073741824 →
  (0 < fuel)%nat → (length M ≤ fuel)%nat →
  ∃ M', mergesort fuel arr start e = Return (A ++ M' ++ C) ∧
        Sorted Z.le M' ∧ M' ≡ₚ M.
Proof.
  induction fuel as [|fuel IH]; intros arr A M C start e -> -> -> Hlen H0 HM; [lia|].
  cbn [mergesort].
  destruct (Z.geb_spec (Z.of_nat (length A))
              (Z.of_nat (length A) + Z.of_nat (length M) - 1)) as [Hone|Hmany].
  { exists M. split; [done|]. split; [|done].
    destruct M as [|x [|y M]]; [constructor|repeat constructor|simpl in Hone; lia]. }
  rewrite !length_app in Hlen.
  rewrite wrap_int_small by (unfold MIN_VALUE, MAX_VALUE; lia).
  rewrite Z.quot_div_nonneg by lia.
  set (n1 := S (Z.to_nat ((Z.of_nat (length M) - 1) / 2))).
  assert (Hn1 : (n1 < length M)%nat).
  { unfold n1. apply Nat2Z.inj_lt. rewrite Nat2Z.inj_succ, Z2Nat.id.
    - pose proof (Z.div_lt_upper_bound (Z.of_nat (length M) - 1) 2 (Z.of_nat (length M) - 1)).
      lia.
    - apply Z.div_pos; lia. }
  assert (Hmid : (Z.of_nat (length A) + (Z.of_nat (length A) + Z.of_nat (length M) - 1)) / 2 =
                 Z.of_nat (length A) + Z.of_nat n1 - 1).
  { unfold n1. rewrite Nat2Z.inj_succ, Z2Nat.id by (apply Z.div_pos; lia).
    replace (Z.of_nat (length A) + (Z.of_nat (length A) + Z.of_nat (length M) - 1))
      with (Z.of_nat (length A) * 2 + (Z.of_nat (length M) - 1)) by lia.
    rewrite Z.div_add_l by lia. lia. }
  rewrite Hmid. clear Hmid.
  assert (Hn0 : (0 < n1)%nat) by (unfold n1; lia). clearbody n1.
  pose proof (take_drop n1 M) as Hsplit.
  assert (HM1 : length (take n1 M) = n1) by (rewrite length_take; lia).
  assert (HM2 : length (drop n1 M) = (length M - n1)%nat) by by rewrite length_drop.
  assert (Hf : (0 < fuel)%nat) by lia.
  assert (Hlm : length M = (n1 + (length M - n1))%nat) by lia.
  revert HM1 HM2 Hsplit. generalize (take n1 M) (drop n1 M). intros M1 M2 HM1 HM2 <-.
  rewrite length_app in *.
  destruct (IH (A ++ (M1 ++ M2) ++ C) A M1 (M2 ++ C) (Z.of_nat (length A))
              (Z.of_nat (length A) + Z.of_nat n1 - 1))
    as (M1' & -> & Hs1 & Hp1);
    [by rewrite <- !app_assoc|done|lia|rewrite !length_app; lia|done|lia|].
  cbn [bind].
  pose proof (Permutation_length Hp1) as Hl1.
  rewrite wrap_int_small by (unfold MIN_VALUE, MAX_VALUE; lia).
  destruct (IH (A ++ M1' ++ M2 ++ C) (A ++ M1') M2 C (Z.of_nat (length A) + Z.of_nat n1 - 1 + 1)
              (Z.of_nat (length A) + Z.of_nat (length M1 + length M2) - 1))
    as (M2' & -> & Hs2 & Hp2);
    [by rewrite <- !app_assoc|rewrite length_app; lia|lia|rewrite !length_app; lia|done|lia|].
  cbn [bind].
  pose proof (Permutation_length Hp2) as Hl2.
  rewrite (merge_spec _ A M1' M2' C);
    [|by rewrite <- !app_assoc|done|lia|lia|
      rewrite !length_app; unfold MAX_VALUE; lia].
  eexists. split; [done|]. split.
  - by apply Sorted_le_list_merge.
  - by rewrite merge_Permutation, Hp1, Hp2.
Qed.

(** *** Calls on ranges that are not within the array *)

Lemma quot2_between s e : s < e → s < 0 → s < (s + e) `quot` 2 ≤ e.
Proof.
  intros Hse Hs. destruct (Z.le_gt_cases 0 (s + e)) as [Hpos|Hneg].
  - rewrite Z.quot_div_nonneg by lia.
    pose proof (Z.div_pos (s + e) 2). pose proof (Z.div_le_upper_bound (s + e) 2 e). lia.
  - replace (s + e) with (- (- (s + e))) by lia.
    rewrite Z.quot_opp_l by lia. rewrite Z.quot_div_nonneg by lia.
    pose proof (Z.div_lt_upper_bound (- (s + e)) 2 (- s)).
    pose proof (Z.div_le_lower_bound (- (s + e)) 2 (- e)). lia.
Qed.

(** [(start + end)/2] for a negative [start] below [end]: whether or not
    the sum wraps, the result is above [start]. *)
Lemma mid_above_start s e :
  MIN_VALUE ≤ s < 0 → s < e ≤ MAX_VALUE →
  s < wrap_int (s + e) `quot` 2 ≤ MAX_VALUE.
Proof.
  unfold MIN_VALUE, MAX_VALUE. intros Hs He.
  destruct (Z.le_gt_cases (-2147483648) (s + e)) as [Hfit|Hwrap].
  - rewrite wrap_int_small by (unfold MIN_VALUE, MAX_VALUE; lia).
    pose proof (quot2_between s e). lia.
  - assert (wrap_int (s + e) = s + e + 4294967296) as ->.
    { unfold wrap_int.
      replace (s + e + 2147483648) with (s + e + 2147483648 + 4294967296 + -1 * 4294967296)
        by lia.
      rewrite Z.mod_add by lia. rewrite Z.mod_small; lia. }
    rewrite Z.quot_div_nonneg by lia.
    pose proof (Z.div_pos (s + e + 4294967296) 2).
    pose proof (Z.div_le_upper_bound (s + e + 4294967296) 2 2147483647). lia.
Qed.

(** With a negative [start] below [end] the recursion never ends: the first
    nested call is again on a range that begins at [start] and ends above
    it. *)
Lemma mergesort_negative_start fuel : ∀ arr start e,
  MIN_VALUE ≤ start < 0 → start < e ≤ MAX_VALUE →
  mergesort fuel arr start e = OutOfFuel.
Proof.
  induction fuel as [|fuel IH]; intros arr start e Hs He; [done|].
  cbn [mergesort]. destruct (Z.geb_spec start e) as [|_]; [lia|].
  pose proof (mid_above_start start e Hs He) as Hmid.
  rewrite IH; [done|lia|lia].
Qed.

(** The parts of an array before, in and after a range that lies within
    it. *)
Lemma array_split arr start e :
  0 ≤ start → start ≤ e + 1 → e < Z.of_nat (length arr) →
  ∃ A M C, arr = A ++ M ++ C ∧ start = Z.of_nat (length A) ∧
           e = start + Z.of_nat (length M) - 1 ∧ M = slice arr start e.
Proof.
  intros Hs Hse He.
  exists (take (Z.to_nat start) arr), (slice arr start e),
         (drop (Z.to_nat (e - start + 1)) (drop (Z.to_nat start) arr)).
  unfold slice. rewrite take_drop, take_drop.
  rewrite !length_take, length_drop. split; [done|]. split; [lia|]. split; [lia|done].
Qed.

Lemma mergesort_in_range fuel arr start e :
  0 ≤ start → start ≤ e + 1 → e < Z.of_nat (length arr) →
  Z.of_nat (length arr) ≤ 1073741824 →
  (0 < fuel)%nat → (Z.to_nat (e - start + 1) ≤ fuel)%nat →
  ∃ arr', mergesort fuel arr start e = Return arr' ∧ length arr' = length arr.
Proof.
  intros Hs Hse He Hlen H0 Hfuel.
  destruct (array_split arr start e Hs Hse He) as (A & M & C & HA & HS & HE & _).
  destruct (mergesort_spec fuel arr A M C start e HA HS HE Hlen H0) as (M' & -> & _ & HP);
    [lia|].
  eexists. split; [done|]. rewrite HA, !length_app. by rewrite (Permutation_length HP).
Qed.

(** A range that begins within the array and ends beyond it: the call
    throws. *)
Lemma mergesort_end_beyond fuel : ∀ arr start e,
  0 ≤ start < e → Z.of_nat (length arr) ≤ e ≤ 1073741824 →
  (Z.to_nat (e - start) < fuel)%nat →
  mergesort fuel arr start e = Throw ArrayIndexOutOfBoundsException.
Proof.
  induction fuel as [|fuel IH]; intros arr start e Hs He Hfuel; [lia|].
  cbn [mergesort]. destruct (Z.geb_spec start e) as [|_]; [lia|].
  rewrite wrap_int_small by (unfold MIN_VALUE, MAX_VALUE; lia).
  rewrite Z.quot_div_nonneg by lia.
  assert (Hmid : start ≤ (start + e) / 2 < e).
  { pose proof (Z.div_le_lower_bound (start + e) 2 start).
    pose proof (Z.div_lt_upper_bound (start + e) 2 e). lia. }
  set (mid := (start + e) / 2) in *. clearbody mid.
  assert (Hleft : mergesort fuel arr start mid = Throw ArrayIndexOutOfBoundsException ∨
                  ∃ a1, mergesort fuel arr start mid = Return a1 ∧ length a1 = length arr).
  { destruct (Z.le_gt_cases (Z.of_nat (length arr)) mid) as [Hout|Hin].
    - destruct (decide (start = mid)) as [<-|Hne].
      + right. exists arr. split; [|done]. destruct fuel; [lia|]. cbn [mergesort].
        by rewrite (proj2 (Z.geb_le _ _)) by lia.
      + left. apply IH; lia.
    - right. apply mergesort_in_range; lia. }
  destruct Hleft as [->|(a1 & -> & Hl1)]; [done|]. cbn [bind].
  rewrite wrap_int_small by (unfold MIN_VALUE, MAX_VALUE; lia).
  destruct (decide (mid + 1 = e)) as [Hlast|Hmore].
  - destruct fuel as [|fuel]; [lia|]. cbn [mergesort].
    rewrite (proj2 (Z.geb_le _ _)) by lia. cbn [bind].
    unfold merge. cbn [merge_both].
    rewrite wrap_int_small by (unfold MIN_VALUE, MAX_VALUE; lia).
    rewrite (proj2 (Z.leb_le start mid)) by lia.
    rewrite (proj2 (Z.leb_le (mid + 1) e)) by lia. cbn [andb].
    unfold aget at 1.
    destruct ((0 <=? start) && (start <? Z.of_nat (length a1))); [|done].
    destruct (a1 !! Z.to_nat start); [|done]. cbn [bind].
    unfold aget. rewrite (proj2 (Z.ltb_ge (mid + 1) _)) by lia.
    by rewrite andb_false_r.
  - rewrite IH; [done|lia|lia|lia].
Qed.

(** *** The loops of [merge] end on every input *)

Lemma aget_outcome arr i :
  (∃ v, aget arr i = Return v ∧ 0 ≤ i < Z.of_nat (length arr)) ∨
  aget arr i = Throw ArrayIndexOutOfBoundsException.
Proof.
  unfold aget. destruct (Z.leb_spec 0 i), (Z.ltb_spec i (Z.of_nat (length arr)));
    simpl; auto.
  destruct (arr !! Z.to_nat i) as [v|]; [|by right]. left. exists v. split; [done|lia].
Qed.

Lemma lget_outcome temp i :
  (∃ v, lget temp i = Return v) ∨ lget temp i = Throw IndexOutOfBoundsException.
Proof.
  unfold lget. destruct ((0 <=? i) && (i <? Z.of_nat (length temp))); [|by right].
  destruct (temp !! Z.to_nat i) as [v|]; [|by right]. left. by exists v.
Qed.

Lemma aset_outcome arr i v :
  (∃ arr', aset arr i v = Return arr' ∧ 0 ≤ i < Z.of_nat (length arr) ∧
           length arr' = length arr) ∨
  aset arr i v = Throw ArrayIndexOutOfBoundsException.
Proof.
  unfold aset. destruct (Z.leb_spec 0 i), (Z.ltb_spec i (Z.of_nat (length arr)));
    simpl; auto.
  left. eexists. split; [done|]. split; [lia|]. by rewrite length_insert.
Qed.

Lemma merge_rest_ends fuel : ∀ arr stop i temp,
  Z.of_nat (length arr) ≤ MAX_VALUE →
  (0 < fuel)%nat → (0 ≤ i → (Z.to_nat (Z.of_nat (length arr) - i) < fuel)%nat) →
  merge_rest fuel arr stop i temp ≠ OutOfFuel.
Proof.
  induction fuel as [|fuel IH]; intros arr stop i temp Hlen H0 Hi; [lia|].
  cbn [merge_rest]. destruct (i <=? stop); [|done].
  destruct (aget_outcome arr i) as [(a & -> & Hr)| ->]; [|done]. cbn [bind].
  rewrite wrap_int_small by (unfold MIN_VALUE, MAX_VALUE in *; lia).
  apply IH; [done|lia|lia].
Qed.

Lemma merge_both_ends fuel : ∀ arr mid e i j temp,
  Z.of_nat (length arr) ≤ MAX_VALUE →
  (0 < fuel)%nat →
  (0 ≤ i → 0 ≤ j →
   (Z.to_nat (Z.of_nat (length arr) - i) + Z.to_nat (Z.of_nat (length arr) - j) < fuel)%nat) →
  merge_both fuel arr mid e i j temp ≠ OutOfFuel.
Proof.
  induction fuel as [|fuel IH]; intros arr mid e i j temp Hlen H0 Hij; [lia|].
  cbn [merge_both]. destruct ((i <=? mid) && (j <=? e)); [|done].
  destruct (aget_outcome arr i) as [(a & -> & Hri)| ->]; [|done]. cbn [bind].
  destruct (aget_outcome arr j) as [(b & -> & Hrj)| ->]; [|done]. cbn [bind].
  destruct (a <? b).
  - rewrite wrap_int_small by (unfold MIN_VALUE, MAX_VALUE in *; lia).
    apply IH; [done|lia|lia].
  - rewrite wrap_int_small by (unfold MIN_VALUE, MAX_VALUE in *; lia).
    apply IH; [done|lia|lia].
Qed.

Lemma merge_copy_ends fuel : ∀ arr start e i temp,
  Z.of_nat (length arr) ≤ MAX_VALUE →
  (0 < fuel)%nat → (0 ≤ i → (Z.to_nat (Z.of_nat (length arr) - i) < fuel)%nat) →
  merge_copy fuel arr start e i temp ≠ OutOfFuel.
Proof.
  induction fuel as [|fuel IH]; intros arr start e i temp Hlen H0 Hi; [lia|].
  cbn [merge_copy]. destruct (i <=? e); [|done].
  destruct (lget_outcome temp (wrap_int (i - start))) as [(v & ->)| ->]; [|done].
  cbn [bind].
  destruct (aset_outcome arr i v) as [(arr' & -> & Hr & Hl)| ->]; [|done]. cbn [bind].
  rewrite wrap_int_small by (unfold MIN_VALUE, MAX_VALUE in *; lia).
  apply IH; rewrite ?Hl; [done|lia|lia].
Qed.

(** [merge] returns or throws, whatever its arguments. *)
Lemma merge_ends arr start mid e :
  Z.of_nat (length arr) ≤ MAX_VALUE → merge arr start mid e ≠ OutOfFuel.
Proof.
  intros Hlen. unfold merge.
  pose proof (merge_both_ends (S (2 * length arr)) arr mid e start (wrap_int (mid + 1)) []
                Hlen ltac:(lia)) as H1.
  destruct (merge_both _ _ _ _ _ _ _) as [[[i j] t1]| |]; [|done|]; cbn [bind fst snd].
  2:{ exfalso. apply H1; [|done]. lia. }
  pose proof (merge_rest_ends (S (2 * length arr)) arr mid i t1 Hlen ltac:(lia)) as H2.
  destruct (merge_rest _ arr mid i t1) as [[i' t2]| |]; [|done|]; cbn [bind fst snd].
  2:{ exfalso. apply H2; [|done]. lia. }
  pose proof (merge_rest_ends (S (2 * length arr)) arr e j t2 Hlen ltac:(lia)) as H3.
  destruct (merge_rest _ arr e j t2) as [[j' t3]| |]; [|done|]; cbn [bind fst snd].
  2:{ exfalso. apply H3; [|done]. lia. }
  apply merge_copy_ends; [done|lia|lia].
Qed.

End MergeSortFacts.

Module QuickSortFacts.
Import Java Jvm Arrays ArraysFacts QuickSortDemo.

Implicit Types (arr : list Z) (p : Z) (s e i j x : nat).

Lemma aget_nat arr i v : arr !! i = Some v → aget arr (Z.of_nat i) = Return v.
Proof.
  intros Hi. pose proof (lookup_lt_Some _ _ _ Hi). unfold aget.
  rewrite (proj2 (Z.leb_le _ _)), (proj2 (Z.ltb_lt _ _)) by lia. simpl.
  by rewrite Nat2Z.id, Hi.
Qed.

Lemma aset_nat arr i v :
  (i < length arr)%nat → aset arr (Z.of_nat i) v = Return (<[i := v]> arr).
Proof.
  intros Hi. unfold aset.
  rewrite (proj2 (Z.leb_le _ _)), (proj2 (Z.ltb_lt _ _)) by lia. simpl.
  by rewrite Nat2Z.id.
Qed.

Lemma swap_nat arr i j a b :
  arr !! i = Some a → arr !! j = Some b →
  swap arr (Z.of_nat i) (Z.of_nat j) = Return (<[j := a]> (<[i := b]> arr)).
Proof.
  intros Hi Hj. unfold swap.
  rewrite (aget_nat _ _ _ Hi), (aget_nat _ _ _ Hj). cbn [bind].
  rewrite aset_nat by (by eapply lookup_lt_Some). cbn [bind].
  apply aset_nat. rewrite length_insert. by eapply lookup_lt_Some.
Qed.

(** [scan_up] stops at the first element above the pivot, or at [end]. *)
Lemma scan_up_spec arr p e : ∀ fuel i,
  (e < length arr)%nat → Z.of_nat (length arr) ≤ MAX_VALUE →
  (i ≤ e)%nat → (e - i < fuel)%nat →
  ∃ i', scan_up fuel arr p (Z.of_nat e) (Z.of_nat i) = Return (Z.of_nat i') ∧
        (i ≤ i' ≤ e)%nat ∧
        (∀ x v, (i ≤ x < i')%nat → arr !! x = Some v → v ≤ p) ∧
        ((i' < e)%nat → ∃ v, arr !! i' = Some v ∧ p < v) ∧
        (∀ v, arr !! i = Some v → v ≤ p → (i < e)%nat → (i < i')%nat).
Proof.
  induction fuel as [|fuel IH]; intros i He Hlen Hi Hf; [lia|].
  destruct (lookup_lt_is_Some_2 arr i) as [a Ha]; [lia|].
  cbn [scan_up]. rewrite (aget_nat _ _ _ Ha). cbn [bind].
  rewrite wrap_int_small by (unfold MIN_VALUE, MAX_VALUE in *; lia).
  destruct (Z.geb_spec p a) as [Hpa|Hpa]; cbn [andb].
  - destruct (Z.leb_spec (Z.of_nat i) (Z.of_nat e - 1)) as [Hie|Hie].
    + rewrite wrap_int_small by (unfold MIN_VALUE, MAX_VALUE in *; lia).
      replace (Z.of_nat i + 1) with (Z.of_nat (S i)) by lia.
      destruct (IH (S i)) as (i' & -> & Hr & Hle & Hstop & _); [done|done|lia|lia|].
      exists i'. split; [done|]. split; [lia|]. split; [|split; [done|lia]].
      intros x v Hx Hv. destruct (decide (x = i)) as [->|Hne].
      * assert (v = a) as -> by congruence. lia.
      * apply (Hle x v); [lia|done].
    + exists i. split; [done|]. split; [lia|]. split; [intros; lia|].
      split; intros; lia.
  - exists i. split; [done|]. split; [lia|]. split; [intros; lia|]. split.
    + intros _. exists a. split; [done|lia].
    + intros v Hv. assert (v = a) as -> by congruence. lia.
Qed.

(** [scan_down] stops at the last element not above the pivot, or at
    [start]. *)
Lemma scan_down_spec arr p s : ∀ fuel j,
  (j < length arr)%nat → Z.of_nat (length arr) ≤ MAX_VALUE →
  (s ≤ j)%nat → (j - s < fuel)%nat →
  ∃ j', scan_down fuel arr p (Z.of_nat s) (Z.of_nat j) = Return (Z.of_nat j') ∧
        (s ≤ j' ≤ j)%nat ∧
        (∀ x v, (j' < x ≤ j)%nat → arr !! x = Some v → p < v) ∧
        ((s < j')%nat → ∃ v, arr !! j' = Some v ∧ v ≤ p).
Proof.
  induction fuel as [|fuel IH]; intros j Hj Hlen Hs Hf; [lia|].
  destruct (lookup_lt_is_Some_2 arr j) as [a Ha]; [lia|].
  cbn [scan_down]. rewrite (aget_nat _ _ _ Ha). cbn [bind].
  rewrite wrap_int_small by (unfold MIN_VALUE, MAX_VALUE in *; lia).
  destruct (Z.ltb_spec p a) as [Hpa|Hpa]; cbn [andb].
  - destruct (Z.geb_spec (Z.of_nat j) (Z.of_nat s + 1)) as [Hjs|Hjs].
    + rewrite wrap_int_small by (unfold MIN_VALUE, MAX_VALUE in *; lia).
      replace (Z.of_nat j - 1) with (Z.of_nat (j - 1)) by lia.
      destruct (IH (j - 1)%nat) as (j' & -> & Hr & Hgt & Hstop); [lia|done|lia|lia|].
      exists j'. split; [done|]. split; [lia|]. split; [|done].
      intros x v Hx Hv. destruct (decide (x = j)) as [->|Hne].
      * assert (v = a) as -> by congruence. lia.
      * apply (Hgt x v); [lia|done].
    + exists j. split; [done|]. split; [lia|]. split; intros; lia.
  - exists j. split; [done|]. split; [lia|]. split; [intros; lia|].
    intros _. exists a. split; [done|lia].
Qed.

(** The loop of [findParition]: between two rounds the elements before
    [i] are not above the pivot and those after [j] are above it. *)
Lemma partition_loop_spec p s e n : ∀ fuel arr i j,
  length arr = n → (e < n)%nat → Z.of_nat n ≤ MAX_VALUE →
  (s ≤ i ≤ e)%nat → (s ≤ j ≤ e)%nat →
  arr !! s = Some p →
  (∀ x v, (s ≤ x < i)%nat → arr !! x = Some v → v ≤ p) →
  (∀ x v, (j < x ≤ e)%nat → arr !! x = Some v → p < v) →
  ((i < j)%nat → ∃ v, arr !! i = Some v ∧ v ≤ p) →
  ((j ≤ i)%nat → ∃ v, arr !! j = Some v ∧ v ≤ p) →
  (j - i + 1 < fuel)%nat →
  ∃ arr' j',
    partition_loop fuel arr p (Z.of_nat s) (Z.of_nat e) (Z.of_nat i) (Z.of_nat j) =
      Return (arr', Z.of_nat j') ∧
    arr' ≡ₚ arr ∧ length arr' = n ∧
    (∀ x, (x < s ∨ e < x)%nat → arr' !! x = arr !! x) ∧
    arr' !! s = Some p ∧ (s ≤ j' ≤ e)%nat ∧
    (∀ x v, (s ≤ x < j')%nat → arr' !! x = Some v → v ≤ p) ∧
    (∀ x v, (j' < x ≤ e)%nat → arr' !! x = Some v → p < v) ∧
    (∃ v, arr' !! j' = Some v ∧ v ≤ p).
Proof.
  induction fuel as [|fuel IH];
    intros arr i j Hn He Hmax Hi Hj Hs Hlo Hhi Hci Hcj Hf; [lia|].
  cbn [partition_loop]. destruct (Z.ltb_spec (Z.of_nat i) (Z.of_nat j)) as [Hij|Hij].
  - destruct (scan_up_spec arr p e (S (length arr)) i)
      as (i' & -> & Hi' & Hle & Hstop & Hadv); [lia..|]. cbn [bind].
    destruct (scan_down_spec arr p s (S (length arr)) j)
      as (j' & -> & Hj' & Hgt & Hstop'); [lia..|]. cbn [bind].
    destruct Hci as (vi & Hvi & Hvip); [lia|].
    assert (i < i')%nat as Hadv' by (apply (Hadv vi); [done|done|lia]).
    assert (Hlo' : ∀ x v, (s ≤ x < i')%nat → arr !! x = Some v → v ≤ p).
    { intros x v Hx Hv. destruct (decide (x < i)%nat).
      - apply (Hlo x v); [lia|done].
      - apply (Hle x v); [lia|done]. }
    assert (Hhi' : ∀ x v, (j' < x ≤ e)%nat → arr !! x = Some v → p < v).
    { intros x v Hx Hv. destruct (decide (j < x)%nat).
      - apply (Hhi x v); [lia|done].
      - apply (Hgt x v); [lia|done]. }
    destruct (Z.ltb_spec (Z.of_nat i') (Z.of_nat j')) as [Hij'|Hij'].
    + destruct Hstop as (a & Ha & Hpa); [lia|].
      destruct Hstop' as (b & Hb & Hbp); [lia|].
      rewrite (swap_nat arr i' j' a b Ha Hb). cbn [bind].
      pose proof (lookup_lt_Some _ _ _ Ha) as Hli.
      pose proof (lookup_lt_Some _ _ _ Hb) as Hlj.
      destruct (IH (<[j' := a]> (<[i' := b]> arr)) i' j')
        as (arr' & j'' & -> & Hp & Hl & Hout & Hs' & Hr' & Hlo'' & Hhi'' & Hat);
        [by rewrite !length_insert|done|done|lia|lia| | | | | |lia|].
      * rewrite !list_lookup_insert_ne by lia. done.
      * intros x v Hx. rewrite !list_lookup_insert_ne by lia. by apply Hlo'.
      * intros x v Hx. rewrite !list_lookup_insert_ne by lia. by apply Hhi'.
      * intros _. exists b. split; [|done].
        rewrite list_lookup_insert_ne by lia. by apply list_lookup_insert_eq.
      * intros ?. lia.
      * exists arr', j''. split; [done|]. split.
        { rewrite Hp. by apply Permutation_insert_swap. }
        split; [done|]. split; [|done].
        intros x Hx. rewrite Hout by done. rewrite !list_lookup_insert_ne by lia. done.
    + cbn [bind]. destruct (IH arr i' j')
        as (arr' & j'' & -> & Hp & Hl & Hout & Hs' & Hr' & Hlo'' & Hhi'' & Hat);
        [done|done|done|lia|lia|done|done|done| | |lia|].
      * intros ?. lia.
      * intros _. destruct (decide (s < j')%nat) as [Hsj|Hsj]; [by apply Hstop'|].
        assert (j' = s) as -> by lia. exists p. split; [done|lia].
      * exists arr', j''. done.
  - exists arr, j. split; [done|]. split; [done|]. split; [done|]. split; [done|].
    split; [done|]. split; [lia|]. split; [|split; [done|apply Hcj; lia]].
    intros x v Hx. apply Hlo. lia.
Qed.

(** [findParition] on a range of at least two elements: the pivot,
    [arr[start]], ends at the index returned, after the elements of the
    range that are not above it and before those that are; the rest of the
    array stays. *)
Lemma findParition_index_spec arr p s e :
  (s < e)%nat → (e < length arr)%nat → Z.of_nat (length arr) ≤ MAX_VALUE →
  arr !! s = Some p →
  ∃ arr' j,
    findParition arr (Z.of_nat s) (Z.of_nat e) = Return (arr', Z.of_nat j) ∧
    arr' ≡ₚ arr ∧ length arr' = length arr ∧
    (∀ x, (x < s ∨ e < x)%nat → arr' !! x = arr !! x) ∧
    (s ≤ j ≤ e)%nat ∧ arr' !! j = Some p ∧
    (∀ x v, (s ≤ x < j)%nat → arr' !! x = Some v → v ≤ p) ∧
    (∀ x v, (j < x ≤ e)%nat → arr' !! x = Some v → p < v).
Proof.
  intros Hse He Hmax Hs. unfold findParition.
  rewrite (aget_nat _ _ _ Hs). cbn [bind].
  destruct (partition_loop_spec p s e (length arr) (S (length arr)) arr s e)
    as (arr1 & j & -> & Hp & Hl & Hout & Hs1 & Hj & Hlo & Hhi & (b & Hb & Hbp));
    [done|done|done|lia|lia|done| | | | |lia|].
  { intros x v Hx. lia. }
  { intros x v Hx. lia. }
  { intros _. exists p. split; [done|lia]. }
  { intros ?. lia. }
  cbn [bind fst snd]. rewrite (swap_nat arr1 s j p b Hs1 Hb). cbn [bind].
  pose proof (lookup_lt_Some _ _ _ Hs1) as Hls.
  pose proof (lookup_lt_Some _ _ _ Hb) as Hlj.
  eexists _, j. split; [done|]. split.
  { rewrite <- Hp. by apply Permutation_insert_swap. }
  split; [by rewrite !length_insert|]. split.
  { intros x Hx. rewrite !list_lookup_insert_ne by lia. by apply Hout. }
  split; [done|]. split.
  { apply list_lookup_insert_eq. by rewrite length_insert. }
  split.
  - intros x v Hx. rewrite list_lookup_insert_ne by lia.
    destruct (decide (x = s)) as [->|Hne].
    + rewrite list_lookup_insert_eq by done. intros [= <-]. done.
    + rewrite list_lookup_insert_ne by done. apply Hlo. lia.
  - intros x v Hx. rewrite !list_lookup_insert_ne by lia. by apply Hhi.
Qed.

(** An array that agrees with [A ++ M ++ C] outside the range of [M] is
    [A ++ M' ++ C]. *)
Lemma same_outside arr arr' (A M C : list Z) :
  arr = A ++ M ++ C → length arr' = length arr →
  (∀ x, (x < length A ∨ length A + length M ≤ x)%nat → arr' !! x = arr !! x) →
  ∃ M', arr' = A ++ M' ++ C ∧ length M' = length M.
Proof.
  intros -> Hlen Hout. rewrite !length_app in Hlen.
  exists (take (length M) (drop (length A) arr')).
  split; [|rewrite length_take, length_drop; lia].
  rewrite <- (take_drop (length A) arr') at 1. f_equal.
  - apply list_eq. intros x. destruct (decide (x < length A)%nat) as [Hx|Hx].
    + rewrite lookup_take_lt by done. rewrite Hout by lia. by rewrite lookup_app_l.
    + rewrite lookup_take_ge by lia. symmetry. apply lookup_ge_None_2. lia.
  - rewrite <- (take_drop (length M) (drop (length A) arr')) at 1. f_equal.
    rewrite drop_drop. apply list_eq. intros x. rewrite lookup_drop.
    rewrite Hout by lia. rewrite lookup_app_r by lia.
    rewrite lookup_app_r by lia. f_equal. lia.
Qed.

(** [findParition] on the range [p :: M0] of at least two elements of the
    array [A ++ (p :: M0) ++ C]. *)
Lemma findParition_spec arr (A M0 C : list Z) p :
  arr = A ++ (p :: M0) ++ C → M0 ≠ [] → Z.of_nat (length arr) ≤ MAX_VALUE →
  ∃ L R,
    findParition arr (Z.of_nat (length A))
      (Z.of_nat (length A) + Z.of_nat (length (p :: M0)) - 1) =
      Return (A ++ L ++ p :: R ++ C, Z.of_nat (length A) + Z.of_nat (length L)) ∧
    L ++ p :: R ≡ₚ p :: M0 ∧
    Forall (λ v, v ≤ p) L ∧ Forall (λ v, p < v) R.
Proof.
  intros Harr HM0 Hmax.
  assert (0 < length M0)%nat as Hpos by (destruct M0; [done|simpl; lia]).
  assert (Hlen : length arr = (length A + S (length M0) + length C)%nat).
  { rewrite Harr, !length_app. simpl. lia. }
  assert (Hs : arr !! length A = Some p).
  { rewrite Harr, lookup_app_r by lia. by rewrite Nat.sub_diag. }
  destruct (findParition_index_spec arr p (length A) (length A + length M0))
    as (arr' & j & Hrun & Hp & Hl & Hout & Hj & Hat & Hlo & Hhi); [lia|lia|done|done|].
  destruct (same_outside arr arr' A (p :: M0) C Harr Hl) as (M' & Harr' & HlM').
  { intros x Hx. apply Hout. simpl in Hx. lia. }
  simpl in HlM'.
  assert (HM : ∀ x, (x < length M')%nat → arr' !! (length A + x)%nat = M' !! x).
  { intros x Hx. rewrite Harr', lookup_app_r by lia. rewrite lookup_app_l by lia.
    f_equal. lia. }
  assert (Hpj : M' !! (j - length A)%nat = Some p).
  { rewrite <- HM by lia. rewrite <- Hat. f_equal. lia. }
  exists (take (j - length A) M'), (drop (S (j - length A)) M').
  assert (HM' : M' = take (j - length A) M' ++ p :: drop (S (j - length A)) M').
  { symmetry. by apply take_drop_middle. }
  split; [|split; [|split]].
  - replace (Z.of_nat (length A) + Z.of_nat (length (p :: M0)) - 1)
      with (Z.of_nat (length A + length M0)) by (simpl; lia).
    rewrite Hrun. f_equal. f_equal.
    + rewrite Harr'. f_equal. rewrite HM' at 1. by rewrite <- app_assoc.
    + rewrite length_take. lia.
  - rewrite <- HM'. rewrite Harr, Harr' in Hp.
    apply Permutation_app_inv_l, Permutation_app_inv_r in Hp. done.
  - apply Forall_lookup. intros x v Hx.
    pose proof (lookup_lt_Some _ _ _ Hx) as Hlx. rewrite length_take in Hlx.
    rewrite lookup_take_lt in Hx by lia.
    apply (Hlo (length A + x)%nat v); [lia|]. rewrite HM by lia. done.
  - apply Forall_lookup. intros x v Hx.
    pose proof (lookup_lt_Some _ _ _ Hx) as Hlx. rewrite length_drop in Hlx.
    rewrite lookup_drop in Hx.
    apply (Hhi (length A + (S (j - length A) + x))%nat v); [lia|].
    rewrite HM by lia. done.
Qed.

(** A sorted list of elements up to [p], then [p], then a sorted list of
    elements above [p]. *)
Lemma Sorted_around p (L R : list Z) :
  Sorted Z.le L → Sorted Z.le R →
  Forall (λ v, v ≤ p) L → Forall (λ v, p < v) R →
  Sorted Z.le (L ++ p :: R).
Proof.
  intros HL HR HLp HRp. apply StronglySorted_Sorted.
  apply Sorted_StronglySorted in HL; [|apply _].
  apply Sorted_StronglySorted in HR; [|apply _].
  rewrite Forall_forall in HLp. rewrite Forall_forall in HRp.
  apply StronglySorted_app_2; [|done|].
  - intros x y Hx Hy. apply elem_of_cons in Hy as [->|Hy]; [by apply HLp|].
    specialize (HLp x Hx). specialize (HRp y Hy). lia.
  - constructor; [done|]. apply Forall_forall. intros y Hy.
    specialize (HRp y Hy). lia.
Qed.

(** [quickSort] sorts the range it is given and leaves the rest of the
    array as it is. *)
Lemma quickSort_spec fuel : ∀ arr (A M C : list Z),
  arr = A ++ M ++ C → Z.of_nat (length arr) ≤ MAX_VALUE →
  (0 < fuel)%nat → (length M ≤ fuel)%nat →
  ∃ M', quickSort fuel arr (Z.of_nat (length A))
          (Z.of_nat (length A) + Z.of_nat (length M) - 1) = Return (A ++ M' ++ C) ∧
        Sorted Z.le M' ∧ M' ≡ₚ M.
Proof.
  induction fuel as [|fuel IH]; intros arr A M C Harr Hmax H0 Hf; [lia|].
  cbn [quickSort].
  destruct (Z.ltb_spec (Z.of_nat (length A))
              (Z.of_nat (length A) + Z.of_nat (length M) - 1)) as [Hlt|Hge].
  - destruct M as [|p M0]; [simpl in Hlt; lia|].
    assert (M0 ≠ []) as HM0 by (intros ->; simpl in Hlt; lia).
    assert (0 < length M0)%nat as Hpos by (destruct M0; [done|simpl; lia]).
    destruct (findParition_spec arr A M0 C p Harr HM0 Hmax)
      as (L & R & -> & Hp & HLp & HRp). cbn [bind fst snd].
    pose proof (Permutation_length Hp) as Hlp. rewrite length_app in Hlp.
    simpl in Hlp, Hf.
    assert (Hlen : length arr = (length A + S (length M0) + length C)%nat).
    { rewrite Harr, !length_app. simpl. lia. }
    rewrite wrap_int_small by (unfold MIN_VALUE, MAX_VALUE in *; lia).
    destruct (IH (A ++ L ++ p :: R ++ C) A L (p :: R ++ C))
      as (L' & -> & HsL & HpL); [done| |lia|lia|].
    { rewrite !length_app. simpl. rewrite length_app. lia. }
    cbn [bind].
    pose proof (Permutation_length HpL) as HlL.
    rewrite wrap_int_small by (unfold MIN_VALUE, MAX_VALUE in *; lia).
    destruct (IH (A ++ L' ++ p :: R ++ C) (A ++ L' ++ [p]) R C)
      as (R' & Hrun & HsR & HpR); [by rewrite <- !app_assoc| |lia|lia|].
    { rewrite !length_app. simpl. rewrite length_app. lia. }
    replace (Z.of_nat (length (A ++ L' ++ [p])))
      with (Z.of_nat (length A) + Z.of_nat (length L) + 1) in Hrun
      by (rewrite !length_app; simpl; lia).
    replace (Z.of_nat (length A) + Z.of_nat (length L) + 1 + Z.of_nat (length R) - 1)
      with (Z.of_nat (length A) + Z.of_nat (length (p :: M0)) - 1) in Hrun
      by (simpl; lia).
    rewrite Hrun. exists (L' ++ p :: R'). split; [by rewrite <- !app_assoc|]. split.
    + apply Sorted_around; [done|done| |].
      * by rewrite HpL.
      * by rewrite HpR.
    + by rewrite HpL, HpR.
  - exists M. split; [by rewrite Harr|]. split; [|done].
    destruct M as [|x [|y M]]; [constructor|repeat constructor|simpl in Hge; lia].
Qed.

(** *** Ranges that are not inside the array *)

Lemma aget_outside arr (i : Z) :
  ¬ (0 ≤ i < Z.of_nat (length arr)) → aget arr i = Throw ArrayIndexOutOfBoundsException.
Proof.
  intros Hi. unfold aget.
  destruct (Z.leb_spec 0 i), (Z.ltb_spec i (Z.of_nat (length arr))); simpl; try done. lia.
Qed.

Lemma aget_cases arr (i : Z) :
  (∃ v, aget arr i = Return v ∧ 0 ≤ i < Z.of_nat (length arr)) ∨
  aget arr i = Throw ArrayIndexOutOfBoundsException.
Proof.
  unfold aget. destruct (Z.leb_spec 0 i), (Z.ltb_spec i (Z.of_nat (length arr)));
    simpl; auto.
  destruct (arr !! Z.to_nat i) as [v|]; [|by right]. left. exists v. split; [done|lia].
Qed.

(** The first loop returns or throws [ArrayIndexOutOfBoundsException]. *)
Lemma scan_up_ends fuel : ∀ arr p end_ (i : Z),
  Z.of_nat (length arr) ≤ MAX_VALUE →
  (0 < fuel)%nat → (0 ≤ i → (Z.to_nat (Z.of_nat (length arr) - i) < fuel)%nat) →
  (∃ r : Z, scan_up fuel arr p end_ i = Return r) ∨
  scan_up fuel arr p end_ i = Throw ArrayIndexOutOfBoundsException.
Proof.
  induction fuel as [|fuel IH]; intros arr p e i Hlen H0 Hi; [lia|].
  cbn [scan_up]. destruct (aget_cases arr i) as [(a & -> & Hr)| ->]; [|by right].
  cbn [bind]. destruct ((p >=? a) && (i <=? wrap_int (e - 1))); [|by eauto].
  rewrite wrap_int_small by (unfold MIN_VALUE, MAX_VALUE in *; lia).
  apply IH; [done|lia|lia].
Qed.

(** [findParition] on a range of at least two indices that is not inside
    the array. *)
Lemma findParition_outside arr start end_ :
  Z.of_nat (length arr) ≤ MAX_VALUE →
  start < end_ → ¬ (0 ≤ start ∧ end_ < Z.of_nat (length arr)) →
  findParition arr start end_ = Throw ArrayIndexOutOfBoundsException.
Proof.
  intros Hlen Hse Hout. unfold findParition.
  destruct (aget_cases arr start) as [(p & -> & Hr)| ->]; [|done]. cbn [bind].
  cbn [partition_loop]. rewrite (proj2 (Z.ltb_lt _ _)) by done.
  destruct (scan_up_ends (S (length arr)) arr p end_ start Hlen) as [[r ->]| ->];
    [lia|lia| |done].
  cbn [bind scan_down]. rewrite aget_outside by lia. done.
Qed.


Lemma swap_ends arr (i j : Z) : swap arr i j ≠ OutOfFuel.
Proof.
  unfold swap, aget, aset.
  repeat (match goal with
          | |- context [if ?b then _ else _] => destruct b
          | |- context [match ?o with Some _ => _ | None => _ end] => destruct o
          end; cbn [bind]); done.
Qed.

(** The budgets that [findParition] gives its loops are never used up. *)
Lemma findParition_ends arr start end_ :
  Z.of_nat (length arr) ≤ MAX_VALUE → findParition arr start end_ ≠ OutOfFuel.
Proof.
  intros Hlen. destruct (decide (start < end_)) as [Hse|Hse].
  - destruct (decide (0 ≤ start ∧ end_ < Z.of_nat (length arr))) as [Hin|Hout].
    + destruct (lookup_lt_is_Some_2 arr (Z.to_nat start)) as [p Hp]; [lia|].
      destruct (findParition_index_spec arr p (Z.to_nat start) (Z.to_nat end_))
        as (arr' & j & Hrun & _); [lia|lia|done|done|].
      rewrite !Z2Nat.id in Hrun by lia. by rewrite Hrun.
    + by rewrite findParition_outside.
  - unfold findParition. destruct (aget_cases arr start) as [(p & -> & Hr)| ->]; [|done].
    cbn [bind partition_loop]. rewrite (proj2 (Z.ltb_ge _ _)) by lia.
    cbn [bind fst snd]. pose proof (swap_ends arr start end_) as Hsw.
    by destruct (swap arr start end_).
Qed.

End QuickSortFacts.

(** * The properties stated by the specification *)

Module Spec.
Import Java.

(** LFU eviction, for all runs.  In every state reached from
    the constructor of a cache of positive capacity, a [put] of a new key
    into the full cache returns, and the entry that leaves is the tail of
    the list of [minFrequency]: of the stored entries that have its
    frequency it is the one touched least recently, and, as long as at most
    [Integer.MAX_VALUE] calls have been made (so that no frequency counter
    has wrapped), no stored entry has a smaller frequency.  With capacity
    2, [put(A,1); put(B,2); put(C,3)] evicts [A] and leaves the keys [B]
    and [C]. *)
Theorem lfu_evicts_tail_of_min_frequency_list :
  (∀ (cap : Z) (ops : list LFU.op) (c : LFU.LFUCache) (k v : Z),
     0 < cap →
     LFU.run_new cap ops = Ok c →
     LFU.keyToNodeMap c !! k = None →
     LFU.size c = LFU.capacity c →
     ∃ l victim nv c',
       LFU.put k v c = Ok c' ∧
       LFU.frequencyToListMap c !! LFU.minFrequency c = Some l ∧
       last l = Some victim ∧
       LFU.keyToNodeMap c !! victim = Some nv ∧
       LFU.keyToNodeMap c' !! victim = None ∧
       dom (LFU.keyToNodeMap c') = {[k]} ∪ (dom (LFU.keyToNodeMap c) ∖ {[victim]}) ∧
       (∀ x nx, LFU.keyToNodeMap c !! x = Some nx →
                LFU.frequency nx = LFU.frequency nv →
                (LFU.last_touch ops victim ≤ LFU.last_touch ops x)%nat) ∧
       (Z.of_nat (length ops) ≤ MAX_VALUE →
        ∀ x nx, LFU.keyToNodeMap c !! x = Some nx →
                LFU.frequency nv ≤ LFU.frequency nx)) ∧
  (∀ A B C : Z,
     A ≠ B → A ≠ C → B ≠ C →
     ∃ c2 c3,
       LFU.run_new 2 [LFU.Put A 1; LFU.Put B 2] = Ok c2 ∧
       dom (LFU.keyToNodeMap c2) = {[A; B]} ∧
       (∀ x nx, LFU.keyToNodeMap c2 !! x = Some nx → LFU.frequency nx = 1) ∧
       LFU.put C 3 c2 = Ok c3 ∧
       LFU.run_new 2 [LFU.Put A 1; LFU.Put B 2; LFU.Put C 3] = Ok c3 ∧
       dom (LFU.keyToNodeMap c3) = {[B; C]}).
Proof.
  split.
  - intros cap ops c k v Hcap Hrun Hk Hfull.
    destruct (LFUFacts.run_new_inv cap ops) as (c0 & Hrun0 & Hinv & Hc & Hfreq).
    assert (c0 = c) as -> by congruence.
    destruct (LFUFacts.put_full ops c k v Hinv) as
      (l & victim & nv & c' & Hput & Hl & Hlast & Hnv & Hf & Hm); [lia|done..|].
    exists l, victim, nv, c'. split_and!; try done.
    + rewrite Hm. rewrite lookup_insert_ne; [apply lookup_delete_eq|].
      intros ->. congruence.
    + rewrite Hm. by rewrite dom_insert_L, dom_delete_L.
    + intros x nx Hx Hfx.
      destruct (LFUFacts.inv_own_list _ _ _ _ (LFU.inv_struct _ _ Hinv) Hx)
        as (lx & Hlx & Hin).
      rewrite Hfx, Hf, Hl in Hlx. injection Hlx as <-.
      eapply LFUFacts.sorted_last_oldest; [|done..].
      by apply (LFU.inv_recent _ _ (LFU.inv_struct _ _ Hinv) _ _ Hl).
    + intros Hlen x nx Hx. rewrite Hf.
      by apply (LFU.freq_min _ _ (Hfreq Hlen) _ _ Hx).
  - intros A B C HAB HAC HBC. unfold LFU.run_new, LFU.new. simpl.
    rewrite (LFUFacts.put_room _ A 1); simpl;
      [|done|apply lookup_empty|by rewrite JavaFacts.hsize_empty].
    rewrite lookup_empty. simpl.
    rewrite (LFUFacts.put_room _ B 2); simpl;
      [|done|by rewrite lookup_insert_ne, lookup_empty|].
    2:{ rewrite JavaFacts.size_insert_absent, JavaFacts.hsize_empty by apply lookup_empty.
        done. }
    rewrite lookup_insert_eq. simpl.
    assert (Hput3 : ∃ c3, LFU.put C 3
        {| LFU.keyToNodeMap :=
             <[B := LFU.newCacheNode B 2]> (<[A := LFU.newCacheNode A 1]> ∅);
           LFU.frequencyToListMap := <[1 := [B; A]]> (<[1 := [A]]> ∅);
           LFU.capacity := 2; LFU.minFrequency := 1 |} = Ok c3 ∧
        dom (LFU.keyToNodeMap c3) = {[B; C]}).
    { unfold LFU.put. simpl.
      rewrite !lookup_insert_ne, lookup_empty by done.
      rewrite !JavaFacts.size_insert_absent, JavaFacts.hsize_empty;
        [|apply lookup_empty|by rewrite lookup_insert_ne, lookup_empty].
      simpl. unfold LFU.evict. simpl. rewrite lookup_insert_eq. simpl.
      rewrite lookup_fmap, lookup_insert_eq. simpl.
      assert (unlink A [B; A] = [B]) as ->.
      { unfold unlink. rewrite filter_cons_True by congruence.
        by rewrite filter_cons_False by (intros ?; congruence). }
      simpl. eexists. split; [reflexivity|]. simpl.
      rewrite dom_insert_L, dom_delete_L, !dom_insert_L, dom_empty_L. set_solver. }
    destruct Hput3 as (c3 & Hput3 & Hdom3).
    eexists _, c3. split; [reflexivity|]. simpl. split_and!.
    + rewrite !dom_insert_L, dom_empty_L. set_solver.
    + intros x nx. rewrite !lookup_insert_Some, lookup_empty. naive_solver.
    + done.
    + by rewrite Hput3.
    + done.
Qed.

(** The same at capacity 2, after [put(1,10); put(2,20)], for
    [put(3,30)]. *)
Lemma lfu_evicts_tail_of_min_frequency_list_example :
  ∃ c, LFU.run_new 2 [LFU.Put 1 10; LFU.Put 2 20] = Ok c ∧
    ∃ l victim nv c',
      LFU.put 3 30 c = Ok c' ∧
      LFU.frequencyToListMap c !! LFU.minFrequency c = Some l ∧
      last l = Some victim ∧
      LFU.keyToNodeMap c !! victim = Some nv ∧
      LFU.keyToNodeMap c' !! victim = None ∧
      dom (LFU.keyToNodeMap c') = {[3]} ∪ (dom (LFU.keyToNodeMap c) ∖ {[victim]}) ∧
      (∀ x nx, LFU.keyToNodeMap c !! x = Some nx →
               LFU.frequency nx = LFU.frequency nv →
               (LFU.last_touch [LFU.Put 1 10; LFU.Put 2 20] victim
                ≤ LFU.last_touch [LFU.Put 1 10; LFU.Put 2 20] x)%nat) ∧
      (Z.of_nat (length [LFU.Put 1 10; LFU.Put 2 20]) ≤ MAX_VALUE →
       ∀ x nx, LFU.keyToNodeMap c !! x = Some nx →
               LFU.frequency nv ≤ LFU.frequency nx).
Proof.
  eexists. split; [vm_compute; reflexivity|].
  apply (proj1 lfu_evicts_tail_of_min_frequency_list 2
           [LFU.Put 1 10; LFU.Put 2 20] _ 3 30).
  - lia.
  - vm_compute. reflexivity.
  - vm_compute. reflexivity.
  - vm_compute. reflexivity.
Defined.


(** C2.  Capacity invariant.  For a cache built with a non-negative
    capacity, every run of calls from the constructor completes in a state
    with [size() <= capacity]; this holds for [get]/[put] on
    [LRUCache.java] and on the LFU cache.  On the LRU cache of the design
    document, whose calls are [get]/[put]/[remove], every run that
    completes ends within the capacity, and every run completes when the
    capacity is positive. *)
Theorem C2_size_within_capacity :
  (∀ (T : Type) `{Countable T} (cap : Z) (ops : list (LRUCache.op (T:=T))),
     0 ≤ cap →
     ∃ c, LRUCache.run_new cap ops = Ok c ∧
          LRUCache.capacity c = cap ∧
          LRUCache.size c ≤ LRUCache.capacity c) ∧
  (∀ (cap : Z) (ops : list LFU.op),
     0 ≤ cap →
     ∃ c, LFU.run_new cap ops = Ok c ∧
          LFU.capacity c = cap ∧
          LFU.size c ≤ LFU.capacity c) ∧
  (∀ (K : Type) `{Countable K} (V : Type) (cap : Z)
     (ops : list (DesignLRU.op (K:=K) (V:=V))) c,
     0 ≤ cap →
     DesignLRU.run_new cap ops = Ok c →
     DesignLRU.capacity c = cap ∧
     DesignLRU.size c ≤ DesignLRU.capacity c) ∧
  (∀ (K : Type) `{Countable K} (V : Type) (cap : Z)
     (ops : list (DesignLRU.op (K:=K) (V:=V))),
     0 < cap →
     ∃ c, DesignLRU.run_new cap ops = Ok c).
Proof.
  split_and!.
  - intros T ? ? cap ops Hcap.
    destruct (LRUCacheFacts.lru_run_new_inv cap ops) as (c & Hrun & Hinv & Hc).
    exists c. split_and!; [done..|].
    pose proof (LRUCache.inv_size _ Hinv). lia.
  - intros cap ops Hcap.
    destruct (LFUFacts.run_new_inv cap ops) as (c & Hrun & Hinv & Hc & _).
    exists c. split_and!; [done..|].
    apply (LFU.inv_size _ _ Hinv). lia.
  - intros K ? ? V cap ops c Hcap Hrun. unfold DesignLRU.run_new, DesignLRU.new in Hrun.
    simpl in Hrun.
    destruct (DesignLRUFacts.dlru_run_inv ops _ c (DesignLRUFacts.dlru_inv_new cap) Hrun)
      as [Hinv Hc].
    simpl in Hc. split; [done|]. pose proof (DesignLRU.inv_size _ Hinv). lia.
  - intros K ? ? V cap ops Hcap. unfold DesignLRU.run_new, DesignLRU.new. simpl.
    by apply DesignLRUFacts.dlru_run_total; [apply DesignLRUFacts.dlru_inv_new|].
Qed.

(** C2 at capacity 2 (and 0 for the run that completes on the cache of the
    design document), on short runs with keys in [Z]. *)
Lemma C2_size_within_capacity_witness :
  (∃ c, LRUCache.run_new 2
          [LRUCache.Put 1 None; LRUCache.Put 2 None; LRUCache.Put 3 None;
           LRUCache.Get 2] = Ok c ∧
        LRUCache.capacity c = 2 ∧ LRUCache.size c ≤ LRUCache.capacity c) ∧
  (∃ c, LFU.run_new 2 [LFU.Put 1 1; LFU.Put 2 2; LFU.Put 3 3; LFU.Get 2] = Ok c ∧
        LFU.capacity c = 2 ∧ LFU.size c ≤ LFU.capacity c) ∧
  (∃ c, DesignLRU.run_new (K:=Z) (V:=Z) 0 [DesignLRU.Get 1; DesignLRU.Remove 1] = Ok c ∧
        DesignLRU.capacity c = 0 ∧ DesignLRU.size c ≤ DesignLRU.capacity c) ∧
  (∃ c, DesignLRU.run_new (K:=Z) (V:=Z) 2
          [DesignLRU.Put 1 None; DesignLRU.Put 2 None; DesignLRU.Put 3 None;
           DesignLRU.Remove 2] = Ok c).
Proof.
  destruct C2_size_within_capacity as (Hlru & Hlfu & Hdesign & Htotal).
  split_and!.
  - apply (Hlru Z _ _ 2). lia.
  - apply (Hlfu 2). lia.
  - eexists. split; [vm_compute; reflexivity|].
    apply (Hdesign Z _ _ Z 0 [DesignLRU.Get 1; DesignLRU.Remove 1]); [lia|].
    vm_compute. reflexivity.
  - apply (Htotal Z _ _ Z 2). lia.
Defined.

(** C3.  LRU eviction order on [LRUCache.java]: with capacity 2 and three
    distinct keys, [put(A,1); put(B,2); get(A); put(C,3)] evicts [B], not
    [A]; the final state holds exactly the keys [A] and [C]. *)
Theorem C3_lru_evicts_least_recently_used :
  ∀ (T : Type) `{Countable T} (A B C : T) (v1 v2 v3 : option T),
    A ≠ B → A ≠ C → B ≠ C →
    ∃ c3 c4,
      LRUCache.run_new 2 [LRUCache.Put A v1; LRUCache.Put B v2; LRUCache.Get A] = Ok c3 ∧
      dom (LRUCache.cache c3) = {[A; B]} ∧
      LRUCache.chain c3 = [A; B] ∧
      LRUCache.put C v3 c3 = Ok c4 ∧
      LRUCache.run_new 2
        [LRUCache.Put A v1; LRUCache.Put B v2; LRUCache.Get A; LRUCache.Put C v3] = Ok c4 ∧
      dom (LRUCache.cache c4) = {[A; C]} ∧
      LRUCache.cache c4 !! B = None ∧
      is_Some (LRUCache.cache c4 !! A) ∧
      LRUCache.chain c4 = [C; A].
Proof.
  intros T ? ? A B C v1 v2 v3 HAB HAC HBC.
  set (nA := {| LRUCache.key := A; LRUCache.value := v1 |}).
  set (nB := {| LRUCache.key := B; LRUCache.value := v2 |}).
  set (nC := {| LRUCache.key := C; LRUCache.value := v3 |}).
  set (c0 := LRUCache.mkLRU (T:=T) ∅ [] 2).
  set (c1 := LRUCache.mkLRU (<[A := nA]> ∅) [A] 2).
  set (c2 := LRUCache.mkLRU (<[B := nB]> (<[A := nA]> ∅)) [B; A] 2).
  set (c3 := LRUCache.mkLRU (<[B := nB]> (<[A := nA]> ∅)) [A; B] 2).
  set (c4 := LRUCache.mkLRU (delete B (<[C := nC]> (<[B := nB]> (<[A := nA]> ∅)))) [C; A] 2).
  assert (Hs1 : hsize (<[A := nA]> (∅ : gmap T _)) = 1).
  { rewrite JavaFacts.size_insert_absent by apply lookup_empty.
    unfold hsize. by rewrite map_size_empty. }
  assert (Hs2 : hsize (<[B := nB]> (<[A := nA]> (∅ : gmap T _))) = 2).
  { rewrite JavaFacts.size_insert_absent, Hs1; [done|].
    by rewrite lookup_insert_ne, lookup_empty. }
  assert (H1 : LRUCache.put A v1 c0 = Ok c1).
  { rewrite LRUCacheFacts.lru_put_absent_room; [done|apply lookup_empty|].
    simpl. unfold hsize. rewrite map_size_empty. lia. }
  assert (H2 : LRUCache.put B v2 c1 = Ok c2).
  { rewrite LRUCacheFacts.lru_put_absent_room; [done| |].
    - simpl. by rewrite lookup_insert_ne, lookup_empty.
    - simpl. rewrite Hs1. lia. }
  assert (H3 : LRUCache.get A c2 = Ok (v1, c3)).
  { rewrite (LRUCacheFacts.lru_get_present A c2 nA); [|by simpl; rewrite lookup_insert_ne, lookup_insert_eq|done].
    simpl. unfold c3. do 3 f_equal. unfold unlink.
    rewrite filter_cons_True by congruence.
    by rewrite filter_cons_False by (intros ?; congruence). }
  assert (H4 : LRUCache.put C v3 c3 = Ok c4).
  { rewrite (LRUCacheFacts.lru_put_absent_full C v3 c3 B).
    - simpl. unfold c4. do 2 f_equal. unfold unlink.
      rewrite !filter_cons_True by congruence.
      by rewrite filter_cons_False by (intros ?; congruence).
    - simpl. by rewrite !lookup_insert_ne, lookup_empty.
    - simpl. rewrite Hs2. lia.
    - done. }
  exists c3, c4. unfold LRUCache.run_new, LRUCache.new. simpl.
  fold c0. rewrite H1. simpl. rewrite H2. simpl. rewrite H3. simpl.
  split_and!; try done.
  - rewrite !dom_insert_L, dom_empty_L. set_solver.
  - by rewrite H4.
  - rewrite dom_delete_L, !dom_insert_L, dom_empty_L. set_solver.
  - apply lookup_delete_eq.
  - rewrite lookup_delete_ne by done.
    rewrite !lookup_insert_ne, lookup_insert_eq by done. eauto.
Qed.

(** C3 on keys and values in [Z]: keys 1, 2, 3. *)
Lemma C3_lru_evicts_least_recently_used_witness :
  ∃ c3 c4,
    LRUCache.run_new 2
      [LRUCache.Put 1 (Some 10); LRUCache.Put 2 (Some 20); LRUCache.Get 1] = Ok c3 ∧
    dom (LRUCache.cache c3) = {[1; 2]} ∧
    LRUCache.chain c3 = [1; 2] ∧
    LRUCache.put 3 (Some 30) c3 = Ok c4 ∧
    LRUCache.run_new 2
      [LRUCache.Put 1 (Some 10); LRUCache.Put 2 (Some 20); LRUCache.Get 1;
       LRUCache.Put 3 (Some 30)] = Ok c4 ∧
    dom (LRUCache.cache c4) = {[1; 3]} ∧
    LRUCache.cache c4 !! 2 = None ∧
    is_Some (LRUCache.cache c4 !! 1) ∧
    LRUCache.chain c4 = [3; 1].
Proof.
  apply (C3_lru_evicts_least_recently_used Z 1 2 3 (Some 10) (Some 20) (Some 30));
    discriminate.
Defined.

(** [minFrequency], for all runs.  Every run of the LFU cache from its
    constructor completes, and when the state it reaches stores a key,
    [minFrequency] names a list that exists and is not empty; it is the
    smallest frequency with such a list as long as at most
    [Integer.MAX_VALUE] calls have been made (so that no frequency counter
    has wrapped). *)
Theorem lfu_min_frequency_is_smallest :
  ∀ (cap : Z) (ops : list LFU.op),
    ∃ c, LFU.run_new cap ops = Ok c ∧
         (LFU.keyToNodeMap c ≠ ∅ →
          (∃ l, LFU.frequencyToListMap c !! LFU.minFrequency c = Some l ∧ l ≠ []) ∧
          (Z.of_nat (length ops) ≤ MAX_VALUE → LFU.min_is_smallest c)).
Proof.
  intros cap ops.
  destruct (LFUFacts.run_new_inv cap ops) as (c & Hrun & Hinv & _ & Hfreq).
  exists c. split; [done|]. intros Hne. split.
  - destruct (LFU.inv_min _ _ Hinv Hne) as [l Hl]. exists l. split; [done|].
    by apply (LFU.inv_nonempty _ _ (LFU.inv_struct _ _ Hinv) _ _ Hl).
  - intros Hlen. by apply (LFUFacts.inv_min_is_smallest ops); [|apply Hfreq|].
Qed.

(** The same at capacity 2 after [put(1,1); get(1)]. *)
Lemma lfu_min_frequency_is_smallest_example :
  ∃ c, LFU.run_new 2 [LFU.Put 1 1; LFU.Get 1] = Ok c ∧
       LFU.keyToNodeMap c ≠ ∅ ∧
       LFU.min_is_smallest c.
Proof.
  destruct (lfu_min_frequency_is_smallest 2 [LFU.Put 1 1; LFU.Get 1])
    as (c & Hrun & Hmin).
  assert (Hne : LFU.keyToNodeMap c ≠ ∅).
  { vm_compute in Hrun. injection Hrun as <-. intros E.
    apply (f_equal (λ m : gmap Z LFU.CacheNode, m !! 1)) in E. discriminate E. }
  exists c. split_and!; [done..|].
  apply (Hmin Hne). vm_compute. discriminate.
Defined.

(** C4.  [minFrequency] is not always the smallest frequency that has a
    non-empty list: [node.frequency++] overflows.  With capacity 2, after
    [put(0,0)], 2147483646 calls of [get(0)], [put(1,0)] and [get(0)], the
    run returns, the cache is not empty, the counter of key 0 has wrapped
    to [Integer.MIN_VALUE] and the list of that frequency holds key 0,
    while [minFrequency] is still 1. *)
Lemma C4_min_frequency_not_smallest_after_wrap :
  ∃ c,
    LFU.run_new 2
      (LFU.Put 0 0 :: repeat (LFU.Get 0) (Z.to_nat 2147483646)
         ++ [LFU.Put 1 0; LFU.Get 0]) = Ok c ∧
    LFU.keyToNodeMap c ≠ ∅ ∧
    ¬ LFU.min_is_smallest c.
Proof.
  eexists. split.
  { apply LFUFacts.run_counter_wraps. apply Z2Nat.id. lia. }
  split.
  - intros E. apply (f_equal (λ m : gmap Z LFU.CacheNode, m !! 0)) in E.
    discriminate E.
  - intros [_ Hle]. specialize (Hle MIN_VALUE [0]). simpl in Hle.
    unfold MIN_VALUE in Hle. rewrite lookup_insert_eq in Hle.
    specialize (Hle eq_refl ltac:(done)). lia.
Qed.

(** C5.  Capacity 0.  On the LFU cache and on [LRUCache.java] every run
    from the constructor completes, and in the state it reaches every
    [put] returns that same state and every [get] misses without changing
    it.  On the LRU cache of the design document the first [put] raises
    [NullPointerException]: [removeLast()] returns [null] on the empty list
    and [put] reads [lru.key]; this is shown on the list-level model and on
    the heap-level one, where [removeLast()] tests [tail.prev == head]. *)
Theorem C5_capacity_zero :
  (∀ ops : list LFU.op,
     ∃ c, LFU.run_new 0 ops = Ok c ∧
          ∀ k v, LFU.put k v c = Ok c ∧ LFU.get k c = Ok (-1, c)) ∧
  (∀ (T : Type) `{Countable T} (ops : list (LRUCache.op (T:=T))),
     ∃ c, LRUCache.run_new 0 ops = Ok c ∧
          ∀ k v, LRUCache.put k v c = Ok c ∧ LRUCache.get k c = Ok (None, c)) ∧
  (∀ (K : Type) `{Countable K} (V : Type) (k : K) (v : option V),
     DesignLRU.run_new 0 [DesignLRU.Put k v] = Err NullPointerException ∧
     DesignLRUHeap.run_new 0 [DesignLRU.Put k v] = Err NullPointerException ∧
     DesignLRU.run_new (V:=V) 0 [DesignLRU.Get k] =
       Ok {| DesignLRU.capacity := 0; DesignLRU.cache := ∅; DesignLRU.dll := [] |}).
Proof.
  split_and!.
  - intros ops. eexists. split; [apply LFUFacts.run_capacity_0|].
    intros k v. split; [done|]. unfold LFU.get. simpl. by rewrite lookup_empty.
  - intros T ? ? ops. eexists. split; [apply LRUCacheFacts.lru_run_capacity_0|].
    intros k v. split; [apply LRUCacheFacts.lru_put_capacity_0|].
    unfold LRUCache.get. simpl. by rewrite lookup_empty.
  - intros K ? ? V k v. split_and!.
    + unfold DesignLRU.run_new, DesignLRU.new. simpl.
      unfold DesignLRU.put. simpl. rewrite lookup_empty. simpl.
      unfold hsize. by rewrite map_size_empty.
    + apply DesignLRUHeapFacts.dh_put_capacity_0.
    + unfold DesignLRU.run_new, DesignLRU.new. simpl.
      unfold DesignLRU.get. simpl. by rewrite lookup_empty.
Qed.

(** C6, as the code has it.  Neither constructor validates its argument:
    for every [int] capacity, negative ones and zero included, construction
    succeeds and yields an empty cache that stores the capacity, and every
    run of calls on that cache completes. *)
Theorem C6_constructors_accept_any_capacity :
  ∀ cap : Z,
    (∀ (T : Type) `{Countable T},
       LRUCache.new (T:=T) cap =
         Ok {| LRUCache.cache := ∅; LRUCache.chain := []; LRUCache.capacity := cap |} ∧
       ∀ ops : list (LRUCache.op (T:=T)),
         ∃ c, LRUCache.run_new cap ops = Ok c ∧ LRUCache.capacity c = cap) ∧
    LFU.new cap =
      Ok {| LFU.keyToNodeMap := ∅; LFU.frequencyToListMap := ∅;
            LFU.capacity := cap; LFU.minFrequency := 0 |} ∧
    ∀ ops : list LFU.op,
      ∃ c, LFU.run_new cap ops = Ok c ∧ LFU.capacity c = cap.
Proof.
  intros cap. split_and!.
  - intros T ? ?. split; [reflexivity|]. intros ops.
    destruct (LRUCacheFacts.lru_run_new_inv cap ops) as (c & Hrun & _ & Hc). eauto.
  - reflexivity.
  - intros ops.
    destruct (LFUFacts.run_new_inv cap ops) as (c & Hrun & _ & Hc & _). eauto.
Qed.

(** C6, counterexample: a negative capacity does not make construction
    fail, for either cache. *)
Lemma C6_negative_capacity_is_accepted :
  ¬ (∃ e, LRUCache.new (T:=Z) (-1) = Err e) ∧ ¬ (∃ e, LFU.new (-1) = Err e).
Proof. split; intros [e He]; discriminate He. Qed.

(** [put] on a stored key, for all runs.  In every state reached from the
    constructor, [put(k, v)] on a stored key [k] returns, keeps every other
    entry and the size, stores [v], and records the access as [get(k)]
    does: on the LFU cache the frequency counter of the entry gets [++]
    (which adds 1 as long as the counter has not reached
    [Integer.MAX_VALUE]) and the lists and [minFrequency] are those [get]
    produces; on [LRUCache.java] the list becomes [k] followed by the old
    list without [k], as after [get].  On a new cache of capacity at least
    1, [put(A,1); put(A,2)] leaves [size() == 1] and [get(A)] returns 2. *)
Theorem put_on_stored_key_updates_in_place :
  (∀ (cap : Z) (ops : list LFU.op) (c : LFU.LFUCache) (k v : Z) (node : LFU.CacheNode),
     1 ≤ cap →
     LFU.run_new cap ops = Ok c →
     LFU.keyToNodeMap c !! k = Some node →
     ∃ c' cg,
       LFU.put k v c = Ok c' ∧
       LFU.size c' = LFU.size c ∧
       LFU.keyToNodeMap c' !! k =
         Some {| LFU.key := k; LFU.value := v;
                 LFU.frequency := incr (LFU.frequency node) |} ∧
       (Z.of_nat (length ops) < MAX_VALUE →
        incr (LFU.frequency node) = LFU.frequency node + 1) ∧
       (∀ x, x ≠ k → LFU.keyToNodeMap c' !! x = LFU.keyToNodeMap c !! x) ∧
       LFU.get k c = Ok (LFU.value node, cg) ∧
       LFU.frequencyToListMap c' = LFU.frequencyToListMap cg ∧
       LFU.minFrequency c' = LFU.minFrequency cg ∧
       LFU.frequency <$> LFU.keyToNodeMap c' !! k =
         LFU.frequency <$> LFU.keyToNodeMap cg !! k) ∧
  (∀ (T : Type) `{Countable T} (cap : Z) (ops : list (LRUCache.op (T:=T)))
     (c : LRUCache.LRUCache) (k : T) (v : option T) (n : LRUCache.NodeEntry),
     LRUCache.run_new cap ops = Ok c →
     LRUCache.cache c !! k = Some n →
     ∃ c' cg,
       LRUCache.put k v c = Ok c' ∧
       LRUCache.size c' = LRUCache.size c ∧
       LRUCache.cache c' =
         <[k := {| LRUCache.key := k; LRUCache.value := v |}]> (LRUCache.cache c) ∧
       head (LRUCache.chain c') = Some k ∧
       LRUCache.get k c = Ok (LRUCache.value n, cg) ∧
       LRUCache.chain c' = LRUCache.chain cg ∧
       LRUCache.chain c' = k :: unlink k (LRUCache.chain c)) ∧
  (∀ cap A : Z,
     1 ≤ cap →
     ∃ c c',
       LFU.run_new cap [LFU.Put A 1; LFU.Put A 2] = Ok c ∧
       LFU.size c = 1 ∧
       LFU.get A c = Ok (2, c')) ∧
  (∀ (T : Type) `{Countable T} (cap : Z) (A : T) (v1 v2 : option T),
     1 ≤ cap →
     ∃ c c',
       LRUCache.run_new cap [LRUCache.Put A v1; LRUCache.Put A v2] = Ok c ∧
       LRUCache.size c = 1 ∧
       LRUCache.get A c = Ok (v2, c')).
Proof.
  split_and!.
  - intros cap ops c k v node Hcap Hrun Hk.
    destruct (LFUFacts.run_new_inv cap ops) as (c0 & Hrun0 & Hinv & Hc & Hfreq).
    assert (c0 = c) as -> by congruence.
    destruct (LFUFacts.put_present ops c k v node Hinv) as (c' & Hput & _ & Hm);
      [lia|done|].
    destruct (LFUFacts.get_present ops c k node Hinv Hk) as (cg & Hget & _ & Hmg).
    destruct (LFUFacts.put_get_same_order c k v node c' cg _ ltac:(lia) Hk Hput Hget)
      as [Hfm Hmin].
    exists c', cg. split_and!; try done.
    + unfold LFU.size. rewrite Hm. by erewrite JavaFacts.size_insert_present.
    + rewrite Hm. apply lookup_insert_eq.
    + intros Hlen. apply JavaFacts.incr_small.
      destruct (LFU.freq_range _ _ (Hfreq ltac:(lia)) _ _ Hk).
      unfold MIN_VALUE. lia.
    + intros x Hx. rewrite Hm. by apply lookup_insert_ne.
    + by rewrite Hm, Hmg, !lookup_insert_eq.
  - intros T ? ? cap ops c k v n Hrun Hk.
    destruct (LRUCacheFacts.lru_run_new_inv cap ops) as (c0 & Hrun0 & Hinv & Hc).
    assert (c0 = c) as -> by congruence.
    pose proof (LRUCache.inv_key _ Hinv _ _ Hk) as Hkey.
    assert (Hfit : hsize (LRUCache.cache c) ≤ LRUCache.capacity c).
    { pose proof (LRUCache.inv_size _ Hinv) as Hsize. unfold LRUCache.size in Hsize.
      assert (0 < hsize (LRUCache.cache c)); [|lia].
      erewrite <- (insert_id (LRUCache.cache c) k n) by done.
      rewrite <- insert_delete_eq.
      rewrite JavaFacts.size_insert_absent by apply lookup_delete_eq.
      unfold hsize. lia. }
    eexists _, _. split_and!.
    + by apply (LRUCacheFacts.lru_put_present k v c n).
    + unfold LRUCache.size. simpl. by erewrite JavaFacts.size_insert_present.
    + done.
    + done.
    + by apply LRUCacheFacts.lru_get_present.
    + done.
    + done.
  - intros cap A Hcap. unfold LFU.run_new, LFU.new. simpl.
    rewrite (LFUFacts.put_room _ A 1); simpl;
      [|lia|apply lookup_empty|rewrite JavaFacts.hsize_empty; lia].
    rewrite lookup_empty. simpl.
    set (c1 := LFU.mkLFU _ _ _ _).
    assert (Hrun1 : LFU.run_new cap [LFU.Put A 1] = Ok c1).
    { unfold LFU.run_new, LFU.new. simpl.
      rewrite (LFUFacts.put_room _ A 1); simpl;
        [|lia|apply lookup_empty|rewrite JavaFacts.hsize_empty; lia].
      by rewrite lookup_empty. }
    destruct (LFUFacts.run_new_inv cap [LFU.Put A 1]) as (c0 & Hrun0 & Hinv & _).
    assert (c0 = c1) as -> by congruence.
    destruct (LFUFacts.put_present _ c1 A 2 (LFU.newCacheNode A 1) Hinv)
      as (c & Hput & Hinv' & Hm); [simpl; lia|apply lookup_insert_eq|].
    rewrite Hput.
    destruct (LFUFacts.get_present _ c A
                {| LFU.key := A; LFU.value := 2;
                   LFU.frequency := incr (LFU.frequency (LFU.newCacheNode A 1)) |}
                Hinv') as (c' & Hget & _).
    { rewrite Hm. apply lookup_insert_eq. }
    exists c, c'. split_and!; [done| |done].
    unfold LFU.size. rewrite Hm. simpl. rewrite insert_insert_eq.
    rewrite JavaFacts.size_insert_absent by apply lookup_empty.
    by rewrite JavaFacts.hsize_empty.
  - intros T ? ? cap A v1 v2 Hcap. unfold LRUCache.run_new, LRUCache.new. simpl.
    rewrite LRUCacheFacts.lru_put_absent_room;
      [|apply lookup_empty|simpl; unfold hsize; rewrite map_size_empty; lia].
    simpl.
    assert (Hs1 : hsize (<[A := {| LRUCache.key := A; LRUCache.value := v1 |}]>
                           (∅ : gmap T _)) = 1).
    { rewrite JavaFacts.size_insert_absent by apply lookup_empty.
      unfold hsize. by rewrite map_size_empty. }
    erewrite LRUCacheFacts.lru_put_present;
      [|apply lookup_insert_eq|done|simpl; rewrite Hs1; lia].
    simpl. eexists _, _. split_and!; [done| |].
    + unfold LRUCache.size. simpl. rewrite insert_insert_eq.
      rewrite JavaFacts.size_insert_absent by apply lookup_empty.
      unfold hsize. by rewrite map_size_empty.
    + rewrite (LRUCacheFacts.lru_get_present A _
                 {| LRUCache.key := A; LRUCache.value := v2 |});
        [done|simpl; apply lookup_insert_eq|done].
Qed.

(** The same at capacity 2: [put(1,5)] after [put(1,1)] on the LFU cache
    and on [LRUCache.java], and the two runs [put(7,1); put(7,2)]. *)
Lemma put_on_stored_key_updates_in_place_example :
  (LFU.run_new 2 [LFU.Put 1 1] = Ok (LFU.single 1 1 1 2) ∧
   ∃ c', LFU.put 1 5 (LFU.single 1 1 1 2) = Ok c' ∧
         LFU.size c' = LFU.size (LFU.single 1 1 1 2) ∧
         LFU.keyToNodeMap c' !! 1 =
           Some {| LFU.key := 1; LFU.value := 5; LFU.frequency := incr 1 |}) ∧
  (LRUCache.run_new 2 [LRUCache.Put 1 (Some 1)] =
     Ok (LRUCache.mkLRU {[1 := LRUCache.mkNodeEntry 1 (Some 1)]} [1] 2) ∧
   ∃ c', LRUCache.put 1 (Some 5)
           (LRUCache.mkLRU {[1 := LRUCache.mkNodeEntry 1 (Some 1)]} [1] 2) = Ok c' ∧
         LRUCache.size c' =
           LRUCache.size (LRUCache.mkLRU {[1 := LRUCache.mkNodeEntry 1 (Some 1)]} [1] 2) ∧
         head (LRUCache.chain c') = Some 1) ∧
  (∃ c c', LFU.run_new 2 [LFU.Put 7 1; LFU.Put 7 2] = Ok c ∧
           LFU.size c = 1 ∧ LFU.get 7 c = Ok (2, c')) ∧
  (∃ c c', LRUCache.run_new 2 [LRUCache.Put 7 (Some 1); LRUCache.Put 7 (Some 2)] = Ok c ∧
           LRUCache.size c = 1 ∧ LRUCache.get 7 c = Ok (Some 2, c')).
Proof.
  destruct put_on_stored_key_updates_in_place as (Hlfu & Hlru & Hex1 & Hex2).
  assert (Hrun1 : LFU.run_new 2 [LFU.Put 1 1] = Ok (LFU.single 1 1 1 2))
    by (vm_compute; reflexivity).
  assert (Hrun2 : LRUCache.run_new 2 [LRUCache.Put 1 (Some 1)] =
            Ok (LRUCache.mkLRU {[1 := LRUCache.mkNodeEntry 1 (Some 1)]} [1] 2))
    by (vm_compute; reflexivity).
  split_and!.
  - exact Hrun1.
  - destruct (Hlfu 2 [LFU.Put 1 1] (LFU.single 1 1 1 2) 1 5 (LFU.newCacheNode 1 1))
      as (c' & cg & Hput & Hsize & Hk & _); [lia|exact Hrun1|reflexivity|].
    exists c'. split_and!; [exact Hput|exact Hsize|exact Hk].
  - exact Hrun2.
  - destruct (Hlru Z _ _ 2 [LRUCache.Put 1 (Some 1)]
                (LRUCache.mkLRU {[1 := LRUCache.mkNodeEntry 1 (Some 1)]} [1] 2)
                1 (Some 5) (LRUCache.mkNodeEntry 1 (Some 1)))
      as (c' & cg & Hput & Hsize & _ & Hhead & _); [exact Hrun2|reflexivity|].
    exists c'. split_and!; [exact Hput|exact Hsize|exact Hhead].
  - apply (Hex1 2 7). lia.
  - apply (Hex2 Z _ _ 2 7 (Some 1) (Some 2)). lia.
Defined.

(** C7.  [put] on a stored key does not always add 1 to its frequency:
    [node.frequency++] overflows.  With capacity 1, after [put(0,0)] and
    2147483646 calls of [get(0)], key 0 is stored with frequency
    [Integer.MAX_VALUE]; [put(0,1)] returns, overwrites the value and keeps
    the size, and leaves the frequency of key 0 at [Integer.MIN_VALUE], not
    at the old frequency plus 1. *)
Lemma C7_put_on_stored_key_wraps_frequency :
  ∃ c c' node,
    LFU.run_new 1 (LFU.Put 0 0 :: repeat (LFU.Get 0) (Z.to_nat 2147483646)) = Ok c ∧
    LFU.keyToNodeMap c !! 0 = Some node ∧
    LFU.frequency node = MAX_VALUE ∧
    LFU.put 0 1 c = Ok c' ∧
    LFU.size c' = LFU.size c ∧
    LFU.keyToNodeMap c' !! 0 =
      Some {| LFU.key := 0; LFU.value := 1; LFU.frequency := MIN_VALUE |} ∧
    MIN_VALUE ≠ LFU.frequency node + 1.
Proof.
  eexists _, _, _. split.
  { apply LFUMapFacts.run_counter_at_max. apply Z2Nat.id. lia. }
  split_and!; try (vm_compute; reflexivity).
  vm_compute. discriminate.
Qed.

(** C8.  A [get] of a key that is not stored returns the miss value
    ([null] for the LRU caches, [-1] for the LFU cache), raises nothing and
    leaves the whole state as it was. *)
Theorem C8_get_miss_changes_nothing :
  (∀ (T : Type) `{Countable T} (c : LRUCache.LRUCache (T:=T)) (k : T),
     LRUCache.cache c !! k = None → LRUCache.get k c = Ok (None, c)) ∧
  (∀ (c : LFU.LFUCache) (k : Z),
     LFU.keyToNodeMap c !! k = None → LFU.get k c = Ok (-1, c)) ∧
  (∀ (K : Type) `{Countable K} (V : Type) (c : DesignLRU.LRUCache (K:=K) (V:=V)) (k : K),
     DesignLRU.cache c !! k = None → DesignLRU.get k c = Ok (None, c)).
Proof.
  split_and!.
  - intros T ? ? c k Hk. unfold LRUCache.get. by rewrite Hk.
  - intros c k Hk. unfold LFU.get. by rewrite Hk.
  - intros K ? ? V c k Hk. unfold DesignLRU.get. by rewrite Hk.
Qed.

(** C8 on the new caches of capacity 2 and key 1. *)
Lemma C8_get_miss_changes_nothing_witness :
  LRUCache.get (T:=Z) 1 (LRUCache.mkLRU ∅ [] 2) = Ok (None, LRUCache.mkLRU ∅ [] 2) ∧
  LFU.get 1 (LFU.mkLFU ∅ ∅ 2 0) = Ok (-1, LFU.mkLFU ∅ ∅ 2 0) ∧
  DesignLRU.get (K:=Z) (V:=Z) 1 (DesignLRU.mkLRU 2 ∅ []) =
    Ok (None, DesignLRU.mkLRU 2 ∅ []).
Proof.
  destruct C8_get_miss_changes_nothing as (Hlru & Hlfu & Hdesign).
  split_and!.
  - apply (Hlru Z _ _). reflexivity.
  - apply Hlfu. reflexivity.
  - apply (Hdesign Z _ _ Z). reflexivity.
Defined.

(** C9.  [remove] of a key that is not stored raises nothing and leaves the
    whole state (keys, values, size and order) as it was. *)
Theorem C9_remove_absent_is_noop :
  ∀ (K : Type) `{Countable K} (V : Type) (c : DesignLRU.LRUCache (K:=K) (V:=V)) (k : K),
    DesignLRU.cache c !! k = None → DesignLRU.remove k c = Ok c.
Proof.
  intros K ? ? V c k Hk. unfold DesignLRU.remove. rewrite Hk.
  rewrite delete_id by done. by destruct c.
Qed.

(** C9 on the cache that stores key 1 only, for key 2. *)
Lemma C9_remove_absent_is_noop_witness :
  DesignLRU.remove (K:=Z) (V:=Z) 2
    (DesignLRU.mkLRU 2 {[1 := DesignLRU.mkNode 1 (Some 10)]} [1]) =
  Ok (DesignLRU.mkLRU 2 {[1 := DesignLRU.mkNode 1 (Some 10)]} [1]).
Proof.
  apply (C9_remove_absent_is_noop Z Z). reflexivity.
Defined.

(** C10.  The miss value of the LFU cache is a storable value: after
    [put(k, -1)] on a new cache of capacity at least 1 the key is stored,
    and [get(k)] returns [-1], which is also what [get] returns for every
    key that is not stored. *)
Theorem C10_lfu_miss_value_is_storable :
  ∀ (cap k : Z),
    1 ≤ cap →
    ∃ c c',
      LFU.run_new cap [LFU.Put k (-1)] = Ok c ∧
      is_Some (LFU.keyToNodeMap c !! k) ∧
      LFU.get k c = Ok (-1, c') ∧
      ∀ k', LFU.keyToNodeMap c !! k' = None → LFU.get k' c = Ok (-1, c).
Proof.
  intros cap k Hcap. unfold LFU.run_new, LFU.new. simpl.
  rewrite (LFUFacts.put_room _ k (-1)); simpl;
    [|lia|apply lookup_empty|rewrite JavaFacts.hsize_empty; lia].
  rewrite lookup_empty. simpl.
  eexists _, _. split; [reflexivity|]. simpl. split_and!.
  - rewrite lookup_insert_eq. eauto.
  - unfold LFU.get. simpl. rewrite lookup_insert_eq.
    unfold LFU.updateFrequency. simpl. rewrite lookup_fmap, lookup_insert_eq. simpl.
    reflexivity.
  - intros k' Hk'. unfold LFU.get. simpl. by rewrite Hk'.
Qed.

(** C10 at capacity 1 and key 7. *)
Lemma C10_lfu_miss_value_is_storable_witness :
  ∃ c c',
    LFU.run_new 1 [LFU.Put 7 (-1)] = Ok c ∧
    is_Some (LFU.keyToNodeMap c !! 7) ∧
    LFU.get 7 c = Ok (-1, c') ∧
    ∀ k', LFU.keyToNodeMap c !! k' = None → LFU.get k' c = Ok (-1, c).
Proof.
  apply (C10_lfu_miss_value_is_storable 1 7). lia.
Defined.

End Spec.

(** * Further properties of the code *)

Module Further.
Import Java JavaFacts.

(** ** The caches *)

(** X1.  [LRUCache.java] evicts the least recently used entry.  In every
    state reached from the constructor of a cache of capacity at least 1,
    a [put] of a key that is not stored into the full cache returns, and
    the entry that leaves is [tail.prev]: every other stored key was named
    by a later call than the last call that named it.  The new key is
    stored with its value and the other entries stay. *)
Theorem X1_lru_put_evicts_least_recently_used :
  ∀ (T : Type) `{Countable T} (cap : Z) (ops : list (LRUCache.op (T:=T)))
    (c : LRUCache.LRUCache) (k : T) (v : option T),
    1 ≤ cap →
    LRUCache.run_new cap ops = Ok c →
    LRUCache.cache c !! k = None →
    LRUCache.size c = LRUCache.capacity c →
    ∃ victim c',
      LRUCache.put k v c = Ok c' ∧
      last (LRUCache.chain c) = Some victim ∧
      is_Some (LRUCache.cache c !! victim) ∧
      LRUCache.cache c' =
        <[k := LRUCache.mkNodeEntry k v]> (delete victim (LRUCache.cache c)) ∧
      ∀ x, is_Some (LRUCache.cache c !! x) → x ≠ victim →
           Recency.more_recent (Recency.lru_key <$> ops) x victim.
Proof.
  intros T ? ? cap ops c k v Hcap Hrun Hk Hfull.
  destruct (RecencyFacts.lru_run_new_sorted cap ops c Hrun) as (Hinv & Hc & Hs).
  destruct (RecencyFacts.lru_full_last c Hinv) as (victim & Hlast & Hv); [lia|].
  assert (victim ≠ k) as Hne.
  { intros ->. rewrite Hk in Hv. by destruct Hv. }
  exists victim. eexists. split.
  - apply (LRUCacheFacts.lru_put_absent_full k v c victim); [done| |].
    + unfold LRUCache.size in Hfull. lia.
    + destruct (LRUCache.chain c); [done|]. done.
  - split; [done|]. split; [done|]. split.
    + simpl. by rewrite delete_insert_ne.
    + intros x Hx Hxv. apply (RecencyFacts.rec_sorted_last_oldest _ (LRUCache.chain c));
        [done|done| |done].
      by apply (LRUCache.inv_mem _ Hinv).
Qed.

(** X1 after [put(1,10); put(2,20); get(1)] at capacity 2, for
    [put(3,30)]: key 2 leaves. *)
Lemma X1_lru_put_evicts_least_recently_used_witness :
  ∃ c, LRUCache.run_new 2
         [LRUCache.Put 1 (Some 10); LRUCache.Put 2 (Some 20); LRUCache.Get 1] = Ok c ∧
    ∃ victim c',
      LRUCache.put 3 (Some 30) c = Ok c' ∧
      last (LRUCache.chain c) = Some victim ∧
      is_Some (LRUCache.cache c !! victim) ∧
      LRUCache.cache c' =
        <[3 := LRUCache.mkNodeEntry 3 (Some 30)]> (delete victim (LRUCache.cache c)) ∧
      ∀ x, is_Some (LRUCache.cache c !! x) → x ≠ victim →
           Recency.more_recent
             (Recency.lru_key <$>
                [LRUCache.Put 1 (Some 10); LRUCache.Put 2 (Some 20); LRUCache.Get 1])
             x victim.
Proof.
  eexists. split; [reflexivity|].
  apply (X1_lru_put_evicts_least_recently_used Z 2); [lia|reflexivity..].
Defined.

(** X2.  [LRUCache.java], [put] then [get].  In every state reached from
    the constructor of a cache of capacity at least 1, [put(k, v)] returns
    and the [get(k)] that follows returns [v]. *)
Theorem X2_lru_get_after_put :
  ∀ (T : Type) `{Countable T} (cap : Z) (ops : list (LRUCache.op (T:=T)))
    (c : LRUCache.LRUCache) (k : T) (v : option T),
    1 ≤ cap →
    LRUCache.run_new cap ops = Ok c →
    ∃ c' c'', LRUCache.put k v c = Ok c' ∧ LRUCache.get k c' = Ok (v, c'').
Proof.
  intros T ? ? cap ops c k v Hcap Hrun.
  destruct (RecencyFacts.lru_run_new_sorted cap ops c Hrun) as (Hinv & Hc & _).
  destruct (RecencyFacts.lru_put_stores k v c Hinv) as (c' & Hput & Hk); [lia|].
  exists c'. eexists. split; [done|].
  by rewrite (LRUCacheFacts.lru_get_present k c' _ Hk).
Qed.

(** X2 on the full cache of capacity 1 that stores key 1, for
    [put(2,20)]. *)
Lemma X2_lru_get_after_put_witness :
  ∃ c, LRUCache.run_new 1 [LRUCache.Put 1 (Some 10)] = Ok c ∧
    ∃ c' c'', LRUCache.put 2 (Some 20) c = Ok c' ∧
              LRUCache.get 2 c' = Ok (Some 20, c'').
Proof.
  eexists. split; [reflexivity|].
  apply (X2_lru_get_after_put Z 1 [LRUCache.Put 1 (Some 10)]); [lia|reflexivity].
Defined.

(** X3.  [LRUCache.java] with a capacity of 0 or less stores nothing:
    every run of calls from the constructor returns and leaves the map and
    the list empty, since [put] evicts the node it has just linked; so
    every [get] returns [null]. *)
Theorem X3_lru_capacity_at_most_0_stores_nothing :
  ∀ (T : Type) `{Countable T} (cap : Z) (ops : list (LRUCache.op (T:=T))) (k : T),
    cap ≤ 0 →
    LRUCache.run_new cap ops = Ok (LRUCache.mkLRU ∅ [] cap) ∧
    LRUCache.get k (LRUCache.mkLRU ∅ [] cap) = Ok (None, LRUCache.mkLRU ∅ [] cap).
Proof.
  intros T ? ? cap ops k Hcap. split; [|done].
  unfold LRUCache.run_new, LRUCache.new. simpl.
  induction ops as [|o ops IH]; [done|].
  simpl. destruct o as [k'|k' v]; simpl.
  - unfold LRUCache.get. simpl. by rewrite lookup_empty.
  - by rewrite RecencyFacts.lru_put_capacity_le_0.
Qed.

(** X3 at capacity -1. *)
Lemma X3_lru_capacity_at_most_0_stores_nothing_witness :
  LRUCache.run_new (-1) [LRUCache.Put 1 (Some 10); LRUCache.Get 1; LRUCache.Put 2 None] =
    Ok (LRUCache.mkLRU ∅ [] (-1)) ∧
  LRUCache.get 1 (LRUCache.mkLRU ∅ [] (-1)) = Ok (None, LRUCache.mkLRU ∅ [] (-1)).
Proof.
  apply (X3_lru_capacity_at_most_0_stores_nothing Z (-1)). lia.
Defined.

(** X4.  The LRU cache of the design document evicts the least recently
    used entry.  In every state that a run of [get], [put] and [remove]
    from the constructor reaches, with a capacity of at least 1, a [put]
    of a key that is not stored into the full cache returns, and the
    entry that leaves is the one [removeLast()] unlinks, [tail.prev]: every
    other stored key was named by a later call than the last call that
    named it. *)
Theorem X4_design_lru_put_evicts_least_recently_used :
  ∀ (K : Type) `{Countable K} (V : Type) (cap : Z)
    (ops : list (DesignLRU.op (K:=K) (V:=V))) (c : DesignLRU.LRUCache)
    (k : K) (v : option V),
    1 ≤ cap →
    DesignLRU.run_new cap ops = Ok c →
    DesignLRU.cache c !! k = None →
    DesignLRU.size c = DesignLRU.capacity c →
    ∃ victim c',
      DesignLRU.put k v c = Ok c' ∧
      last (DesignLRU.dll c) = Some victim ∧
      is_Some (DesignLRU.cache c !! victim) ∧
      DesignLRU.cache c' =
        <[k := DesignLRU.mkNode k v]> (delete victim (DesignLRU.cache c)) ∧
      ∀ x, is_Some (DesignLRU.cache c !! x) → x ≠ victim →
           Recency.more_recent (Recency.dlru_key <$> ops) x victim.
Proof.
  intros K ? ? V cap ops c k v Hcap Hrun Hk Hfull.
  destruct (RecencyFacts.dlru_run_new_sorted cap ops c Hrun) as (Hinv & Hc & Hs).
  destruct (DesignLRUFacts.dlru_inv_nonempty_dll c Hinv) as (victim & Hlast & Hv); [lia|].
  exists victim. eexists. split.
  - unfold DesignLRU.put. rewrite Hk.
    unfold DesignLRU.size in Hfull. rewrite Hfull.
    destruct (Z.geb_spec (DesignLRU.capacity c) (DesignLRU.capacity c)); [|lia].
    unfold DesignLRU.removeLast. rewrite Hlast. simpl. reflexivity.
  - split; [done|]. split; [done|]. split; [done|].
    intros x Hx Hxv. apply (RecencyFacts.rec_sorted_last_oldest _ (DesignLRU.dll c));
      [done|done| |done].
    by apply (DesignLRU.inv_mem _ Hinv).
Qed.

(** X4 after [put(1,10); put(2,20); remove(2); put(3,30); get(1)] at
    capacity 2, for [put(4,40)]: key 3 leaves. *)
Lemma X4_design_lru_put_evicts_least_recently_used_witness :
  ∃ c, DesignLRU.run_new 2
         [DesignLRU.Put 1 (Some 10); DesignLRU.Put 2 (Some 20); DesignLRU.Remove 2;
          DesignLRU.Put 3 (Some 30); DesignLRU.Get 1] = Ok c ∧
    ∃ victim c',
      DesignLRU.put 4 (Some 40) c = Ok c' ∧
      last (DesignLRU.dll c) = Some victim ∧
      is_Some (DesignLRU.cache c !! victim) ∧
      DesignLRU.cache c' =
        <[4 := DesignLRU.mkNode 4 (Some 40)]> (delete victim (DesignLRU.cache c)) ∧
      ∀ x, is_Some (DesignLRU.cache c !! x) → x ≠ victim →
           Recency.more_recent
             (Recency.dlru_key <$>
                [DesignLRU.Put 1 (Some 10); DesignLRU.Put 2 (Some 20); DesignLRU.Remove 2;
                 DesignLRU.Put 3 (Some 30); DesignLRU.Get 1])
             x victim.
Proof.
  eexists. split; [reflexivity|].
  apply (X4_design_lru_put_evicts_least_recently_used Z Z 2); [lia|reflexivity..].
Defined.

(** X5.  The LRU cache of the design document with a capacity of 0 or
    less.  A run of calls from the constructor that makes no [put] returns
    and leaves the cache empty; a run that makes a [put] stops at it with
    [NullPointerException], on the list-level model and on the heap-level
    one: the map is empty, [cache.size() >= capacity] holds, [removeLast()]
    returns [null] and [put] reads [lru.key]. *)
Theorem X5_design_lru_capacity_at_most_0 :
  ∀ (K : Type) `{Countable K} (V : Type) (cap : Z)
    (ops : list (DesignLRU.op (K:=K) (V:=V))),
    cap ≤ 0 →
    ((∀ k v, DesignLRU.Put k v ∉ ops) →
     DesignLRU.run_new cap ops = Ok (DesignLRU.mkLRU cap ∅ []) ∧
     ∃ s, DesignLRUHeap.run_new cap ops = Ok s ∧ DesignLRUHeap.cache s = ∅) ∧
    ((∃ k v, DesignLRU.Put k v ∈ ops) →
     DesignLRU.run_new cap ops = Err NullPointerException ∧
     DesignLRUHeap.run_new cap ops = Err NullPointerException).
Proof.
  intros K ? ? V cap ops Hcap.
  pose proof (RecencyFacts.dlru_run_capacity_le_0 cap ops Hcap) as Hrun.
  pose proof (DesignLRUHeapFacts.dh_run_new_sim cap ops) as Hsim.
  unfold DesignLRU.run_new, DesignLRU.new in *. simpl in Hrun, Hsim. simpl.
  destruct (existsb Recency.dlru_is_put ops) eqn:Hex.
  - apply existsb_exists in Hex as (o & Hin & Ho). apply list_elem_of_In in Hin.
    split.
    + intros Hno. destruct o as [k|k v|k]; try done. by destruct (Hno k v).
    + intros _. split; [done|]. rewrite Hrun in Hsim.
      destruct (DesignLRUHeap.run_new cap ops) as [s|e]; simpl in Hsim; [done|].
      by rewrite Hsim.
  - split.
    + intros _. split; [done|]. rewrite Hrun in Hsim.
      destruct (DesignLRUHeap.run_new cap ops) as [s|e]; simpl in Hsim; [|done].
      exists s. split; [done|]. destruct Hsim as [l Hr].
      apply map_empty. intros k. apply eq_None_not_Some. intros [x Hx].
      destruct (DesignLRUHeap.rep_some _ _ _ Hr k x Hx) as (_ & _ & v & _ & Hv).
      simpl in Hv. by rewrite lookup_empty in Hv.
    + intros (k & v & Hin). exfalso.
      assert (existsb Recency.dlru_is_put ops = true) as E; [|congruence].
      apply existsb_exists. exists (DesignLRU.Put k v). split; [|done].
      by apply list_elem_of_In.
Qed.

(** X5 at capacity -1 and 0: [get(1); remove(1)] returns, and
    [get(1); put(1,10)] throws. *)
Lemma X5_design_lru_capacity_at_most_0_witness :
  (DesignLRU.run_new (K:=Z) (V:=Z) (-1) [DesignLRU.Get 1; DesignLRU.Remove 1] =
     Ok (DesignLRU.mkLRU (-1) ∅ []) ∧
   ∃ s, DesignLRUHeap.run_new (K:=Z) (V:=Z) (-1) [DesignLRU.Get 1; DesignLRU.Remove 1] = Ok s ∧
        DesignLRUHeap.cache s = ∅) ∧
  (DesignLRU.run_new (K:=Z) (V:=Z) 0 [DesignLRU.Get 1; DesignLRU.Put 1 (Some 10)] =
     Err NullPointerException ∧
   DesignLRUHeap.run_new (K:=Z) (V:=Z) 0 [DesignLRU.Get 1; DesignLRU.Put 1 (Some 10)] =
     Err NullPointerException).
Proof.
  split.
  - apply (X5_design_lru_capacity_at_most_0 Z Z (-1) [DesignLRU.Get 1; DesignLRU.Remove 1]);
      [lia|].
    intros k v Hin. rewrite !elem_of_cons in Hin.
    destruct Hin as [?|[?|Hin]]; [done|done|by apply elem_of_nil in Hin].
  - apply (X5_design_lru_capacity_at_most_0 Z Z 0
             [DesignLRU.Get 1; DesignLRU.Put 1 (Some 10)]); [lia|].
    exists 1, (Some 10). apply elem_of_cons. right. apply elem_of_cons. by left.
Defined.

(** X6.  [remove(key)] of the design document on a stored key.  In every
    state reached from the constructor, [remove(k)] of a stored key [k]
    returns; [k] alone leaves the map and the list, the other entries keep
    their order, the size drops by 1, a [get(k)] misses, and the [put] of a
    new key that follows evicts nothing. *)
Theorem X6_design_lru_remove_stored_key :
  ∀ (K : Type) `{Countable K} (V : Type) (cap : Z)
    (ops : list (DesignLRU.op (K:=K) (V:=V))) (c : DesignLRU.LRUCache)
    (k : K) (n : DesignLRU.Node),
    DesignLRU.run_new cap ops = Ok c →
    DesignLRU.cache c !! k = Some n →
    ∃ c',
      DesignLRU.remove k c = Ok c' ∧
      DesignLRU.cache c' = delete k (DesignLRU.cache c) ∧
      DesignLRU.dll c' = unlink k (DesignLRU.dll c) ∧
      DesignLRU.size c' = DesignLRU.size c - 1 ∧
      DesignLRU.get k c' = Ok (None, c') ∧
      ∀ k' v, DesignLRU.cache c' !! k' = None →
        ∃ c'', DesignLRU.put k' v c' = Ok c'' ∧
               DesignLRU.cache c'' = <[k' := DesignLRU.mkNode k' v]> (DesignLRU.cache c').
Proof.
  intros K ? ? V cap ops c k n Hrun Hk.
  destruct (RecencyFacts.dlru_run_new_sorted cap ops c Hrun) as (Hinv & Hc & _).
  pose proof (DesignLRU.inv_size _ Hinv) as Hsz.
  assert (Hsz' : DesignLRU.size c = hsize (delete k (DesignLRU.cache c)) + 1).
  { unfold DesignLRU.size. rewrite (size_delete_present _ _ n) by done. lia. }
  assert (0 ≤ hsize (delete k (DesignLRU.cache c))) by (unfold hsize; lia).
  eexists. split.
  { unfold DesignLRU.remove. rewrite Hk. reflexivity. }
  simpl. split; [done|]. split.
  { by rewrite (DesignLRU.inv_key _ Hinv _ _ Hk). }
  split; [unfold DesignLRU.size in *; simpl; lia|]. split.
  { unfold DesignLRU.get. simpl. by rewrite lookup_delete_eq. }
  intros k' v Hk'. eexists. unfold DesignLRU.put. simpl. rewrite Hk'.
  destruct (Z.geb_spec (hsize (delete k (DesignLRU.cache c))) (DesignLRU.capacity c));
    [lia|]. simpl. split; reflexivity.
Qed.

(** X6 at capacity 2 after [put(1,10); put(2,20)], for [remove(1)]. *)
Lemma X6_design_lru_remove_stored_key_witness :
  ∃ c, DesignLRU.run_new 2 [DesignLRU.Put 1 (Some 10); DesignLRU.Put 2 (Some 20)] = Ok c ∧
    ∃ c',
      DesignLRU.remove 1 c = Ok c' ∧
      DesignLRU.cache c' = delete 1 (DesignLRU.cache c) ∧
      DesignLRU.dll c' = unlink 1 (DesignLRU.dll c) ∧
      DesignLRU.size c' = DesignLRU.size c - 1 ∧
      DesignLRU.get 1 c' = Ok (None, c') ∧
      ∀ k' v, DesignLRU.cache c' !! k' = None →
        ∃ c'', DesignLRU.put k' v c' = Ok c'' ∧
               DesignLRU.cache c'' = <[k' := DesignLRU.mkNode k' v]> (DesignLRU.cache c').
Proof.
  eexists. split; [reflexivity|].
  apply (X6_design_lru_remove_stored_key Z Z 2
           [DesignLRU.Put 1 (Some 10); DesignLRU.Put 2 (Some 20)] _ 1
           (DesignLRU.mkNode 1 (Some 10))); reflexivity.
Defined.

(** X7.  The LRU cache of the design document, [put] then [get].  In
    every state reached from the constructor of a cache of capacity at
    least 1, [put(k, v)] returns and the [get(k)] that follows returns
    [v]. *)
Theorem X7_design_lru_get_after_put :
  ∀ (K : Type) `{Countable K} (V : Type) (cap : Z)
    (ops : list (DesignLRU.op (K:=K) (V:=V))) (c : DesignLRU.LRUCache)
    (k : K) (v : option V),
    1 ≤ cap →
    DesignLRU.run_new cap ops = Ok c →
    ∃ c' c'', DesignLRU.put k v c = Ok c' ∧ DesignLRU.get k c' = Ok (v, c'').
Proof.
  intros K ? ? V cap ops c k v Hcap Hrun.
  destruct (RecencyFacts.dlru_run_new_sorted cap ops c Hrun) as (Hinv & Hc & _).
  destruct (DesignLRUFacts.dlru_put_total k v c Hinv) as [c' Hput]; [lia|].
  pose proof (RecencyFacts.dlru_put_stores k v c c' Hinv Hput) as Hk.
  exists c'. eexists. split; [done|]. unfold DesignLRU.get. rewrite Hk. reflexivity.
Qed.

(** X7 on the full cache of capacity 1 that stores key 1, for
    [put(2,20)]. *)
Lemma X7_design_lru_get_after_put_witness :
  ∃ c, DesignLRU.run_new 1 [DesignLRU.Put 1 (Some 10)] = Ok c ∧
    ∃ c' c'', DesignLRU.put 2 (Some 20) c = Ok c' ∧
              DesignLRU.get 2 c' = Ok (Some 20, c'').
Proof.
  eexists. split; [reflexivity|].
  apply (X7_design_lru_get_after_put Z Z 1 [DesignLRU.Put 1 (Some 10)]); [lia|reflexivity].
Defined.

(** X8.  The LFU cache with a negative capacity never evicts.
    [keyToNodeMap.size() == capacity] is never true, so every run of calls
    from the constructor returns and the cache holds, for every key, the
    value of the last [put] of that key: [get(k)] returns it, or [-1] when
    no [put] named [k]. *)
Theorem X8_lfu_negative_capacity_never_evicts :
  ∀ (cap : Z) (ops : list LFU.op),
    cap < 0 →
    ∃ c, LFU.run_new cap ops = Ok c ∧
      (∀ k, LFU.value <$> LFU.keyToNodeMap c !! k = Recency.last_put ops k) ∧
      ∀ k, ∃ c', LFU.get k c = Ok (default (-1) (Recency.last_put ops k), c').
Proof.
  intros cap ops Hcap.
  destruct (LFUFacts.inv_new cap) as [Hinv0 _].
  destruct (LFUMapFacts.lfu_run_negative ops [] _ Hinv0 Hcap) as (c & Hrun & Hinv & Hv).
  exists c. split; [done|].
  assert (∀ k, LFU.value <$> LFU.keyToNodeMap c !! k = Recency.last_put ops k) as Hv'.
  { intros k. rewrite Hv. simpl. by rewrite lookup_empty. }
  split; [done|]. intros k. specialize (Hv' k). rewrite <- Hv'.
  destruct (LFU.keyToNodeMap c !! k) as [node|] eqn:Hk.
  - destruct (LFUFacts.get_present _ c k node Hinv Hk) as (c' & Hget & _).
    exists c'. by rewrite Hget.
  - exists c. unfold LFU.get. by rewrite Hk.
Qed.

(** X8 at capacity -1, on five [put]s of three keys. *)
Lemma X8_lfu_negative_capacity_never_evicts_witness :
  ∃ c, LFU.run_new (-1)
         [LFU.Put 1 10; LFU.Put 2 20; LFU.Get 1; LFU.Put 3 30; LFU.Put 1 11; LFU.Put 2 21]
       = Ok c ∧
    (∀ k, LFU.value <$> LFU.keyToNodeMap c !! k =
          Recency.last_put
            [LFU.Put 1 10; LFU.Put 2 20; LFU.Get 1; LFU.Put 3 30; LFU.Put 1 11; LFU.Put 2 21]
            k) ∧
    ∀ k, ∃ c', LFU.get k c =
      Ok (default (-1)
            (Recency.last_put
               [LFU.Put 1 10; LFU.Put 2 20; LFU.Get 1; LFU.Put 3 30; LFU.Put 1 11;
                LFU.Put 2 21] k), c').
Proof.
  apply (X8_lfu_negative_capacity_never_evicts (-1)). lia.
Defined.

(** X9.  The LFU cache, [put] then [get].  In every state reached from
    the constructor of a cache whose capacity is not 0, [put(k, v)] returns
    and the [get(k)] that follows returns [v]. *)
Theorem X9_lfu_get_after_put :
  ∀ (cap : Z) (ops : list LFU.op) (c : LFU.LFUCache) (k v : Z),
    cap ≠ 0 →
    LFU.run_new cap ops = Ok c →
    ∃ c' c'', LFU.put k v c = Ok c' ∧ LFU.get k c' = Ok (v, c'').
Proof.
  intros cap ops c k v Hcap Hrun.
  destruct (LFUFacts.run_new_inv cap ops) as (c0 & E & Hinv & Hc & _).
  assert (c0 = c) as -> by congruence.
  destruct (LFUMapFacts.lfu_put_stores ops c k v Hinv) as (c' & Hput & Hinv' & Hv);
    [congruence|].
  destruct (LFU.keyToNodeMap c' !! k) as [node|] eqn:Hk; [|done].
  destruct (LFUFacts.get_present _ c' k node Hinv' Hk) as (c'' & Hget & _).
  exists c', c''. split; [done|]. simpl in Hv. injection Hv as <-. done.
Qed.

(** X9 on the full cache of capacity 1 that stores key 1, for
    [put(2,20)]. *)
Lemma X9_lfu_get_after_put_witness :
  ∃ c, LFU.run_new 1 [LFU.Put 1 10] = Ok c ∧
    ∃ c' c'', LFU.put 2 20 c = Ok c' ∧ LFU.get 2 c' = Ok (20, c'').
Proof.
  eexists. split; [reflexivity|].
  apply (X9_lfu_get_after_put 1 [LFU.Put 1 10]); [lia|reflexivity].
Defined.

(** X10.  A hit returns the value of the last [put].  In every state
    reached from the constructor, whatever the capacity, a [get] of a
    stored key returns the value that the last [put] of that key gave it:
    no call leaves a stale value under a key.  This holds for
    [LRUCache.java], for the LFU cache and for the LRU cache of the design
    document, with [remove] among its calls. *)
Theorem X10_hit_returns_value_of_last_put :
  (∀ (T : Type) `{Countable T} (cap : Z) (ops : list (LRUCache.op (T:=T)))
     (c : LRUCache.LRUCache) (k : T) (n : LRUCache.NodeEntry),
     LRUCache.run_new cap ops = Ok c →
     LRUCache.cache c !! k = Some n →
     ∃ c', LRUCache.get k c = Ok (LRUCache.value n, c') ∧
           Recency.lru_last_put ops k = Some (LRUCache.value n)) ∧
  (∀ (cap : Z) (ops : list LFU.op) (c : LFU.LFUCache) (k : Z) (n : LFU.CacheNode),
     LFU.run_new cap ops = Ok c →
     LFU.keyToNodeMap c !! k = Some n →
     ∃ c', LFU.get k c = Ok (LFU.value n, c') ∧
           Recency.last_put ops k = Some (LFU.value n)) ∧
  (∀ (K : Type) `{Countable K} (V : Type) (cap : Z)
     (ops : list (DesignLRU.op (K:=K) (V:=V))) (c : DesignLRU.LRUCache)
     (k : K) (n : DesignLRU.Node),
     DesignLRU.run_new cap ops = Ok c →
     DesignLRU.cache c !! k = Some n →
     ∃ c', DesignLRU.get k c = Ok (DesignLRU.value n, c') ∧
           Recency.dlru_last_put ops k = Some (DesignLRU.value n)).
Proof.
  split; [|split].
  - intros T ? ? cap ops c k n Hrun Hk.
    destruct (RecencyFacts.lru_run_new_sorted cap ops c Hrun) as (Hinv & _ & _).
    eexists. split.
    + by apply LRUCacheFacts.lru_get_eq.
    + unfold LRUCache.run_new, LRUCache.new in Hrun. simpl in Hrun.
      apply (RecencyFacts.lru_run_fresh ops [] (LRUCache.mkLRU ∅ [] cap) c);
        [apply LRUCacheFacts.lru_inv_new| |done|done].
      intros x nx. simpl. by rewrite lookup_empty.
  - intros cap ops c k n Hrun Hk.
    destruct (LFUFacts.inv_new cap) as [Hinv0 _].
    destruct (LFUMapFacts.lfu_run_fresh ops [] _ Hinv0) as (c0 & Hrun0 & Hinv & Hc).
    { intros x nx. simpl. by rewrite lookup_empty. }
    unfold LFU.run_new, LFU.new in Hrun. simpl in Hrun.
    assert (c0 = c) as -> by congruence.
    destruct (LFUFacts.get_present _ c k n Hinv Hk) as (c' & Hget & _).
    exists c'. split; [done|]. by apply Hc.
  - intros K ? ? V cap ops c k n Hrun Hk.
    eexists. split.
    + unfold DesignLRU.get. rewrite Hk. reflexivity.
    + unfold DesignLRU.run_new, DesignLRU.new in Hrun. simpl in Hrun.
      apply (RecencyFacts.dlru_run_fresh ops [] (DesignLRU.mkLRU cap ∅ []) c);
        [apply DesignLRUFacts.dlru_inv_new| |done|done].
      intros x nx. simpl. by rewrite lookup_empty.
Qed.

(** X10 for key 1 at capacity 2 after [put(1,10); put(2,20); put(1,11);
    put(3,30)], which evicts key 2. *)
Lemma X10_hit_returns_value_of_last_put_witness :
  (∃ c n, LRUCache.run_new 2
            [LRUCache.Put 1 (Some 10); LRUCache.Put 2 (Some 20);
             LRUCache.Put 1 (Some 11); LRUCache.Put 3 (Some 30)] = Ok c ∧
          LRUCache.cache c !! 1 = Some n ∧
          ∃ c', LRUCache.get 1 c = Ok (LRUCache.value n, c') ∧
                Recency.lru_last_put
                  [LRUCache.Put 1 (Some 10); LRUCache.Put 2 (Some 20);
                   LRUCache.Put 1 (Some 11); LRUCache.Put 3 (Some 30)] 1 =
                  Some (LRUCache.value n)) ∧
  (∃ c n, LFU.run_new 2 [LFU.Put 1 10; LFU.Put 2 20; LFU.Put 1 11; LFU.Put 3 30] = Ok c ∧
          LFU.keyToNodeMap c !! 1 = Some n ∧
          ∃ c', LFU.get 1 c = Ok (LFU.value n, c') ∧
                Recency.last_put [LFU.Put 1 10; LFU.Put 2 20; LFU.Put 1 11; LFU.Put 3 30] 1 =
                  Some (LFU.value n)) ∧
  (∃ c n, DesignLRU.run_new 2
            [DesignLRU.Put 1 (Some 10); DesignLRU.Put 2 (Some 20);
             DesignLRU.Put 1 (Some 11); DesignLRU.Put 3 (Some 30)] = Ok c ∧
          DesignLRU.cache c !! 1 = Some n ∧
          ∃ c', DesignLRU.get 1 c = Ok (DesignLRU.value n, c') ∧
                Recency.dlru_last_put
                  [DesignLRU.Put 1 (Some 10); DesignLRU.Put 2 (Some 20);
                   DesignLRU.Put 1 (Some 11); DesignLRU.Put 3 (Some 30)] 1 =
                  Some (DesignLRU.value n)).
Proof.
  split; [|split].
  - eexists _, _. split; [reflexivity|]. split; [reflexivity|].
    apply (proj1 X10_hit_returns_value_of_last_put Z _ _ 2); reflexivity.
  - eexists _, _. split; [reflexivity|]. split; [reflexivity|].
    apply (proj1 (proj2 X10_hit_returns_value_of_last_put) 2); reflexivity.
  - eexists _, _. split; [reflexivity|]. split; [reflexivity|].
    apply (proj2 (proj2 X10_hit_returns_value_of_last_put) Z _ _ Z 2); reflexivity.
Defined.

(** ** The linked lists in the heap *)

(** X11.  [LRUCache.java] on the heap.  Whatever the capacity, no call of
    a run from the constructor dereferences [null]: the run returns.  In
    the state it reaches the nodes between [head] and [tail] form a doubly
    linked list without repetition ([next] leads from [head] to [tail]
    through them and [prev] leads back), and these nodes are the nodes of
    the hash map, each stored under the key it holds. *)
Theorem X11_lru_heap_list_well_formed :
  ∀ (T : Type) `{Countable T} (cap : Z) (ops : list (LRUCache.op (T:=T))),
    ∃ s l,
      LRUCacheHeap.run_new cap ops = Ok s ∧
      Dll.is_dll (LRUCacheHeap.links s) (LRUCacheHeap.head s) l (LRUCacheHeap.tail s) ∧
      (∀ k x, LRUCacheHeap.cache s !! k = Some x →
              x ∈ l ∧ LRUCacheHeap.hkey s !! x = Some k) ∧
      (∀ x, x ∈ l → ∃ k, LRUCacheHeap.hkey s !! x = Some k ∧
                         LRUCacheHeap.cache s !! k = Some x).
Proof.
  intros T ? ? cap ops.
  destruct (LRUCacheHeapFacts.lh_run_new_sim cap ops) as (s & a & Hs & _ & l & Hr).
  exists s, l. split; [done|]. split; [apply Hr|]. split.
  - intros k x Hx. destruct (LRUCacheHeap.rep_some _ _ _ Hr k x Hx) as (? & ? & _). done.
  - intros x Hx. apply (LRUCacheHeap.rep_mapped _ _ _ Hr x Hx).
Qed.

(** X12.  The LFU cache on the heap.  Whatever the capacity, no call of a
    run from the constructor dereferences [null]: the run returns.  In the
    state it reaches every list of [frequencyToListMap] is a doubly linked
    list without repetition and with at least one node between its dummy
    nodes, no node is in two lists, the node of every stored key holds
    that key and sits in the list of the node's own frequency, and every
    node of a list is the node of the key it holds. *)
Theorem X12_lfu_heap_lists_well_formed :
  ∀ (cap : Z) (ops : list LFU.op),
    ∃ s (G : gmap Z LFUHeap.nodes),
      LFUHeap.run_new cap ops = Ok s ∧
      LFUHeap.frequencyToListMap s = LFUHeap.ends <$> G ∧
      (∀ f g, G !! f = Some g →
              Dll.is_dll (LFUHeap.links s) g.1.1 g.1.2 g.2 ∧ g.1.2 ≠ []) ∧
      (∀ f f' g g' x, G !! f = Some g → G !! f' = Some g' →
                      x ∈ LFUHeap.cells g → x ∈ LFUHeap.cells g' → f = f') ∧
      (∀ k x, LFUHeap.keyToNodeMap s !! k = Some x →
              LFUHeap.hkey s !! x = Some k ∧
              ∃ fr g, LFUHeap.hfrequency s !! x = Some fr ∧
                      G !! fr = Some g ∧ x ∈ g.1.2) ∧
      (∀ f g x, G !! f = Some g → x ∈ g.1.2 →
                ∃ k, LFUHeap.hkey s !! x = Some k ∧
                     LFUHeap.keyToNodeMap s !! k = Some x).
Proof.
  intros cap ops.
  destruct (LFUHeapFacts.fh_run_new_sim cap ops) as (s & a & Hs & Ha & G & Hr).
  destruct (LFUFacts.run_new_inv cap ops) as (a0 & Ha0 & Hinv & _).
  assert (a0 = a) as -> by congruence.
  pose proof (LFU.inv_struct _ _ Hinv) as Hl.
  exists s, G. split; [done|]. split; [apply Hr|]. split; [|split; [|split]].
  - intros f g Hg. destruct (LFUHeap.rep_list _ _ _ Hr f g Hg) as (ks & Hks & Hdll & Hf2).
    split; [done|]. intros E. rewrite E in Hf2. apply Forall2_nil_inv_l in Hf2.
    subst ks. by apply (LFU.inv_nonempty _ _ Hl f []).
  - apply Hr.
  - intros k x Hx.
    destruct (LFUHeap.rep_some _ _ _ Hr k x Hx) as (_ & Hkey & v & fr & Hv & Hfr & Hn).
    split; [done|].
    assert (LFU.in_list a fr k) as (ks & Hks & Hin).
    { apply (LFU.inv_mem _ _ Hl). eexists. split; [exact Hn|done]. }
    destruct (G !! fr) as [g|] eqn:Hg.
    2:{ rewrite (LFUHeap.rep_nolist _ _ _ Hr fr Hg) in Hks. done. }
    exists fr, g. split; [done|]. split; [done|].
    destruct (LFUHeap.rep_list _ _ _ Hr fr g Hg) as (ks' & Hks' & _ & Hf2).
    assert (ks' = ks) as -> by congruence.
    apply list_elem_of_lookup in Hin as [i Hi].
    destruct (Forall2_lookup_r _ _ _ _ _ Hf2 Hi) as (y & Hy & Hky).
    assert (y ∈ g.1.2) as Hyin by (by eapply list_elem_of_lookup_2).
    destruct (LFUHeap.rep_mapped _ _ _ Hr fr g y Hg Hyin) as (k' & Hk' & Hm).
    unfold LFUHeap.key_at in *. assert (k' = k) as -> by congruence.
    assert (y = x) as -> by congruence. done.
  - intros f g x Hg Hx. apply (LFUHeap.rep_mapped _ _ _ Hr f g x Hg Hx).
Qed.

(** X13.  The LRU cache of the design document on the heap.  With a
    capacity of at least 1, no call of a run of [get], [put] and [remove]
    from the constructor dereferences [null]: the run returns.  In the
    state it reaches the nodes between [head] and [tail] form a doubly
    linked list without repetition, and these nodes are the nodes of the
    hash map, each stored under the key it holds. *)
Theorem X13_design_lru_heap_list_well_formed :
  ∀ (K : Type) `{Countable K} (V : Type) (cap : Z)
    (ops : list (DesignLRU.op (K:=K) (V:=V))),
    1 ≤ cap →
    ∃ s l,
      DesignLRUHeap.run_new cap ops = Ok s ∧
      Dll.is_dll (DesignLRUHeap.links s) (DesignLRUHeap.head s) l (DesignLRUHeap.tail s) ∧
      (∀ k x, DesignLRUHeap.cache s !! k = Some x →
              x ∈ l ∧ DesignLRUHeap.hkey s !! x = Some k) ∧
      (∀ x, x ∈ l → ∃ k, DesignLRUHeap.hkey s !! x = Some k ∧
                         DesignLRUHeap.cache s !! k = Some x).
Proof.
  intros K ? ? V cap ops Hcap.
  pose proof (DesignLRUHeapFacts.dh_run_new_sim cap ops) as Hsim.
  destruct (DesignLRUFacts.dlru_run_total ops (DesignLRU.mkLRU cap ∅ []))
    as [a Ha]; [apply DesignLRUFacts.dlru_inv_new|simpl; lia|].
  unfold DesignLRU.run_new, DesignLRU.new in Hsim. simpl in Hsim. rewrite Ha in Hsim.
  destruct (DesignLRUHeap.run_new cap ops) as [s|e]; simpl in Hsim; [|done].
  destruct Hsim as [l Hr].
  exists s, l. split; [done|]. split; [apply Hr|]. split.
  - intros k x Hx. destruct (DesignLRUHeap.rep_some _ _ _ Hr k x Hx) as (? & ? & _). done.
  - intros x Hx. apply (DesignLRUHeap.rep_mapped _ _ _ Hr x Hx).
Qed.

(** X13 at capacity 1 on [put(1,10); put(2,20); remove(2); get(1)]. *)
Lemma X13_design_lru_heap_list_well_formed_witness :
  ∃ s l,
    DesignLRUHeap.run_new (K:=Z) (V:=Z) 1
      [DesignLRU.Put 1 (Some 10); DesignLRU.Put 2 (Some 20); DesignLRU.Remove 2;
       DesignLRU.Get 1] = Ok s ∧
    Dll.is_dll (DesignLRUHeap.links s) (DesignLRUHeap.head s) l (DesignLRUHeap.tail s) ∧
    (∀ k x, DesignLRUHeap.cache s !! k = Some x →
            x ∈ l ∧ DesignLRUHeap.hkey s !! x = Some k) ∧
    (∀ x, x ∈ l → ∃ k, DesignLRUHeap.hkey s !! x = Some k ∧
                       DesignLRUHeap.cache s !! k = Some x).
Proof.
  apply (X13_design_lru_heap_list_well_formed Z Z 1). lia.
Defined.

(** ** The sliding-window rate limiter *)

(** X14.  The rate limit.  For a limiter built by the constructor and read
    by a clock that does not go back (and reads no time before the epoch),
    no window of [windowSizeSeconds] seconds holds more than
    [maxRequests] allowed requests: for every
    instant [t], at most [maxRequests] of the calls of [allow()] that
    returned [true] were made later than [t - 1000 * windowSizeSeconds]
    and not later than [t]. *)
Theorem X14_sliding_window_rate_limit :
  ∀ (windowSizeSeconds maxRequests : Z) (s : SlidingWindowLogStrategy.t)
    (cs : list (Z * SlidingWindowLogStrategy.call)) (t : Z),
    MIN_VALUE ≤ windowSizeSeconds ≤ MAX_VALUE →
    SlidingWindowLogStrategy.new windowSizeSeconds maxRequests = Jvm.Return s →
    SlidingWindowLogStrategy.clock_ok cs →
    Z.of_nat (length (SlidingWindowLogStrategy.in_window (1000 * windowSizeSeconds) t
                        (SlidingWindowLogStrategy.granted cs s))) ≤ maxRequests.
Proof.
  intros ws mr s cs t Hint Hnew Hclock. unfold SlidingWindowLogStrategy.new in Hnew.
  destruct (Z.leb_spec ws 0); [done|]. destruct (Z.leb_spec mr 0); [done|].
  injection Hnew as <-. rewrite SlidingWindowFacts.toMillis_int by done.
  rewrite (Z.mul_comm 1000).
  apply SlidingWindowFacts.rate_limit; [|lia|done].
  unfold MAX_VALUE, Jvm.Long_MAX_VALUE in *. lia.
Qed.

(** X14 for 2 requests per second: of five calls of [allow()] at 0, 100,
    200, 1000 and 1100 ms, at most two allowed ones lie in the second that
    ends at 1000 ms. *)
Lemma X14_sliding_window_rate_limit_witness :
  Z.of_nat (length (SlidingWindowLogStrategy.in_window (1000 * 1) 1000
                      (SlidingWindowLogStrategy.granted
                         [(0, SlidingWindowLogStrategy.Allow);
                          (100, SlidingWindowLogStrategy.Allow);
                          (200, SlidingWindowLogStrategy.Allow);
                          (1000, SlidingWindowLogStrategy.Allow);
                          (1100, SlidingWindowLogStrategy.Allow)]
                         (SlidingWindowLogStrategy.mk 1000 2 [])))) ≤ 2.
Proof.
  apply (X14_sliding_window_rate_limit 1 2); [unfold MIN_VALUE, MAX_VALUE; lia|reflexivity|].
  split; simpl.
  - repeat constructor; lia.
  - repeat constructor; unfold Jvm.Long_MAX_VALUE; lia.
Defined.

(** X15.  What [allow()] decides.  For a limiter built by the constructor
    and read by a clock that does not go back (and reads no time before
    the epoch), a call of [allow()] returns
    [true] exactly when fewer than [maxRequests] of the earlier allowed
    requests lie in the window that ends at the call: the limiter refuses
    no request that the limit allows. *)
Theorem X15_allow_decides_by_window_count :
  ∀ (windowSizeSeconds maxRequests : Z) (s : SlidingWindowLogStrategy.t)
    (cs : list (Z * SlidingWindowLogStrategy.call)) (now : Z),
    MIN_VALUE ≤ windowSizeSeconds ≤ MAX_VALUE →
    SlidingWindowLogStrategy.new windowSizeSeconds maxRequests = Jvm.Return s →
    SlidingWindowLogStrategy.clock_ok (cs ++ [(now, SlidingWindowLogStrategy.Allow)]) →
    (SlidingWindowLogStrategy.allow now (SlidingWindowLogStrategy.run cs s).2).1 =
      bool_decide
        (Z.of_nat (length (SlidingWindowLogStrategy.in_window (1000 * windowSizeSeconds) now
                             (SlidingWindowLogStrategy.granted cs s))) < maxRequests).
Proof.
  intros ws mr s cs now Hint Hnew Hclock. unfold SlidingWindowLogStrategy.new in Hnew.
  destruct (Z.leb_spec ws 0); [done|]. destruct (Z.leb_spec mr 0); [done|].
  injection Hnew as <-. rewrite SlidingWindowFacts.toMillis_int by done.
  rewrite (Z.mul_comm 1000).
  apply SlidingWindowFacts.allow_decides; [|done].
  unfold MAX_VALUE, Jvm.Long_MAX_VALUE in *. lia.
Qed.

(** X15 for 2 requests per second: after allowed calls at 0 and 100 ms and
    a refused one at 200 ms, the call at 1000 ms, when the request of 0 ms
    has left the window. *)
Lemma X15_allow_decides_by_window_count_witness :
  (SlidingWindowLogStrategy.allow 1000
     (SlidingWindowLogStrategy.run
        [(0, SlidingWindowLogStrategy.Allow); (100, SlidingWindowLogStrategy.Allow);
         (200, SlidingWindowLogStrategy.Allow)]
        (SlidingWindowLogStrategy.mk 1000 2 [])).2).1 =
    bool_decide
      (Z.of_nat (length (SlidingWindowLogStrategy.in_window (1000 * 1) 1000
                           (SlidingWindowLogStrategy.granted
                              [(0, SlidingWindowLogStrategy.Allow);
                               (100, SlidingWindowLogStrategy.Allow);
                               (200, SlidingWindowLogStrategy.Allow)]
                              (SlidingWindowLogStrategy.mk 1000 2 [])))) < 2).
Proof.
  apply (X15_allow_decides_by_window_count 1 2);
    [unfold MIN_VALUE, MAX_VALUE; lia|reflexivity|].
  split; simpl.
  - repeat constructor; lia.
  - repeat constructor; unfold Jvm.Long_MAX_VALUE; lia.
Defined.

(** X16.  [getCurrentRequestCount()] returns the number of allowed requests
    in the window that ends at the call, for a limiter built by the
    constructor and read by a clock that does not go back (and reads no
    time before the epoch). *)
Theorem X16_request_count_is_window_count :
  ∀ (windowSizeSeconds maxRequests : Z) (s : SlidingWindowLogStrategy.t)
    (cs : list (Z * SlidingWindowLogStrategy.call)) (now : Z),
    MIN_VALUE ≤ windowSizeSeconds ≤ MAX_VALUE →
    SlidingWindowLogStrategy.new windowSizeSeconds maxRequests = Jvm.Return s →
    SlidingWindowLogStrategy.clock_ok
      (cs ++ [(now, SlidingWindowLogStrategy.GetCurrentRequestCount)]) →
    (SlidingWindowLogStrategy.getCurrentRequestCount now
       (SlidingWindowLogStrategy.run cs s).2).1 =
      Z.of_nat (length (SlidingWindowLogStrategy.in_window (1000 * windowSizeSeconds) now
                          (SlidingWindowLogStrategy.granted cs s))).
Proof.
  intros ws mr s cs now Hint Hnew Hclock. unfold SlidingWindowLogStrategy.new in Hnew.
  destruct (Z.leb_spec ws 0); [done|]. destruct (Z.leb_spec mr 0); [done|].
  injection Hnew as <-. rewrite SlidingWindowFacts.toMillis_int by done.
  rewrite (Z.mul_comm 1000).
  apply SlidingWindowFacts.count_spec; [|done].
  unfold MAX_VALUE, Jvm.Long_MAX_VALUE in *. lia.
Qed.

(** X16 for 2 requests per second, at 1050 ms after calls of [allow()] at
    0, 100 and 200 ms. *)
Lemma X16_request_count_is_window_count_witness :
  (SlidingWindowLogStrategy.getCurrentRequestCount 1050
     (SlidingWindowLogStrategy.run
        [(0, SlidingWindowLogStrategy.Allow); (100, SlidingWindowLogStrategy.Allow);
         (200, SlidingWindowLogStrategy.Allow)]
        (SlidingWindowLogStrategy.mk 1000 2 [])).2).1 =
    Z.of_nat (length (SlidingWindowLogStrategy.in_window (1000 * 1) 1050
                        (SlidingWindowLogStrategy.granted
                           [(0, SlidingWindowLogStrategy.Allow);
                            (100, SlidingWindowLogStrategy.Allow);
                            (200, SlidingWindowLogStrategy.Allow)]
                           (SlidingWindowLogStrategy.mk 1000 2 [])))).
Proof.
  apply (X16_request_count_is_window_count 1 2);
    [unfold MIN_VALUE, MAX_VALUE; lia|reflexivity|].
  split; simpl.
  - repeat constructor; lia.
  - repeat constructor; unfold Jvm.Long_MAX_VALUE; lia.
Defined.

(** X17.  [getCurrentRequestCount()] decides nothing.  Leaving a call of it
    out of a run changes no later decision of [allow()]: the same requests
    are allowed, although the call removes timestamps from the queue.  The
    clock is one that does not go back (and reads no time before the
    epoch). *)
Theorem X17_request_count_changes_no_decision :
  ∀ (windowSizeSeconds maxRequests : Z) (s : SlidingWindowLogStrategy.t)
    (cs1 cs2 : list (Z * SlidingWindowLogStrategy.call)) (now : Z),
    MIN_VALUE ≤ windowSizeSeconds ≤ MAX_VALUE →
    SlidingWindowLogStrategy.new windowSizeSeconds maxRequests = Jvm.Return s →
    SlidingWindowLogStrategy.clock_ok
      (cs1 ++ (now, SlidingWindowLogStrategy.GetCurrentRequestCount) :: cs2) →
    SlidingWindowLogStrategy.granted
      (cs1 ++ (now, SlidingWindowLogStrategy.GetCurrentRequestCount) :: cs2) s =
    SlidingWindowLogStrategy.granted (cs1 ++ cs2) s.
Proof.
  intros ws mr s cs1 cs2 now Hint Hnew Hclock. unfold SlidingWindowLogStrategy.new in Hnew.
  destruct (Z.leb_spec ws 0); [done|]. destruct (Z.leb_spec mr 0); [done|].
  injection Hnew as <-. rewrite SlidingWindowFacts.toMillis_int by done.
  apply SlidingWindowFacts.count_transparent; [|done].
  unfold MAX_VALUE, Jvm.Long_MAX_VALUE in *. lia.
Qed.

(** X17 for 2 requests per second: a count at 1050 ms between calls of
    [allow()] at 0, 100 and 1100, 1150 ms. *)
Lemma X17_request_count_changes_no_decision_witness :
  SlidingWindowLogStrategy.granted
    ([(0, SlidingWindowLogStrategy.Allow); (100, SlidingWindowLogStrategy.Allow)] ++
     (1050, SlidingWindowLogStrategy.GetCurrentRequestCount) ::
     [(1100, SlidingWindowLogStrategy.Allow); (1150, SlidingWindowLogStrategy.Allow)])
    (SlidingWindowLogStrategy.mk 1000 2 []) =
  SlidingWindowLogStrategy.granted
    ([(0, SlidingWindowLogStrategy.Allow); (100, SlidingWindowLogStrategy.Allow)] ++
     [(1100, SlidingWindowLogStrategy.Allow); (1150, SlidingWindowLogStrategy.Allow)])
    (SlidingWindowLogStrategy.mk 1000 2 []).
Proof.
  apply (X17_request_count_changes_no_decision 1 2);
    [unfold MIN_VALUE, MAX_VALUE; lia|reflexivity|].
  split; simpl.
  - repeat constructor; lia.
  - repeat constructor; unfold Jvm.Long_MAX_VALUE; lia.
Defined.

(** X18.  The queue of timestamps is bounded.  For a limiter built by the
    constructor the queue never holds more than [maxRequests] timestamps,
    whatever the clock reads, even when it goes back. *)
Theorem X18_timestamp_queue_is_bounded :
  ∀ (windowSizeSeconds maxRequests : Z) (s : SlidingWindowLogStrategy.t)
    (cs : list (Z * SlidingWindowLogStrategy.call)),
    SlidingWindowLogStrategy.new windowSizeSeconds maxRequests = Jvm.Return s →
    Z.of_nat (length (SlidingWindowLogStrategy.requestTimestamps
                        (SlidingWindowLogStrategy.run cs s).2)) ≤ maxRequests.
Proof.
  intros ws mr s cs Hnew. unfold SlidingWindowLogStrategy.new in Hnew.
  destruct (Z.leb_spec ws 0); [done|]. destruct (Z.leb_spec mr 0); [done|].
  injection Hnew as <-.
  pose proof (SlidingWindowFacts.run_log_length cs
                (SlidingWindowLogStrategy.mk (SlidingWindowLogStrategy.toMillis ws) mr []))
    as Hb.
  simpl in Hb. lia.
Qed.

(** X18 for 2 requests per second and a clock that reads 500, 400, 300 and
    then 0 ms. *)
Lemma X18_timestamp_queue_is_bounded_witness :
  Z.of_nat (length (SlidingWindowLogStrategy.requestTimestamps
                      (SlidingWindowLogStrategy.run
                         [(500, SlidingWindowLogStrategy.Allow);
                          (400, SlidingWindowLogStrategy.Allow);
                          (300, SlidingWindowLogStrategy.Allow);
                          (0, SlidingWindowLogStrategy.GetCurrentRequestCount)]
                         (SlidingWindowLogStrategy.mk 1000 2 [])).2)) ≤ 2.
Proof.
  apply (X18_timestamp_queue_is_bounded 1 2). reflexivity.
Defined.

(** X19.  The constructor of [UserRateLimiter] checks the user id first.
    It throws [IllegalArgumentException] with the message of the id when
    the id is [null] or has no character above U+0020, whatever the
    strategy is; with an id that has such a character it throws with the
    message of the strategy when the strategy is [null], and else returns
    an object that holds the id as it was given, not trimmed. *)
Theorem X19_user_rate_limiter_constructor :
  ∀ (S : Type) `{RateLimiterStrategy.t S} (u : list N) (st : option S),
    (UserRateLimiter.new None st =
       Jvm.Throw (Jvm.IllegalArgumentException "User ID cannot be null or empty.")) ∧
    ((∀ c, c ∈ u → (c ≤ 32)%N) →
     UserRateLimiter.new (Some u) st =
       Jvm.Throw (Jvm.IllegalArgumentException "User ID cannot be null or empty.")) ∧
    ((∃ c, c ∈ u ∧ (32 < c)%N) →
     UserRateLimiter.new (Some u) st =
       match st with
       | None => Jvm.Throw (Jvm.IllegalArgumentException "Strategy cannot be null.")
       | Some x => Jvm.Return (UserRateLimiter.mk u x)
       end).
Proof.
  intros S ? u st. split; [done|].
  unfold UserRateLimiter.new. rewrite UserRateLimiterFacts.isEmpty_trim. split.
  - intros Hall. rewrite (proj2 (forallb_forall _ _)); [done|].
    intros c Hc. apply N.leb_le, Hall. by apply list_elem_of_In.
  - intros (c & Hc & Hgt).
    destruct (forallb UserRateLimiter.is_space u) eqn:E; [|done].
    rewrite forallb_forall in E. specialize (E c (proj1 (list_elem_of_In _ _) Hc)).
    apply N.leb_le in E. lia.
Qed.

(** X19 on the id of three spaces and on the id of a space, the letter a
    and a space, with the
    sliding-window strategy of 2 requests per second. *)
Lemma X19_user_rate_limiter_constructor_witness :
  UserRateLimiter.new (S:=SlidingWindowLogStrategy.t) (Some [32; 32; 32]%N) None =
    Jvm.Throw (Jvm.IllegalArgumentException "User ID cannot be null or empty.") ∧
  UserRateLimiter.new (Some [32; 97; 32]%N) (Some (SlidingWindowLogStrategy.mk 1000 2 [])) =
    Jvm.Return (UserRateLimiter.mk [32; 97; 32]%N (SlidingWindowLogStrategy.mk 1000 2 [])).
Proof.
  split.
  - apply (X19_user_rate_limiter_constructor SlidingWindowLogStrategy.t [32; 32; 32]%N None).
    intros c Hc. rewrite !elem_of_cons in Hc.
    destruct Hc as [->|[->|[->|Hc]]]; [lia..|by apply elem_of_nil in Hc].
  - apply (X19_user_rate_limiter_constructor SlidingWindowLogStrategy.t [32; 97; 32]%N
             (Some (SlidingWindowLogStrategy.mk 1000 2 []))).
    exists 97%N. split; [|lia]. apply elem_of_cons. right. apply elem_of_cons. by left.
Defined.



(** ** Merge sort *)

(** X21.  [merge] merges two adjacent runs.  When the array is
    [A ++ L ++ R ++ C], [start] is the index of the first element of [L],
    [mid] of its last one and [end] of the last element of [R], the call
    returns with [L ++ R] replaced by the merge of [L] and [R], where of
    two heads the one of [L] goes first only when it is smaller; the rest
    of the array stays.  The result holds the elements of [L ++ R], and is
    sorted when [L] and [R] are. *)
Theorem X21_merge_merges_adjacent_runs :
  ∀ (arr A L R C : list Z) (start mid end_ : Z),
    arr = A ++ L ++ R ++ C →
    start = Z.of_nat (length A) →
    mid = start + Z.of_nat (length L) - 1 →
    end_ = mid + Z.of_nat (length R) →
    Z.of_nat (length arr) ≤ MAX_VALUE →
    MergeSortDemo.merge arr start mid end_ = Jvm.Return (A ++ list_merge Z.lt L R ++ C) ∧
    list_merge Z.lt L R ≡ₚ L ++ R ∧
    (Sorted Z.le L → Sorted Z.le R → Sorted Z.le (list_merge Z.lt L R)).
Proof.
  intros arr A L R C start mid e Harr Hs Hm He Hlen. split; [|split].
  - by apply (MergeSortFacts.merge_spec arr A L R C).
  - apply merge_Permutation.
  - apply MergeSortFacts.Sorted_le_list_merge.
Qed.

(** X21 on [[9; 1; 4; 2; 4; 0]], for the runs [[1; 4]] and [[2; 4]]. *)
Lemma X21_merge_merges_adjacent_runs_witness :
  MergeSortDemo.merge [9; 1; 4; 2; 4; 0] 1 2 4 =
    Jvm.Return ([9] ++ list_merge Z.lt [1; 4] [2; 4] ++ [0]) ∧
  list_merge Z.lt [1; 4] [2; 4] ≡ₚ [1; 4] ++ [2; 4] ∧
  (Sorted Z.le [1; 4] → Sorted Z.le [2; 4] → Sorted Z.le (list_merge Z.lt [1; 4] [2; 4])).
Proof.
  apply (X21_merge_merges_adjacent_runs [9; 1; 4; 2; 4; 0] [9] [1; 4] [2; 4] [0] 1 2 4);
    [reflexivity..|simpl; unfold MAX_VALUE; lia].
Defined.

(** X22.  [mergesort] sorts the range it is given and nothing else.  For an
    array of at most 2^30 elements (so that [start + end] does not wrap)
    written [A ++ M ++ C], the call on the indices of [M], with a budget
    of nested calls of at least the length of [M] (and at least 1),
    returns [A ++ M' ++ C] where [M'] is sorted and holds the elements of
    [M]; on an empty range, [end = start - 1], it returns the array as it
    is.  So the call of [main], [mergesort(arr, 0, arr.length - 1)], sorts
    the array, the empty one included. *)
Theorem X22_mergesort_sorts_its_range :
  (∀ (fuel : nat) (arr A M C : list Z),
     arr = A ++ M ++ C →
     Z.of_nat (length arr) ≤ 1073741824 →
     (0 < fuel)%nat → (length M ≤ fuel)%nat →
     ∃ M', MergeSortDemo.mergesort fuel arr (Z.of_nat (length A))
             (Z.of_nat (length A) + Z.of_nat (length M) - 1) = Jvm.Return (A ++ M' ++ C) ∧
           Sorted Z.le M' ∧ M' ≡ₚ M) ∧
  (∀ (fuel : nat) (arr : list Z),
     Z.of_nat (length arr) ≤ 1073741824 →
     (0 < fuel)%nat → (length arr ≤ fuel)%nat →
     ∃ arr', MergeSortDemo.sort fuel arr = Jvm.Return arr' ∧
             Sorted Z.le arr' ∧ arr' ≡ₚ arr).
Proof.
  split.
  - intros fuel arr A M C Harr Hlen H0 Hf.
    by apply (MergeSortFacts.mergesort_spec fuel arr A M C).
  - intros fuel arr Hlen H0 Hf. unfold MergeSortDemo.sort.
    rewrite ArraysFacts.wrap_int_small by (unfold MIN_VALUE, MAX_VALUE; lia).
    destruct (MergeSortFacts.mergesort_spec fuel arr [] arr [] 0
                (Z.of_nat (length arr) - 1)) as (M' & Hrun & Hs & Hp);
      [by rewrite app_nil_r|done|simpl; lia|done|done|done|].
    exists M'. simpl in Hrun. by rewrite app_nil_r in Hrun.
Qed.

(** X22 on the range [[5; 3; 8; 1]] of [[9; 5; 3; 8; 1; 0]], and on the
    array of [main]. *)
Lemma X22_mergesort_sorts_its_range_witness :
  (∃ M', MergeSortDemo.mergesort 4 [9; 5; 3; 8; 1; 0] (Z.of_nat (length [9]))
           (Z.of_nat (length [9]) + Z.of_nat (length [5; 3; 8; 1]) - 1) =
           Jvm.Return ([9] ++ M' ++ [0]) ∧
         Sorted Z.le M' ∧ M' ≡ₚ [5; 3; 8; 1]) ∧
  (∃ arr', MergeSortDemo.sort 9 [3; 2; 1; 4; 5; 6; 2; 4; 5] = Jvm.Return arr' ∧
           Sorted Z.le arr' ∧ arr' ≡ₚ [3; 2; 1; 4; 5; 6; 2; 4; 5]).
Proof.
  split.
  - apply (proj1 X22_mergesort_sorts_its_range 4%nat [9; 5; 3; 8; 1; 0] [9] [5; 3; 8; 1] [0]);
      [reflexivity|simpl; lia|lia|simpl; lia].
  - apply (proj2 X22_mergesort_sorts_its_range 9%nat [3; 2; 1; 4; 5; 6; 2; 4; 5]);
      [simpl; lia|lia|simpl; lia].
Defined.

(** X23.  [mergesort] with a negative [start] below [end] never returns,
    for every [int] [start] and [end].  [(start + end)/2], an [int] sum
    (which may wrap) divided with rounding towards zero, is above [start],
    so that the first nested call is again on a negative [start] below its
    [end] (when the sum does not wrap, the call on [start = end - 1 < 0]
    computes [mid = end] and calls itself with the same arguments):
    whatever the budget of nested calls, it is used up (the stack
    overflows) before any element of the array is read. *)
Theorem X23_mergesort_negative_start_never_returns :
  ∀ (fuel : nat) (arr : list Z) (start end_ : Z),
    MIN_VALUE ≤ start < 0 →
    start < end_ ≤ MAX_VALUE →
    MergeSortDemo.mergesort fuel arr start end_ = Jvm.OutOfFuel.
Proof.
  intros fuel arr start e Hs He. by apply MergeSortFacts.mergesort_negative_start.
Qed.

(** X23 for [mergesort(arr, -1, 2)] with a budget of 1000 nested calls. *)
Lemma X23_mergesort_negative_start_never_returns_witness :
  MergeSortDemo.mergesort 1000 [3; 1; 2] (-1) 2 = Jvm.OutOfFuel.
Proof.
  apply (X23_mergesort_negative_start_never_returns 1000 [3; 1; 2] (-1) 2);
    unfold MIN_VALUE, MAX_VALUE; lia.
Defined.

(** X24.  [mergesort] with [end] beyond the last index throws.  When
    [0 <= start < end] and [end] is at least the length of the array (and
    at most 2^30), the call throws [ArrayIndexOutOfBoundsException], given
    a budget of more than [end - start] nested calls. *)
Theorem X24_mergesort_end_beyond_array_throws :
  ∀ (fuel : nat) (arr : list Z) (start end_ : Z),
    0 ≤ start < end_ →
    Z.of_nat (length arr) ≤ end_ ≤ 1073741824 →
    (Z.to_nat (end_ - start) < fuel)%nat →
    MergeSortDemo.mergesort fuel arr start end_ =
      Jvm.Throw Jvm.ArrayIndexOutOfBoundsException.
Proof.
  intros fuel arr start e Hs He Hf. by apply MergeSortFacts.mergesort_end_beyond.
Qed.

(** X24 for [mergesort(arr, 0, arr.length)] on an array of 3 elements. *)
Lemma X24_mergesort_end_beyond_array_throws_witness :
  MergeSortDemo.mergesort 4 [3; 1; 2] 0 3 = Jvm.Throw Jvm.ArrayIndexOutOfBoundsException.
Proof.
  apply (X24_mergesort_end_beyond_array_throws 4 [3; 1; 2] 0 3); simpl; lia.
Defined.

(** X25.  The loops of [merge] end.  Whatever [start], [mid] and [end] are,
    a call of [merge] returns or throws: every round of its loops reads
    the array at an index that the round then increases, so that a loop
    ends by its test or by [ArrayIndexOutOfBoundsException]. *)
Theorem X25_merge_loops_end :
  ∀ (arr : list Z) (start mid end_ : Z),
    Z.of_nat (length arr) ≤ MAX_VALUE →
    MergeSortDemo.merge arr start mid end_ ≠ Jvm.OutOfFuel.
Proof.
  intros arr start mid e Hlen. by apply MergeSortFacts.merge_ends.
Qed.

(** X25 for [merge(arr, -5, 7, 100)] on an array of 3 elements. *)
Lemma X25_merge_loops_end_witness :
  MergeSortDemo.merge [3; 1; 2] (-5) 7 100 ≠ Jvm.OutOfFuel.
Proof.
  apply (X25_merge_loops_end [3; 1; 2] (-5) 7 100). simpl. unfold MAX_VALUE. lia.
Defined.

(** ** Quick sort *)

(** X26.  [findParition] partitions around the first element.  On a range
    of at least two elements of the array, [p :: M0] in
    [A ++ (p :: M0) ++ C], the call returns; the range then holds the same
    elements, the pivot [p] sits at the index returned, the elements
    before it in the range are not above [p] and those after it are above
    [p]; the rest of the array stays. *)
Theorem X26_findParition_partitions_range :
  ∀ (arr A M0 C : list Z) (p : Z),
    arr = A ++ (p :: M0) ++ C →
    M0 ≠ [] →
    Z.of_nat (length arr) ≤ MAX_VALUE →
    ∃ L R,
      QuickSortDemo.findParition arr (Z.of_nat (length A))
        (Z.of_nat (length A) + Z.of_nat (length (p :: M0)) - 1) =
        Jvm.Return (A ++ L ++ p :: R ++ C, Z.of_nat (length A) + Z.of_nat (length L)) ∧
      L ++ p :: R ≡ₚ p :: M0 ∧
      Forall (λ v, v ≤ p) L ∧ Forall (λ v, p < v) R.
Proof.
  intros arr A M0 C p Harr HM0 Hlen. by apply QuickSortFacts.findParition_spec.
Qed.

(** X26 on the range [[3; 5; 1; 4; 3]] of [[9; 3; 5; 1; 4; 3; 0]]. *)
Lemma X26_findParition_partitions_range_witness :
  ∃ L R,
    QuickSortDemo.findParition [9; 3; 5; 1; 4; 3; 0] (Z.of_nat (length [9]))
      (Z.of_nat (length [9]) + Z.of_nat (length [3; 5; 1; 4; 3]) - 1) =
      Jvm.Return ([9] ++ L ++ 3 :: R ++ [0], Z.of_nat (length [9]) + Z.of_nat (length L)) ∧
    L ++ 3 :: R ≡ₚ [3; 5; 1; 4; 3] ∧
    Forall (λ v, v ≤ 3) L ∧ Forall (λ v, 3 < v) R.
Proof.
  apply (X26_findParition_partitions_range [9; 3; 5; 1; 4; 3; 0] [9] [5; 1; 4; 3] [0] 3);
    [reflexivity|done|simpl; unfold MAX_VALUE; lia].
Defined.

(** X27.  [quickSort] sorts the range it is given and nothing else.  For an
    array written [A ++ M ++ C], the call on the indices of [M], with a
    budget of nested calls of at least the length of [M] (and at least 1),
    returns [A ++ M' ++ C] where [M'] is sorted and holds the elements of
    [M]; on an empty range, [end = start - 1], it returns the array as it
    is.  So the call of [main], [quickSort(arr, 0, arr.length - 1)], sorts
    the array, the empty one included. *)
Theorem X27_quickSort_sorts_its_range :
  (∀ (fuel : nat) (arr A M C : list Z),
     arr = A ++ M ++ C →
     Z.of_nat (length arr) ≤ MAX_VALUE →
     (0 < fuel)%nat → (length M ≤ fuel)%nat →
     ∃ M', QuickSortDemo.quickSort fuel arr (Z.of_nat (length A))
             (Z.of_nat (length A) + Z.of_nat (length M) - 1) = Jvm.Return (A ++ M' ++ C) ∧
           Sorted Z.le M' ∧ M' ≡ₚ M) ∧
  (∀ (fuel : nat) (arr : list Z),
     Z.of_nat (length arr) ≤ MAX_VALUE →
     (0 < fuel)%nat → (length arr ≤ fuel)%nat →
     ∃ arr', QuickSortDemo.quickSort fuel arr 0 (Z.of_nat (length arr) - 1) =
               Jvm.Return arr' ∧
             Sorted Z.le arr' ∧ arr' ≡ₚ arr).
Proof.
  split.
  - intros fuel arr A M C Harr Hlen H0 Hf.
    by apply (QuickSortFacts.quickSort_spec fuel arr A M C).
  - intros fuel arr Hlen H0 Hf.
    destruct (QuickSortFacts.quickSort_spec fuel arr [] arr [])
      as (M' & Hrun & Hs & Hp); [by rewrite app_nil_r|done|done|done|].
    exists M'. simpl in Hrun. by rewrite app_nil_r in Hrun.
Qed.

(** X27 on the range [[5; 3; 8; 1]] of [[9; 5; 3; 8; 1; 0]], and on the
    array of [main]. *)
Lemma X27_quickSort_sorts_its_range_witness :
  (∃ M', QuickSortDemo.quickSort 4 [9; 5; 3; 8; 1; 0] (Z.of_nat (length [9]))
           (Z.of_nat (length [9]) + Z.of_nat (length [5; 3; 8; 1]) - 1) =
           Jvm.Return ([9] ++ M' ++ [0]) ∧
         Sorted Z.le M' ∧ M' ≡ₚ [5; 3; 8; 1]) ∧
  (∃ arr', QuickSortDemo.quickSort 9 [3; 2; 1; 4; 5; 6; 2; 4; 5] 0
             (Z.of_nat (length [3; 2; 1; 4; 5; 6; 2; 4; 5]) - 1) = Jvm.Return arr' ∧
           Sorted Z.le arr' ∧ arr' ≡ₚ [3; 2; 1; 4; 5; 6; 2; 4; 5]).
Proof.
  split.
  - apply (proj1 X27_quickSort_sorts_its_range 4%nat [9; 5; 3; 8; 1; 0] [9] [5; 3; 8; 1] [0]);
      [reflexivity|simpl; unfold MAX_VALUE; lia|lia|simpl; lia].
  - apply (proj2 X27_quickSort_sorts_its_range 9%nat [3; 2; 1; 4; 5; 6; 2; 4; 5]);
      [simpl; unfold MAX_VALUE; lia|lia|simpl; lia].
Defined.



(** X29.  The loops of [findParition] end.  Whatever [start] and [end]
    are, a call of [findParition] returns or throws: on a range inside the
    array every round of the outer loop moves [i] up, and outside it a
    read of the array throws. *)
Theorem X29_findParition_loops_end :
  ∀ (arr : list Z) (start end_ : Z),
    Z.of_nat (length arr) ≤ MAX_VALUE →
    QuickSortDemo.findParition arr start end_ ≠ Jvm.OutOfFuel.
Proof.
  intros arr start e Hlen. by apply QuickSortFacts.findParition_ends.
Qed.

(** X29 for [findParition(arr, 2, 0)] on an array of 3 elements. *)
Lemma X29_findParition_loops_end_witness :
  QuickSortDemo.findParition [3; 1; 2] 2 0 ≠ Jvm.OutOfFuel.
Proof.
  apply (X29_findParition_loops_end [3; 1; 2] 2 0). simpl. unfold MAX_VALUE. lia.
Defined.

(** ** The LFU policy *)

(** X30.  The LFU policy while no counter has wrapped.  On a cache of
    positive capacity, as long as fewer than [Integer.MAX_VALUE] calls
    have been made: [minFrequency] is the smallest frequency that has a
    non-empty list whenever a key is stored; a [put] of a key that is not
    stored into the full cache evicts the tail of the list of
    [minFrequency], which has the smallest frequency of the stored
    entries and is the least recently touched of those that have it; a
    [put] on a stored key overwrites the value, keeps the size and the
    other entries, adds 1 to the frequency of the entry and moves its node
    from the list of the old frequency to the head of the list of the new
    one. *)
Theorem X30_lfu_policy_while_no_counter_has_wrapped :
  ∀ (cap : Z) (ops : list LFU.op) (c : LFU.LFUCache),
    0 < cap →
    Z.of_nat (length ops) < MAX_VALUE →
    LFU.run_new cap ops = Ok c →
    (LFU.keyToNodeMap c ≠ ∅ → LFU.min_is_smallest c) ∧
    (∀ k v,
       LFU.keyToNodeMap c !! k = None →
       LFU.size c = LFU.capacity c →
       ∃ l victim nv c',
         LFU.put k v c = Ok c' ∧
         LFU.frequencyToListMap c !! LFU.minFrequency c = Some l ∧
         last l = Some victim ∧
         LFU.keyToNodeMap c !! victim = Some nv ∧
         LFU.keyToNodeMap c' !! victim = None ∧
         dom (LFU.keyToNodeMap c') = {[k]} ∪ (dom (LFU.keyToNodeMap c) ∖ {[victim]}) ∧
         (∀ x nx, LFU.keyToNodeMap c !! x = Some nx →
                  LFU.frequency nv ≤ LFU.frequency nx) ∧
         (∀ x nx, LFU.keyToNodeMap c !! x = Some nx →
                  LFU.frequency nx = LFU.frequency nv →
                  (LFU.last_touch ops victim ≤ LFU.last_touch ops x)%nat)) ∧
    (∀ k v node,
       LFU.keyToNodeMap c !! k = Some node →
       ∃ c' l,
         LFU.put k v c = Ok c' ∧
         LFU.size c' = LFU.size c ∧
         LFU.keyToNodeMap c' =
           <[k := {| LFU.key := k; LFU.value := v;
                     LFU.frequency := LFU.frequency node + 1 |}]> (LFU.keyToNodeMap c) ∧
         LFU.frequencyToListMap c' !! (LFU.frequency node + 1) = Some l ∧
         head l = Some k ∧
         (∀ l0, LFU.frequencyToListMap c' !! LFU.frequency node = Some l0 → k ∉ l0)).
Proof.
  intros cap ops c Hcap Hlen Hrun.
  destruct (LFUFacts.run_new_inv cap ops) as (c0 & Hrun0 & Hinv & Hc & Hfreq).
  assert (c0 = c) as -> by congruence.
  specialize (Hfreq ltac:(lia)). split; [|split].
  - intros Hne. by apply (LFUFacts.inv_min_is_smallest ops).
  - intros k v Hk Hfull.
    destruct (proj1 Spec.lfu_evicts_tail_of_min_frequency_list cap ops c k v
                Hcap Hrun Hk Hfull)
      as (l & victim & nv & c' & Hput & Hl & Hlast & Hv & Hgone & Hdom & Hold & Hsmall).
    exists l, victim, nv, c'. split_and!; try done. apply Hsmall. lia.
  - intros k v node Hk.
    destruct (LFUFacts.put_present ops c k v node Hinv) as (c' & Hput & Hinv' & Hm);
      [lia|done|].
    destruct (LFU.freq_range _ _ Hfreq _ _ Hk) as [Hf1 Hf2].
    rewrite incr_small in Hm by (unfold MIN_VALUE; lia).
    pose proof (LFU.inv_struct _ _ Hinv') as Hl'.
    assert (LFU.in_list c' (LFU.frequency node + 1) k) as (l & Hl & Hin).
    { apply (LFU.inv_mem _ _ Hl'). eexists. split; [by rewrite Hm, lookup_insert_eq|done]. }
    exists c', l. split_and!; try done.
    + unfold LFU.size. rewrite Hm. by erewrite size_insert_present.
    + pose proof (LFU.inv_recent _ _ Hl' _ _ Hl) as Hs.
      destruct l as [|x l']; [by apply elem_of_nil in Hin|]. simpl.
      destruct (decide (x = k)) as [->|Hne]; [done|]. exfalso.
      apply elem_of_cons in Hin as [?|Hin]; [done|].
      apply StronglySorted_inv in Hs as [_ Hx]. rewrite Forall_forall in Hx.
      specialize (Hx k Hin). unfold LFU.more_recent in Hx.
      rewrite !LFUFacts.last_touch_snoc in Hx. simpl in Hx.
      rewrite decide_True in Hx by done. rewrite decide_False in Hx by done.
      pose proof (LFUFacts.last_touch_le ops x). lia.
    + intros l0 Hl0 Hin0.
      assert (LFU.in_list c' (LFU.frequency node) k) as Hil by (by exists l0).
      apply (LFU.inv_mem _ _ Hl') in Hil as (n & Hn & Hfn).
      rewrite Hm, lookup_insert_eq in Hn. injection Hn as <-. simpl in Hfn. lia.
Qed.

(** X30 at capacity 2 after [put(1,10); put(2,20)]. *)
Lemma X30_lfu_policy_while_no_counter_has_wrapped_witness :
  ∃ c, LFU.run_new 2 [LFU.Put 1 10; LFU.Put 2 20] = Ok c ∧
    (LFU.keyToNodeMap c ≠ ∅ → LFU.min_is_smallest c) ∧
    (∀ k v,
       LFU.keyToNodeMap c !! k = None →
       LFU.size c = LFU.capacity c →
       ∃ l victim nv c',
         LFU.put k v c = Ok c' ∧
         LFU.frequencyToListMap c !! LFU.minFrequency c = Some l ∧
         last l = Some victim ∧
         LFU.keyToNodeMap c !! victim = Some nv ∧
         LFU.keyToNodeMap c' !! victim = None ∧
         dom (LFU.keyToNodeMap c') = {[k]} ∪ (dom (LFU.keyToNodeMap c) ∖ {[victim]}) ∧
         (∀ x nx, LFU.keyToNodeMap c !! x = Some nx →
                  LFU.frequency nv ≤ LFU.frequency nx) ∧
         (∀ x nx, LFU.keyToNodeMap c !! x = Some nx →
                  LFU.frequency nx = LFU.frequency nv →
                  (LFU.last_touch [LFU.Put 1 10; LFU.Put 2 20] victim
                   ≤ LFU.last_touch [LFU.Put 1 10; LFU.Put 2 20] x)%nat)) ∧
    (∀ k v node,
       LFU.keyToNodeMap c !! k = Some node →
       ∃ c' l,
         LFU.put k v c = Ok c' ∧
         LFU.size c' = LFU.size c ∧
         LFU.keyToNodeMap c' =
           <[k := {| LFU.key := k; LFU.value := v;
                     LFU.frequency := LFU.frequency node + 1 |}]> (LFU.keyToNodeMap c) ∧
         LFU.frequencyToListMap c' !! (LFU.frequency node + 1) = Some l ∧
         head l = Some k ∧
         (∀ l0, LFU.frequencyToListMap c' !! LFU.frequency node = Some l0 → k ∉ l0)).
Proof.
  eexists. split; [vm_compute; reflexivity|].
  apply (X30_lfu_policy_while_no_counter_has_wrapped 2 [LFU.Put 1 10; LFU.Put 2 20]);
    [lia|simpl; unfold MAX_VALUE; lia|vm_compute; reflexivity].
Defined.

End Further.
